(** * A shallow embedding of the mini Redis server

    The development follows the C++ sources:
    - [CustomHashtable/main.cpp]: framer, request parser, dispatcher over the
      intrusive hash map, connection callbacks, event loop;
    - the basic key-value store (dispatcher over [std::map]) and its test
      runner;
    - [common.h]: [str_hash] and [CONTAINER_OF];
    - [RedisMain/zset.cpp]: the sorted set;
    - [RedisMain/list.h]: the intrusive circular list;
    - [thread_pool.cpp]: the thread pool.

    Bytes are [Byte.byte]; [std::string] and [std::vector<uint8_t>] are
    [list byte]; fixed-width unsigned integers are [Z] with the wrap-around
    written out; pointers are addresses in [Z] with [0] for [nullptr].  The
    host is taken to be little-endian with 64-bit pointers and [size_t].

    A loop of the source is a [Fixpoint] on a number of iterations; where
    that number could run out before the loop ends by itself the result is
    [OutOfFuel], and a failed [assert] is [Aborted], so that a result [Ok]
    is a result of the program text. *)

From Stdlib Require Import ZArith List Lia Bool.
From Stdlib Require Import Strings.Byte Strings.String.
From Stdlib Require QArith.
From stdpp Require Import base option list gmap countable.

Import ListNotations.
Local Open Scope Z_scope.

(** ** Bytes and fixed-width integers *)

Abbreviation bytes := (list byte).

Definition byte_val (b : byte) : Z := Z.of_N (Byte.to_N b).

Definition byte_of_Z (z : Z) : byte :=
  match Byte.of_N (Z.to_N (z mod 256)) with
  | Some b => b
  | None => x00
  end.

#[global] Instance byte_eq_decision : EqDecision byte := Byte.byte_eq_dec.

#[global] Instance byte_countable : Countable byte :=
  inj_countable Byte.to_N Byte.of_N Byte.of_to_N.

(** A string literal of the source, as the bytes it denotes. *)
Definition lit (s : string) : bytes := list_byte_of_string s.

Definition wrap32 (z : Z) : Z := z mod 2 ^ 32.
Definition wrap64 (z : Z) : Z := z mod 2 ^ 64.

(** [memcpy(&out, cur, 4)] into a [uint32_t] on a little-endian host. *)
Definition le_u32 (b0 b1 b2 b3 : byte) : Z :=
  byte_val b0 + 2 ^ 8 * byte_val b1 + 2 ^ 16 * byte_val b2 + 2 ^ 24 * byte_val b3.

(** The four bytes of a [uint32_t] object, as [buf_append(out, &x, 4)] copies
    them. *)
Definition u32_bytes (x : Z) : bytes :=
  [ byte_of_Z x; byte_of_Z (x / 2 ^ 8); byte_of_Z (x / 2 ^ 16); byte_of_Z (x / 2 ^ 24) ].

Definition blen (b : bytes) : Z := Z.of_nat (length b).

(** ** [common.h]: the FNV hash *)

Definition FNV_init : Z := 0x811C9DC5.
Definition FNV_prime : Z := 0x01000193.

(** One iteration of the loop body [h = (h + data[i]) * 0x01000193]: both the
    sum and the product are computed in [uint32_t]. *)
Definition str_hash_step (h : Z) (b : byte) : Z :=
  wrap32 (wrap32 (h + byte_val b) * FNV_prime).

(** [uint64_t str_hash(const uint8_t *data, size_t len)]: the 32-bit
    accumulator is zero-extended on return. *)
Definition str_hash (data : bytes) : Z :=
  fold_left str_hash_step data FNV_init.

(** The accumulation as the specification words it:
    [h := (h + byte) * 0x01000193 mod 2^32], from [0x811C9DC5]. *)
Fixpoint fnv_acc (h : Z) (data : bytes) : Z :=
  match data with
  | [] => h
  | b :: rest => fnv_acc (((h + byte_val b) * 0x01000193) mod 2 ^ 32) rest
  end.

(** Outcome of a run of the program text: a value, a failed [assert], or a
    loop that was cut by its iteration budget. *)
Inductive res (A : Type) : Type :=
| Ok (a : A)
| Aborted
| OutOfFuel.

Arguments Ok {A} a.
Arguments Aborted {A}.
Arguments OutOfFuel {A}.

#[global] Instance res_bind : MBind res := fun A B k r =>
  match r with
  | Ok a => k a
  | Aborted => Aborted
  | OutOfFuel => OutOfFuel
  end.

#[global] Instance res_fmap : FMap res := fun A B f r =>
  match r with
  | Ok a => Ok (f a)
  | Aborted => Aborted
  | OutOfFuel => OutOfFuel
  end.

(** ** The request parser

    [read_u32], [read_str] and [parse_req] are the same text in
    [CustomHashtable/main.cpp] and in the basic key-value store; the two
    programs differ in the constant [k_max_args]. *)

Module Wire.

Section Parser.

Variable k_max_args : Z.

(** [read_u32]: the cursor is the list of the bytes from [cur] to [end];
    failure is [cur + 4 > end]. *)
Definition read_u32 (cur : bytes) : option (Z * bytes) :=
  match cur with
  | b0 :: b1 :: b2 :: b3 :: rest => Some (le_u32 b0 b1 b2 b3, rest)
  | _ => None
  end.

(** [read_str]: [n] bytes, or failure when [cur + n > end]. *)
Definition read_str (cur : bytes) (n : Z) : option (bytes * bytes) :=
  if blen cur <? n then None
  else Some (take (Z.to_nat n) cur, drop (Z.to_nat n) cur).

(** The loop [while (out.size() < nstr)], [k] being the number of iterations
    that remain; [None] is a [return -1] from inside the loop. *)
Fixpoint parse_loop (k : nat) (cur : bytes) (out : list bytes)
  : option (list bytes * bytes) :=
  match k with
  | O => Some (out, cur)
  | S k' =>
      match read_u32 cur with
      | None => None
      | Some (len, cur1) =>
          match read_str cur1 len with
          | None => None
          | Some (s, cur2) => parse_loop k' cur2 (out ++ [s])
          end
      end
  end.

(** [parse_req(data, size, out)] on a fresh vector [out]: [None] is the
    return code [-1], [Some out] is the return code [0] with the strings
    pushed to [out]. *)
Definition parse_req (data : bytes) : option (list bytes) :=
  match read_u32 data with
  | None => None
  | Some (nstr, cur) =>
      if k_max_args <? nstr then None
      else
        match parse_loop (Z.to_nat nstr) cur [] with
        | None => None
        | Some (out, []) => Some out
        | Some (_, _ :: _) => None
        end
  end.

End Parser.

(** What the test runner's [encode_command] appends for one string: the
    length as a [uint32_t], then that many bytes. *)
Definition encode_str (s : bytes) : bytes :=
  let len := wrap32 (blen s) in
  u32_bytes len ++ take (Z.to_nat len) s.

Definition encode_strs (l : list bytes) : bytes := concat (map encode_str l).

(** [encode_command(cmd, out)] of the test runner, on an empty [out]. *)
Definition encode_command (cmd : list bytes) : bytes :=
  u32_bytes (wrap32 (Z.of_nat (length cmd))) ++ encode_strs cmd.

(** A string whose length a [uint32_t] prefix can carry. *)
Definition fits32 (s : bytes) : Prop := blen s < 2 ^ 32.

(** The rejection causes as the specification lists them.  What is left of
    a payload is cut short when "a 4-byte prefix or a string body extends
    past the end of the payload". *)
Definition cut_short (rest : bytes) : Prop :=
  (length rest < 4)%nat
  \/ exists len body, read_u32 rest = Some (len, body) /\ blen body < len.

Inductive malformed (k_max_args : Z) (data : bytes) : Prop :=
| mal_no_count :
    (length data < 4)%nat -> malformed k_max_args data
| mal_too_many nstr cur :
    data = u32_bytes nstr ++ cur -> 0 <= nstr < 2 ^ 32 ->
    k_max_args < nstr -> malformed k_max_args data
| mal_cut_short nstr strs rest :
    data = u32_bytes nstr ++ encode_strs strs ++ rest -> 0 <= nstr < 2 ^ 32 ->
    Forall fits32 strs -> Z.of_nat (length strs) < nstr ->
    cut_short rest -> malformed k_max_args data
| mal_trailing nstr strs rest :
    data = u32_bytes nstr ++ encode_strs strs ++ rest -> 0 <= nstr < 2 ^ 32 ->
    Forall fits32 strs -> Z.of_nat (length strs) = nstr ->
    rest <> [] -> malformed k_max_args data.

(** A payload that carries exactly the strings [strs], in this order. *)
Definition carries (k_max_args : Z) (data : bytes) (strs : list bytes) : Prop :=
  data = encode_command strs
  /\ Z.of_nat (length strs) <= k_max_args
  /\ Z.of_nat (length strs) < 2 ^ 32
  /\ Forall fits32 strs.

(** [struct Response] and [make_response], identical in both programs. *)
Record Response := mkResponse { status : Z; data : bytes }.

Definition make_response (resp : Response) (out : bytes) : bytes :=
  let resp_len := wrap32 (4 + wrap32 (blen (data resp))) in
  out ++ u32_bytes resp_len ++ u32_bytes (status resp) ++ data resp.

End Wire.

(** ** The basic key-value store: dispatcher over [std::map] *)

Module BasicKV.

Definition k_max_args : Z := 16.
Definition RES_OK : Z := 0.
Definition RES_NX : Z := 1.
Definition RES_ERR : Z := 2.

Record Conn := mkConn {
  incoming : bytes;
  outgoing : bytes;
  want_close : bool
}.

(** [Response resp;] *)
Definition Response_new : Wire.Response := Wire.mkResponse RES_OK [].

Definition parse_req (data : bytes) : option (list bytes) :=
  Wire.parse_req k_max_args data.

(** [do_request(cmd, out)]; the global [map<string, string> g_data] is
    threaded through. *)
Definition do_request (g_data : gmap bytes bytes) (cmd : list bytes) (out : Wire.Response)
  : gmap bytes bytes * Wire.Response :=
  if bool_decide (length cmd = 2%nat) && bool_decide (nth 0 cmd [] = lit "get") then
    match g_data !! nth 1 cmd [] with
    | None => (g_data, Wire.mkResponse RES_NX (Wire.data out))
    | Some val => (g_data, Wire.mkResponse (Wire.status out) val)
    end
  else if bool_decide (length cmd = 3%nat) && bool_decide (nth 0 cmd [] = lit "set") then
    (<[nth 1 cmd [] := nth 2 cmd []]> g_data, out)
  else if bool_decide (length cmd = 2%nat) && bool_decide (nth 0 cmd [] = lit "del") then
    (delete (nth 1 cmd []) g_data, out)
  else
    (g_data, Wire.mkResponse RES_ERR (Wire.data out)).

(** [try_one_request(conn)]: the whole input buffer is one request. *)
Definition try_one_request (g_data : gmap bytes bytes) (conn : Conn)
  : gmap bytes bytes * Conn * bool :=
  match incoming conn with
  | [] => (g_data, conn, false)
  | _ :: _ =>
      match parse_req (incoming conn) with
      | None => (g_data, mkConn (incoming conn) (outgoing conn) true, false)
      | Some cmd =>
          let '(g_data', resp) := do_request g_data cmd Response_new in
          (g_data', mkConn (incoming conn) (Wire.make_response resp (outgoing conn))
                           (want_close conn), true)
      end
  end.

End BasicKV.

(** ** The intrusive hash map ([hashtable.h])

    The structures are those of [hashtable.h].  The bodies of the functions
    it declares ([hashtable.cpp]) are not among the sources; they are
    modelled from section 4.1 of the specification.

    Pointers are addresses, [0] is [nullptr].  A node is known to the map by
    its address; the chain that hangs off a slot through the [next] fields
    is kept as the list of the addresses of its nodes, head first. *)

Module HT.

(** [struct HTab]: [tab = []] stands for [tab == nullptr]. *)
Record HTab := mkHTab {
  tab : list (list Z);
  mask : Z;
  size : Z
}.

(** [struct HMap] *)
Record HMap := mkHMap {
  newer : HTab;
  older : HTab;
  migrate_pos : Z
}.

Definition HTab_zero : HTab := mkHTab [] 0 0.
Definition HMap_zero : HMap := mkHMap HTab_zero HTab_zero 0.

Definition k_rehashing_work : nat := 128.
Definition k_max_load_factor : Z := 8.
Definition k_init_buckets : Z := 4.

Section Ops.

(** Reading [node->hcode] through a node pointer. *)
Variable hcode : Z -> Z.

(** Modelled from the spec: the table constructor of [hashtable.cpp] (absent
    from the sources): an array of [n] empty chains, [mask = n - 1]. *)
Definition h_init (n : Z) : HTab :=
  mkHTab (replicate (Z.to_nat n) []) (n - 1) 0.

(** Modelled from the spec: the slot of a hash code in a table of
    [hashtable.cpp], "hashing masks by [table.mask]". *)
Definition h_pos (t : HTab) (hc : Z) : nat := Z.to_nat (Z.land hc (mask t)).

(** Modelled from the spec: the single-table insertion of [hashtable.cpp],
    "push at chain head of the appropriate bucket". *)
Definition h_insert (t : HTab) (node : Z) : HTab :=
  mkHTab (alter (cons node) (h_pos t (hcode node)) (tab t)) (mask t) (size t + 1).

(** Modelled from the spec: the chain scan of [hashtable.cpp], "equality
    requires both [hcode] match and [eq(candidate, key)] true"; the result is
    the first such node of the chain, or [nullptr]. *)
Fixpoint chain_find (hc : Z) (eq : Z -> bool) (chain : list Z) : Z :=
  match chain with
  | [] => 0
  | p :: rest => if (hcode p =? hc) && eq p then p else chain_find hc eq rest
  end.

(** Modelled from the spec: the single-table lookup of [hashtable.cpp],
    "compute bucket; scan chain". *)
Definition h_lookup (t : HTab) (hc : Z) (eq : Z -> bool) : Z :=
  match tab t !! h_pos t hc with
  | Some chain => chain_find hc eq chain
  | None => 0
  end.

(** Modelled from the spec: splicing a node out of its chain in
    [hashtable.cpp], "splice out, decrement that table's size". *)
Fixpoint chain_splice (node : Z) (chain : list Z) : list Z :=
  match chain with
  | [] => []
  | p :: rest => if p =? node then rest else p :: chain_splice node rest
  end.

(** Modelled from the spec: the single-table removal of [hashtable.cpp]:
    the node is spliced out of the chain of its slot and "that table's size"
    is decremented. *)
Definition h_detach (t : HTab) (node : Z) : HTab :=
  mkHTab (alter (chain_splice node) (h_pos t (hcode node)) (tab t)) (mask t) (size t - 1).

(** Modelled from the spec: the help step of [hashtable.cpp], which "moves at
    most K=128 non-empty buckets from [older] to [newer] starting at
    [migrate_pos], rehashing each node into [newer] using its stored
    [hcode & newer.mask]"; empty buckets are skipped without counting. *)
Fixpoint help_loop (fuel nwork : nat) (m : HMap) : res HMap :=
  let go := (nwork <? k_rehashing_work)%nat && (0 <? size (older m)) in
  match fuel with
  | O => if go then OutOfFuel else Ok m
  | S fuel' =>
      if go then
        let pos := Z.to_nat (migrate_pos m) in
        match tab (older m) !! pos with
        | Some (p :: chain) =>
            help_loop fuel' (S nwork)
              (mkHMap (fold_left h_insert (p :: chain) (newer m))
                      (mkHTab (<[pos := []]> (tab (older m))) (mask (older m))
                              (size (older m) - Z.of_nat (length (p :: chain))))
                      (migrate_pos m + 1))
        | _ => help_loop fuel' nwork (mkHMap (newer m) (older m) (migrate_pos m + 1))
        end
      else Ok m
  end.

(** Modelled from the spec: [hm_help_rehashing] of [hashtable.cpp]: the help
    step, then "when [older.size] reaches 0, [older] is freed and left
    zero-sized".  The loop visits each slot of [older] at most once. *)
Definition hm_help_rehashing (m : HMap) : res HMap :=
  m' ← help_loop (length (tab (older m))) 0 m;
  Ok (if size (older m') =? 0 then mkHMap (newer m') HTab_zero (migrate_pos m') else m').

(** Modelled from the spec: [hm_lookup] of [hashtable.cpp] (declared in
    [hashtable.h], body absent): help step, then "compute bucket in [newer];
    scan chain; on miss, compute bucket in [older] and scan that chain". *)
Definition hm_lookup (m : HMap) (hc : Z) (eq : Z -> bool) : res (HMap * Z) :=
  m1 ← hm_help_rehashing m;
  let from := h_lookup (newer m1) hc eq in
  Ok (m1, if from =? 0 then h_lookup (older m1) hc eq else from).

(** Modelled from the spec: [hm_insert] of [hashtable.cpp] (declared in
    [hashtable.h], body absent): "lazy-initialize [newer] if empty (initial
    capacity 4 buckets).  Push at chain head of the appropriate bucket in
    [newer].  If load factor [newer.size / (newer.mask+1)] exceeds a threshold
    (8), start a rehash: move [older <- newer], create [newer] with double
    capacity, [migrate_pos = 0]"; then the help step. *)
Definition hm_insert (m : HMap) (node : Z) : res HMap :=
  let nw0 := match tab (newer m) with [] => h_init k_init_buckets | _ => newer m end in
  let nw := h_insert nw0 node in
  let m1 :=
    if k_max_load_factor * (mask nw + 1) <? size nw
    then mkHMap (h_init (2 * (mask nw + 1))) nw 0
    else mkHMap nw (older m) (migrate_pos m) in
  hm_help_rehashing m1.

(** Modelled from the spec: [hm_delete] of [hashtable.cpp] (declared in
    [hashtable.h], body absent): help step, then "find the predecessor pointer
    in the chain (searching both tables), splice out, decrement that table's
    size, return the detached node". *)
Definition hm_delete (m : HMap) (hc : Z) (eq : Z -> bool) : res (HMap * Z) :=
  m1 ← hm_help_rehashing m;
  let from := h_lookup (newer m1) hc eq in
  if from =? 0 then
    let from' := h_lookup (older m1) hc eq in
    if from' =? 0 then Ok (m1, 0)
    else Ok (mkHMap (newer m1) (h_detach (older m1) from') (migrate_pos m1), from')
  else Ok (mkHMap (h_detach (newer m1) from) (older m1) (migrate_pos m1), from).

End Ops.

(** Modelled from the spec: [hm_clear] of [hashtable.cpp] (declared in
    [hashtable.h], body absent): both tables are freed. *)
Definition hm_clear (m : HMap) : HMap := HMap_zero.

(** Modelled from the spec: [hm_size] of [hashtable.cpp] (declared in
    [hashtable.h], body absent): the nodes of both tables. *)
Definition hm_size (m : HMap) : Z := size (newer m) + size (older m).

End HT.

(** ** [CustomHashtable/main.cpp] *)

Module Server.

Definition k_max_msg : Z := Z.shiftl 32 20.
Definition k_max_args : Z := 200 * 1000.

Definition RES_OK : Z := 0.
Definition RES_ERR : Z := 1.
Definition RES_NX : Z := 2.

(** [struct Conn] *)
Record Conn := mkConn {
  fd : Z;
  want_read : bool;
  want_write : bool;
  want_close : bool;
  incoming : bytes;
  outgoing : bytes
}.

(** [struct Entry]; the [next] field of [node] lives in the chains of the
    hash map. *)
Record Entry := mkEntry {
  node_hcode : Z;
  key : bytes;
  val : bytes
}.

(** The global state: [g_data.db], and the free store holding the entries
    made by [new Entry()].  [brk] is the next address the allocator hands
    out; it never hands out an address twice. *)
Record Global := mkGlobal {
  db : HT.HMap;
  mem : gmap Z Entry;
  brk : Z
}.

Definition sizeof_Entry : Z := 80.

Definition Global_init : Global := mkGlobal HT.HMap_zero ∅ sizeof_Entry.

(** [Response resp;] *)
Definition Response_new : Wire.Response := Wire.mkResponse 0 [].

Definition parse_req (data : bytes) : option (list bytes) :=
  Wire.parse_req k_max_args data.

(** [container_of(node, Entry, node)->node.hcode]; [node] is the first
    member of [Entry], so the two addresses coincide. *)
Definition hcode_at (mem : gmap Z Entry) (node : Z) : Z :=
  match mem !! node with
  | Some e => node_hcode e
  | None => 0
  end.

(** [entry_eq(lhs, rhs)], [rhs] being the dummy entry that carries [k]. *)
Definition entry_eq (mem : gmap Z Entry) (k : bytes) (lhs : Z) : bool :=
  match mem !! lhs with
  | Some le => bool_decide (key le = k)
  | None => false
  end.

Definition do_get (g : Global) (cmd : list bytes) (out : Wire.Response)
  : res (Global * Wire.Response) :=
  let k := nth 1 cmd [] in
  let hc := str_hash k in
  '(db', node) ← HT.hm_lookup (hcode_at (mem g)) (db g) hc (entry_eq (mem g) k);
  let g' := mkGlobal db' (mem g) (brk g) in
  if node =? 0 then Ok (g', Wire.mkResponse RES_NX (Wire.data out))
  else
    match mem g !! node with
    | Some e =>
        if blen (val e) <=? k_max_msg
        then Ok (g', Wire.mkResponse (Wire.status out) (val e))
        else Aborted
    | None => Aborted
    end.

Definition do_set (g : Global) (cmd : list bytes) (out : Wire.Response)
  : res (Global * Wire.Response) :=
  let k := nth 1 cmd [] in
  let hc := str_hash k in
  '(db', node) ← HT.hm_lookup (hcode_at (mem g)) (db g) hc (entry_eq (mem g) k);
  if node =? 0 then
    let ent := brk g in
    let mem' := <[ent := mkEntry hc k (nth 2 cmd [])]> (mem g) in
    db'' ← HT.hm_insert (hcode_at mem') db' ent;
    Ok (mkGlobal db'' mem' (brk g + sizeof_Entry), out)
  else
    match mem g !! node with
    | Some e =>
        Ok (mkGlobal db' (<[node := mkEntry (node_hcode e) (key e) (nth 2 cmd [])]> (mem g))
                     (brk g), out)
    | None => Aborted
    end.

Definition do_del (g : Global) (cmd : list bytes) (out : Wire.Response)
  : res (Global * Wire.Response) :=
  let k := nth 1 cmd [] in
  let hc := str_hash k in
  '(db', node) ← HT.hm_delete (hcode_at (mem g)) (db g) hc (entry_eq (mem g) k);
  if node =? 0 then Ok (mkGlobal db' (mem g) (brk g), out)
  else Ok (mkGlobal db' (delete node (mem g)) (brk g), out).

Definition do_request (g : Global) (cmd : list bytes) (out : Wire.Response)
  : res (Global * Wire.Response) :=
  if bool_decide (length cmd = 2%nat) && bool_decide (nth 0 cmd [] = lit "get") then
    do_get g cmd out
  else if bool_decide (length cmd = 3%nat) && bool_decide (nth 0 cmd [] = lit "set") then
    do_set g cmd out
  else if bool_decide (length cmd = 2%nat) && bool_decide (nth 0 cmd [] = lit "del") then
    do_del g cmd out
  else
    Ok (g, Wire.mkResponse RES_ERR (Wire.data out)).

Definition set_want_close (conn : Conn) : Conn :=
  mkConn (fd conn) (want_read conn) (want_write conn) true (incoming conn) (outgoing conn).

(** [try_one_request(conn)]: the connection afterwards and the returned
    flag. *)
Definition try_one_request (g : Global) (conn : Conn) : res (Global * Conn * bool) :=
  match incoming conn with
  | b0 :: b1 :: b2 :: b3 :: body =>
      let len := le_u32 b0 b1 b2 b3 in
      if k_max_msg <? len then Ok (g, set_want_close conn, false)
      else if blen (incoming conn) <? wrap32 (4 + len) then Ok (g, conn, false)
      else
        match parse_req (take (Z.to_nat len) body) with
        | None => Ok (g, set_want_close conn, false)
        | Some cmd =>
            '(g', resp) ← do_request g cmd Response_new;
            Ok (g',
                mkConn (fd conn) (want_read conn) (want_write conn) (want_close conn)
                       (drop (Z.to_nat (wrap32 (4 + len))) (incoming conn))
                       (Wire.make_response resp (outgoing conn)),
                true)
        end
  | _ => Ok (g, conn, false)
  end.

(** The result of [write(fd, buf, n)]: [EAGAIN], another error, or the
    number of bytes taken. *)
Inductive write_result :=
| WAgain
| WError
| WBytes (n : Z).

(** The result of [read(fd, buf, sizeof(buf))]: [EAGAIN], another error, or
    the bytes read (none at end of file). *)
Inductive read_result :=
| RAgain
| RError
| RBytes (buf : bytes).

(** [handle_write(conn)]: the connection afterwards and the bytes that went
    to the socket. *)
Definition handle_write (conn : Conn) (w : write_result) : res (Conn * bytes) :=
  match outgoing conn with
  | [] => Aborted
  | _ :: _ =>
      match w with
      | WAgain => Ok (conn, [])
      | WError => Ok (set_want_close conn, [])
      | WBytes rv =>
          let rest := drop (Z.to_nat rv) (outgoing conn) in
          let sent := take (Z.to_nat rv) (outgoing conn) in
          match rest with
          | [] => Ok (mkConn (fd conn) true false (want_close conn) (incoming conn) rest, sent)
          | _ :: _ =>
              Ok (mkConn (fd conn) (want_read conn) (want_write conn) (want_close conn)
                         (incoming conn) rest, sent)
          end
      end
  end.

(** The loop [while (try_one_request(conn)) {}]. *)
Fixpoint request_loop (fuel : nat) (g : Global) (conn : Conn) : res (Global * Conn) :=
  match fuel with
  | O => OutOfFuel
  | S fuel' =>
      '(g', conn', more) ← try_one_request g conn;
      if more : bool then request_loop fuel' g' conn' else Ok (g', conn')
  end.

(** [handle_read(conn)]; [r] is what [read] returned and [w] what the [write]
    made by the call of [handle_write] at the end returns. *)
Definition handle_read (g : Global) (conn : Conn) (r : read_result) (w : write_result)
  : res (Global * Conn * bytes) :=
  match r with
  | RAgain => Ok (g, conn, [])
  | RError => Ok (g, set_want_close conn, [])
  | RBytes [] => Ok (g, set_want_close conn, [])
  | RBytes buf =>
      let conn1 := mkConn (fd conn) (want_read conn) (want_write conn) (want_close conn)
                          (incoming conn ++ buf) (outgoing conn) in
      '(g', conn2) ← request_loop (S (length (incoming conn1))) g conn1;
      match outgoing conn2 with
      | [] => Ok (g', conn2, [])
      | _ :: _ =>
          let conn3 := mkConn (fd conn2) false true (want_close conn2)
                              (incoming conn2) (outgoing conn2) in
          '(conn4, sent) ← handle_write conn3 w;
          Ok (g', conn4, sent)
      end
  end.

End Server.

(** ** [common.h]: [CONTAINER_OF] *)

(** [container_of_func<T>(ptr, offset)]: the address [ptr - offset], in
    64-bit pointer arithmetic. *)
Definition container_of_func (ptr offset : Z) : Z := wrap64 (ptr - offset).

(** ** [RedisMain/zset.cpp]

    The functions are those of [zset.cpp], the structures those of [zset.h].
    [avl.h] and [avl.cpp] are not among the sources: the tree node and the
    functions [avl_init], [avl_fix], [avl_del] and [avl_offset] are modelled
    from sections 3 and 4.2 of the specification. *)

(** A [double], as far as [==], [!=] and [<] can tell: not-a-number, the two
    infinities, or a finite value (a rational; the two zeros are one). *)
Inductive double :=
| DNaN
| DNegInf
| DFin (q : QArith_base.Q)
| DPosInf.

Definition double_eq (a b : double) : bool :=
  match a, b with
  | DNegInf, DNegInf => true
  | DPosInf, DPosInf => true
  | DFin x, DFin y => QArith_base.Qeq_bool x y
  | _, _ => false
  end.

Definition double_lt (a b : double) : bool :=
  match a, b with
  | DNaN, _ | _, DNaN => false
  | DNegInf, DNegInf => false
  | DNegInf, _ => true
  | DFin _, DNegInf => false
  | DFin x, DFin y => negb (QArith_base.Qle_bool y x)
  | DFin _, DPosInf => true
  | DPosInf, _ => false
  end.

Definition double_of_Z (z : Z) : double := DFin (QArith_base.Qmake z 1).

(** [memcmp(a, b, n)], as the sign of its result. *)
Fixpoint memcmp (a b : bytes) (n : nat) : Z :=
  match n with
  | O => 0
  | S n' =>
      match a, b with
      | x :: a', y :: b' =>
          if byte_val x <? byte_val y then -1
          else if byte_val y <? byte_val x then 1
          else memcmp a' b' n'
      | _, _ => 0
      end
  end.

Module ZS.

(** Modelled from the spec: [struct AVLNode] of [avl.h] (absent from the
    sources), "a BST link with [left], [right], [parent], [height], and
    [count] (subtree size)". *)
Record AVLNode := mkAVL {
  parent : Z;
  left : Z;
  right : Z;
  height : Z;
  cnt : Z
}.

(** [struct ZNode] of [zset.h]; the [next] field of [hnode] lives in the
    chains of the hash map. *)
Record ZNode := mkZNode {
  hnode_hcode : Z;
  anode : AVLNode;
  score : double;
  name : bytes;
  len : Z
}.

(** [struct ZSet] of [zset.h] *)
Record ZSet := mkZSet {
  hmap : HT.HMap;
  root : Z
}.

(** The free store: the nodes made by [new ZNode()], by address, and the
    next address the allocator hands out. *)
Record Store := mkStore {
  heap : gmap Z ZNode;
  brk : Z
}.

Definition sizeof_ZNode : Z := 80.

Definition Store_init : Store := mkStore ∅ sizeof_ZNode.
Definition ZSet_init : ZSet := mkZSet HT.HMap_zero 0.

(** [offsetof(ZNode, hnode)] and [offsetof(ZNode, anode)] with 8-byte
    pointers: [hnode] is the first member and takes 16 bytes. *)
Definition off_hnode : Z := 0.
Definition off_anode : Z := 16.

(** [&znode->anode] and [&znode->hnode] *)
Definition anode_of (znode : Z) : Z := wrap64 (znode + off_anode).
Definition hnode_of (znode : Z) : Z := wrap64 (znode + off_hnode).

(** Reading and writing the [AVLNode] at an address: it is the [anode]
    member of the [ZNode] that contains it. *)
Definition AVL_zero : AVLNode := mkAVL 0 0 0 0 0.

Definition aget (h : gmap Z ZNode) (a : Z) : AVLNode :=
  match h !! container_of_func a off_anode with
  | Some z => anode z
  | None => AVL_zero
  end.

Definition aput (h : gmap Z ZNode) (a : Z) (n : AVLNode) : gmap Z ZNode :=
  alter (fun z => mkZNode (hnode_hcode z) n (score z) (name z) (len z))
        (container_of_func a off_anode) h.

Definition set_parent (h : gmap Z ZNode) (a p : Z) : gmap Z ZNode :=
  let n := aget h a in aput h a (mkAVL p (left n) (right n) (height n) (cnt n)).

Definition set_left (h : gmap Z ZNode) (a l : Z) : gmap Z ZNode :=
  let n := aget h a in aput h a (mkAVL (parent n) l (right n) (height n) (cnt n)).

Definition set_right (h : gmap Z ZNode) (a r : Z) : gmap Z ZNode :=
  let n := aget h a in aput h a (mkAVL (parent n) (left n) r (height n) (cnt n)).

(** Modelled from the spec: [avl_init] of [avl.h] (absent from the sources):
    a node alone, with "[count] equals [1 + count(left) + count(right)]". *)
Definition avl_init (h : gmap Z ZNode) (a : Z) : gmap Z ZNode :=
  aput h a (mkAVL 0 0 0 1 1).

(** Modelled from the spec: the height and the count of a subtree in
    [avl.cpp], zero for the empty one. *)
Definition avl_height (h : gmap Z ZNode) (a : Z) : Z :=
  if a =? 0 then 0 else height (aget h a).

Definition avl_cnt (h : gmap Z ZNode) (a : Z) : Z :=
  if a =? 0 then 0 else cnt (aget h a).

(** Modelled from the spec: the step of [avl.cpp] that "recompute[s] height
    and count". *)
Definition avl_update (h : gmap Z ZNode) (a : Z) : gmap Z ZNode :=
  let n := aget h a in
  aput h a (mkAVL (parent n) (left n) (right n)
              (wrap32 (1 + Z.max (avl_height h (left n)) (avl_height h (right n))))
              (wrap32 (1 + avl_cnt h (left n) + avl_cnt h (right n)))).

(** Modelled from the spec: the single rotations of [avl.cpp]. *)
Definition rot_left (h : gmap Z ZNode) (node : Z) : gmap Z ZNode * Z :=
  let up := parent (aget h node) in
  let new_node := right (aget h node) in
  let inner := left (aget h new_node) in
  let h := set_right h node inner in
  let h := if inner =? 0 then h else set_parent h inner node in
  let h := set_parent h new_node up in
  let h := set_left h new_node node in
  let h := set_parent h node new_node in
  let h := avl_update h node in
  let h := avl_update h new_node in
  (h, new_node).

(** Modelled from the spec: the mirror image of [rot_left]. *)
Definition rot_right (h : gmap Z ZNode) (node : Z) : gmap Z ZNode * Z :=
  let up := parent (aget h node) in
  let new_node := left (aget h node) in
  let inner := right (aget h new_node) in
  let h := set_left h node inner in
  let h := if inner =? 0 then h else set_parent h inner node in
  let h := set_parent h new_node up in
  let h := set_right h new_node node in
  let h := set_parent h node new_node in
  let h := avl_update h node in
  let h := avl_update h new_node in
  (h, new_node).

(** Modelled from the spec: the single or double rotation of [avl.cpp] for a
    subtree that is too deep on the left, or on the right. *)
Definition avl_fix_left (h : gmap Z ZNode) (node : Z) : gmap Z ZNode * Z :=
  let l := left (aget h node) in
  let h :=
    if avl_height h (left (aget h l)) <? avl_height h (right (aget h l))
    then let '(h1, nl) := rot_left h l in set_left h1 node nl
    else h in
  rot_right h node.

(** Modelled from the spec: the mirror image of [avl_fix_left]. *)
Definition avl_fix_right (h : gmap Z ZNode) (node : Z) : gmap Z ZNode * Z :=
  let r := right (aget h node) in
  let h :=
    if avl_height h (right (aget h r)) <? avl_height h (left (aget h r))
    then let '(h1, nr) := rot_right h r in set_right h1 node nr
    else h in
  rot_left h node.

(** Modelled from the spec: [avl_fix] of [avl.cpp] (absent from the
    sources): "recompute height and count walking to the root; rotate (single
    or double) at each ancestor until balance restored; return the new root
    of the whole tree". *)
Fixpoint avl_fix_loop (fuel : nat) (h : gmap Z ZNode) (node : Z)
  : res (gmap Z ZNode * Z) :=
  match fuel with
  | O => OutOfFuel
  | S fuel' =>
      let up := parent (aget h node) in
      let from_left := left (aget h up) =? node in
      let h := avl_update h node in
      let l := avl_height h (left (aget h node)) in
      let r := avl_height h (right (aget h node)) in
      let '(h, sub) :=
        if l =? wrap32 (r + 2) then avl_fix_left h node
        else if wrap32 (l + 2) =? r then avl_fix_right h node
        else (h, node) in
      if up =? 0 then Ok (h, sub)
      else
        let h := if sub =? node then h
                 else if from_left then set_left h up sub else set_right h up sub in
        avl_fix_loop fuel' h up
  end.

(** Modelled from the spec: [avl_fix]; the walk to the root takes at most as
    many steps as there are nodes. *)
Definition avl_fix (h : gmap Z ZNode) (node : Z) : res (gmap Z ZNode * Z) :=
  avl_fix_loop (S (size h)) h node.

(** Modelled from the spec: [avl_del] of [avl.cpp] (absent from the
    sources): "standard AVL delete; when deleting an internal node, swap with
    in-order successor by relinking (not by copying payload), so external
    pointers remain valid; then fix upward". *)
Definition avl_del_easy (h : gmap Z ZNode) (node : Z) : res (gmap Z ZNode * Z) :=
  let n := aget h node in
  let child := if left n =? 0 then right n else left n in
  let up := parent n in
  let h := if child =? 0 then h else set_parent h child up in
  if up =? 0 then Ok (h, child)
  else
    let h := if left (aget h up) =? node then set_left h up child
             else set_right h up child in
    avl_fix h up.

(** Modelled from the spec: the "in-order successor" of a node with a right
    subtree is the leftmost node of that subtree. *)
Fixpoint leftmost (fuel : nat) (h : gmap Z ZNode) (a : Z) : res Z :=
  match fuel with
  | O => OutOfFuel
  | S fuel' => if left (aget h a) =? 0 then Ok a else leftmost fuel' h (left (aget h a))
  end.

(** Modelled from the spec: [avl_del]: a node with at most one child is
    unlinked; otherwise its successor is unlinked and then takes its
    place. *)
Definition avl_del (h : gmap Z ZNode) (node : Z) : res (gmap Z ZNode * Z) :=
  let n := aget h node in
  if (left n =? 0) || (right n =? 0) then avl_del_easy h node
  else
    victim ← leftmost (S (size h)) h (right n);
    '(h, root) ← avl_del_easy h victim;
    let n := aget h node in
    let h := aput h victim n in
    let h := if left n =? 0 then h else set_parent h (left n) victim in
    let h := if right n =? 0 then h else set_parent h (right n) victim in
    let up := parent n in
    if up =? 0 then Ok (h, victim)
    else
      let h := if left (aget h up) =? node then set_left h up victim
               else set_right h up victim in
      Ok (h, root).

(** Modelled from the spec: [avl_offset] of [avl.cpp] (absent from the
    sources): "rank-delta navigation using subtree counts.  Moving right, add
    [left.count + 1]; moving up from a left child, add [1 + right.count];
    symmetrically for left moves.  Return the node at rank
    [rank(node) + k], or none if out of range". *)
Fixpoint avl_offset_loop (fuel : nat) (h : gmap Z ZNode) (node pos offset : Z) : res Z :=
  match fuel with
  | O => OutOfFuel
  | S fuel' =>
      if offset =? pos then Ok node
      else
        let n := aget h node in
        if (pos <? offset) && (offset <=? pos + avl_cnt h (right n)) then
          let node' := right n in
          avl_offset_loop fuel' h node' (pos + avl_cnt h (left (aget h node')) + 1) offset
        else if (offset <? pos) && (pos - avl_cnt h (left n) <=? offset) then
          let node' := left n in
          avl_offset_loop fuel' h node' (pos - avl_cnt h (right (aget h node')) - 1) offset
        else
          let up := parent n in
          if up =? 0 then Ok 0
          else if right (aget h up) =? node then
            avl_offset_loop fuel' h up (pos - avl_cnt h (left n) - 1) offset
          else
            avl_offset_loop fuel' h up (pos + avl_cnt h (right n) + 1) offset
  end.

(** Modelled from the spec: [avl_offset], from the node at rank delta 0. *)
Definition avl_offset (h : gmap Z ZNode) (node offset : Z) : res Z :=
  avl_offset_loop (2 * S (size h)) h node 0 offset.

(** Reading [node->hcode] through an [HNode] pointer of a [ZNode]. *)
Definition hcode_at (h : gmap Z ZNode) (hnode : Z) : Z :=
  match h !! container_of_func hnode off_hnode with
  | Some z => hnode_hcode z
  | None => 0
  end.

(** [znode_eq(node, key)], [key] being the node on the stack that carries
    the name looked for. *)
Definition znode_eq (h : gmap Z ZNode) (key_name : bytes) (key_len : Z) (node : Z) : bool :=
  match h !! container_of_func node off_hnode with
  | Some znode =>
      (len znode =? key_len)
      && (memcmp (name znode) key_name (Z.to_nat (len znode)) =? 0)
  | None => false
  end.

(** [znode_cmp(a, b)] on the fields it reads. *)
Definition znode_cmp (a_score : double) (a_name : bytes) (a_len : Z)
    (b_score : double) (b_name : bytes) (b_len : Z) : Z :=
  if negb (double_eq a_score b_score) then
    if double_lt a_score b_score then -1 else 1
  else
    memcmp a_name b_name (Z.to_nat (if a_len <? b_len then a_len else b_len)).

(** [zset_insert(zset, name, len, score)]; [name] holds the [len] bytes. *)
Definition zset_insert (st : Store) (zset : ZSet) (nm : bytes) (sc : double)
  : res (Store * ZSet * bool) :=
  let ln := blen nm in
  let hc := str_hash nm in
  '(hm1, hnode) ←
    HT.hm_lookup (hcode_at (heap st)) (hmap zset) hc (znode_eq (heap st) nm ln);
  if negb (hnode =? 0) then
    let znode := container_of_func hnode off_hnode in
    match heap st !! znode with
    | None => Aborted
    | Some z =>
        if double_eq (score z) sc then Ok (st, mkZSet hm1 (root zset), false)
        else
          '(h1, _) ← avl_del (heap st) (anode_of znode);
          let h2 := alter (fun z => mkZNode (hnode_hcode z) (anode z) sc (name z) (len z))
                          znode h1 in
          '(h3, root3) ← avl_fix h2 (anode_of znode);
          Ok (mkStore h3 (brk st), mkZSet hm1 root3, false)
    end
  else
    let znode := brk st in
    let h1 := <[znode := mkZNode hc AVL_zero sc nm ln]> (heap st) in
    let h2 := avl_init h1 (anode_of znode) in
    hm2 ← HT.hm_insert (hcode_at h2) hm1 (hnode_of znode);
    '(h3, root3) ← avl_fix h2 (anode_of znode);
    Ok (mkStore h3 (brk st + sizeof_ZNode), mkZSet hm2 root3, true).

(** [zset_delete(zset, znode)] *)
Definition zset_delete (st : Store) (zset : ZSet) (znode : Z) : res (Store * ZSet) :=
  '(h1, root1) ← avl_del (heap st) (anode_of znode);
  match h1 !! znode with
  | None => Aborted
  | Some z =>
      '(hm1, _) ←
        HT.hm_delete (hcode_at h1) (hmap zset) (hnode_hcode z)
                     (znode_eq h1 (name z) (len z));
      Ok (mkStore (delete znode h1) (brk st), mkZSet hm1 root1)
  end.

(** [zset_lookup(zset, name, len)] *)
Definition zset_lookup (st : Store) (zset : ZSet) (nm : bytes) : res (ZSet * Z) :=
  let ln := blen nm in
  '(hm1, hnode) ←
    HT.hm_lookup (hcode_at (heap st)) (hmap zset) (str_hash nm)
                 (znode_eq (heap st) nm ln);
  Ok (mkZSet hm1 (root zset),
      if hnode =? 0 then 0 else container_of_func hnode off_hnode).

(** The loop of [zset_seekge]; [cur] and [best] are [ZNode] pointers. *)
Fixpoint seekge_loop (fuel : nat) (h : gmap Z ZNode) (sc : double) (nm : bytes) (ln : Z)
    (cur best : Z) : res Z :=
  match fuel with
  | O => OutOfFuel
  | S fuel' =>
      if cur =? 0 then Ok best
      else
        match h !! cur with
        | None => Aborted
        | Some c =>
            let cmp := znode_cmp (score c) (name c) (len c) sc nm ln in
            if cmp =? 0 then Ok cur
            else if cmp <? 0 then
              let r := right (anode c) in
              seekge_loop fuel' h sc nm ln
                (if r =? 0 then 0 else container_of_func r off_anode) best
            else
              let l := left (anode c) in
              seekge_loop fuel' h sc nm ln
                (if l =? 0 then 0 else container_of_func l off_anode) cur
        end
  end.

(** [zset_seekge(zset, score, name, len)] *)
Definition zset_seekge (st : Store) (zset : ZSet) (sc : double) (nm : bytes) : res Z :=
  let cur := if root zset =? 0 then 0 else container_of_func (root zset) off_anode in
  seekge_loop (S (size (heap st))) (heap st) sc nm (blen nm) cur 0.

(** [znode_offset(znode, offset)] *)
Definition znode_offset (st : Store) (znode : Z) (offset : Z) : res Z :=
  if znode =? 0 then Ok 0
  else
    a ← avl_offset (heap st) (anode_of znode) offset;
    Ok (container_of_func a off_anode).

(** [zset_clear(zset)] *)
Fixpoint zset_clear_loop (fuel : nat) (st : Store) (zset : ZSet) : res (Store * ZSet) :=
  match fuel with
  | O => OutOfFuel
  | S fuel' =>
      if root zset =? 0 then Ok (st, mkZSet (HT.hm_clear (hmap zset)) (root zset))
      else
        let znode := container_of_func (root zset) off_anode in
        '(st1, zset1) ← zset_delete st zset znode;
        zset_clear_loop fuel' st1 zset1
  end.

Definition zset_clear (st : Store) (zset : ZSet) : res (Store * ZSet) :=
  zset_clear_loop (S (size (heap st))) st zset.

(** The nodes of the tree under an [AVLNode] pointer, in order, as [ZNode]
    pointers. *)
Fixpoint tree_nodes (fuel : nat) (h : gmap Z ZNode) (a : Z) : list Z :=
  match fuel with
  | O => []
  | S fuel' =>
      if a =? 0 then []
      else tree_nodes fuel' h (left (aget h a))
           ++ [container_of_func a off_anode]
           ++ tree_nodes fuel' h (right (aget h a))
  end.

(** The members of a sorted set as the tree under [zset->root] holds them:
    (score, name) in order. *)
Definition tree_members (st : Store) (zset : ZSet) : list (double * bytes) :=
  omap (fun p => (fun z => (score z, name z)) <$> (heap st !! p))
       (tree_nodes (S (size (heap st))) (heap st) (root zset)).

(** The order of the specification on names: full lexicographic comparison
    of the byte strings. *)
Fixpoint name_lt (a b : bytes) : bool :=
  match a, b with
  | _, [] => false
  | [], _ :: _ => true
  | x :: a', y :: b' =>
      if byte_val x <? byte_val y then true
      else if byte_val y <? byte_val x then false
      else name_lt a' b'
  end.

(** The order of the specification on members: "compare scores numerically,
    break ties by full lexicographic comparison of the name". *)
Definition member_lt (a b : double * bytes) : bool :=
  double_lt (fst a) (fst b)
  || (double_eq (fst a) (fst b) && name_lt (snd a) (snd b)).

End ZS.

(** ** Request streams

    The client side of the wire format, and the reference behaviour against
    which the framer is compared: the requests dispatched one after the
    other. *)

Module Pipeline.

(** Request frame: [len:u32 | payload[len]]. *)
Definition frame (payload : bytes) : bytes := u32_bytes (blen payload) ++ payload.

Definition request_frame (cmd : list bytes) : bytes :=
  frame (Wire.encode_command cmd).

(** A request the server takes as well formed: the payload parses back to
    [cmd] and is no longer than [k_max_msg]. *)
Definition well_formed (cmd : list bytes) : Prop :=
  Wire.carries Server.k_max_args (Wire.encode_command cmd) cmd
  /\ blen (Wire.encode_command cmd) <= Server.k_max_msg.

(** Response frame: [len:u32 | status:u32 | data]. *)
Definition response_frame (resp : Wire.Response) : bytes :=
  Wire.make_response resp [].

(** The requests dispatched in order, each on a fresh [Response]. *)
Fixpoint dispatch_all (g : Server.Global) (cmds : list (list bytes))
  : res (Server.Global * list Wire.Response) :=
  match cmds with
  | [] => Ok (g, [])
  | cmd :: rest =>
      '(g1, resp) ← Server.do_request g cmd Server.Response_new;
      '(g2, resps) ← dispatch_all g1 rest;
      Ok (g2, resp :: resps)
  end.

(** The response frame in the words of the specification:
    [len:u32 | status:u32 | data[len-4]], the integers little-endian. *)
Definition response_bytes (resp : Wire.Response) : bytes :=
  u32_bytes (4 + blen (Wire.data resp)) ++ u32_bytes (Wire.status resp)
  ++ Wire.data resp.

(** What the kernel answers for one connection during one turn of the event
    loop of [main]: the number of waiting bytes that the [read] of
    [handle_read] returns (none: the descriptor is not reported readable),
    the result of the [write] that [handle_read] makes through
    [handle_write], whether the descriptor is reported writable, and the
    result of the [write] of the [handle_write] that the loop calls. *)
Record turn := mkTurn {
  t_read : Z;
  t_write_after_read : Server.write_result;
  t_writable : bool;
  t_write : Server.write_result
}.

(** The body of the loop "handle connection sockets" for one connection.
    [socket] holds the bytes that the client has sent and no [read] has
    returned yet.  The connection is polled for [POLLIN] when [want_read] and
    for [POLLOUT] when [want_write], the flags being those before the
    readiness call; it is readable when [read], into the buffer of 64 KiB of
    [handle_read], returns at least one byte.  Returned: the keyspace, the
    connection, the socket, the bytes written, and whether the loop closes
    the connection at the end of the turn. *)
Definition serve (g : Server.Global) (conn : Server.Conn) (socket : bytes) (t : turn)
  : res (Server.Global * Server.Conn * bytes * bytes * bool) :=
  let n := Z.to_nat (Z.min (t_read t) (64 * 1024)) in
  let chunk := take n socket in
  let pollin := Server.want_read conn && negb (bool_decide (chunk = [])) in
  let pollout := Server.want_write conn && t_writable t in
  '(g1, conn1, sent1) ←
    (if pollin then
       if Server.want_read conn
       then Server.handle_read g conn (Server.RBytes chunk) (t_write_after_read t)
       else Aborted
     else Ok (g, conn, []));
  '(conn2, sent2) ←
    (if pollout then
       if Server.want_write conn1 then Server.handle_write conn1 (t_write t) else Aborted
     else Ok (conn1, []));
  Ok (g1, conn2, (if pollin then drop n socket else socket), sent1 ++ sent2,
      (pollin || pollout) && Server.want_close conn2).

(** One connection through successive turns of the event loop, until the
    turns are used up or the loop closes the connection.  The bytes that
    went to the socket are accumulated. *)
Fixpoint deliver (g : Server.Global) (conn : Server.Conn) (socket : bytes)
    (turns : list turn)
  : res (Server.Global * Server.Conn * bytes * bytes) :=
  match turns with
  | [] => Ok (g, conn, socket, [])
  | t :: rest =>
      '(g1, conn1, socket1, sent1, closed) ← serve g conn socket t;
      if closed : bool then Ok (g1, conn1, socket1, sent1)
      else
        '(g2, conn2, socket2, sent2) ← deliver g1 conn1 socket1 rest;
        Ok (g2, conn2, socket2, sent1 ++ sent2)
  end.

(** A buffer that holds no complete frame: fewer than four bytes, or a
    length prefix within the limit whose body has not all arrived. *)
Definition incomplete (buf : bytes) : Prop :=
  (length buf < 4)%nat
  \/ exists len body, Wire.read_u32 buf = Some (len, body)
                      /\ len <= Server.k_max_msg /\ blen body < len.

(** The connection with its two buffers replaced. *)
Definition set_buffers (conn : Server.Conn) (inc out : bytes) : Server.Conn :=
  Server.mkConn (Server.fd conn) (Server.want_read conn) (Server.want_write conn)
    (Server.want_close conn) inc out.

(** A turn in which no [write] fails. *)
Definition turn_ok (t : turn) : Prop :=
  t_write_after_read t <> Server.WError /\ t_write t <> Server.WError.

End Pipeline.

(** ** Sequences of [set], [get] and [del] commands *)

Module KV.

Inductive op :=
| Set_ (k v : bytes)
| Get (k : bytes)
| Del (k : bytes).

(** The [argv] of a command. *)
Definition cmd_of (o : op) : list bytes :=
  match o with
  | Set_ k v => [lit "set"; k; v]
  | Get k => [lit "get"; k]
  | Del k => [lit "del"; k]
  end.

(** [o] is neither a [set k _] nor a [del k]. *)
Definition untouched (k : bytes) (o : op) : Prop :=
  match o with
  | Set_ k' _ => k' <> k
  | Get _ => True
  | Del k' => k' <> k
  end.

(** The value of a [set] fits in a message. *)
Definition fits (o : op) : Prop :=
  match o with
  | Set_ _ v => blen v <= Server.k_max_msg
  | _ => True
  end.

(** What a command does to a key-value mapping. *)
Definition apply (m : gmap bytes bytes) (o : op) : gmap bytes bytes :=
  match o with
  | Set_ k v => <[k := v]> m
  | Get _ => m
  | Del k => delete k m
  end.

(** The basic store's dispatcher run over a sequence of commands, each on a
    fresh [Response]. *)
Definition basic_run (g_data : gmap bytes bytes) (ops : list op) : gmap bytes bytes :=
  fold_left (fun g o => fst (BasicKV.do_request g (cmd_of o) BasicKV.Response_new))
            ops g_data.

(** The same for the dispatcher of [CustomHashtable/main.cpp]. *)
Fixpoint server_run (g : Server.Global) (ops : list op) : res Server.Global :=
  match ops with
  | [] => Ok g
  | o :: rest =>
      '(g', _) ← Server.do_request g (cmd_of o) Server.Response_new;
      server_run g' rest
  end.

End KV.

(** ** Invariants of the hash map *)

Module HTInv.

Import HT.

Section Inv.

Variable hcode : Z -> Z.

Definition cap (t : HTab) : Z := mask t + 1.

(** The nodes of a table, and of a map. *)
Definition tab_nodes (t : HTab) : list Z := concat (tab t).

Definition hm_nodes (m : HMap) : list Z :=
  tab_nodes (newer m) ++ tab_nodes (older m).

(** Every node sits in the slot of its hash code; [size] counts the nodes. *)
Definition tab_ok (t : HTab) : Prop :=
  0 <= mask t
  /\ (tab t = [] \/ Z.of_nat (length (tab t)) = cap t)
  /\ size t = Z.of_nat (length (tab_nodes t))
  /\ (forall i chain p, tab t !! i = Some chain -> p ∈ chain -> h_pos t (hcode p) = i).

(** The slots of [older] below [migrate_pos] have been drained. *)
Definition drained (m : HMap) : Prop :=
  forall i chain, (i < Z.to_nat (migrate_pos m))%nat ->
                  tab (older m) !! i = Some chain -> chain = [].

(** The invariant that the help step maintains; [slack] is [1] between the
    push of [hm_insert] and its help step, and [0] otherwise. *)
Definition loop_inv (slack : Z) (m : HMap) : Prop :=
  tab_ok (newer m) /\ tab_ok (older m)
  /\ 0 <= migrate_pos m
  /\ (tab (newer m) <> [] -> 4 <= cap (newer m))
  /\ (tab (older m) = [] ->
      size (newer m) <= k_max_load_factor * cap (newer m) + slack)
  /\ (tab (older m) <> [] ->
      tab (newer m) <> []
      /\ cap (newer m) = 2 * cap (older m)
      /\ 4 <= cap (older m)
      /\ migrate_pos m <= cap (older m)
      /\ drained m
      /\ size (newer m) + size (older m)
         <= k_max_load_factor * cap (older m) + 1 + migrate_pos m + slack).

(** The invariant between two operations. *)
Definition hm_inv (m : HMap) : Prop := loop_inv 0 m.

(** The slots of [older] that the help loop has not visited yet. *)
Definition slots_left (m : HMap) : nat :=
  (length (tab (older m)) - Z.to_nat (migrate_pos m))%nat.

(** The body of the help loop when a slot is moved. *)
Definition move_slot (m : HMap) (chain : list Z) : HMap :=
  mkHMap (fold_left (h_insert hcode) chain (newer m))
         (mkHTab (<[Z.to_nat (migrate_pos m) := []]> (tab (older m))) (mask (older m))
                 (size (older m) - Z.of_nat (length chain)))
         (migrate_pos m + 1).

Definition skip_slot (m : HMap) : HMap :=
  mkHMap (newer m) (older m) (migrate_pos m + 1).

End Inv.

End HTInv.

(** ** Invariant of the keyspace of [CustomHashtable/main.cpp] *)

Module ServerInv.

Import Server.

Definition kv_inv (g : Global) : Prop :=
  HTInv.hm_inv (hcode_at (mem g)) (db g)
  /\ NoDup (HTInv.hm_nodes (db g))
  /\ (forall p, p ∈ HTInv.hm_nodes (db g) <-> is_Some (mem g !! p))
  /\ (forall p e, mem g !! p = Some e ->
        node_hcode e = str_hash (key e) /\ 0 < p < brk g /\ blen (val e) <= k_max_msg)
  /\ (forall p q e e', mem g !! p = Some e -> mem g !! q = Some e' ->
        key e = key e' -> p = q)
  /\ 0 < brk g.

(** The mapping that the keyspace holds. *)
Definition represents (g : Global) (m : gmap bytes bytes) : Prop :=
  kv_inv g
  /\ forall k v, m !! k = Some v <->
                 exists p e, mem g !! p = Some e /\ key e = k /\ val e = v.

End ServerInv.

(** ** The dual-structure invariant of a sorted set, and example sets *)

Module ZSInv.

Import ZS.

(** Every node of the hash map is, exactly once, a node of the tree under
    [zset->root] (an [HNode] pointer and the [ZNode] pointer of its owner are
    the same address), and the hash map counts as many nodes as the tree
    has. *)
Definition dual_inv (st : Store) (zset : ZSet) : Prop :=
  let t := tree_nodes (S (size (heap st))) (heap st) (root zset) in
  NoDup t
  /\ (forall p, p ∈ HTInv.hm_nodes (hmap zset) <-> p ∈ t)
  /\ HT.hm_size (hmap zset) = Z.of_nat (length t).

(** The result of a run that must not fail. *)
Definition get_ok {A : Type} (d : A) (r : res A) : A :=
  match r with
  | Ok a => a
  | _ => d
  end.

(** The set after [zset_insert(z, "a", 1, 1.0)] on the empty set. *)
Definition one_member : Store * ZSet * bool :=
  get_ok (Store_init, ZSet_init, false)
         (zset_insert Store_init ZSet_init (lit "a") (double_of_Z 1)).

(** The set after a further [zset_insert(z, "b", 1, 2.0)]. *)
Definition two_inserts : Store * ZSet * bool :=
  get_ok (Store_init, ZSet_init, false)
         (zset_insert (fst (fst one_member)) (snd (fst one_member))
                      (lit "b") (double_of_Z 2)).

(** A sorted set with the members [(sa, na)] and [(sb, nb)], linked by hand
    as a sorted set is meant to be: both nodes in the hash map, the second
    one at the root of the tree and the first one its left child. *)
Definition linked_pair (sa : double) (na : bytes) (sb : double) (nb : bytes)
  : Store * ZSet :=
  let pa := 80 in
  let pb := 160 in
  let h : gmap Z ZNode :=
    <[pb := mkZNode (str_hash nb) (mkAVL 0 (anode_of pa) 0 2 2) sb nb (blen nb)]>
      (<[pa := mkZNode (str_hash na) (mkAVL (anode_of pb) 0 0 1 1) sa na (blen na)]> ∅) in
  let hm := get_ok HT.HMap_zero
              (hm1 ← HT.hm_insert (hcode_at h) HT.HMap_zero pa;
               HT.hm_insert (hcode_at h) hm1 pb) in
  (mkStore h 240, mkZSet hm (anode_of pb)).

(** The members [(1, "a")] and [(2, "b")]. *)
Definition pair_ab : Store * ZSet :=
  linked_pair (double_of_Z 1) (lit "a") (double_of_Z 2) (lit "b").

(** The members [(1, "a")] and [(1, "ab")]: equal scores, and a name that is
    a proper prefix of the other. *)
Definition pair_prefix : Store * ZSet :=
  linked_pair (double_of_Z 1) (lit "a") (double_of_Z 1) (lit "ab").

End ZSInv.


(** ** [CustomHashtable/main.cpp]: accepting connections and the event loop

    What the kernel answers (the results of [accept], [fcntl], [read],
    [write] and of the readiness call) is an argument of the functions
    below. *)

Module EventLoop.

Import Server.

(** The event bits of [<poll.h>]. *)
Definition POLLIN : Z := 1.
Definition POLLOUT : Z := 4.
Definition POLLERR : Z := 8.

(** [struct pollfd] *)
Record pollfd := mkPollfd {
  pfd_fd : Z;
  events : Z;
  revents : Z
}.

(** [fd_set_nb(fd)]: [err_get] and [err_set] tell whether [errno] is set
    after the first and after the second [fcntl]; [die] ends in [abort()]. *)
Definition fd_set_nb (err_get err_set : bool) : res unit :=
  if err_get then Aborted
  else if err_set then Aborted
  else Ok tt.

(** [handle_accept(fd)]; [connfd] is what [accept] returned.  [None] is the
    return value [NULL]. *)
Definition handle_accept (connfd : Z) (err_get err_set : bool) : res (option Conn) :=
  if connfd <? 0 then Ok None
  else
    _ ← fd_set_nb err_get err_set;
    Ok (Some (mkConn connfd true false false [] [])).

(** The map [fd2conn]: a vector of pointers, each to a [Conn] of its own or
    null. *)
Abbreviation Table := (list (option Conn)).

(** The [pollfd] that the event loop makes for a connection. *)
Definition conn_pollfd (conn : Conn) : pollfd :=
  let ev := POLLERR in
  let ev := if want_read conn then Z.lor ev POLLIN else ev in
  let ev := if want_write conn then Z.lor ev POLLOUT else ev in
  mkPollfd (fd conn) ev 0.

(** The vector [poll_args] once the loop over [fd2conn] has filled it: the
    listening socket first, then the connections that are not null. *)
Definition prepare_poll_args (listen_fd : Z) (fd2conn : Table) : list pollfd :=
  mkPollfd listen_fd POLLIN 0 :: omap (fmap conn_pollfd) fd2conn.

(** The kernel's answer written to the [revents] fields, [revs i] being the
    answer for the entry at index [i]. *)
Definition set_revents (revs : nat -> Z) (args : list pollfd) : list pollfd :=
  imap (fun i p => mkPollfd (pfd_fd p) (events p) (revs i)) args.

(** "put it into the map": the vector grows when the descriptor is past its
    end; the slot must be null. *)
Definition register (fd2conn : Table) (conn : Conn) : res Table :=
  let i := Z.to_nat (fd conn) in
  let t := if (length fd2conn <=? i)%nat then resize (S i) None fd2conn else fd2conn in
  match t !! i with
  | Some None => Ok (<[i := Some conn]> t)
  | _ => Aborted
  end.

(** "handle the listening socket" *)
Definition serve_listen (fd2conn : Table) (ready : Z) (connfd : Z) (err_get err_set : bool)
  : res Table :=
  if ready =? 0 then Ok fd2conn
  else
    c ← handle_accept connfd err_get err_set;
    match c with
    | None => Ok fd2conn
    | Some conn => register fd2conn conn
    end.

(** What the kernel answers to the calls made for one connection during one
    turn of the loop: to the [read] of [handle_read], to the [write] of the
    [handle_write] called by [handle_read], and to the [write] of the
    [handle_write] called by the loop itself. *)
Record conn_io := mkIO {
  io_read : read_result;
  io_write_after_read : write_result;
  io_write : write_result
}.

(** The body of the loop "handle connection sockets" for one entry of
    [poll_args].  The [Conn] is changed in place, so the slot that points to
    it shows the changes; at the end the slot of [conn->fd] is set to null
    when the connection is closed.  Also returned: the bytes that went to
    the socket. *)
Definition serve_conn (g : Global) (fd2conn : Table) (pfd : pollfd) (io : conn_io)
  : res (Global * Table * bytes) :=
  let ready := wrap32 (revents pfd) in
  if ready =? 0 then Ok (g, fd2conn, [])
  else
    let slot := Z.to_nat (pfd_fd pfd) in
    match fd2conn !! slot with
    | Some (Some conn) =>
        '(g1, conn1, sent1) ←
          (if negb (Z.land ready POLLIN =? 0) then
             if want_read conn
             then handle_read g conn (io_read io) (io_write_after_read io)
             else Aborted
           else Ok (g, conn, []));
        '(conn2, sent2) ←
          (if negb (Z.land ready POLLOUT =? 0) then
             if want_write conn1 then handle_write conn1 (io_write io) else Aborted
           else Ok (conn1, []));
        let t := <[slot := Some conn2]> fd2conn in
        if negb (Z.land ready POLLERR =? 0) || want_close conn2
        then Ok (g1, <[Z.to_nat (fd conn2) := None]> t, sent1 ++ sent2)
        else Ok (g1, t, sent1 ++ sent2)
    | _ => Aborted
    end.

(** The loop "handle connection sockets" over the entries of [poll_args]
    after the first; [io] gives the kernel's answers by descriptor. *)
Fixpoint serve_conns (g : Global) (fd2conn : Table) (args : list pollfd) (io : Z -> conn_io)
  : res (Global * Table * list (Z * bytes)) :=
  match args with
  | [] => Ok (g, fd2conn, [])
  | pfd :: rest =>
      '(g1, t1, sent) ← serve_conn g fd2conn pfd (io (pfd_fd pfd));
      '(g2, t2, log) ← serve_conns g1 t1 rest io;
      Ok (g2, t2, (pfd_fd pfd, sent) :: log)
  end.

(** What the readiness call returns: interrupted ([EINTR]), another error,
    or the [revents] of the entries. *)
Inductive poll_result :=
| PollEintr
| PollError
| PollReady (revs : nat -> Z).

(** One turn of the event loop of [main]: the keyspace and [fd2conn]
    afterwards, and what went to each socket. *)
Definition loop_turn (listen_fd : Z) (g : Global) (fd2conn : Table)
    (p : poll_result) (connfd : Z) (err_get err_set : bool) (io : Z -> conn_io)
  : res (Global * Table * list (Z * bytes)) :=
  let poll_args := prepare_poll_args listen_fd fd2conn in
  match p with
  | PollEintr => Ok (g, fd2conn, [])
  | PollError => Aborted
  | PollReady revs =>
      match set_revents revs poll_args with
      | [] => Aborted
      | first :: rest =>
          t1 ← serve_listen fd2conn (revents first) connfd err_get err_set;
          serve_conns g t1 rest io
      end
  end.

(** The readiness flags of a connection agree with its output buffer:
    it waits for exactly one of reading and writing, and for writing exactly
    when a response is queued. *)
Definition conn_inv (conn : Conn) : Prop :=
  want_read conn = negb (want_write conn)
  /\ (want_write conn = true <-> outgoing conn <> []).

(** Every connection of [fd2conn] sits in the slot of its descriptor. *)
Definition table_inv (fd2conn : Table) : Prop :=
  forall i conn, fd2conn !! i = Some (Some conn) ->
                 fd conn = Z.of_nat i /\ conn_inv conn.

(** The readiness call reports a descriptor as readable or writable only if
    that was asked for. *)
Definition revents_ok (pfd : pollfd) : Prop :=
  0 <= revents pfd < 2 ^ 15
  /\ (Z.land (revents pfd) POLLIN <> 0 -> Z.land (events pfd) POLLIN <> 0)
  /\ (Z.land (revents pfd) POLLOUT <> 0 -> Z.land (events pfd) POLLOUT <> 0).

(** [pfd] is the entry of [poll_args] made for a connection of [fd2conn]. *)
Definition polls (fd2conn : Table) (pfd : pollfd) : Prop :=
  exists conn,
    fd2conn !! Z.to_nat (pfd_fd pfd) = Some (Some conn)
    /\ pfd_fd pfd = fd conn
    /\ events pfd = events (conn_pollfd conn).

(** [buf_append(conn->incoming, buf, rv)] *)
Definition append_incoming (conn : Conn) (buf : bytes) : Conn :=
  mkConn (fd conn) (want_read conn) (want_write conn) (want_close conn)
         (incoming conn ++ buf) (outgoing conn).

(** [buf_append(conn->incoming, buf, rv)] followed by
    [while (try_one_request(conn)) {}], as [handle_read] runs them. *)
Definition feed (g : Global) (conn : Conn) (buf : bytes) : res (Global * Conn) :=
  let conn1 := append_incoming conn buf in
  request_loop (S (length (incoming conn1))) g conn1.

End EventLoop.

(** ** The test runner of the basic key-value store *)

Module TestRunner.

Import BasicKV.

(** [encode_command(cmd, out)] *)
Definition encode_command (cmd : list bytes) (out : bytes) : bytes :=
  out ++ Wire.encode_command cmd.

(** [print_response(buf)]: the status and the value that are written to
    [cout].  The results of [read_u32] and [read_str] are not tested: when a
    [read_u32] fails, an uninitialized integer is used; when [read_str]
    fails, the value is the empty string. *)
Definition print_response (buf : bytes) : res (Z * bytes) :=
  match Wire.read_u32 buf with
  | None => Aborted
  | Some (len, cur1) =>
      match Wire.read_u32 cur1 with
      | None => Aborted
      | Some (status, cur2) =>
          match Wire.read_str cur2 (wrap32 (len - 4)) with
          | None => Ok (status, [])
          | Some (value, _) => Ok (status, value)
          end
      end
  end.

(** [encode_command(cmd, conn.incoming); try_one_request(&conn);] *)
Definition request (g_data : gmap bytes bytes) (conn : Conn) (cmd : list bytes)
  : gmap bytes bytes * Conn :=
  let conn1 := mkConn (encode_command cmd (incoming conn)) (outgoing conn)
                      (want_close conn) in
  let '(g_data', conn2, _) := try_one_request g_data conn1 in
  (g_data', conn2).

(** [conn.incoming.clear(); conn.outgoing.clear();] *)
Definition clear (conn : Conn) : Conn := mkConn [] [] (want_close conn).

(** [main()]: what the two calls of [print_response] write. *)
Definition main : res (list (Z * bytes)) :=
  let conn := mkConn [] [] false in
  let '(g1, conn) := request ∅ conn [lit "set"; lit "foo"; lit "bar"] in
  let conn := clear conn in
  let '(g2, conn) := request g1 conn [lit "get"; lit "foo"] in
  p1 ← print_response (outgoing conn);
  let conn := clear conn in
  let '(g3, conn) := request g2 conn [lit "del"; lit "foo"] in
  let conn := clear conn in
  let '(g4, conn) := request g3 conn [lit "get"; lit "foo"] in
  p2 ← print_response (outgoing conn);
  Ok [p1; p2].

End TestRunner.

(** ** [RedisMain/list.h]: the intrusive doubly-linked list

    The nodes live in a heap, by address; reading or writing through a
    pointer that does not point to a node is [Aborted]. *)

Module DL.

(** [struct DList] *)
Record DList := mkDList {
  next : Z;
  prev : Z
}.

Abbreviation Heap := (gmap Z DList).

Definition load (h : Heap) (p : Z) : res DList :=
  match h !! p with
  | Some n => Ok n
  | None => Aborted
  end.

(** [p->next = v] and [p->prev = v] *)
Definition store_next (h : Heap) (p v : Z) : res Heap :=
  n ← load h p; Ok (<[p := mkDList v (prev n)]> h).

Definition store_prev (h : Heap) (p v : Z) : res Heap :=
  n ← load h p; Ok (<[p := mkDList (next n) v]> h).

(** [dlist_init(list)] *)
Definition dlist_init (h : Heap) (list : Z) : res Heap :=
  h1 ← store_next h list list;
  store_prev h1 list list.

(** [dlist_insert_before(list, node)] *)
Definition dlist_insert_before (h : Heap) (list node : Z) : res Heap :=
  h1 ← store_next h node list;
  l ← load h1 list;
  h2 ← store_prev h1 node (prev l);
  l ← load h2 list;
  h3 ← store_next h2 (prev l) node;
  store_prev h3 list node.

(** [dlist_detach(node)] *)
Definition dlist_detach (h : Heap) (node : Z) : res Heap :=
  n ← load h node;
  h1 ← store_next h (prev n) (next n);
  n ← load h1 node;
  h2 ← store_prev h1 (next n) (prev n);
  h3 ← store_next h2 node 0;
  store_prev h3 node 0.

(** [dlist_empty(list)] *)
Definition dlist_empty (h : Heap) (list : Z) : res bool :=
  l ← load h list; Ok (next l =? list).

(** The two pointers of the node at [p], if there is one. *)
Definition nxt (h : Heap) (p : Z) : option Z := next <$> h !! p.
Definition prv (h : Heap) (p : Z) : option Z := prev <$> h !! p.

(** [b] comes right after [a]: [a->next == b] and [b->prev == a]. *)
Definition adj (h : Heap) (a b : Z) : Prop :=
  nxt h a = Some b /\ prv h b = Some a.

(** From [a] on, the nodes of [l] come one after the other. *)
Fixpoint chain (h : Heap) (a : Z) (l : list Z) : Prop :=
  match l with
  | [] => True
  | b :: l' => adj h a b /\ chain h b l'
  end.

(** The last node of [a :: l], and the nodes of [a :: l] before the last. *)
Fixpoint last_of (a : Z) (l : list Z) : Z :=
  match l with
  | [] => a
  | b :: l' => last_of b l'
  end.

Fixpoint sources (a : Z) (l : list Z) : list Z :=
  match l with
  | [] => []
  | b :: l' => a :: sources b l'
  end.

(** The list with head node [head] links the nodes [xs], in this order, and
    closes on the head; no node occurs twice and none is at the null
    address. *)
Definition ring (h : Heap) (head : Z) (xs : list Z) : Prop :=
  NoDup (head :: xs)
  /\ (0 ∉ head :: xs)
  /\ chain h head (xs ++ [head]).

End DL.

(** ** The sorted set of [RedisMain/zset.cpp] as a map from names to scores *)

Module ZSMap.

Import ZS.

(** What [avl_init] leaves in a node: no parent, no children, height and
    count 1. *)
Definition alone : AVLNode := mkAVL 0 0 0 1 1.

(** The state that [zset_insert] and [zset_delete] keep: the hash map holds
    the nodes of the free store, each once; a node carries the hash code and
    the length of its name; no two nodes carry the same name; the allocator
    stays inside the address space.  As [zset_insert] never links a node to
    another one, every tree node is [alone]. *)
Definition nodes_ok (h : gmap Z ZNode) (top : Z) : Prop :=
  forall p z, h !! p = Some z ->
    hnode_hcode z = str_hash (name z) /\ len z = blen (name z)
    /\ anode z = alone /\ 0 < p /\ p + sizeof_ZNode <= top.

Definition zs_inv (st : Store) (zset : ZSet) : Prop :=
  HTInv.hm_inv (hcode_at (heap st)) (hmap zset)
  /\ NoDup (HTInv.hm_nodes (hmap zset))
  /\ (forall p, p ∈ HTInv.hm_nodes (hmap zset) <-> is_Some (heap st !! p))
  /\ nodes_ok (heap st) (brk st)
  /\ (forall p q z z', heap st !! p = Some z -> heap st !! q = Some z' ->
        name z = name z' -> p = q)
  /\ 0 < brk st <= 2 ^ 64.

(** The scores that the set holds, by member name. *)
Definition represents (st : Store) (zset : ZSet) (m : gmap bytes double) : Prop :=
  zs_inv st zset
  /\ forall nm sc, m !! nm = Some sc <->
                   exists p z, heap st !! p = Some z /\ name z = nm /\ score z = sc.

(** [zset->root] is null or the tree node of a node of the set. *)
Definition root_ok (st : Store) (zset : ZSet) : Prop :=
  root zset = 0 \/ exists p, is_Some (heap st !! p) /\ root zset = anode_of p.

(** What [zset_insert(zset, name, len, score)] does to the scores: a member
    whose score compares equal to [score] is left as it is. *)
Definition insert_score (m : gmap bytes double) (nm : bytes) (sc : double)
  : gmap bytes double :=
  match m !! nm with
  | Some old => if double_eq old sc then m else <[nm := sc]> m
  | None => <[nm := sc]> m
  end.

End ZSMap.

(** ** The two dispatchers side by side *)

Module Equiv.

(** The basic store's dispatcher run over a list of commands, each on a
    fresh [Response]: the map afterwards and the responses in order. *)
Fixpoint basic_dispatch_all (g_data : gmap bytes bytes) (cmds : list (list bytes))
  : gmap bytes bytes * list Wire.Response :=
  match cmds with
  | [] => (g_data, [])
  | cmd :: rest =>
      let '(g1, resp) := BasicKV.do_request g_data cmd BasicKV.Response_new in
      let '(g2, resps) := basic_dispatch_all g1 rest in
      (g2, resp :: resps)
  end.

(** A status of the basic store, in the numbering of
    [CustomHashtable/main.cpp]. *)
Definition status_of_basic (s : Z) : Z :=
  if s =? BasicKV.RES_NX then Server.RES_NX
  else if s =? BasicKV.RES_ERR then Server.RES_ERR
  else s.

Definition response_of_basic (r : Wire.Response) : Wire.Response :=
  Wire.mkResponse (status_of_basic (Wire.status r)) (Wire.data r).

End Equiv.

(** ** The thread pool ([thread_pool.h], [thread_pool.cpp])

    The threads are interleaved statement by statement.  What a statement
    does to the mutex and to the condition variable is what the C++ library
    documents: [unique_lock] takes the mutex when it is free and the thread
    waits otherwise; [wait(lock, pred)] is [while (!pred()) wait(lock)],
    where [wait(lock)] releases the mutex and blocks in one step, and comes
    back, after a notification or without one, by taking the mutex again;
    [notify_one] unblocks one of the waiting threads when there is one;
    [front] and [pop_front] on an empty [deque] are undefined. *)

Module TP.

(** [struct Work] *)
Record Work := mkWork { f : Z; arg : Z }.

(** A thread that uses the pool: the [i]-th thread of [tp->threads], or the
    [c]-th call of [thread_pool_queue]. *)
Inductive tid := Worker (i : nat) | Caller (c : nat).

(** Where a thread of [worker] stands. *)
Inductive wpc :=
| WLock                (* before [std::unique_lock<std::mutex> lock(tp->mu)] *)
| WTest                (* in [wait], holding the mutex, before the predicate *)
| WBlocked             (* in [wait], the mutex released, not notified *)
| WWoken               (* in [wait], unblocked, before taking the mutex again *)
| WFront               (* before [w = tp->queue.front()] *)
| WPop (w : Work)      (* before [tp->queue.pop_front()] *)
| WUnlock (w : Work)   (* before the end of the scope of [lock] *)
| WCall (w : Work).    (* before [w.f(w.arg)] *)

(** Where a call of [thread_pool_queue(tp, f, arg)] stands. *)
Inductive cpc :=
| CLock (w : Work)     (* before [std::unique_lock<std::mutex> lock(tp->mu)] *)
| CPush (w : Work)     (* before [tp->queue.push_back(Work{f, arg})] *)
| CUnlock              (* before the end of the scope of [lock] *)
| CNotify              (* before [tp->not_empty.notify_one()] *)
| CDone.               (* returned *)

(** [struct ThreadPool].  [mu] is the thread that holds the mutex; the
    threads waiting on [not_empty] are the workers at [WBlocked]. *)
Record ThreadPool := mkTP {
  threads : list wpc;
  queue : list Work;
  mu : option tid;
  callers : list cpc
}.

Definition ThreadPool_new : ThreadPool := mkTP [] [] None [].

(** [thread_pool_init(tp, num_threads)]: the new threads start at the top
    of [worker]. *)
Definition thread_pool_init (tp : ThreadPool) (num_threads : Z) : res ThreadPool :=
  if 0 <? num_threads
  then Ok (mkTP (threads tp ++ replicate (Z.to_nat num_threads) WLock)
                (queue tp) (mu tp) (callers tp))
  else Aborted.

(** What a statement is seen to do. *)
Inductive event := Push (w : Work) | Pop (w : Work) | Call (w : Work).

(** A statement runs ([Next]), has to wait ([Blocked]) or is undefined. *)
Inductive outcome (A : Type) : Type :=
| Next (a : A)
| Blocked
| Undefined.

Arguments Next {A} a.
Arguments Blocked {A}.
Arguments Undefined {A}.

(** The threads waiting on [tp->not_empty]. *)
Definition is_blocked (pc : wpc) : bool :=
  match pc with
  | WBlocked => true
  | _ => false
  end.

(** The next statement of worker [i]. *)
Definition step_worker (tp : ThreadPool) (i : nat) : outcome (ThreadPool * list event) :=
  match threads tp !! i with
  | None => Blocked
  | Some WLock | Some WWoken =>
      match mu tp with
      | None => Next (mkTP (<[i := WTest]> (threads tp)) (queue tp) (Some (Worker i))
                           (callers tp), [])
      | Some _ => Blocked
      end
  | Some WTest =>
      match queue tp with
      | [] => Next (mkTP (<[i := WBlocked]> (threads tp)) (queue tp) None (callers tp), [])
      | _ :: _ => Next (mkTP (<[i := WFront]> (threads tp)) (queue tp) (mu tp)
                             (callers tp), [])
      end
  | Some WBlocked => Blocked
  | Some WFront =>
      match queue tp with
      | [] => Undefined
      | w :: _ => Next (mkTP (<[i := WPop w]> (threads tp)) (queue tp) (mu tp)
                             (callers tp), [])
      end
  | Some (WPop w) =>
      match queue tp with
      | [] => Undefined
      | x :: rest => Next (mkTP (<[i := WUnlock w]> (threads tp)) rest (mu tp)
                                (callers tp), [Pop x])
      end
  | Some (WUnlock w) =>
      Next (mkTP (<[i := WCall w]> (threads tp)) (queue tp) None (callers tp), [])
  | Some (WCall w) =>
      Next (mkTP (<[i := WLock]> (threads tp)) (queue tp) (mu tp) (callers tp), [Call w])
  end.

(** The next statement of the [c]-th call of [thread_pool_queue]; its
    [notify_one] runs here when no thread waits. *)
Definition step_caller (tp : ThreadPool) (c : nat) : outcome (ThreadPool * list event) :=
  match callers tp !! c with
  | None => Blocked
  | Some (CLock w) =>
      match mu tp with
      | None => Next (mkTP (threads tp) (queue tp) (Some (Caller c))
                           (<[c := CPush w]> (callers tp)), [])
      | Some _ => Blocked
      end
  | Some (CPush w) =>
      Next (mkTP (threads tp) (queue tp ++ [w]) (mu tp) (<[c := CUnlock]> (callers tp)),
            [Push w])
  | Some CUnlock =>
      Next (mkTP (threads tp) (queue tp) None (<[c := CNotify]> (callers tp)), [])
  | Some CNotify =>
      if existsb is_blocked (threads tp) then Blocked
      else Next (mkTP (threads tp) (queue tp) (mu tp) (<[c := CDone]> (callers tp)), [])
  | Some CDone => Blocked
  end.

(** What the scheduler and the environment choose. *)
Inductive action :=
| Step (t : tid)           (* thread [t] runs its next statement *)
| Wake (c i : nat)         (* the [notify_one] of call [c] unblocks worker [i] *)
| Spurious (i : nat)       (* worker [i] leaves [wait] without a notification *)
| Queue (w : Work).        (* a thread calls [thread_pool_queue(tp, f, arg)] *)

Definition step (tp : ThreadPool) (a : action) : outcome (ThreadPool * list event) :=
  match a with
  | Step (Worker i) => step_worker tp i
  | Step (Caller c) => step_caller tp c
  | Wake c i =>
      match callers tp !! c, threads tp !! i with
      | Some CNotify, Some WBlocked =>
          Next (mkTP (<[i := WWoken]> (threads tp)) (queue tp) (mu tp)
                     (<[c := CDone]> (callers tp)), [])
      | _, _ => Blocked
      end
  | Spurious i =>
      match threads tp !! i with
      | Some WBlocked =>
          Next (mkTP (<[i := WWoken]> (threads tp)) (queue tp) (mu tp) (callers tp), [])
      | _ => Blocked
      end
  | Queue w =>
      Next (mkTP (threads tp) (queue tp) (mu tp) (callers tp ++ [CLock w]), [])
  end.

(** A schedule run from a state: the state reached and what was seen, in
    order. *)
Fixpoint run (tp : ThreadPool) (acts : list action) : outcome (ThreadPool * list event) :=
  match acts with
  | [] => Next (tp, [])
  | a :: rest =>
      match step tp a with
      | Next (tp1, e) =>
          match run tp1 rest with
          | Next (tp2, tr) => Next (tp2, e ++ tr)
          | Blocked => Blocked
          | Undefined => Undefined
          end
      | Blocked => Blocked
      | Undefined => Undefined
      end
  end.

(** Two schedules.  In the first a worker goes to sleep on the empty queue,
    a work is queued, the notification wakes the worker, and the worker takes
    the work and calls it.  In the second the only worker sleeps while a
    call has pushed a work and released the mutex, before its
    [notify_one]. *)
Definition schedule_one_work : list action :=
  [Step (Worker 0); Step (Worker 0); Queue (mkWork 1 2);
   Step (Caller 0); Step (Caller 0); Step (Caller 0);
   Wake 0 0; Step (Worker 0); Step (Worker 0); Step (Worker 0); Step (Worker 0);
   Step (Worker 0); Step (Worker 0)].

Definition schedule_push_while_asleep : list action :=
  [Step (Worker 0); Step (Worker 0); Queue (mkWork 1 2);
   Step (Caller 0); Step (Caller 0); Step (Caller 0)].

Definition pushes (tr : list event) : list Work :=
  omap (fun e => match e with Push w => Some w | _ => None end) tr.

Definition pops (tr : list event) : list Work :=
  omap (fun e => match e with Pop w => Some w | _ => None end) tr.

Definition calls (tr : list event) : list Work :=
  omap (fun e => match e with Call w => Some w | _ => None end) tr.

(** The work that a worker has taken and not yet called. *)
Definition held_of (pc : wpc) : option Work :=
  match pc with
  | WUnlock w | WCall w => Some w
  | _ => None
  end.

Definition held (tp : ThreadPool) : list Work := omap held_of (threads tp).

(** The statements between taking the mutex and releasing it. *)
Definition w_holds (pc : wpc) : bool :=
  match pc with
  | WTest | WFront | WPop _ | WUnlock _ => true
  | _ => false
  end.

Definition c_holds (pc : cpc) : bool :=
  match pc with
  | CPush _ | CUnlock => true
  | _ => false
  end.

Definition in_critical_section (tp : ThreadPool) (t : tid) : Prop :=
  match t with
  | Worker i => exists pc, threads tp !! i = Some pc /\ w_holds pc = true
  | Caller c => exists pc, callers tp !! c = Some pc /\ c_holds pc = true
  end.

(** A call that has pushed its work and not yet notified. *)
Definition pending (pc : cpc) : bool :=
  match pc with
  | CUnlock | CNotify => true
  | _ => false
  end.

(** What every reachable state satisfies, [tr] being what was seen so
    far. *)
Definition tp_inv (tp : ThreadPool) (tr : list event) : Prop :=
  (forall t, in_critical_section tp t -> mu tp = Some t)
  /\ (forall i, threads tp !! i = Some WFront -> queue tp <> [])
  /\ (forall i w, threads tp !! i = Some (WPop w) -> head (queue tp) = Some w)
  /\ pops tr ++ queue tp = pushes tr
  /\ calls tr ++ held tp ≡ₚ pops tr
  /\ (queue tp <> [] ->
      (exists i pc, threads tp !! i = Some pc /\ is_blocked pc = false)
      \/ (exists c pc, callers tp !! c = Some pc /\ pending pc = true))
  /\ threads tp <> [].

End TP.
(** ** Basic facts on bytes *)

Lemma byte_val_range b : 0 <= byte_val b < 256.
Proof.
  unfold byte_val. pose proof (Byte.to_N_bounded b). lia.
Qed.

Lemma byte_of_Z_val b : byte_of_Z (byte_val b) = b.
Proof.
  unfold byte_of_Z. pose proof (byte_val_range b) as Hb.
  rewrite Z.mod_small by lia. unfold byte_val.
  rewrite N2Z.id, Byte.of_to_N. reflexivity.
Qed.

Lemma byte_val_of_Z z : byte_val (byte_of_Z z) = z mod 256.
Proof.
  unfold byte_of_Z, byte_val.
  assert (Hr : 0 <= z mod 256 < 256) by (apply Z.mod_pos_bound; lia).
  pose proof (Byte.to_of_N_option_map (Z.to_N (z mod 256))) as Hm.
  destruct (Byte.of_N (Z.to_N (z mod 256))) as [b|] eqn:Hof; simpl in Hm.
  - destruct (N.leb_spec (Z.to_N (z mod 256)) 255); [|discriminate].
    injection Hm as ->. rewrite Z2N.id; lia.
  - destruct (N.leb_spec (Z.to_N (z mod 256)) 255); [discriminate|]. lia.
Qed.

Lemma le_u32_range b0 b1 b2 b3 : 0 <= le_u32 b0 b1 b2 b3 < 2 ^ 32.
Proof.
  unfold le_u32.
  pose proof (byte_val_range b0). pose proof (byte_val_range b1).
  pose proof (byte_val_range b2). pose proof (byte_val_range b3). lia.
Qed.

Lemma wrap32_range z : 0 <= wrap32 z < 2 ^ 32.
Proof. unfold wrap32. apply Z.mod_pos_bound. lia. Qed.

Lemma byte_of_Z_low r q : byte_of_Z (r + q * 256) = byte_of_Z r.
Proof. unfold byte_of_Z. rewrite Z.mod_add by lia. reflexivity. Qed.

Lemma u32_bytes_le b0 b1 b2 b3 : u32_bytes (le_u32 b0 b1 b2 b3) = [b0; b1; b2; b3].
Proof.
  pose proof (byte_val_range b0) as H0. pose proof (byte_val_range b1) as H1.
  pose proof (byte_val_range b2) as H2. pose proof (byte_val_range b3) as H3.
  unfold u32_bytes, le_u32.
  set (v0 := byte_val b0) in *. set (v1 := byte_val b1) in *.
  set (v2 := byte_val b2) in *. set (v3 := byte_val b3) in *.
  assert (E1 : (v0 + 2 ^ 8 * v1 + 2 ^ 16 * v2 + 2 ^ 24 * v3) / 2 ^ 8
               = v1 + (v2 + v3 * 256) * 256).
  { symmetry. apply Z.div_unique with (r := v0); lia. }
  assert (E2 : (v0 + 2 ^ 8 * v1 + 2 ^ 16 * v2 + 2 ^ 24 * v3) / 2 ^ 16
               = v2 + v3 * 256).
  { symmetry. apply Z.div_unique with (r := v0 + 2 ^ 8 * v1); lia. }
  assert (E3 : (v0 + 2 ^ 8 * v1 + 2 ^ 16 * v2 + 2 ^ 24 * v3) / 2 ^ 24 = v3).
  { symmetry. apply Z.div_unique with (r := v0 + 2 ^ 8 * v1 + 2 ^ 16 * v2); lia. }
  rewrite E1, E2, E3.
  replace (v0 + 2 ^ 8 * v1 + 2 ^ 16 * v2 + 2 ^ 24 * v3)
    with (v0 + (v1 + 2 ^ 8 * v2 + 2 ^ 16 * v3) * 256) by lia.
  rewrite !byte_of_Z_low. subst v0 v1 v2 v3.
  rewrite !byte_of_Z_val. reflexivity.
Qed.

Lemma le_u32_bytes x :
  0 <= x < 2 ^ 32 ->
  match u32_bytes x with
  | [b0; b1; b2; b3] => le_u32 b0 b1 b2 b3 = x
  | _ => False
  end.
Proof.
  intros Hx. unfold u32_bytes, le_u32. rewrite !byte_val_of_Z.
  change 256 with (2 ^ 8).
  pose proof (Z.div_mod x (2 ^ 8) ltac:(lia)) as E0.
  pose proof (Z.div_mod (x / 2 ^ 8) (2 ^ 8) ltac:(lia)) as E1.
  pose proof (Z.div_mod (x / 2 ^ 16) (2 ^ 8) ltac:(lia)) as E2.
  rewrite Z.div_div in E1 by lia. rewrite Z.div_div in E2 by lia.
  change (2 ^ 8 * 2 ^ 8) with (2 ^ 16) in E1.
  change (2 ^ 16 * 2 ^ 8) with (2 ^ 24) in E2.
  assert (H3 : 0 <= x / 2 ^ 24 < 2 ^ 8).
  { split; [apply Z.div_pos; lia|]. apply Z.div_lt_upper_bound; lia. }
  rewrite (Z.mod_small (x / 2 ^ 24)) by lia. lia.
Qed.

Lemma read_u32_bytes x rest :
  0 <= x < 2 ^ 32 -> Wire.read_u32 (u32_bytes x ++ rest) = Some (x, rest).
Proof.
  intros Hx. pose proof (le_u32_bytes x Hx) as H.
  unfold u32_bytes in *. simpl. rewrite H. reflexivity.
Qed.

Lemma read_u32_Some cur x rest :
  Wire.read_u32 cur = Some (x, rest) -> cur = u32_bytes x ++ rest /\ 0 <= x < 2 ^ 32.
Proof.
  destruct cur as [|b0 [|b1 [|b2 [|b3 tl]]]]; cbn [Wire.read_u32]; try discriminate.
  intros [= <- <-]. rewrite u32_bytes_le. split; [reflexivity|apply le_u32_range].
Qed.

Lemma read_u32_None cur : Wire.read_u32 cur = None <-> (length cur < 4)%nat.
Proof.
  destruct cur as [|b0 [|b1 [|b2 [|b3 tl]]]]; simpl; split; intros H;
    try reflexivity; try discriminate; try lia.
Qed.

(** ** The hash *)

Lemma str_hash_step_eq h b :
  str_hash_step h b = ((h + byte_val b) * 0x01000193) mod 2 ^ 32.
Proof.
  unfold str_hash_step, wrap32, FNV_prime.
  rewrite Z.mul_mod_idemp_l by lia. reflexivity.
Qed.

Lemma fold_str_hash_step_acc data h :
  fold_left str_hash_step data h = fnv_acc h data.
Proof.
  revert h. induction data as [|b rest IH]; intros h; simpl.
  - reflexivity.
  - rewrite IH, str_hash_step_eq. reflexivity.
Qed.

Lemma fnv_acc_range data h :
  0 <= h < 2 ^ 32 -> 0 <= fnv_acc h data < 2 ^ 32.
Proof.
  revert h. induction data as [|b rest IH]; intros h Hh; simpl.
  - exact Hh.
  - apply IH. apply Z.mod_pos_bound. lia.
Qed.

Lemma str_hash_bound data : 0 <= str_hash data < 2 ^ 32.
Proof.
  unfold str_hash. rewrite fold_str_hash_step_acc. apply fnv_acc_range.
  unfold FNV_init. lia.
Qed.

(** C9. [str_hash] is a function of the bytes alone; it equals the 32-bit
    accumulation [h := (h + byte) * 0x01000193 mod 2^32] started from
    [0x811C9DC5]; its value is below [2^32], so the upper 32 bits of the
    64-bit result are zero. *)
Theorem str_hash_is_32bit_fnv (data : bytes) :
  str_hash data = fnv_acc 0x811C9DC5 data
  /\ 0 <= str_hash data < 2 ^ 32
  /\ Z.shiftr (str_hash data) 32 = 0
  /\ wrap64 (str_hash data) = str_hash data.
Proof.
  assert (E : str_hash data = fnv_acc 0x811C9DC5 data)
    by apply fold_str_hash_step_acc.
  assert (R : 0 <= str_hash data < 2 ^ 32)
    by apply str_hash_bound.
  repeat split; try lia; try exact E.
  - rewrite Z.shiftr_div_pow2 by lia. apply Z.div_small. exact R.
  - unfold wrap64. apply Z.mod_small. lia.
Qed.

Example str_hash_empty : str_hash [] = 0x811C9DC5.
Proof. reflexivity. Qed.

Example str_hash_a : str_hash (lit "a") = 0x660CF5D2.
Proof. vm_compute. reflexivity. Qed.

(** ** The request parser *)

Lemma blen_nonneg (b : bytes) : 0 <= blen b.
Proof. unfold blen. lia. Qed.

Lemma blen_app (a b : bytes) : blen (a ++ b) = blen a + blen b.
Proof. unfold blen. rewrite length_app. lia. Qed.

Lemma encode_str_fits s :
  Wire.fits32 s -> Wire.encode_str s = u32_bytes (blen s) ++ s.
Proof.
  intros Hs. unfold Wire.encode_str, Wire.fits32, wrap32 in *.
  pose proof (blen_nonneg s).
  rewrite Z.mod_small by lia. unfold blen.
  rewrite Nat2Z.id, firstn_all. reflexivity.
Qed.

Lemma read_str_Some cur n s rest :
  0 <= n -> Wire.read_str cur n = Some (s, rest) ->
  cur = s ++ rest /\ blen s = n.
Proof.
  unfold Wire.read_str. intros Hn.
  destruct (Z.ltb_spec (blen cur) n) as [|Hle]; [discriminate|].
  intros [= <- <-]. split.
  - symmetry. apply take_drop.
  - unfold blen in *. rewrite length_take. lia.
Qed.

Lemma read_str_app s rest :
  Wire.read_str (s ++ rest) (blen s) = Some (s, rest).
Proof.
  unfold Wire.read_str. rewrite blen_app.
  pose proof (blen_nonneg rest).
  destruct (Z.ltb_spec (blen s + blen rest) (blen s)); [lia|].
  unfold blen. rewrite Nat2Z.id.
  rewrite take_app_length, drop_app_length. reflexivity.
Qed.

Lemma read_str_None cur n : Wire.read_str cur n = None <-> blen cur < n.
Proof.
  unfold Wire.read_str.
  destruct (Z.ltb_spec (blen cur) n); split; intros; try done; lia.
Qed.

Lemma encode_strs_cons s l :
  Wire.fits32 s ->
  Wire.encode_strs (s :: l) = u32_bytes (blen s) ++ s ++ Wire.encode_strs l.
Proof.
  intros Hs. unfold Wire.encode_strs. cbn [map concat].
  rewrite encode_str_fits by exact Hs. rewrite <- app_assoc. reflexivity.
Qed.

Lemma parse_loop_encoded strs rest out :
  Forall Wire.fits32 strs ->
  Wire.parse_loop (length strs) (Wire.encode_strs strs ++ rest) out
  = Some (out ++ strs, rest).
Proof.
  intros Hf. revert out. induction Hf as [|s strs Hs Hf IH]; intros out.
  - simpl. rewrite app_nil_r. reflexivity.
  - rewrite encode_strs_cons by exact Hs. cbn [length Wire.parse_loop].
    rewrite <- !app_assoc.
    rewrite read_u32_bytes by (pose proof (blen_nonneg s); unfold Wire.fits32 in Hs; lia).
    rewrite read_str_app. rewrite IH. rewrite <- app_assoc. reflexivity.
Qed.

Lemma parse_loop_Some k cur out out' rest :
  Wire.parse_loop k cur out = Some (out', rest) ->
  exists strs, out' = out ++ strs /\ length strs = k
               /\ Forall Wire.fits32 strs /\ cur = Wire.encode_strs strs ++ rest.
Proof.
  revert cur out. induction k as [|k IH]; intros cur out; simpl.
  - intros [= <- <-]. exists []. rewrite app_nil_r. repeat split. constructor.
  - destruct (Wire.read_u32 cur) as [[len cur1]|] eqn:Hu; [|discriminate].
    destruct (Wire.read_str cur1 len) as [[s cur2]|] eqn:Hs; [|discriminate].
    intros Hl. apply read_u32_Some in Hu as [-> Hlen].
    apply read_str_Some in Hs as [-> Hb]; [|lia].
    apply IH in Hl as (strs & -> & <- & Hf & ->).
    assert (Hfs : Wire.fits32 s) by (unfold Wire.fits32; lia).
    exists (s :: strs). rewrite <- app_assoc. repeat split.
    + constructor; assumption.
    + rewrite encode_strs_cons by exact Hfs.
      rewrite Hb, <- !app_assoc. reflexivity.
Qed.

Lemma parse_loop_None k cur out :
  Wire.parse_loop k cur out = None ->
  exists strs rest, (length strs < k)%nat /\ Forall Wire.fits32 strs
                    /\ cur = Wire.encode_strs strs ++ rest /\ Wire.cut_short rest.
Proof.
  revert cur out. induction k as [|k IH]; intros cur out; simpl; [discriminate|].
  destruct (Wire.read_u32 cur) as [[len cur1]|] eqn:Hu.
  - destruct (Wire.read_str cur1 len) as [[s cur2]|] eqn:Hs.
    + intros Hl. pose proof Hu as Hu'. apply read_u32_Some in Hu' as [-> Hlen].
      apply read_str_Some in Hs as [-> Hb]; [|lia].
      apply IH in Hl as (strs & rest & Hk & Hf & -> & Hc).
      assert (Hfs : Wire.fits32 s) by (unfold Wire.fits32; lia).
      exists (s :: strs), rest. repeat split.
      * simpl. lia.
      * constructor; assumption.
      * rewrite encode_strs_cons by exact Hfs.
        rewrite Hb, <- !app_assoc. reflexivity.
      * exact Hc.
    + intros _. exists [], cur. repeat split.
      * simpl. lia.
      * constructor.
      * right. exists len, cur1. split; [exact Hu|].
        apply read_str_None. exact Hs.
  - intros _. exists [], cur. repeat split.
    + simpl. lia.
    + constructor.
    + left. apply read_u32_None. exact Hu.
Qed.

Lemma parse_loop_cut_short k strs rest out :
  (length strs < k)%nat -> Forall Wire.fits32 strs -> Wire.cut_short rest ->
  Wire.parse_loop k (Wire.encode_strs strs ++ rest) out = None.
Proof.
  intros Hk Hf Hc. revert k out Hk.
  induction Hf as [|s strs Hs Hf IH]; intros k out Hk.
  - destruct k as [|k]; [simpl in Hk; lia|]. simpl.
    destruct Hc as [Hshort|(len & body & Hu & Hb)].
    + apply read_u32_None in Hshort. rewrite Hshort. reflexivity.
    + rewrite Hu. apply read_str_None in Hb. rewrite Hb. reflexivity.
  - destruct k as [|k]; [simpl in Hk; lia|].
    rewrite encode_strs_cons by exact Hs. cbn [Wire.parse_loop].
    rewrite <- !app_assoc.
    rewrite read_u32_bytes by (pose proof (blen_nonneg s); unfold Wire.fits32 in Hs; lia).
    rewrite read_str_app. apply IH. simpl in Hk. lia.
Qed.

Lemma length_u32_bytes x : length (u32_bytes x) = 4%nat.
Proof. reflexivity. Qed.

(** The parser rejects exactly the malformed payloads. *)
Lemma parse_req_None_iff k_max_args data :
  Wire.parse_req k_max_args data = None <-> Wire.malformed k_max_args data.
Proof.
  unfold Wire.parse_req. split.
  - destruct (Wire.read_u32 data) as [[nstr cur]|] eqn:Hu.
    + apply read_u32_Some in Hu as [-> Hn].
      destruct (Z.ltb_spec k_max_args nstr) as [Hgt|Hle].
      * intros _. eapply Wire.mal_too_many; eauto.
      * destruct (Wire.parse_loop (Z.to_nat nstr) cur []) as [[out rest]|] eqn:Hl.
        -- apply parse_loop_Some in Hl as (strs & -> & Hlen & Hf & ->).
           destruct rest as [|b rest]; [discriminate|]. intros _.
           eapply Wire.mal_trailing with (strs := strs) (rest := b :: rest); eauto.
           lia.
        -- apply parse_loop_None in Hl as (strs & rest & Hlen & Hf & -> & Hc).
           intros _. eapply Wire.mal_cut_short with (strs := strs); eauto. lia.
    + intros _. apply Wire.mal_no_count. apply read_u32_None. exact Hu.
  - intros [Hshort|nstr cur -> Hn Hgt|nstr strs rest -> Hn Hf Hlen Hc
            |nstr strs rest -> Hn Hf Hlen Hne].
    + apply read_u32_None in Hshort. rewrite Hshort. reflexivity.
    + rewrite read_u32_bytes by exact Hn.
      destruct (Z.ltb_spec k_max_args nstr); [reflexivity|lia].
    + rewrite read_u32_bytes by exact Hn.
      destruct (Z.ltb_spec k_max_args nstr); [reflexivity|].
      rewrite parse_loop_cut_short; [reflexivity|lia|exact Hf|exact Hc].
    + rewrite read_u32_bytes by exact Hn.
      destruct (Z.ltb_spec k_max_args nstr); [reflexivity|].
      rewrite <- Hlen, Nat2Z.id, parse_loop_encoded by exact Hf.
      destruct rest; [congruence|reflexivity].
Qed.

(** The parser accepts exactly the encodings of at most [k_max_args]
    strings, and returns the strings. *)
Lemma parse_req_Some_iff k_max_args data strs :
  Wire.parse_req k_max_args data = Some strs <-> Wire.carries k_max_args data strs.
Proof.
  unfold Wire.parse_req, Wire.carries, Wire.encode_command. split.
  - destruct (Wire.read_u32 data) as [[nstr cur]|] eqn:Hu; [|discriminate].
    apply read_u32_Some in Hu as [-> Hn].
    destruct (Z.ltb_spec k_max_args nstr) as [Hgt|Hle]; [discriminate|].
    destruct (Wire.parse_loop (Z.to_nat nstr) cur []) as [[out rest]|] eqn:Hl;
      [|discriminate].
    apply parse_loop_Some in Hl as (l & -> & Hlen & Hf & ->).
    destruct rest as [|b rest]; [|discriminate]. intros [= <-].
    assert (Hnl : Z.of_nat (length l) = nstr) by lia.
    rewrite app_nil_r. unfold wrap32. rewrite Hnl, Z.mod_small by lia.
    repeat split; try lia. exact Hf.
  - intros (-> & Hk & Hl & Hf).
    unfold wrap32. rewrite Z.mod_small by lia.
    rewrite read_u32_bytes by lia.
    destruct (Z.ltb_spec k_max_args (Z.of_nat (length strs))); [lia|].
    rewrite Nat2Z.id.
    rewrite <- (app_nil_r (Wire.encode_strs strs)).
    rewrite parse_loop_encoded by exact Hf. reflexivity.
Qed.

(** ** The framer *)

Lemma u32_bytes_cons x rest :
  0 <= x < 2 ^ 32 ->
  exists b0 b1 b2 b3,
    u32_bytes x ++ rest = b0 :: b1 :: b2 :: b3 :: rest /\ le_u32 b0 b1 b2 b3 = x.
Proof.
  intros Hx. pose proof (le_u32_bytes x Hx) as H. unfold u32_bytes in *.
  eexists _, _, _, _. split; [reflexivity|exact H].
Qed.

Lemma k_max_msg_val : Server.k_max_msg = 33554432.
Proof. reflexivity. Qed.

(** One call of [try_one_request] on a buffer that starts with a complete
    frame. *)
Lemma try_one_request_frame g conn payload more :
  Server.incoming conn = Pipeline.frame payload ++ more ->
  blen payload <= Server.k_max_msg ->
  Server.try_one_request g conn =
  match Server.parse_req payload with
  | None => Ok (g, Server.set_want_close conn, false)
  | Some cmd =>
      '(g', resp) ← Server.do_request g cmd Server.Response_new;
      Ok (g', Server.mkConn (Server.fd conn) (Server.want_read conn)
                (Server.want_write conn) (Server.want_close conn) more
                (Wire.make_response resp (Server.outgoing conn)), true)
  end.
Proof.
  intros Hin Hlen. pose proof (blen_nonneg payload) as Hp.
  rewrite k_max_msg_val in Hlen.
  unfold Pipeline.frame in Hin. rewrite <- app_assoc in Hin.
  destruct (u32_bytes_cons (blen payload) (payload ++ more)) as (b0 & b1 & b2 & b3 & E & Hv);
    [lia|].
  rewrite E in Hin. unfold Server.try_one_request. rewrite Hin, Hv.
  rewrite k_max_msg_val.
  destruct (Z.ltb_spec 33554432 (blen payload)); [lia|].
  assert (Hw : wrap32 (4 + blen payload) = 4 + blen payload)
    by (unfold wrap32; apply Z.mod_small; lia).
  rewrite Hw.
  assert (Hb : blen (b0 :: b1 :: b2 :: b3 :: payload ++ more)
               = 4 + blen payload + blen more).
  { unfold blen. simpl. rewrite length_app. lia. }
  rewrite Hb. pose proof (blen_nonneg more).
  destruct (Z.ltb_spec (4 + blen payload + blen more) (4 + blen payload)); [lia|].
  unfold blen at 1. rewrite Nat2Z.id, take_app_length.
  destruct (Server.parse_req payload) as [cmd|]; [|reflexivity].
  replace (drop (Z.to_nat (4 + blen payload)) (b0 :: b1 :: b2 :: b3 :: payload ++ more))
    with more; [reflexivity|].
  replace (Z.to_nat (4 + blen payload)) with (4 + length payload)%nat
    by (unfold blen; lia).
  simpl. rewrite drop_app_length. reflexivity.
Qed.

(** C10. The frame whose payload declares [nstr = 0] and stops there: the
    parser accepts it with an empty [argv], the response queued for it has
    status [RES_ERR] and no data, the frame is consumed, the call reports
    success and [want_close] keeps its value, so a connection that was open
    stays open. *)
Theorem empty_argv_answered_with_ERR (g : Server.Global) (conn : Server.Conn) (more : bytes) :
  Server.incoming conn = Pipeline.frame (u32_bytes 0) ++ more ->
  Server.parse_req (u32_bytes 0) = Some []
  /\ Server.try_one_request g conn =
     Ok (g,
         Server.mkConn (Server.fd conn) (Server.want_read conn) (Server.want_write conn)
           (Server.want_close conn) more
           (Server.outgoing conn ++ u32_bytes 4 ++ u32_bytes Server.RES_ERR),
         true)
  /\ (Server.want_close conn = false ->
      forall g' conn' more', Server.try_one_request g conn = Ok (g', conn', more') ->
                             Server.want_close conn' = false).
Proof.
  intros Hin.
  assert (Hparse : Server.parse_req (u32_bytes 0) = Some []) by reflexivity.
  assert (Hstep : Server.try_one_request g conn =
     Ok (g,
         Server.mkConn (Server.fd conn) (Server.want_read conn) (Server.want_write conn)
           (Server.want_close conn) more
           (Server.outgoing conn ++ u32_bytes 4 ++ u32_bytes Server.RES_ERR),
         true)).
  { rewrite (try_one_request_frame g conn (u32_bytes 0) more Hin) by (vm_compute; discriminate).
    rewrite Hparse. reflexivity. }
  split; [exact Hparse|]. split; [exact Hstep|].
  intros Hopen g' conn' more'. rewrite Hstep. intros [= <- <- <-]. exact Hopen.
Qed.

Lemma empty_argv_answered_with_ERR_witness :
  let conn := Server.mkConn 5 true false false (Pipeline.frame (u32_bytes 0)) [] in
  Server.try_one_request Server.Global_init conn =
  Ok (Server.Global_init,
      Server.mkConn 5 true false false [] (u32_bytes 4 ++ u32_bytes 1), true).
Proof.
  intros conn.
  exact (proj1 (proj2 (empty_argv_answered_with_ERR Server.Global_init conn []
                         eq_refl))).
Defined.

(** A buffer without a complete frame is left as it is. *)
Lemma try_one_request_incomplete g conn :
  Pipeline.incomplete (Server.incoming conn) ->
  Server.try_one_request g conn = Ok (g, conn, false).
Proof.
  intros [Hshort|(len & body & Hu & Hle & Hb)]; unfold Server.try_one_request.
  - destruct (Server.incoming conn) as [|b0 [|b1 [|b2 [|b3 tl]]]];
      try reflexivity. simpl in Hshort. lia.
  - destruct (Server.incoming conn) as [|b0 [|b1 [|b2 [|b3 tl]]]];
      try discriminate.
    cbn [Wire.read_u32] in Hu. injection Hu as Hlen Hbody. subst body.
    rewrite Hlen. pose proof (le_u32_range b0 b1 b2 b3) as Hr. rewrite Hlen in Hr.
    rewrite k_max_msg_val in *.
    destruct (Z.ltb_spec 33554432 len); [lia|].
    assert (Hw : wrap32 (4 + len) = 4 + len)
      by (unfold wrap32; apply Z.mod_small; lia).
    rewrite Hw.
    assert (Hbl : blen (b0 :: b1 :: b2 :: b3 :: tl) = 4 + blen tl).
    { unfold blen. simpl. lia. }
    rewrite Hbl.
    destruct (Z.ltb_spec (4 + blen tl) (4 + len)); [reflexivity|lia].
Qed.

Lemma frame_length payload :
  length (Pipeline.frame payload) = (4 + length payload)%nat.
Proof. unfold Pipeline.frame. rewrite length_app. reflexivity. Qed.

(** A proper prefix of a frame holds no complete frame. *)
Lemma frame_prefix_incomplete payload buf rest :
  blen payload <= Server.k_max_msg ->
  buf ++ rest = Pipeline.frame payload ->
  (length buf < length (Pipeline.frame payload))%nat ->
  Pipeline.incomplete buf.
Proof.
  intros Hlen E Hlt. pose proof (blen_nonneg payload) as Hp.
  rewrite k_max_msg_val in Hlen.
  destruct (decide (length buf < 4)%nat) as [Hs|Hs]; [left; exact Hs|].
  right.
  destruct (u32_bytes_cons (blen payload) payload) as (b0 & b1 & b2 & b3 & Ef & Hv);
    [lia|].
  unfold Pipeline.frame in E, Hlt. rewrite Ef in E, Hlt.
  destruct buf as [|c0 [|c1 [|c2 [|c3 body]]]]; simpl in Hs; try lia.
  simpl in E. injection E as -> -> -> -> E.
  exists (blen payload), body. cbn [Wire.read_u32]. rewrite Hv.
  split; [reflexivity|]. split; [rewrite k_max_msg_val; lia|].
  simpl in Hlt. unfold blen. lia.
Qed.

(** Every prefix of a stream of frames is some of the frames, whole, and
    then a buffer that holds no complete frame. *)
Lemma stream_prefix_split payloads buf rest :
  Forall (fun p => blen p <= Server.k_max_msg) payloads ->
  buf ++ rest = concat (map Pipeline.frame payloads) ->
  exists done todo pre,
    payloads = done ++ todo
    /\ buf = concat (map Pipeline.frame done) ++ pre
    /\ pre ++ rest = concat (map Pipeline.frame todo)
    /\ Pipeline.incomplete pre.
Proof.
  intros Hf. revert buf. induction Hf as [|p ps Hp Hf IH]; intros buf E.
  - simpl in E. apply app_eq_nil in E as [-> ->].
    exists [], [], []. repeat split. left. simpl. lia.
  - cbn [map concat] in E.
    destruct (decide (length buf < length (Pipeline.frame p))%nat) as [Hlt|Hge].
    + exists [], (p :: ps), buf. repeat split; [exact E|].
      assert (E' : buf ++ take (length (Pipeline.frame p) - length buf) rest
                   = Pipeline.frame p).
      { apply (f_equal (take (length (Pipeline.frame p)))) in E.
        rewrite take_app_length in E. rewrite take_app_ge in E by lia.
        exact E. }
      eapply frame_prefix_incomplete; eauto.
    + assert (Eb : buf = Pipeline.frame p ++ drop (length (Pipeline.frame p)) buf).
      { pose proof (f_equal (take (length (Pipeline.frame p))) E) as Et.
        rewrite take_app_length in Et. rewrite take_app_le in Et by lia.
        rewrite <- Et at 1. symmetry. apply take_drop. }
      set (buf' := drop (length (Pipeline.frame p)) buf) in *.
      rewrite Eb in E. rewrite <- app_assoc in E. apply app_inv_head in E.
      destruct (IH buf' E) as (done & todo & pre & -> & E1 & E2 & Hi).
      exists (p :: done), todo, pre. repeat split; try assumption.
      rewrite Eb. cbn [map concat]. rewrite E1, <- app_assoc. reflexivity.
Qed.

Lemma dispatch_all_app g cmds1 cmds2 g' resps :
  Pipeline.dispatch_all g (cmds1 ++ cmds2) = Ok (g', resps) ->
  exists g1 resps1 resps2,
    Pipeline.dispatch_all g cmds1 = Ok (g1, resps1)
    /\ Pipeline.dispatch_all g1 cmds2 = Ok (g', resps2)
    /\ resps = resps1 ++ resps2.
Proof.
  revert g g' resps. induction cmds1 as [|c cs IH]; intros g g' resps.
  - simpl. intros H. exists g, [], resps. repeat split. exact H.
  - cbn [app Pipeline.dispatch_all].
    destruct (Server.do_request g c Server.Response_new) as [[g1 r]| |] eqn:Hd;
      cbn; try discriminate.
    destruct (Pipeline.dispatch_all g1 (cs ++ cmds2)) as [[g2 rs]| |] eqn:Hr;
      cbn; try discriminate.
    intros [= <- <-].
    destruct (IH _ _ _ Hr) as (g1' & rs1 & rs2 & H1 & H2 & ->).
    exists g1', (r :: rs1), rs2. rewrite H1. cbn. repeat split. exact H2.
Qed.

Lemma dispatch_all_length g cmds g' resps :
  Pipeline.dispatch_all g cmds = Ok (g', resps) -> length resps = length cmds.
Proof.
  revert g g' resps. induction cmds as [|c cs IH]; intros g g' resps.
  - simpl. intros [= <- <-]. reflexivity.
  - cbn [Pipeline.dispatch_all].
    destruct (Server.do_request g c Server.Response_new) as [[g1 r]| |];
      cbn; try discriminate.
    destruct (Pipeline.dispatch_all g1 cs) as [[g2 rs]| |] eqn:Hr;
      cbn; try discriminate.
    intros [= <- <-]. simpl. f_equal. eapply IH; eauto.
Qed.

Lemma make_response_app resp out :
  Wire.make_response resp out = out ++ Pipeline.response_frame resp.
Proof. reflexivity. Qed.

(** The loop of [handle_read] on a buffer that holds whole frames and then an
    incomplete rest: every frame is answered, the rest stays. *)
Lemma request_loop_frames cmds : forall fuel g conn pre g' resps,
  Forall Pipeline.well_formed cmds ->
  Server.incoming conn = concat (map Pipeline.request_frame cmds) ++ pre ->
  Pipeline.incomplete pre ->
  Pipeline.dispatch_all g cmds = Ok (g', resps) ->
  (length cmds < fuel)%nat ->
  Server.request_loop fuel g conn =
  Ok (g', Pipeline.set_buffers conn pre
            (Server.outgoing conn ++ concat (map Pipeline.response_frame resps))).
Proof.
  induction cmds as [|c cs IH]; intros fuel g conn pre g' resps Hwf Hin Hinc Hd Hfuel.
  - simpl in Hd. injection Hd as <- <-. simpl in Hin.
    destruct fuel as [|fuel]; [simpl in Hfuel; lia|].
    cbn [Server.request_loop]. rewrite try_one_request_incomplete by (rewrite Hin; exact Hinc).
    cbn. rewrite app_nil_r. destruct conn; simpl in *. subst. reflexivity.
  - destruct fuel as [|fuel]; [simpl in Hfuel; lia|].
    inversion Hwf as [|? ? [Hc Hlen] Hwf']; subst.
    cbn [map concat] in Hin. rewrite <- app_assoc in Hin.
    cbn [Pipeline.dispatch_all] in Hd.
    destruct (Server.do_request g c Server.Response_new) as [[g1 r]| |] eqn:Hreq;
      cbn in Hd; try discriminate.
    destruct (Pipeline.dispatch_all g1 cs) as [[g2 rs]| |] eqn:Hrest;
      cbn in Hd; try discriminate.
    injection Hd as <- <-.
    cbn [Server.request_loop].
    rewrite (try_one_request_frame g conn _ _ Hin Hlen).
    apply parse_req_Some_iff in Hc. unfold Server.parse_req. rewrite Hc.
    rewrite Hreq. cbn.
    erewrite IH; [| exact Hwf' | reflexivity | exact Hinc | exact Hrest
                  | simpl in Hfuel; lia].
    unfold Pipeline.set_buffers. cbn. rewrite make_response_app, <- app_assoc. reflexivity.
Qed.

Lemma dispatch_all_compose g cmds1 cmds2 g1 resps1 g2 resps2 :
  Pipeline.dispatch_all g cmds1 = Ok (g1, resps1) ->
  Pipeline.dispatch_all g1 cmds2 = Ok (g2, resps2) ->
  Pipeline.dispatch_all g (cmds1 ++ cmds2) = Ok (g2, resps1 ++ resps2).
Proof.
  revert g g1 resps1. induction cmds1 as [|c cs IH]; intros g g1 resps1.
  - simpl. intros [= <- <-] H. exact H.
  - cbn [app Pipeline.dispatch_all].
    destruct (Server.do_request g c Server.Response_new) as [[ga r]| |];
      cbn; try discriminate.
    destruct (Pipeline.dispatch_all ga cs) as [[gb rs]| |] eqn:Hr;
      cbn; try discriminate.
    intros [= <- <-] H2. rewrite (IH _ _ _ Hr H2). reflexivity.
Qed.

Lemma frames_length_ge cmds :
  (length cmds <= length (concat (map Pipeline.request_frame cmds)))%nat.
Proof.
  induction cmds as [|c cs IH]; [simpl; lia|].
  cbn [map concat length]. rewrite length_app. unfold Pipeline.request_frame at 1.
  rewrite frame_length. lia.
Qed.

(** A buffer that starts with a whole frame is not incomplete. *)
Lemma frame_not_incomplete payload more :
  blen payload <= Server.k_max_msg ->
  ~ Pipeline.incomplete (Pipeline.frame payload ++ more).
Proof.
  intros Hlen Hinc. pose proof (blen_nonneg payload) as Hp.
  rewrite k_max_msg_val in Hlen.
  unfold Pipeline.frame in Hinc. rewrite <- app_assoc in Hinc.
  destruct (u32_bytes_cons (blen payload) (payload ++ more))
    as (b0 & b1 & b2 & b3 & E & Hv); [lia|].
  rewrite E in Hinc. destruct Hinc as [Hs|(len & body & Hu & _ & Hb)].
  - simpl in Hs. lia.
  - cbn [Wire.read_u32] in Hu. injection Hu as <- <-.
    rewrite Hv, blen_app in Hb. pose proof (blen_nonneg more). lia.
Qed.

Lemma well_formed_payloads cmds :
  Forall Pipeline.well_formed cmds ->
  Forall (fun p => blen p <= Server.k_max_msg) (map Wire.encode_command cmds).
Proof.
  induction 1 as [|c cs [_ Hc] _ IH]; cbn [map]; constructor; assumption.
Qed.

Lemma request_frames_map cmds :
  map Pipeline.request_frame cmds = map Pipeline.frame (map Wire.encode_command cmds).
Proof. rewrite map_map. reflexivity. Qed.

(** [handle_write] as called at the end of [handle_read]: what was queued is
    what went out followed by what stays queued. *)
Lemma handle_write_splits conn w :
  Server.outgoing conn <> [] -> w <> Server.WError ->
  exists conn' sent,
    Server.handle_write conn w = Ok (conn', sent)
    /\ sent ++ Server.outgoing conn' = Server.outgoing conn
    /\ Server.incoming conn' = Server.incoming conn
    /\ Server.want_close conn' = Server.want_close conn.
Proof.
  intros Hne Hw. unfold Server.handle_write.
  destruct (Server.outgoing conn) as [|b out] eqn:Ho; [congruence|].
  destruct w as [| |rv]; [|congruence|].
  - exists conn, []. rewrite Ho. repeat split.
  - destruct (drop (Z.to_nat rv) (b :: out)) as [|c rest] eqn:Hd.
    + eexists _, _. split; [reflexivity|]. cbn. rewrite <- Hd.
      rewrite take_drop. repeat split.
    + eexists _, _. split; [reflexivity|]. cbn. rewrite <- Hd.
      rewrite take_drop. repeat split.
Qed.

(** One call of [handle_read] on a chunk that extends the buffer to whole
    frames followed by an incomplete rest. *)
Lemma handle_read_frames g conn chunk w cmds pre g' resps :
  chunk <> [] -> w <> Server.WError ->
  Forall Pipeline.well_formed cmds ->
  Server.incoming conn ++ chunk = concat (map Pipeline.request_frame cmds) ++ pre ->
  Pipeline.incomplete pre ->
  Pipeline.dispatch_all g cmds = Ok (g', resps) ->
  exists conn' sent,
    Server.handle_read g conn (Server.RBytes chunk) w = Ok (g', conn', sent)
    /\ Server.incoming conn' = pre
    /\ sent ++ Server.outgoing conn'
       = Server.outgoing conn ++ concat (map Pipeline.response_frame resps)
    /\ Server.want_close conn' = Server.want_close conn.
Proof.
  intros Hchunk Hw Hwf Hin Hinc Hd.
  unfold Server.handle_read. destruct chunk as [|b chunk]; [congruence|].
  erewrite request_loop_frames with (cmds := cmds) (pre := pre);
    [| exact Hwf | exact Hin | exact Hinc | exact Hd |].
  2:{ cbn [Server.incoming]. rewrite Hin, length_app.
      pose proof (frames_length_ge cmds). lia. }
  cbn.
  destruct (Server.outgoing conn ++ concat (map Pipeline.response_frame resps))
    as [|o out] eqn:Ho.
  - eexists _, _. split; [reflexivity|]. cbn. repeat split.
  - set (conn3 := Server.mkConn (Server.fd conn) false true (Server.want_close conn)
                    pre (o :: out)).
    destruct (handle_write_splits conn3 w) as (conn4 & sent & Hhw & Hs & Hi & Hc);
      [discriminate|exact Hw|].
    rewrite Hhw. cbn. exists conn4, sent. split; [reflexivity|].
    rewrite Hs, Hi, Hc. subst conn3. repeat split.
Qed.


(** ** The hash map *)

Section ListFacts.

Context {A : Type}.

Lemma concat_alter_cons (x : A) (l : list (list A)) i :
  (i < length l)%nat -> concat (alter (cons x) i l) ≡ₚ x :: concat l.
Proof.
  revert i. induction l as [|c l IH]; intros i Hi; simpl in Hi; [lia|].
  destruct i as [|i]; simpl.
  - reflexivity.
  - change (list_alter (cons x) i l) with (alter (cons x) i l).
    rewrite IH by lia. symmetry. apply Permutation_middle.
Qed.

Lemma concat_insert_nil (l : list (list A)) i c :
  l !! i = Some c -> concat l ≡ₚ c ++ concat (<[i := []]> l).
Proof.
  revert i. induction l as [|d l IH]; intros i Hi; [discriminate|].
  destruct i as [|i]; simpl in *.
  - injection Hi as ->. reflexivity.
  - rewrite (IH _ Hi). rewrite !app_assoc.
    apply Permutation_app_tail, Permutation_app_comm.
Qed.

Lemma concat_lookup_elem (l : list (list A)) (x : A) :
  x ∈ concat l <-> exists i c, l !! i = Some c /\ x ∈ c.
Proof.
  split.
  - intros Hx. apply list_elem_of_In, in_concat in Hx as (c & Hc & Hx).
    apply list_elem_of_In, list_elem_of_lookup in Hc as [i Hi].
    exists i, c. split; [exact Hi|]. apply list_elem_of_In. exact Hx.
  - intros (i & c & Hi & Hx). apply list_elem_of_In, in_concat.
    exists c. split; apply list_elem_of_In; [|exact Hx].
    apply list_elem_of_lookup. eauto.
Qed.

End ListFacts.

Section HMapFacts.

Import HT HTInv.

Variable hcode : Z -> Z.
Hypothesis hcode_nonneg : forall p, 0 <= hcode p.

Lemma land_mask_bound hc msk : 0 <= hc -> 0 <= msk -> 0 <= Z.land hc msk <= msk.
Proof.
  intros Hh Hm. split; [apply Z.land_nonneg; lia|].
  rewrite <- (Z2N.id hc), <- (Z2N.id msk) by lia.
  rewrite <- N2Z.inj_land. apply N2Z.inj_le, N.land_le_r.
Qed.

Lemma h_pos_lt t p :
  tab_ok hcode t -> tab t <> [] -> (h_pos t (hcode p) < length (tab t))%nat.
Proof.
  intros (Hm & [Hnil|Hlen] & _) Hne; [congruence|].
  unfold h_pos, cap in *.
  pose proof (land_mask_bound (hcode p) (mask t) (hcode_nonneg p) Hm). lia.
Qed.

Lemma h_init_ok n : 0 < n -> tab_ok hcode (h_init n) /\ tab_nodes (h_init n) = []
                             /\ tab (h_init n) <> [] /\ cap (h_init n) = n
                             /\ size (h_init n) = 0.
Proof.
  intros Hn. unfold h_init, tab_ok, tab_nodes, cap. cbn.
  assert (Hc : forall k, concat (replicate k ([] : list Z)) = []).
  { induction k; simpl; auto. }
  rewrite Hc. repeat split; try lia.
  - right. rewrite length_replicate. lia.
  - intros i chain p Hi Hp. apply lookup_replicate in Hi as [-> _].
    inversion Hp.
  - destruct (Z.to_nat n) eqn:E; [lia|discriminate].
Qed.

Lemma h_insert_ok t p :
  tab_ok hcode t -> tab t <> [] ->
  tab_ok hcode (h_insert hcode t p)
  /\ tab_nodes (h_insert hcode t p) ≡ₚ p :: tab_nodes t
  /\ mask (h_insert hcode t p) = mask t
  /\ size (h_insert hcode t p) = size t + 1
  /\ tab (h_insert hcode t p) <> [].
Proof.
  intros Hok Hne. pose proof (h_pos_lt t p Hok Hne) as Hpos.
  destruct Hok as (Hm & Hlen & Hsz & Hb).
  assert (Hperm : tab_nodes (h_insert hcode t p) ≡ₚ p :: tab_nodes t).
  { unfold tab_nodes, h_insert. cbn. apply concat_alter_cons. exact Hpos. }
  unfold tab_ok. repeat split.
  - exact Hm.
  - right. unfold h_insert, cap. cbn. rewrite length_alter.
    destruct Hlen as [?|Hlen]; [congruence|exact Hlen].
  - rewrite Hperm. unfold h_insert. cbn. rewrite Hsz. cbn. lia.
  - intros i chain q Hi Hq. unfold h_insert in Hi |- *. cbn in Hi.
    unfold h_pos at 1. cbn [mask]. fold (h_pos t (hcode q)).
    destruct (decide (i = h_pos t (hcode p))) as [->|Hneq].
    + rewrite list_lookup_alter_eq in Hi.
      destruct (tab t !! h_pos t (hcode p)) as [c|] eqn:Hc; [|discriminate].
      injection Hi as <-. apply elem_of_cons in Hq as [->|Hq]; [reflexivity|].
      eapply Hb; eauto.
    + rewrite list_lookup_alter_ne in Hi by congruence. eapply Hb; eauto.
  - exact Hperm.
  - unfold h_insert. cbn. intros E. apply (f_equal length) in E.
    rewrite length_alter in E. destruct (tab t); [congruence|discriminate].
Qed.

Lemma fold_h_insert_ok ps : forall t,
  tab_ok hcode t -> tab t <> [] ->
  tab_ok hcode (fold_left (h_insert hcode) ps t)
  /\ tab_nodes (fold_left (h_insert hcode) ps t) ≡ₚ ps ++ tab_nodes t
  /\ mask (fold_left (h_insert hcode) ps t) = mask t
  /\ size (fold_left (h_insert hcode) ps t) = size t + Z.of_nat (length ps)
  /\ tab (fold_left (h_insert hcode) ps t) <> [].
Proof.
  induction ps as [|p ps IH]; intros t Hok Hne; simpl.
  - split; [exact Hok|]. split; [reflexivity|]. split; [reflexivity|].
    split; [lia|exact Hne].
  - destruct (h_insert_ok t p Hok Hne) as (Hok1 & Hp1 & Hm1 & Hs1 & Hn1).
    destruct (IH _ Hok1 Hn1) as (Hok2 & Hp2 & Hm2 & Hs2 & Hn2).
    split; [exact Hok2|]. split.
    { rewrite Hp2, Hp1. symmetry. apply Permutation_middle. }
    split; [congruence|]. split; [lia|exact Hn2].
Qed.

Lemma loop_inv_mono s s' m : s <= s' -> loop_inv hcode s m -> loop_inv hcode s' m.
Proof.
  intros Hs (H1 & H2 & H3 & H4 & H5 & H6).
  split; [exact H1|]. split; [exact H2|]. split; [exact H3|]. split; [exact H4|].
  split.
  - intros Hn. specialize (H5 Hn). lia.
  - intros Hn. destruct (H6 Hn) as (A1 & A2 & A3 & A4 & A5 & A6).
    repeat split; try assumption. lia.
Qed.

Lemma tab_nodes_nil_size t : tab_ok hcode t -> size t = 0 -> tab_nodes t = [].
Proof.
  intros (_ & _ & Hsz & _) H0. rewrite Hsz in H0.
  destruct (tab_nodes t); [reflexivity|simpl in H0; lia].
Qed.

Lemma tab_ok_size_nonneg t : tab_ok hcode t -> 0 <= size t.
Proof. intros (_ & _ & Hsz & _). lia. Qed.

Lemma tab_ok_nil_size t : tab_ok hcode t -> tab t = [] -> size t = 0.
Proof.
  intros (_ & _ & Hsz & _) E. rewrite Hsz. unfold tab_nodes. rewrite E. reflexivity.
Qed.

Lemma tab_ok_zero : tab_ok hcode HTab_zero.
Proof.
  unfold tab_ok, HTab_zero, tab_nodes. cbn. repeat split; try lia.
  - left. reflexivity.
  - intros i chain p Hi. rewrite lookup_nil in Hi. discriminate.
Qed.

(** A table that counts a node has a slot that is not empty. *)
Lemma tab_ok_occupied t :
  tab_ok hcode t -> 0 < size t ->
  exists i p chain, tab t !! i = Some (p :: chain).
Proof.
  intros (_ & _ & Hsz & _) Hpos. rewrite Hsz in Hpos.
  destruct (tab_nodes t) as [|x l] eqn:E; [simpl in Hpos; lia|].
  assert (Hx : x ∈ concat (tab t)).
  { unfold tab_nodes in E. rewrite E. left. }
  apply concat_lookup_elem in Hx as (i & c & Hi & Hc).
  destruct c as [|p chain]; [inversion Hc|]. eauto.
Qed.

(** While [older] counts a node, [migrate_pos] is a slot of [older]. *)
Lemma migrate_pos_in_range s m :
  loop_inv hcode s m -> 0 < size (older m) ->
  tab (older m) <> [] /\ (Z.to_nat (migrate_pos m) < length (tab (older m)))%nat.
Proof.
  intros (_ & Hok & Hmp & _ & _ & H6) Hpos.
  assert (Hne : tab (older m) <> []).
  { intros E. pose proof (tab_ok_nil_size _ Hok E). lia. }
  split; [exact Hne|].
  destruct (H6 Hne) as (_ & _ & _ & _ & Hdr & _).
  destruct (tab_ok_occupied _ Hok Hpos) as (i & p & chain & Hi).
  destruct (decide (i < Z.to_nat (migrate_pos m))%nat) as [Hlt|Hge].
  - specialize (Hdr i _ Hlt Hi). discriminate.
  - apply lookup_lt_Some in Hi. lia.
Qed.

Lemma move_slot_inv s m chain :
  loop_inv hcode s m ->
  tab (older m) !! Z.to_nat (migrate_pos m) = Some chain ->
  loop_inv hcode (s - 1) (move_slot hcode m chain)
  /\ hm_nodes (move_slot hcode m chain) ≡ₚ hm_nodes m.
Proof.
  intros (Hn & Ho & Hmp & H4 & H5 & H6) Hslot.
  assert (Hne : tab (older m) <> []).
  { intros E. rewrite E, lookup_nil in Hslot. discriminate. }
  destruct (H6 Hne) as (Hnn & Hcap & Hc4 & Hmpc & Hdr & HT).
  destruct (fold_h_insert_ok chain _ Hn Hnn) as (Hn' & Hp' & Hm' & Hs' & Hnn').
  pose proof (lookup_lt_Some _ _ _ Hslot) as Hlt.
  pose proof (concat_insert_nil _ _ _ Hslot) as Hperm.
  destruct Ho as (Hom & Holen & Hosz & Hob).
  assert (Ho' : tab_ok hcode (older (move_slot hcode m chain))).
  { unfold move_slot, tab_ok, tab_nodes, cap. cbn. repeat split.
    - exact Hom.
    - right. rewrite length_insert. destruct Holen; [congruence|assumption].
    - rewrite Hosz. unfold tab_nodes. rewrite Hperm, length_app. lia.
    - intros i c p Hi Hp. unfold h_pos. cbn [mask]. fold (h_pos (older m) (hcode p)).
      destruct (decide (i = Z.to_nat (migrate_pos m))) as [->|Hneq].
      + rewrite list_lookup_insert_eq in Hi by exact Hlt.
        injection Hi as <-. inversion Hp.
      + rewrite list_lookup_insert_ne in Hi by congruence. eapply Hob; eauto. }
  assert (Holen' : Z.of_nat (length (tab (older m))) = cap (older m)).
  { destruct Holen; [congruence|assumption]. }
  split.
  - unfold loop_inv. split; [exact Hn'|]. split; [exact Ho'|].
    unfold move_slot. cbn [newer older migrate_pos tab mask size].
    split; [lia|]. split.
    { intros _. unfold cap. rewrite Hm'. apply H4. exact Hnn. }
    split.
    { intros E. apply (f_equal length) in E. rewrite length_insert in E.
      destruct (tab (older m)); [congruence|discriminate]. }
    intros _. unfold cap in *. cbn [mask size]. rewrite Hm', Hs'.
    repeat split; try assumption; try lia.
    unfold drained. cbn [migrate_pos older tab]. intros i c Hi Hc.
    destruct (decide (i = Z.to_nat (migrate_pos m))) as [->|Hneq].
    + rewrite list_lookup_insert_eq in Hc by exact Hlt. congruence.
    + rewrite list_lookup_insert_ne in Hc by congruence.
      apply (Hdr i); [lia|exact Hc].
  - unfold hm_nodes, move_slot. cbn [newer older].
    rewrite Hp'. unfold tab_nodes at 2 4. cbn [tab]. rewrite Hperm.
    rewrite <- !app_assoc. rewrite (app_assoc chain), (app_assoc (tab_nodes (newer m))).
    apply Permutation_app_tail, Permutation_app_comm.
Qed.

Lemma skip_slot_inv s m :
  loop_inv hcode s m ->
  tab (older m) !! Z.to_nat (migrate_pos m) = Some [] ->
  loop_inv hcode (s - 1) (skip_slot m) /\ hm_nodes (skip_slot m) = hm_nodes m.
Proof.
  intros (Hn & Ho & Hmp & H4 & H5 & H6) Hslot.
  assert (Hne : tab (older m) <> []).
  { intros E. rewrite E, lookup_nil in Hslot. discriminate. }
  destruct (H6 Hne) as (Hnn & Hcap & Hc4 & Hmpc & Hdr & HT).
  pose proof (lookup_lt_Some _ _ _ Hslot) as Hlt.
  assert (Holen' : Z.of_nat (length (tab (older m))) = cap (older m)).
  { destruct Ho as (_ & [?|?] & _); [congruence|assumption]. }
  split; [|reflexivity].
  unfold loop_inv, skip_slot. cbn [newer older migrate_pos].
  split; [exact Hn|]. split; [exact Ho|]. split; [lia|]. split; [exact H4|].
  split; [intros E; congruence|]. intros _.
  repeat split; try assumption; try lia.
  unfold drained. cbn [migrate_pos older]. intros i c Hi Hc.
  destruct (decide (i = Z.to_nat (migrate_pos m))) as [->|Hneq].
  - congruence.
  - apply (Hdr i); [lia|exact Hc].
Qed.

Lemma help_loop_step fuel nwork m :
  help_loop hcode (S fuel) nwork m =
  if (nwork <? k_rehashing_work)%nat && (0 <? size (older m)) then
    match tab (older m) !! Z.to_nat (migrate_pos m) with
    | Some (p :: chain) => help_loop hcode fuel (S nwork) (move_slot hcode m (p :: chain))
    | _ => help_loop hcode fuel nwork (skip_slot m)
    end
  else Ok m.
Proof. reflexivity. Qed.

(** One turn of the help loop, when it is taken. *)
Lemma help_turn_inv s m :
  loop_inv hcode s m -> 0 < size (older m) ->
  match tab (older m) !! Z.to_nat (migrate_pos m) with
  | Some (p :: chain) =>
      loop_inv hcode (s - 1) (move_slot hcode m (p :: chain))
      /\ hm_nodes (move_slot hcode m (p :: chain)) ≡ₚ hm_nodes m
  | _ => loop_inv hcode (s - 1) (skip_slot m) /\ hm_nodes (skip_slot m) ≡ₚ hm_nodes m
  end.
Proof.
  intros Hinv Hpos.
  destruct (migrate_pos_in_range s m Hinv Hpos) as [Hne Hlt].
  destruct (tab (older m) !! Z.to_nat (migrate_pos m)) as [[|p chain]|] eqn:Hslot.
  - destruct (skip_slot_inv s m Hinv Hslot) as [H1 H2]. rewrite H2. split; auto.
  - apply move_slot_inv; assumption.
  - apply lookup_ge_None in Hslot. lia.
Qed.

Lemma slots_left_move m chain :
  0 <= migrate_pos m -> slots_left (move_slot hcode m chain) = pred (slots_left m).
Proof.
  intros Hmp. unfold slots_left, move_slot. cbn [older tab migrate_pos].
  rewrite length_insert. lia.
Qed.

Lemma slots_left_skip m :
  0 <= migrate_pos m -> slots_left (skip_slot m) = pred (slots_left m).
Proof. intros Hmp. unfold slots_left, skip_slot. cbn [older tab migrate_pos]. lia. Qed.

(** The help loop ends by its own test within the iterations it is given,
    keeps the invariant and keeps the nodes. *)
Lemma help_loop_inv fuel : forall nwork s m,
  loop_inv hcode s m -> (slots_left m <= fuel)%nat ->
  exists m', help_loop hcode fuel nwork m = Ok m'
             /\ loop_inv hcode s m' /\ hm_nodes m' ≡ₚ hm_nodes m.
Proof.
  induction fuel as [|fuel IH]; intros nwork s m Hinv Hfuel.
  - exists m. split; [|split; [exact Hinv|reflexivity]]. cbn [help_loop].
    destruct (Z.ltb_spec 0 (size (older m))) as [Hpos|Hz];
      [|rewrite andb_false_r; reflexivity].
    destruct (migrate_pos_in_range s m Hinv Hpos) as [_ Hlt].
    unfold slots_left in Hfuel. lia.
  - rewrite help_loop_step.
    destruct ((nwork <? k_rehashing_work)%nat && (0 <? size (older m))) eqn:Hcond;
      [|exists m; split; [reflexivity|split; [exact Hinv|reflexivity]]].
    apply andb_prop in Hcond as [_ Hpos]. apply Z.ltb_lt in Hpos.
    pose proof (help_turn_inv s m Hinv Hpos) as Hturn.
    assert (Hmp : 0 <= migrate_pos m) by (destruct Hinv as (_ & _ & ? & _); assumption).
    destruct (migrate_pos_in_range s m Hinv Hpos) as [_ Hlt].
    destruct (tab (older m) !! Z.to_nat (migrate_pos m)) as [[|p chain]|];
      destruct Hturn as [Hi Hp];
      apply (loop_inv_mono (s - 1) s) in Hi; try lia;
      match goal with
      | |- context [help_loop hcode fuel ?n ?mm] =>
          destruct (IH n s mm Hi) as (m' & Hrun & Hi' & Hp');
          [ first [rewrite slots_left_move by exact Hmp
                  |rewrite slots_left_skip by exact Hmp];
            unfold slots_left in *; lia
          | exists m'; split; [exact Hrun|split; [exact Hi'|rewrite Hp'; exact Hp]] ]
      end.
Qed.

(** The first turn of the help loop pays for the node that [hm_insert] has
    just pushed. *)
Lemma help_loop_first fuel s m :
  loop_inv hcode s m -> 0 < size (older m) -> (slots_left m <= S fuel)%nat ->
  exists m', help_loop hcode (S fuel) 0 m = Ok m'
             /\ loop_inv hcode (s - 1) m' /\ hm_nodes m' ≡ₚ hm_nodes m.
Proof.
  intros Hinv Hpos Hfuel. rewrite help_loop_step.
  assert (Hc : (0 <? k_rehashing_work)%nat && (0 <? size (older m)) = true).
  { apply andb_true_intro. split; [reflexivity|apply Z.ltb_lt; exact Hpos]. }
  rewrite Hc. pose proof (help_turn_inv s m Hinv Hpos) as Hturn.
  assert (Hmp : 0 <= migrate_pos m) by (destruct Hinv as (_ & _ & ? & _); assumption).
  destruct (tab (older m) !! Z.to_nat (migrate_pos m)) as [[|p chain]|];
    destruct Hturn as [Hi Hp];
    match goal with
    | |- context [help_loop hcode fuel ?n ?mm] =>
        destruct (help_loop_inv fuel n (s - 1) mm Hi) as (m' & Hrun & Hi' & Hp');
        [ first [rewrite slots_left_move by exact Hmp
                |rewrite slots_left_skip by exact Hmp];
          lia
        | exists m'; split; [exact Hrun|split; [exact Hi'|rewrite Hp'; exact Hp]] ]
    end.
Qed.

Lemma help_loop_idle fuel nwork m :
  size (older m) <= 0 -> help_loop hcode fuel nwork m = Ok m.
Proof.
  intros Hz. destruct fuel as [|fuel]; [cbn [help_loop]|rewrite help_loop_step];
    (destruct (Z.ltb_spec 0 (size (older m))); [lia|]);
    rewrite andb_false_r; reflexivity.
Qed.

Lemma hm_help_rehashing_inv s m :
  loop_inv hcode s m -> 0 <= s <= 1 -> (s = 1 -> tab (older m) <> []) ->
  exists m', hm_help_rehashing hcode m = Ok m'
             /\ hm_inv hcode m' /\ hm_nodes m' ≡ₚ hm_nodes m.
Proof.
  intros Hinv Hs Hslack. unfold hm_inv, hm_help_rehashing.
  destruct (decide (0 < size (older m))) as [Hpos|Hzero].
  - assert (Hloop : exists m', help_loop hcode (length (tab (older m))) 0 m = Ok m'
                               /\ loop_inv hcode 0 m' /\ hm_nodes m' ≡ₚ hm_nodes m).
    { destruct (migrate_pos_in_range s m Hinv Hpos) as [Hne Hlt].
      destruct (length (tab (older m))) as [|fuel] eqn:El; [lia|].
      destruct (help_loop_first fuel s m Hinv Hpos) as (m' & Hrun & Hi & Hp).
      { unfold slots_left. lia. }
      exists m'. split; [exact Hrun|]. split; [|exact Hp].
      eapply loop_inv_mono; [|exact Hi]. lia. }
    destruct Hloop as (m' & Hrun & Hi & Hp). rewrite Hrun. cbn [mbind res_bind].
    eexists. split; [reflexivity|].
    pose proof Hi as Hi0. destruct Hi as (Hn & Ho & Hmp & H4 & H5 & H6).
    destruct (Z.eqb_spec (size (older m')) 0) as [Hz|Hnz]; [|split; assumption].
    pose proof (tab_nodes_nil_size _ Ho Hz) as Hnil. split.
    + unfold loop_inv. cbn [newer older migrate_pos].
      split; [exact Hn|]. split; [apply tab_ok_zero|]. split; [exact Hmp|].
      split; [exact H4|]. split; [|intros C; exfalso; apply C; reflexivity].
      intros _. destruct (decide (tab (older m') = [])) as [E|Hne].
      * specialize (H5 E). lia.
      * destruct (H6 Hne) as (_ & Hcap & Hc4 & Hmpc & _ & HT).
        unfold k_max_load_factor in *. lia.
    + rewrite <- Hp. unfold hm_nodes. cbn [newer older]. rewrite Hnil.
      unfold tab_nodes at 2. cbn. reflexivity.
  - rewrite help_loop_idle by lia. cbn [mbind res_bind].
    eexists. split; [reflexivity|].
    destruct Hinv as (Hn & Ho & Hmp & H4 & H5 & H6).
    pose proof (tab_ok_size_nonneg _ Ho) as Hge.
    assert (Hz : size (older m) = 0) by lia. rewrite Hz. cbn.
    pose proof (tab_nodes_nil_size _ Ho Hz) as Hnil. split.
    + unfold loop_inv. cbn [newer older migrate_pos].
      split; [exact Hn|]. split; [apply tab_ok_zero|]. split; [exact Hmp|].
      split; [exact H4|]. split; [|intros C; exfalso; apply C; reflexivity].
      intros _. destruct (decide (tab (older m) = [])) as [E|Hne].
      * specialize (H5 E). assert (s = 0) by (destruct (decide (s = 1)); [tauto|lia]).
        lia.
      * destruct (H6 Hne) as (_ & Hcap & Hc4 & Hmpc & _ & HT).
        unfold k_max_load_factor in *. lia.
    + unfold hm_nodes. cbn [newer older]. rewrite Hnil.
      unfold tab_nodes at 2. cbn. reflexivity.
Qed.

Lemma chain_find_found hc eq chain p :
  chain_find hcode hc eq chain = p -> p <> 0 ->
  p ∈ chain /\ hcode p = hc /\ eq p = true.
Proof.
  induction chain as [|q rest IH]; simpl; intros Hf Hp; [congruence|].
  destruct ((hcode q =? hc) && eq q) eqn:Hm.
  - subst q. apply andb_prop in Hm as [Hh He]. apply Z.eqb_eq in Hh.
    repeat split; try assumption. left.
  - destruct (IH Hf Hp) as (Hin & Hh & He). repeat split; try assumption.
    right. exact Hin.
Qed.

Lemma chain_find_missed hc eq chain :
  chain_find hcode hc eq chain = 0 -> 0 ∉ chain ->
  forall q, q ∈ chain -> hcode q = hc -> eq q = false.
Proof.
  induction chain as [|r rest IH]; simpl; intros Hf H0 q Hq Hh; [inversion Hq|].
  apply not_elem_of_cons in H0 as [H0r H0].
  destruct ((hcode r =? hc) && eq r) eqn:Hm; [congruence|].
  apply elem_of_cons in Hq as [->|Hq].
  - apply andb_false_iff in Hm as [Hm|Hm]; [|exact Hm].
    apply Z.eqb_neq in Hm. congruence.
  - eapply IH; eauto.
Qed.

Lemma h_lookup_found t hc eq p :
  h_lookup hcode t hc eq = p -> p <> 0 ->
  p ∈ tab_nodes t /\ hcode p = hc /\ eq p = true.
Proof.
  unfold h_lookup. intros Hl Hp.
  destruct (tab t !! h_pos t hc) as [chain|] eqn:Hc; [|congruence].
  destruct (chain_find_found _ _ _ _ Hl Hp) as (Hin & Hh & He).
  repeat split; try assumption.
  apply concat_lookup_elem. eauto.
Qed.

Lemma h_lookup_missed t hc eq :
  tab_ok hcode t -> h_lookup hcode t hc eq = 0 -> 0 ∉ tab_nodes t ->
  forall q, q ∈ tab_nodes t -> hcode q = hc -> eq q = false.
Proof.
  intros (_ & _ & _ & Hb) Hl H0 q Hq Hh. unfold h_lookup in Hl.
  apply concat_lookup_elem in Hq as (i & c & Hi & Hq).
  pose proof (Hb _ _ _ Hi Hq) as Hpos. rewrite Hh in Hpos. rewrite Hpos, Hi in Hl.
  eapply chain_find_missed; eauto.
  intros Hz. apply H0. apply concat_lookup_elem. eauto.
Qed.

(** [hm_lookup]: the map keeps its nodes; the result is a node that matches,
    or [nullptr] when no node matches. *)
Lemma hm_lookup_spec m hc eq :
  hm_inv hcode m ->
  exists m1 p,
    hm_lookup hcode m hc eq = Ok (m1, p)
    /\ hm_inv hcode m1 /\ hm_nodes m1 ≡ₚ hm_nodes m
    /\ (p <> 0 -> p ∈ hm_nodes m /\ hcode p = hc /\ eq p = true)
    /\ (p = 0 -> 0 ∉ hm_nodes m ->
        forall q, q ∈ hm_nodes m -> hcode q = hc -> eq q = false).
Proof.
  intros Hinv. unfold hm_lookup.
  destruct (hm_help_rehashing_inv 0 m Hinv ltac:(lia) ltac:(lia)) as (m1 & Hrun & Hi & Hp).
  rewrite Hrun. cbn [mbind res_bind]. eexists _, _. split; [reflexivity|].
  split; [exact Hi|]. split; [exact Hp|].
  destruct Hi as (Hn & Ho & _).
  destruct (Z.eqb_spec (h_lookup hcode (newer m1) hc eq) 0) as [E|E].
  - split.
    + intros Hne. destruct (h_lookup_found _ _ _ _ eq_refl Hne) as (Hin & Hh & He).
      repeat split; try assumption. rewrite <- Hp. unfold hm_nodes.
      apply elem_of_app. right. exact Hin.
    + intros E2 H0 q Hq Hh. rewrite <- Hp in Hq, H0. unfold hm_nodes in Hq, H0.
      apply not_elem_of_app in H0 as [H0n H0o].
      apply elem_of_app in Hq as [Hq|Hq].
      * eapply (h_lookup_missed (newer m1)); eauto.
      * eapply (h_lookup_missed (older m1)); eauto.
  - split.
    + intros _. destruct (h_lookup_found _ _ _ _ eq_refl E) as (Hin & Hh & He).
      repeat split; try assumption. rewrite <- Hp. unfold hm_nodes.
      apply elem_of_app. left. exact Hin.
    + intros E2. congruence.
Qed.

Lemma hm_insert_spec m node :
  hm_inv hcode m ->
  exists m', hm_insert hcode m node = Ok m'
             /\ hm_inv hcode m' /\ hm_nodes m' ≡ₚ node :: hm_nodes m.
Proof.
  intros Hinv. pose proof Hinv as (Hn & Ho & Hmp & H4 & H5 & H6).
  unfold hm_insert.
  set (nw0 := match tab (newer m) with [] => h_init k_init_buckets | _ => newer m end).
  assert (Hnw0 : tab_ok hcode nw0 /\ tab nw0 <> [] /\ 4 <= cap nw0
                 /\ tab_nodes nw0 = tab_nodes (newer m) /\ size nw0 = size (newer m)
                 /\ (tab (newer m) <> [] -> nw0 = newer m)).
  { subst nw0. destruct (tab (newer m)) as [|c l] eqn:E.
    - destruct (h_init_ok k_init_buckets ltac:(unfold k_init_buckets; lia))
        as (A1 & A2 & A3 & A4 & A5).
      rewrite A2, A4, A5. unfold tab_nodes. rewrite E.
      pose proof (tab_ok_nil_size _ Hn E).
      split_and!; try assumption; try (unfold k_init_buckets; lia); try congruence.
    - split_and!; try assumption; try congruence.
      apply H4. congruence. }
  destruct Hnw0 as (Hok0 & Hne0 & Hcap0 & Hnodes0 & Hsz0 & Hsame).
  destruct (h_insert_ok nw0 node Hok0 Hne0) as (Hok1 & Hp1 & Hm1 & Hs1 & Hne1).
  set (nw := h_insert hcode nw0 node) in *.
  assert (Hcap1 : cap nw = cap nw0) by (unfold cap; lia).
  destruct (decide (tab (older m) = [])) as [Eo|Hneo].
  - (* no migration in progress *)
    pose proof (tab_ok_nil_size _ Ho Eo) as Hoz.
    assert (Holdnil : tab_nodes (older m) = []) by (unfold tab_nodes; rewrite Eo; reflexivity).
    destruct (Z.ltb_spec (k_max_load_factor * (mask nw + 1)) (size nw)) as [Htrig|Hno].
    + destruct (h_init_ok (2 * (mask nw + 1)) ltac:(unfold cap in *; lia))
        as (B1 & B2 & B3 & B4 & B5).
      assert (Hsznw : size nw <= k_max_load_factor * cap nw + 1).
      { destruct (decide (tab (newer m) = [])) as [E|E].
        - pose proof (tab_ok_nil_size _ Hn E). unfold k_max_load_factor, cap in *. lia.
        - rewrite (Hsame E) in *. specialize (H5 Eo).
          unfold k_max_load_factor, cap in *. lia. }
      assert (Hl : loop_inv hcode 0 (mkHMap (h_init (2 * (mask nw + 1))) nw 0)).
      { unfold loop_inv. cbn [newer older migrate_pos].
        split; [exact B1|]. split; [exact Hok1|]. split; [lia|].
        split; [intros _; rewrite B4; unfold cap in *; lia|].
        split; [intros C; congruence|]. intros _.
        rewrite B4, B5. unfold cap in *.
        split_and!; try assumption; try lia.
        unfold drained. cbn [migrate_pos]. intros i c Hi. simpl in Hi. lia. }
      destruct (hm_help_rehashing_inv 0 _ Hl ltac:(lia) ltac:(lia)) as (m' & Hrun & Hi & Hp).
      exists m'. split; [exact Hrun|].
      split; [exact Hi|]. rewrite Hp. unfold hm_nodes. cbn [newer older].
      rewrite B2, Hp1, Hnodes0, Holdnil, app_nil_r. reflexivity.
    + assert (Hl : loop_inv hcode 0 (mkHMap nw (older m) (migrate_pos m))).
      { unfold loop_inv. cbn [newer older migrate_pos].
        split; [exact Hok1|]. split; [exact Ho|]. split; [exact Hmp|].
        split; [intros _; lia|].
        split; [intros _; unfold cap in *; lia|]. intros C. congruence. }
      destruct (hm_help_rehashing_inv 0 _ Hl ltac:(lia) ltac:(lia)) as (m' & Hrun & Hi & Hp).
      exists m'. split; [exact Hrun|].
      split; [exact Hi|]. rewrite Hp. unfold hm_nodes. cbn [newer older].
      rewrite Hp1, Hnodes0. reflexivity.
  - (* migration in progress: the load factor cannot be exceeded *)
    destruct (H6 Hneo) as (Hnn & Hcap & Hc4 & Hmpc & Hdr & HT).
    rewrite (Hsame Hnn) in *.
    pose proof (tab_ok_size_nonneg _ Ho) as Hosz.
    destruct (Z.ltb_spec (k_max_load_factor * (mask nw + 1)) (size nw)) as [Htrig|Hno].
    { unfold k_max_load_factor, cap in *. lia. }
    assert (Hl : loop_inv hcode 1 (mkHMap nw (older m) (migrate_pos m))).
    { unfold loop_inv. cbn [newer older migrate_pos].
      split; [exact Hok1|]. split; [exact Ho|]. split; [exact Hmp|].
      split; [intros _; lia|].
      split; [intros C; congruence|]. intros _.
      split_and!; try assumption; try lia. }
    destruct (hm_help_rehashing_inv 1 _ Hl ltac:(lia) ltac:(intros _; exact Hneo))
      as (m' & Hrun & Hi & Hp).
    exists m'. split; [exact Hrun|].
    split; [exact Hi|]. rewrite Hp. unfold hm_nodes. cbn [newer older].
    rewrite Hp1. reflexivity.
Qed.

Lemma chain_splice_perm node chain :
  node ∈ chain -> chain ≡ₚ node :: chain_splice node chain.
Proof.
  induction chain as [|p rest IH]; intros Hin; [inversion Hin|]. simpl.
  destruct (Z.eqb_spec p node) as [->|Hne]; [reflexivity|].
  apply elem_of_cons in Hin as [->|Hin]; [congruence|].
  rewrite (IH Hin) at 1. apply perm_swap.
Qed.

Lemma chain_splice_sub node chain q :
  q ∈ chain_splice node chain -> q ∈ chain.
Proof.
  induction chain as [|p rest IH]; simpl; [auto|].
  destruct (Z.eqb_spec p node) as [->|Hne]; intros Hq.
  - right. exact Hq.
  - apply elem_of_cons in Hq as [->|Hq]; [left|right; auto].
Qed.

Lemma concat_alter_perm (f : list Z -> list Z) (l : list (list Z)) i c x :
  l !! i = Some c -> c ≡ₚ x :: f c -> concat l ≡ₚ x :: concat (alter f i l).
Proof.
  revert i. induction l as [|d l IH]; intros i Hi Hc; [discriminate|].
  destruct i as [|i]; simpl in *.
  - injection Hi as ->. rewrite Hc at 1. reflexivity.
  - change (list_alter f i l) with (alter f i l).
    rewrite (IH _ Hi Hc). symmetry. apply Permutation_middle.
Qed.

Lemma h_detach_ok t node :
  tab_ok hcode t -> node ∈ tab_nodes t ->
  tab_ok hcode (h_detach hcode t node)
  /\ tab_nodes t ≡ₚ node :: tab_nodes (h_detach hcode t node)
  /\ mask (h_detach hcode t node) = mask t
  /\ size (h_detach hcode t node) = size t - 1
  /\ length (tab (h_detach hcode t node)) = length (tab t)
  /\ (forall i, tab t !! i = Some [] -> tab (h_detach hcode t node) !! i = Some []).
Proof.
  intros (Hm & Hlen & Hsz & Hb) Hin.
  apply concat_lookup_elem in Hin as (i & c & Hi & Hc).
  pose proof (Hb _ _ _ Hi Hc) as Hpos.
  assert (Hperm : tab_nodes t ≡ₚ node :: tab_nodes (h_detach hcode t node)).
  { unfold tab_nodes, h_detach. cbn [tab]. rewrite Hpos.
    eapply concat_alter_perm; [exact Hi|]. apply chain_splice_perm. exact Hc. }
  split_and!.
  - unfold tab_ok, h_detach, cap. cbn [tab mask size]. split_and!.
    + exact Hm.
    + right. rewrite length_alter. destruct Hlen as [C|Hlen]; [|exact Hlen].
      rewrite C in Hi. rewrite lookup_nil in Hi. discriminate.
    + rewrite Hsz. rewrite Hperm. unfold h_detach. cbn. lia.
    + intros j chain q Hj Hq. unfold h_pos. cbn [mask]. fold (h_pos t (hcode q)).
      destruct (decide (j = h_pos t (hcode node))) as [->|Hneq].
      * rewrite list_lookup_alter_eq in Hj.
        destruct (tab t !! h_pos t (hcode node)) as [c'|] eqn:Hc'; [|discriminate].
        injection Hj as <-. eapply Hb; [exact Hc'|].
        eapply chain_splice_sub; eauto.
      * rewrite list_lookup_alter_ne in Hj by congruence. eapply Hb; eauto.
  - exact Hperm.
  - reflexivity.
  - reflexivity.
  - unfold h_detach. cbn. apply length_alter.
  - intros j Hj. unfold h_detach. cbn [tab].
    destruct (decide (j = h_pos t (hcode node))) as [->|Hneq].
    + rewrite list_lookup_alter_eq, Hj. reflexivity.
    + rewrite list_lookup_alter_ne by congruence. exact Hj.
Qed.

Lemma tab_nonempty_length (l l' : list (list Z)) :
  length l' = length l -> l <> [] -> l' <> [].
Proof. destruct l, l'; simpl; congruence. Qed.

(** [hm_delete]: a node that matches is taken out of the map and returned;
    when no node matches the map keeps its nodes. *)
Lemma hm_delete_spec m hc eq :
  hm_inv hcode m ->
  exists m2 p,
    hm_delete hcode m hc eq = Ok (m2, p)
    /\ hm_inv hcode m2
    /\ (p <> 0 -> hm_nodes m ≡ₚ p :: hm_nodes m2 /\ hcode p = hc /\ eq p = true)
    /\ (p = 0 -> hm_nodes m2 ≡ₚ hm_nodes m
                 /\ (0 ∉ hm_nodes m ->
                     forall q, q ∈ hm_nodes m -> hcode q = hc -> eq q = false)).
Proof.
  intros Hinv. unfold hm_delete.
  destruct (hm_help_rehashing_inv 0 m Hinv ltac:(lia) ltac:(lia)) as (m1 & Hrun & Hi & Hp).
  rewrite Hrun. cbn [mbind res_bind].
  pose proof Hi as (Hn & Ho & Hmp & H4 & H5 & H6).
  remember (h_lookup hcode (newer m1) hc eq) as pn eqn:Epn. symmetry in Epn.
  remember (h_lookup hcode (older m1) hc eq) as po eqn:Epo. symmetry in Epo.
  destruct (Z.eqb_spec pn 0) as [E|E].
  - destruct (Z.eqb_spec po 0) as [E'|E'].
    + eexists _, _. split; [reflexivity|].
      subst pn po. split; [exact Hi|]. split; [congruence|].
      intros _. split; [exact Hp|].
      intros H0 q Hq Hh. rewrite <- Hp in Hq, H0. unfold hm_nodes in Hq, H0.
      apply not_elem_of_app in H0 as [H0n H0o].
      apply elem_of_app in Hq as [Hq|Hq].
      * eapply (h_lookup_missed (newer m1)); eauto.
      * eapply (h_lookup_missed (older m1)); eauto.
    + eexists _, _. split; [reflexivity|].
      destruct (h_lookup_found _ _ _ _ Epo E') as (Hin & Hh & He).
      destruct (h_detach_ok _ _ Ho Hin) as (Hok' & Hperm & Hmask & Hsize & Hlen & Hkeep).
      split; [|split; [|congruence]].
      * unfold hm_inv, loop_inv. cbn [newer older migrate_pos].
        assert (Hne : tab (older m1) <> []).
        { intros C. unfold tab_nodes in Hin. rewrite C in Hin. inversion Hin. }
        destruct (H6 Hne) as (A1 & A2 & A3 & A4 & A5 & A6).
        split_and!; try assumption.
        -- intros C. exfalso. eapply tab_nonempty_length; eauto.
        -- intros _. unfold cap in *. rewrite Hmask, Hsize.
           split_and!; try assumption; try lia.
           unfold drained. cbn [migrate_pos older]. intros i c Hlt Hc.
           destruct (tab (older m1) !! i) as [c0|] eqn:Hc0.
           ++ pose proof (A5 i c0 Hlt Hc0) as ->.
              rewrite (Hkeep i Hc0) in Hc. congruence.
           ++ apply lookup_ge_None in Hc0. apply lookup_lt_Some in Hc. lia.
      * intros _. split; [|split; assumption].
        rewrite <- Hp. unfold hm_nodes. cbn [newer older].
        rewrite Hperm. symmetry. apply Permutation_middle.
  - eexists _, _. split; [reflexivity|].
    destruct (h_lookup_found _ _ _ _ Epn E) as (Hin & Hh & He).
    destruct (h_detach_ok _ _ Hn Hin) as (Hok' & Hperm & Hmask & Hsize & Hlen & Hkeep).
    assert (Hne : tab (newer m1) <> []).
    { intros C. unfold tab_nodes in Hin. rewrite C in Hin. inversion Hin. }
    split; [|split; [|congruence]].
    + unfold hm_inv, loop_inv. cbn [newer older migrate_pos].
      split_and!; try assumption.
      * intros _. unfold cap. rewrite Hmask. apply H4. exact Hne.
      * intros C. specialize (H5 C). unfold cap in *. rewrite Hmask, Hsize. lia.
      * intros C. destruct (H6 C) as (A1 & A2 & A3 & A4 & A5 & A6).
        unfold cap in *. rewrite Hmask, Hsize.
        split_and!; try assumption; try lia.
        eapply tab_nonempty_length; eauto.
    + intros _. split; [|split; assumption].
      rewrite <- Hp. unfold hm_nodes. cbn [newer older].
      rewrite Hperm. reflexivity.
Qed.

End HMapFacts.

(** ** The keyspace *)

Lemma tab_ok_ext hcode hcode' t :
  (forall p, p ∈ HTInv.tab_nodes t -> hcode p = hcode' p) ->
  HTInv.tab_ok hcode t -> HTInv.tab_ok hcode' t.
Proof.
  intros Hext (Hm & Hlen & Hsz & Hb). unfold HTInv.tab_ok. split_and!; try assumption.
  intros i chain p Hi Hp. rewrite <- Hext.
  - eapply Hb; eauto.
  - apply concat_lookup_elem. eauto.
Qed.

Lemma hm_inv_ext hcode hcode' m :
  (forall p, p ∈ HTInv.hm_nodes m -> hcode p = hcode' p) ->
  HTInv.hm_inv hcode m -> HTInv.hm_inv hcode' m.
Proof.
  intros Hext (Hn & Ho & Hrest). unfold HTInv.hm_inv, HTInv.loop_inv.
  split; [|split; [|exact Hrest]].
  - eapply tab_ok_ext; [|exact Hn]. intros p Hp. apply Hext.
    unfold HTInv.hm_nodes. apply elem_of_app. left. exact Hp.
  - eapply tab_ok_ext; [|exact Ho]. intros p Hp. apply Hext.
    unfold HTInv.hm_nodes. apply elem_of_app. right. exact Hp.
Qed.

Lemma str_hash_nonneg k : 0 <= str_hash k.
Proof. pose proof (str_hash_bound k). lia. Qed.

Section Keyspace.

Import Server ServerInv.

Lemma hcode_at_nonneg_mem (mm : gmap Z Entry) :
  (forall p e, mm !! p = Some e -> node_hcode e = str_hash (key e)) ->
  forall p, 0 <= hcode_at mm p.
Proof.
  intros He p. unfold hcode_at.
  destruct (mm !! p) as [e|] eqn:E; [|lia].
  rewrite (He _ _ E). apply str_hash_nonneg.
Qed.

Lemma hcode_at_nonneg g : kv_inv g -> forall p, 0 <= hcode_at (mem g) p.
Proof.
  intros (_ & _ & _ & He & _). apply hcode_at_nonneg_mem.
  intros p e E. apply (He _ _ E).
Qed.

Lemma kv_inv_null g : kv_inv g -> 0 ∉ HTInv.hm_nodes (db g).
Proof.
  intros (_ & _ & Hdom & He & _) H0. apply Hdom in H0 as [e E].
  destruct (He _ _ E) as (_ & ? & _). lia.
Qed.

(** Replacing the map by one with the same nodes keeps the invariant. *)
Lemma kv_inv_db g db' :
  kv_inv g -> HTInv.hm_inv (hcode_at (mem g)) db' ->
  HTInv.hm_nodes db' ≡ₚ HTInv.hm_nodes (db g) ->
  kv_inv (mkGlobal db' (mem g) (brk g)).
Proof.
  intros (Hi & Hnd & Hdom & He & Hk & Hb) Hi' Hp. unfold kv_inv. cbn [db mem brk].
  split_and!; try assumption.
  - rewrite Hp. exact Hnd.
  - intros p. rewrite Hp. apply Hdom.
Qed.

Lemma represents_db g m db' :
  represents g m -> HTInv.hm_inv (hcode_at (mem g)) db' ->
  HTInv.hm_nodes db' ≡ₚ HTInv.hm_nodes (db g) ->
  represents (mkGlobal db' (mem g) (brk g)) m.
Proof.
  intros [Hinv Hm] Hi Hp. split; [apply kv_inv_db; assumption|exact Hm].
Qed.

(** The lookup that [do_get] and [do_set] make. *)
Lemma keyspace_lookup g m k :
  represents g m ->
  exists db' node,
    HT.hm_lookup (hcode_at (mem g)) (db g) (str_hash k) (entry_eq (mem g) k)
    = Ok (db', node)
    /\ HTInv.hm_inv (hcode_at (mem g)) db'
    /\ HTInv.hm_nodes db' ≡ₚ HTInv.hm_nodes (db g)
    /\ ((node <> 0
         /\ exists e, mem g !! node = Some e /\ key e = k /\ m !! k = Some (val e))
        \/ (node = 0 /\ m !! k = None)).
Proof.
  intros [Hinv Hm]. pose proof Hinv as (Hi & Hnd & Hdom & He & Hk & Hb).
  destruct (hm_lookup_spec _ (hcode_at_nonneg g Hinv) (db g) (str_hash k)
              (entry_eq (mem g) k) Hi)
    as (db' & node & Hl & Hi' & Hp & Hfound & Hmissed).
  exists db', node. split; [exact Hl|].
  split; [exact Hi'|]. split; [exact Hp|].
  destruct (decide (node = 0)) as [->|Hne].
  - right. split; [reflexivity|].
    destruct (m !! k) as [v|] eqn:Hv; [|reflexivity]. exfalso.
    apply Hm in Hv as (p & e & Hpe & Hkey & _).
    assert (Hin : p ∈ HTInv.hm_nodes (db g)) by (apply Hdom; eauto).
    assert (Hhc : hcode_at (mem g) p = str_hash k).
    { unfold hcode_at. rewrite Hpe. destruct (He _ _ Hpe) as (-> & _). congruence. }
    pose proof (Hmissed eq_refl (kv_inv_null g Hinv) p Hin Hhc) as Hf.
    unfold entry_eq in Hf. rewrite Hpe in Hf.
    rewrite bool_decide_eq_false in Hf. contradiction.
  - left. split; [exact Hne|].
    destruct (Hfound Hne) as (Hin & _ & Heq).
    unfold entry_eq in Heq. destruct (mem g !! node) as [e|] eqn:E; [|discriminate].
    apply bool_decide_eq_true in Heq.
    exists e. split; [reflexivity|]. split; [exact Heq|].
    apply Hm. eauto.
Qed.

Lemma do_get_represents g m c0 k out :
  represents g m ->
  exists g',
    do_get g [c0; k] out =
    Ok (g', match m !! k with
            | Some v => Wire.mkResponse (Wire.status out) v
            | None => Wire.mkResponse RES_NX (Wire.data out)
            end)
    /\ represents g' m.
Proof.
  intros Hrep. unfold do_get. cbn [nth].
  destruct (keyspace_lookup g m k Hrep) as (db' & node & Hl & Hi & Hp & Hcase).
  rewrite Hl. cbn [mbind res_bind].
  exists (mkGlobal db' (mem g) (brk g)).
  split; [|apply represents_db; assumption].
  destruct Hcase as [(Hne & e & He & Hk & Hv)|(-> & Hv)].
  - apply Z.eqb_neq in Hne. rewrite Hne, He, Hv.
    destruct Hrep as [(_ & _ & _ & Hent & _) _].
    destruct (Hent _ _ He) as (_ & _ & Hlen).
    apply Z.leb_le in Hlen. rewrite Hlen. reflexivity.
  - rewrite Hv. reflexivity.
Qed.

Lemma do_set_represents g m c0 k v out :
  represents g m -> blen v <= k_max_msg ->
  exists g', do_set g [c0; k; v] out = Ok (g', out) /\ represents g' (<[k := v]> m).
Proof.
  intros Hrep Hv. unfold do_set. cbn [nth].
  destruct (keyspace_lookup g m k Hrep) as (db' & node & Hl & Hi & Hp & Hcase).
  rewrite Hl. cbn [mbind res_bind].
  destruct Hrep as [Hinv Hm]. pose proof Hinv as (_ & Hnd & Hdom & He & Hk & Hb).
  destruct Hcase as [(Hne & e & Hnode & Hkey & Hmk)|(-> & Hmk)].
  - (* the key is present: the value is replaced in place *)
    apply Z.eqb_neq in Hne. rewrite Hne, Hnode.
    eexists. split; [reflexivity|].
    set (e' := mkEntry (node_hcode e) (key e) v).
    set (mem' := <[node := e']> (mem g)).
    assert (Hlk : forall p, mem' !! p = if decide (node = p) then Some e' else mem g !! p).
    { intros p. subst mem'. apply lookup_insert. }
    assert (Hhc : forall p, hcode_at (mem g) p = hcode_at mem' p).
    { intros p. unfold hcode_at. rewrite Hlk.
      destruct (decide (node = p)) as [<-|]; [rewrite Hnode|]; reflexivity. }
    split.
    + unfold kv_inv. cbn [db mem brk]. split_and!.
      * eapply hm_inv_ext; [|exact Hi]. intros p _. apply Hhc.
      * rewrite Hp. exact Hnd.
      * intros p. rewrite Hp, Hdom, Hlk.
        destruct (decide (node = p)) as [<-|]; [|reflexivity].
        rewrite Hnode. split; eauto.
      * intros p x. rewrite Hlk.
        destruct (decide (node = p)) as [<-|]; [|apply He].
        intros [= <-]. destruct (He _ _ Hnode) as (A1 & A2 & A3).
        subst e'. cbn. split_and!; try assumption; lia.
      * intros p q x y. rewrite !Hlk.
        destruct (decide (node = p)) as [<-|Hnp];
          destruct (decide (node = q)) as [<-|Hnq]; try reflexivity.
        -- intros [= <-] Hy Hxy. subst e'. cbn in Hxy. eapply Hk; eauto.
        -- intros Hx [= <-] Hxy. subst e'. cbn in Hxy. eapply Hk; eauto.
        -- apply Hk.
      * exact Hb.
    + intros k' v'. cbn [mem]. rewrite lookup_insert. split.
      * destruct (decide (k = k')) as [<-|Hkk].
        -- intros [= <-]. exists node, e'. rewrite Hlk.
           destruct (decide (node = node)); [|congruence]. subst e'. cbn. auto.
        -- intros Hv'. apply Hm in Hv' as (p & x & Hx & Hxk & Hxv).
           exists p, x. rewrite Hlk.
           destruct (decide (node = p)) as [<-|]; [congruence|auto].
      * intros (p & x & Hx & Hxk & Hxv). rewrite Hlk in Hx.
        destruct (decide (node = p)) as [<-|Hnp].
        -- injection Hx as <-. subst e'. cbn in *.
           destruct (decide (k = k')); congruence.
        -- destruct (decide (k = k')) as [<-|Hkk].
           ++ exfalso. apply Hnp. eapply Hk; eauto. congruence.
           ++ apply Hm. eauto.
  - (* the key is absent: a new entry is made and pushed *)
    rewrite Z.eqb_refl.
    set (e' := mkEntry (str_hash k) k v).
    set (mem' := <[brk g := e']> (mem g)).
    assert (Hfresh : mem g !! brk g = None).
    { destruct (mem g !! brk g) as [x|] eqn:E; [|reflexivity].
      destruct (He _ _ E) as (_ & ? & _). lia. }
    assert (Hlk : forall p, mem' !! p = if decide (brk g = p) then Some e' else mem g !! p).
    { intros p. subst mem'. apply lookup_insert. }
    assert (Hent' : forall p x, mem' !! p = Some x -> node_hcode x = str_hash (key x)).
    { intros p x. rewrite Hlk. destruct (decide (brk g = p)).
      - intros [= <-]. reflexivity.
      - intros E. apply (He _ _ E). }
    assert (Hnotin : brk g ∉ HTInv.hm_nodes db').
    { rewrite Hp, Hdom, Hfresh. intros [x Hx]. discriminate. }
    assert (Hi1 : HTInv.hm_inv (hcode_at mem') db').
    { eapply hm_inv_ext; [|exact Hi]. intros p Hin. unfold hcode_at. rewrite Hlk.
      destruct (decide (brk g = p)) as [<-|]; [contradiction|reflexivity]. }
    destruct (hm_insert_spec _ (hcode_at_nonneg_mem _ Hent') _ (brk g) Hi1)
      as (db2 & Hins & Hi2 & Hp2).
    rewrite Hins. cbn [mbind res_bind]. eexists. split; [reflexivity|].
    assert (Hnokey : forall q x, mem g !! q = Some x -> key x <> k).
    { intros q x Hx Hxk.
      assert (m !! k = Some (val x)) by (apply Hm; eauto). congruence. }
    split.
    + unfold kv_inv. cbn [db mem brk]. split_and!.
      * exact Hi2.
      * rewrite Hp2. constructor; [exact Hnotin|]. rewrite Hp. exact Hnd.
      * intros p. rewrite Hp2, Hlk, elem_of_cons, Hp, Hdom.
        destruct (decide (brk g = p)) as [<-|Hne].
        -- split; eauto.
        -- split; [intros [?|?]; [congruence|assumption]|auto].
      * intros p x. rewrite Hlk. destruct (decide (brk g = p)) as [<-|].
        -- intros [= <-]. subst e'. cbn. unfold sizeof_Entry. split_and!; auto; lia.
        -- intros E. destruct (He _ _ E) as (A1 & A2 & A3).
           unfold sizeof_Entry. split_and!; auto; lia.
      * intros p q x y. rewrite !Hlk.
        destruct (decide (brk g = p)) as [<-|Hnp];
          destruct (decide (brk g = q)) as [<-|Hnq]; try reflexivity.
        -- intros [= <-] Hy Hxy. subst e'. cbn in Hxy.
           exfalso. eapply Hnokey; eauto.
        -- intros Hx [= <-] Hxy. subst e'. cbn in Hxy.
           exfalso. eapply Hnokey; eauto.
        -- apply Hk.
      * unfold sizeof_Entry. lia.
    + intros k' v'. cbn [mem]. rewrite lookup_insert. split.
      * destruct (decide (k = k')) as [<-|Hkk].
        -- intros [= <-]. exists (brk g), e'. rewrite Hlk.
           destruct (decide (brk g = brk g)); [|congruence]. subst e'. cbn. auto.
        -- intros Hv'. apply Hm in Hv' as (p & x & Hx & Hxk & Hxv).
           exists p, x. rewrite Hlk.
           destruct (decide (brk g = p)) as [<-|]; [congruence|auto].
      * intros (p & x & Hx & Hxk & Hxv). rewrite Hlk in Hx.
        destruct (decide (brk g = p)) as [<-|Hnp].
        -- injection Hx as <-. subst e'. cbn in *.
           destruct (decide (k = k')); congruence.
        -- destruct (decide (k = k')) as [<-|Hkk].
           ++ exfalso. eapply Hnokey; eauto.
           ++ apply Hm. eauto.
Qed.

Lemma do_del_represents g m c0 k out :
  represents g m ->
  exists g', do_del g [c0; k] out = Ok (g', out) /\ represents g' (delete k m).
Proof.
  intros [Hinv Hm]. pose proof Hinv as (Hi & Hnd & Hdom & He & Hk & Hb).
  unfold do_del. cbn [nth].
  destruct (hm_delete_spec _ (hcode_at_nonneg g Hinv) (db g) (str_hash k)
              (entry_eq (mem g) k) Hi)
    as (db' & node & Hd & Hi' & Hfound & Hmissed).
  rewrite Hd. cbn [mbind res_bind].
  destruct (Z.eqb_spec node 0) as [->|Hne].
  - (* no entry under this key *)
    destruct (Hmissed eq_refl) as [Hp Hnone].
    eexists. split; [reflexivity|].
    assert (Hmk : m !! k = None).
    { destruct (m !! k) as [v|] eqn:Hv; [|reflexivity]. exfalso.
      apply Hm in Hv as (p & e & Hpe & Hkey & _).
      assert (Hin : p ∈ HTInv.hm_nodes (db g)) by (apply Hdom; eauto).
      assert (Hhc : hcode_at (mem g) p = str_hash k).
      { unfold hcode_at. rewrite Hpe. destruct (He _ _ Hpe) as (-> & _). congruence. }
      pose proof (Hnone (kv_inv_null g Hinv) p Hin Hhc) as Hf.
      unfold entry_eq in Hf. rewrite Hpe in Hf.
      rewrite bool_decide_eq_false in Hf. contradiction. }
    rewrite delete_id by exact Hmk.
    apply represents_db; [split; assumption|exact Hi'|exact Hp].
  - (* the entry is unlinked and freed *)
    destruct (Hfound Hne) as (Hp & _ & Heq).
    unfold entry_eq in Heq. destruct (mem g !! node) as [e|] eqn:Hnode; [|discriminate].
    apply bool_decide_eq_true in Heq.
    eexists. split; [reflexivity|].
    assert (Hnd' : NoDup (node :: HTInv.hm_nodes db')) by (rewrite <- Hp; exact Hnd).
    pose proof (NoDup_cons_1_1 _ _ Hnd') as Hnotin.
    apply NoDup_cons_1_2 in Hnd'.
    split.
    + unfold kv_inv. cbn [db mem brk]. split_and!.
      * eapply hm_inv_ext; [|exact Hi']. intros p Hin. unfold hcode_at.
        rewrite lookup_delete_ne; [reflexivity|]. intros ->. contradiction.
      * exact Hnd'.
      * intros p. rewrite lookup_delete.
        destruct (decide (node = p)) as [<-|Hnp].
        -- split; [contradiction|]. intros [x Hx]. discriminate.
        -- rewrite <- Hdom, Hp, elem_of_cons. split; [auto|].
           intros [?|?]; [congruence|assumption].
      * intros p x. rewrite lookup_delete.
        destruct (decide (node = p)); [discriminate|apply He].
      * intros p q x y. rewrite !lookup_delete.
        destruct (decide (node = p)); [discriminate|].
        destruct (decide (node = q)); [discriminate|apply Hk].
      * exact Hb.
    + intros k' v'. cbn [mem]. rewrite lookup_delete. split.
      * destruct (decide (k = k')) as [<-|Hkk]; [discriminate|].
        intros Hv'. apply Hm in Hv' as (p & x & Hx & Hxk & Hxv).
        exists p, x. rewrite lookup_delete.
        destruct (decide (node = p)) as [<-|]; [congruence|auto].
      * intros (p & x & Hx & Hxk & Hxv). rewrite lookup_delete in Hx.
        destruct (decide (node = p)) as [<-|Hnp]; [discriminate|].
        destruct (decide (k = k')) as [<-|Hkk].
        -- exfalso. apply Hnp. eapply Hk; eauto. congruence.
        -- apply Hm. eauto.
Qed.

Lemma represents_init : represents Global_init ∅.
Proof.
  split.
  - unfold kv_inv, Global_init. cbn [db mem brk]. split_and!.
    + unfold HTInv.hm_inv, HTInv.loop_inv, HT.HMap_zero. cbn.
      split_and!; try apply tab_ok_zero; try lia; try congruence.
      intros _. unfold HT.k_max_load_factor, HTInv.cap. cbn. lia.
    + constructor.
    + intros p. rewrite lookup_empty. split.
      * intros H. inversion H.
      * intros [x Hx]. discriminate.
    + intros p e. rewrite lookup_empty. discriminate.
    + intros p q e e'. rewrite lookup_empty. discriminate.
    + unfold sizeof_Entry. lia.
  - intros k v. rewrite lookup_empty. split; [discriminate|].
    intros (p & e & He & _). cbn in He. rewrite lookup_empty in He. discriminate.
Qed.

Lemma do_request_get g k out :
  do_request g [lit "get"; k] out = do_get g [lit "get"; k] out.
Proof. reflexivity. Qed.

Lemma do_request_set g k v out :
  do_request g [lit "set"; k; v] out = do_set g [lit "set"; k; v] out.
Proof. reflexivity. Qed.

Lemma do_request_del g k out :
  do_request g [lit "del"; k] out = do_del g [lit "del"; k] out.
Proof. reflexivity. Qed.

(** The dispatcher of [CustomHashtable/main.cpp] on a [set], [get] or [del]
    command: it does to the keyspace what the command does to a mapping. *)
Lemma do_request_represents g m o :
  represents g m -> KV.fits o ->
  exists g',
    do_request g (KV.cmd_of o) Response_new =
    Ok (g', match o with
            | KV.Get k =>
                match m !! k with
                | Some v => Wire.mkResponse RES_OK v
                | None => Wire.mkResponse RES_NX []
                end
            | _ => Wire.mkResponse RES_OK []
            end)
    /\ represents g' (KV.apply m o).
Proof.
  intros Hrep Hfit. destruct o as [k v|k|k]; cbn [KV.cmd_of KV.apply].
  - rewrite do_request_set. destruct (do_set_represents g m (lit "set") k v Response_new Hrep Hfit)
      as (g' & Hs & Hr).
    exists g'. split; [exact Hs|exact Hr].
  - rewrite do_request_get.
    destruct (do_get_represents g m (lit "get") k Response_new Hrep) as (g' & Hg & Hr).
    exists g'. split; [|exact Hr]. rewrite Hg. reflexivity.
  - rewrite do_request_del. destruct (do_del_represents g m (lit "del") k Response_new Hrep) as (g' & Hd & Hr).
    exists g'. split; [exact Hd|exact Hr].
Qed.

End Keyspace.

(** ** Sequences of [set], [get] and [del] *)

Lemma apply_untouched k ops : forall m,
  Forall (KV.untouched k) ops -> fold_left KV.apply ops m !! k = m !! k.
Proof.
  induction ops as [|o ops IH]; intros m Hf; [reflexivity|].
  inversion Hf as [|? ? Ho Hf']; subst. cbn [fold_left]. rewrite IH by exact Hf'.
  destruct o as [k' v'|k'|k']; cbn in *.
  - apply lookup_insert_ne. exact Ho.
  - reflexivity.
  - apply lookup_delete_ne. exact Ho.
Qed.

Lemma apply_last_set k v pre post m :
  Forall (KV.untouched k) post ->
  fold_left KV.apply (pre ++ KV.Set_ k v :: post) m !! k = Some v.
Proof.
  intros Hf. rewrite fold_left_app. cbn [fold_left].
  rewrite apply_untouched by exact Hf. cbn. apply lookup_insert_eq.
Qed.

Lemma apply_last_del k pre post m :
  Forall (KV.untouched k) post ->
  fold_left KV.apply (pre ++ KV.Del k :: post) m !! k = None.
Proof.
  intros Hf. rewrite fold_left_app. cbn [fold_left].
  rewrite apply_untouched by exact Hf. cbn. apply lookup_delete_eq.
Qed.

Lemma basic_do_request_cmd g o out :
  BasicKV.do_request g (KV.cmd_of o) out =
  (KV.apply g o,
   match o with
   | KV.Get k =>
       match g !! k with
       | Some v => Wire.mkResponse (Wire.status out) v
       | None => Wire.mkResponse BasicKV.RES_NX (Wire.data out)
       end
   | _ => out
   end).
Proof.
  destruct o as [k v|k|k]; unfold BasicKV.do_request; cbn;
    try reflexivity.
  destruct (g !! k); reflexivity.
Qed.

Lemma basic_run_apply ops : forall g, KV.basic_run g ops = fold_left KV.apply ops g.
Proof.
  unfold KV.basic_run. induction ops as [|o ops IH]; intros g; [reflexivity|].
  cbn [fold_left]. rewrite basic_do_request_cmd. cbn [fst]. apply IH.
Qed.

Lemma server_run_represents ops : forall g m,
  ServerInv.represents g m -> Forall KV.fits ops ->
  exists g', KV.server_run g ops = Ok g'
             /\ ServerInv.represents g' (fold_left KV.apply ops m).
Proof.
  induction ops as [|o ops IH]; intros g m Hrep Hf.
  - exists g. split; [reflexivity|exact Hrep].
  - inversion Hf as [|? ? Ho Hf']; subst.
    destruct (do_request_represents g m o Hrep Ho) as (g1 & Hreq & Hrep1).
    destruct (IH g1 _ Hrep1 Hf') as (g' & Hrun & Hrep').
    exists g'. split; [|exact Hrep'].
    cbn [KV.server_run]. rewrite Hreq. cbn. exact Hrun.
Qed.

(** C1. After any sequence of [set], [get] and [del] commands run by the
    dispatcher from the empty keyspace, [get k] answers with status OK and
    the value of the last [set k v] that no [del k] follows; it answers with
    the missing-key status and no data when [k] was never set, or when a
    [del k] came after the last [set k _].  This holds of the dispatcher
    over [std::map] and of the dispatcher over the hash map, the latter for
    values that fit in a message ([k_max_msg]), which is also when its run
    does not stop on the [assert] of [do_get]. *)
Theorem get_returns_last_set (ops : list KV.op) (k : bytes) :
  Forall KV.fits ops ->
  exists g : Server.Global,
    KV.server_run Server.Global_init ops = Ok g
    /\ (forall v pre post,
          ops = pre ++ KV.Set_ k v :: post -> Forall (KV.untouched k) post ->
          snd (BasicKV.do_request (KV.basic_run ∅ ops) [lit "get"; k] BasicKV.Response_new)
          = Wire.mkResponse BasicKV.RES_OK v
          /\ exists g', Server.do_request g [lit "get"; k] Server.Response_new
                        = Ok (g', Wire.mkResponse Server.RES_OK v))
    /\ (Forall (KV.untouched k) ops
        \/ (exists pre post, ops = pre ++ KV.Del k :: post /\ Forall (KV.untouched k) post) ->
        snd (BasicKV.do_request (KV.basic_run ∅ ops) [lit "get"; k] BasicKV.Response_new)
        = Wire.mkResponse BasicKV.RES_NX []
        /\ exists g', Server.do_request g [lit "get"; k] Server.Response_new
                      = Ok (g', Wire.mkResponse Server.RES_NX [])).
Proof.
  intros Hfit.
  destruct (server_run_represents ops _ _ represents_init Hfit) as (g & Hrun & Hrep).
  exists g. split; [exact Hrun|].
  assert (Hget : forall r,
    fold_left KV.apply ops ∅ !! k = r ->
    snd (BasicKV.do_request (KV.basic_run ∅ ops) [lit "get"; k] BasicKV.Response_new)
    = match r with
      | Some v => Wire.mkResponse BasicKV.RES_OK v
      | None => Wire.mkResponse BasicKV.RES_NX []
      end
    /\ exists g', Server.do_request g [lit "get"; k] Server.Response_new
                  = Ok (g', match r with
                            | Some v => Wire.mkResponse Server.RES_OK v
                            | None => Wire.mkResponse Server.RES_NX []
                            end)).
  { intros r Hr. split.
    - rewrite (basic_do_request_cmd _ (KV.Get k)). cbn [snd].
      rewrite basic_run_apply, Hr. destruct r; reflexivity.
    - destruct (do_request_represents g _ (KV.Get k) Hrep I) as (g' & Hreq & _).
      exists g'. cbn [KV.cmd_of] in Hreq. rewrite Hreq, Hr. reflexivity. }
  split.
  - intros v pre post -> Hpost. apply (Hget (Some v)).
    apply apply_last_set. exact Hpost.
  - intros [Hnever|(pre & post & -> & Hpost)]; apply (Hget None).
    + rewrite apply_untouched by exact Hnever. apply lookup_empty.
    + apply apply_last_del. exact Hpost.
Qed.

Lemma get_returns_last_set_witness :
  let ops := [KV.Set_ (lit "foo") (lit "bar"); KV.Set_ (lit "k") (lit "v");
              KV.Del (lit "k"); KV.Get (lit "foo")] in
  Forall KV.fits ops
  /\ exists g : Server.Global,
       KV.server_run Server.Global_init ops = Ok g
       /\ (exists g', Server.do_request g [lit "get"; lit "foo"] Server.Response_new
                      = Ok (g', Wire.mkResponse Server.RES_OK (lit "bar"))).
Proof.
  intros ops.
  assert (Hfit : Forall KV.fits ops).
  { repeat constructor; vm_compute; discriminate. }
  split; [exact Hfit|].
  destruct (get_returns_last_set ops (lit "foo") Hfit) as (g & Hrun & Hset & _).
  exists g. split; [exact Hrun|].
  apply (Hset (lit "bar") [] [KV.Set_ (lit "k") (lit "v"); KV.Del (lit "k");
                              KV.Get (lit "foo")] eq_refl).
  repeat constructor; vm_compute; discriminate.
Defined.

(** ** Pipelined requests *)

Lemma encode_strs_length_ge cmd s :
  Forall Wire.fits32 cmd -> s ∈ cmd -> blen s <= blen (Wire.encode_strs cmd).
Proof.
  induction 1 as [|c cs Hc Hf IH]; intros Hin; [inversion Hin|].
  rewrite encode_strs_cons by exact Hc. rewrite !blen_app.
  pose proof (blen_nonneg (u32_bytes (blen c))). pose proof (blen_nonneg c).
  pose proof (blen_nonneg (Wire.encode_strs cs)).
  apply elem_of_cons in Hin as [->|Hin]; [lia|].
  specialize (IH Hin). lia.
Qed.

Lemma well_formed_arg_fits cmd s :
  Pipeline.well_formed cmd -> s ∈ cmd -> blen s <= Server.k_max_msg.
Proof.
  intros [(_ & _ & _ & Hf) Hlen] Hin.
  pose proof (encode_strs_length_ge cmd s Hf Hin) as Hs.
  unfold Wire.encode_command in Hlen. rewrite blen_app in Hlen.
  pose proof (blen_nonneg (u32_bytes (wrap32 (Z.of_nat (length cmd))))). lia.
Qed.

(** The dispatcher answers every command whose strings fit in a message, and
    keeps the invariant of the keyspace. *)
Lemma do_request_total g m cmd :
  ServerInv.represents g m ->
  (forall s, s ∈ cmd -> blen s <= Server.k_max_msg) ->
  exists g' resp m',
    Server.do_request g cmd Server.Response_new = Ok (g', resp)
    /\ ServerInv.represents g' m'.
Proof.
  intros Hrep Hfit. unfold Server.do_request.
  destruct (bool_decide (length cmd = 2%nat) && bool_decide (nth 0 cmd [] = lit "get"))
    eqn:Hget.
  { apply andb_prop in Hget as [Hlen _]. apply bool_decide_eq_true in Hlen.
    destruct cmd as [|c0 [|k [|? ?]]]; try discriminate.
    destruct (do_get_represents g m c0 k Server.Response_new Hrep) as (g' & Hg & Hr).
    eauto. }
  destruct (bool_decide (length cmd = 3%nat) && bool_decide (nth 0 cmd [] = lit "set"))
    eqn:Hset.
  { apply andb_prop in Hset as [Hlen _]. apply bool_decide_eq_true in Hlen.
    destruct cmd as [|c0 [|k [|v [|? ?]]]]; try discriminate.
    assert (Hv : blen v <= Server.k_max_msg).
    { apply Hfit. right. right. left. }
    destruct (do_set_represents g m c0 k v Server.Response_new Hrep Hv) as (g' & Hs & Hr).
    eauto. }
  destruct (bool_decide (length cmd = 2%nat) && bool_decide (nth 0 cmd [] = lit "del"))
    eqn:Hdel.
  { apply andb_prop in Hdel as [Hlen _]. apply bool_decide_eq_true in Hlen.
    destruct cmd as [|c0 [|k [|? ?]]]; try discriminate.
    destruct (do_del_represents g m c0 k Server.Response_new Hrep) as (g' & Hd & Hr).
    eauto. }
  eauto.
Qed.

Lemma dispatch_all_total cmds : forall g m,
  ServerInv.represents g m -> Forall Pipeline.well_formed cmds ->
  exists g' resps, Pipeline.dispatch_all g cmds = Ok (g', resps).
Proof.
  induction cmds as [|c cs IH]; intros g m Hrep Hwf.
  - exists g, []. reflexivity.
  - inversion Hwf as [|? ? Hc Hwf']; subst.
    destruct (do_request_total g m c Hrep) as (g1 & r & m1 & Hreq & Hrep1).
    { intros s Hs. eapply well_formed_arg_fits; eauto. }
    destruct (IH g1 m1 Hrep1 Hwf') as (g' & rs & Hrest).
    exists g', (r :: rs). cbn [Pipeline.dispatch_all]. rewrite Hreq. cbn.
    rewrite Hrest. reflexivity.
Qed.


(** ** Rejected payloads and status codes *)

Lemma basic_try_one_request_rejected g conn :
  BasicKV.incoming conn <> [] ->
  BasicKV.parse_req (BasicKV.incoming conn) = None ->
  BasicKV.try_one_request g conn
  = (g, BasicKV.mkConn (BasicKV.incoming conn) (BasicKV.outgoing conn) true, false).
Proof.
  intros Hne Hp. unfold BasicKV.try_one_request.
  destruct (BasicKV.incoming conn) as [|b rest] eqn:E; [congruence|].
  rewrite Hp. reflexivity.
Qed.

(** C7 (as amended). A payload is rejected exactly when its count [nstr]
    exceeds the [k_max_args] of the program (200 000 in
    [CustomHashtable/main.cpp], 16 in the basic key-value store), or a 4-byte
    prefix or a string body extends past the end of the payload, or bytes
    remain after the last declared string; any other payload is accepted,
    and the strings returned are the [nstr] strings it carries, in order.
    A rejected payload makes [try_one_request] set [want_close]. *)
Theorem parse_req_rejects_exactly_malformed (data : bytes) :
  (Server.parse_req data = None <-> Wire.malformed 200000 data)
  /\ (forall strs, Server.parse_req data = Some strs <-> Wire.carries 200000 data strs)
  /\ (BasicKV.parse_req data = None <-> Wire.malformed 16 data)
  /\ (forall strs, BasicKV.parse_req data = Some strs <-> Wire.carries 16 data strs)
  /\ (forall g conn more,
        Server.incoming conn = Pipeline.frame data ++ more ->
        blen data <= Server.k_max_msg ->
        Wire.malformed 200000 data ->
        Server.try_one_request g conn = Ok (g, Server.set_want_close conn, false))
  /\ (forall g conn,
        BasicKV.incoming conn = data -> data <> [] ->
        Wire.malformed 16 data ->
        BasicKV.try_one_request g conn
        = (g, BasicKV.mkConn data (BasicKV.outgoing conn) true, false)).
Proof.
  split_and!.
  - apply (parse_req_None_iff Server.k_max_args).
  - intros strs. apply (parse_req_Some_iff Server.k_max_args).
  - apply (parse_req_None_iff BasicKV.k_max_args).
  - intros strs. apply (parse_req_Some_iff BasicKV.k_max_args).
  - intros g conn more Hin Hlen Hmal.
    rewrite (try_one_request_frame g conn data more Hin Hlen).
    apply (parse_req_None_iff Server.k_max_args) in Hmal.
    unfold Server.parse_req. rewrite Hmal. reflexivity.
  - intros g conn Hin Hne Hmal.
    apply (parse_req_None_iff BasicKV.k_max_args) in Hmal.
    rewrite basic_try_one_request_rejected; rewrite Hin; auto.
Qed.

Lemma parse_req_rejects_exactly_malformed_witness :
  let data := u32_bytes 1 ++ u32_bytes 9 ++ lit "abc" in
  Wire.malformed 200000 data
  /\ Server.try_one_request Server.Global_init
       (Server.mkConn 3 true false false (Pipeline.frame data) [])
     = Ok (Server.Global_init,
           Server.mkConn 3 true false true (Pipeline.frame data) [], false).
Proof.
  intros data.
  assert (Hmal : Wire.malformed 200000 data).
  { apply (Wire.mal_cut_short 200000 data 1 [] (u32_bytes 9 ++ lit "abc")).
    - reflexivity.
    - lia.
    - constructor.
    - simpl. lia.
    - right. exists 9, (lit "abc"). split; [reflexivity|]. vm_compute. reflexivity. }
  split; [exact Hmal|].
  destruct (parse_req_rejects_exactly_malformed data) as (_ & _ & _ & _ & Hclose & _).
  apply (Hclose Server.Global_init
           (Server.mkConn 3 true false false (Pipeline.frame data) []) []).
  - cbn [Server.incoming]. rewrite app_nil_r. reflexivity.
  - vm_compute. discriminate.
  - exact Hmal.
Defined.

(** A payload of the basic key-value store that declares 17 empty strings
    and carries them: none of the three causes of the claim applies (17 is
    not above 200 000, nothing is cut short, nothing trails), and the parser
    of the basic store rejects it. *)
Lemma basic_parse_req_rejects_17_strings :
  let data := Wire.encode_command (replicate 17 []) in
  BasicKV.parse_req data = None /\ ~ Wire.malformed 200000 data.
Proof.
  intros data. split; [vm_compute; reflexivity|].
  intros Hmal. apply parse_req_None_iff in Hmal. vm_compute in Hmal. discriminate.
Qed.

Lemma unrecognized_tests cmd :
  (forall o, cmd <> KV.cmd_of o) ->
  bool_decide (length cmd = 2%nat) && bool_decide (nth 0 cmd [] = lit "get") = false
  /\ bool_decide (length cmd = 3%nat) && bool_decide (nth 0 cmd [] = lit "set") = false
  /\ bool_decide (length cmd = 2%nat) && bool_decide (nth 0 cmd [] = lit "del") = false.
Proof.
  intros Hno. split_and!; apply not_true_is_false; intros Ht;
    apply andb_prop in Ht as [Hlen Hc];
    apply bool_decide_eq_true in Hlen; apply bool_decide_eq_true in Hc.
  - destruct cmd as [|c0 [|k [|? ?]]]; try discriminate. cbn in Hc. subst c0.
    apply (Hno (KV.Get k)). reflexivity.
  - destruct cmd as [|c0 [|k [|v [|? ?]]]]; try discriminate. cbn in Hc. subst c0.
    apply (Hno (KV.Set_ k v)). reflexivity.
  - destruct cmd as [|c0 [|k [|? ?]]]; try discriminate. cbn in Hc. subst c0.
    apply (Hno (KV.Del k)). reflexivity.
Qed.

(** C6 (as amended). In [CustomHashtable/main.cpp] the status of a response
    is 0 for success, 1 for an error and 2 for a missing key: a command that
    is not a [get], [set] or [del] of the right arity is answered with 1, a
    [get] of an absent key with 2, every other command with 0.  In the basic
    key-value store the codes are 0 for success, 1 for a missing key and 2
    for an error: a [get] of an absent key is answered with 1 and a command
    that is not recognized with 2. *)
Theorem status_codes (g : Server.Global) (m gb : gmap bytes bytes) (cmd : list bytes) :
  ServerInv.represents g m ->
  (Server.RES_OK = 0 /\ Server.RES_ERR = 1 /\ Server.RES_NX = 2)
  /\ (BasicKV.RES_OK = 0 /\ BasicKV.RES_NX = 1 /\ BasicKV.RES_ERR = 2)
  /\ (forall o, cmd = KV.cmd_of o -> KV.fits o ->
        (exists g' resp,
           Server.do_request g cmd Server.Response_new = Ok (g', resp)
           /\ Wire.status resp
              = match o with
                | KV.Get k => match m !! k with Some _ => 0 | None => 2 end
                | _ => 0
                end)
        /\ Wire.status (snd (BasicKV.do_request gb cmd BasicKV.Response_new))
           = match o with
             | KV.Get k => match gb !! k with Some _ => 0 | None => 1 end
             | _ => 0
             end)
  /\ ((forall o, cmd <> KV.cmd_of o) ->
        Server.do_request g cmd Server.Response_new = Ok (g, Wire.mkResponse 1 [])
        /\ snd (BasicKV.do_request gb cmd BasicKV.Response_new) = Wire.mkResponse 2 []).
Proof.
  intros Hrep. split_and!; try reflexivity.
  - intros o -> Hfit. split.
    + destruct (do_request_represents g m o Hrep Hfit) as (g' & Hreq & _).
      eexists _, _. split; [exact Hreq|].
      destruct o as [k v|k|k]; try reflexivity. destruct (m !! k); reflexivity.
    + rewrite basic_do_request_cmd. cbn [snd].
      destruct o as [k v|k|k]; try reflexivity. destruct (gb !! k); reflexivity.
  - intros Hno. destruct (unrecognized_tests cmd Hno) as (H1 & H2 & H3).
    unfold Server.do_request, BasicKV.do_request. rewrite H1, H2, H3.
    split; reflexivity.
Qed.

Lemma status_codes_witness :
  (exists g' resp,
     Server.do_request Server.Global_init [lit "get"; lit "foo"] Server.Response_new
     = Ok (g', resp) /\ Wire.status resp = 2)
  /\ Server.do_request Server.Global_init [lit "incr"; lit "foo"] Server.Response_new
     = Ok (Server.Global_init, Wire.mkResponse 1 []).
Proof.
  destruct (status_codes Server.Global_init ∅ ∅ [lit "get"; lit "foo"] represents_init)
    as (_ & _ & Hop & _).
  destruct (status_codes Server.Global_init ∅ ∅ [lit "incr"; lit "foo"] represents_init)
    as (_ & _ & _ & Hbad).
  split.
  - destruct (Hop (KV.Get (lit "foo")) eq_refl I) as [(g' & resp & Hreq & Hst) _].
    exists g', resp. split; [exact Hreq|exact Hst].
  - apply Hbad. intros [k v|k|k]; discriminate.
Defined.

(** In the basic key-value store a [get] of an absent key is answered with
    status 1, not 2. *)
Lemma basic_get_absent_status_1 :
  Wire.status (snd (BasicKV.do_request ∅ [lit "get"; lit "foo"] BasicKV.Response_new)) = 1
  /\ Wire.status (snd (BasicKV.do_request ∅ [lit "get"; lit "foo"] BasicKV.Response_new))
     <> 2.
Proof. split; [reflexivity|discriminate]. Qed.

(** ** The sorted set *)

Ltac res_step := cbv beta iota delta [mbind res_bind].

(** [zset_insert] returns [true] exactly when the lookup by name found
    nothing, and that is when it makes a node. *)
Lemma zset_insert_result st zset nm sc st' zset' b :
  ZS.zset_insert st zset nm sc = Ok (st', zset', b) ->
  exists hm1 hnode,
    HT.hm_lookup (ZS.hcode_at (ZS.heap st)) (ZS.hmap zset) (str_hash nm)
                 (ZS.znode_eq (ZS.heap st) nm (blen nm)) = Ok (hm1, hnode)
    /\ b = (hnode =? 0)
    /\ ZS.brk st' = (if b then ZS.brk st + ZS.sizeof_ZNode else ZS.brk st).
Proof.
  unfold ZS.zset_insert.
  destruct (HT.hm_lookup (ZS.hcode_at (ZS.heap st)) (ZS.hmap zset) (str_hash nm)
              (ZS.znode_eq (ZS.heap st) nm (blen nm))) as [[hm1 hnode]| |];
    res_step; try discriminate.
  intros Hrun. exists hm1, hnode. split; [reflexivity|]. revert Hrun.
  destruct (hnode =? 0) eqn:E; cbn [negb].
  - destruct (HT.hm_insert _ _ _) as [hm2| |]; res_step; try discriminate.
    destruct (ZS.avl_fix _ _) as [[h3 r3]| |]; res_step; try discriminate.
    intros [= <- <- <-]. split; reflexivity.
  - destruct (ZS.heap st !! container_of_func hnode ZS.off_hnode) as [z|];
      [|discriminate].
    destruct (double_eq (ZS.score z) sc).
    + intros [= <- <- <-]. split; reflexivity.
    + destruct (ZS.avl_del _ _) as [[h1 r1]| |]; res_step; try discriminate.
      match goal with
      | |- context [ZS.avl_fix ?h ?a] =>
          destruct (ZS.avl_fix h a) as [[h3 r3]| |]; res_step; try discriminate
      end.
      intros [= <- <- <-]. split; reflexivity.
Qed.

(** [znode_offset] passes whatever [avl_offset] returns through
    [CONTAINER_OF], and [CONTAINER_OF] of a null pointer is not null. *)
Lemma znode_offset_container st znode offset a :
  znode <> 0 ->
  ZS.avl_offset (ZS.heap st) (ZS.anode_of znode) offset = Ok a ->
  ZS.znode_offset st znode offset = Ok (container_of_func a ZS.off_anode).
Proof.
  intros Hne Ha. unfold ZS.znode_offset.
  apply Z.eqb_neq in Hne. rewrite Hne, Ha. reflexivity.
Qed.

Lemma container_of_null : container_of_func 0 ZS.off_anode = 2 ^ 64 - 16.
Proof. reflexivity. Qed.

(** C2. The set after [zset_insert] of ["a"] on the empty set satisfies the
    dual-structure invariant; [zset_insert] of the absent member ["b"] on it
    returns [true] and breaks the invariant: the hash map counts two nodes,
    the tree under [zset->root] is the new node alone, and the node of ["a"],
    still found by name, is not in the tree.  [zset_delete] and [zset_clear]
    on a set of two members linked as the invariant asks keep it. *)
Theorem zset_insert_breaks_dual_invariant :
  exists st1 z1 st2 z2,
    ZS.zset_insert ZS.Store_init ZS.ZSet_init (lit "a") (double_of_Z 1) = Ok (st1, z1, true)
    /\ ZSInv.dual_inv st1 z1
    /\ ZS.zset_insert st1 z1 (lit "b") (double_of_Z 2) = Ok (st2, z2, true)
    /\ HT.hm_size (ZS.hmap z2) = 2
    /\ ZS.tree_members st2 z2 = [(double_of_Z 2, lit "b")]
    /\ ZS.avl_cnt (ZS.heap st2) (ZS.root z2) = 1
    /\ snd <$> ZS.zset_lookup st2 z2 (lit "a") = Ok 80
    /\ (80 ∉ ZS.tree_nodes (S (size (ZS.heap st2))) (ZS.heap st2) (ZS.root z2))
    /\ ~ ZSInv.dual_inv st2 z2
    /\ (exists st3 z3,
          ZS.zset_delete (fst ZSInv.pair_ab) (snd ZSInv.pair_ab) 160 = Ok (st3, z3)
          /\ ZS.tree_members st3 z3 = [(double_of_Z 1, lit "a")]
          /\ ZSInv.dual_inv st3 z3)
    /\ (exists st4 z4,
          ZS.zset_clear (fst ZSInv.pair_ab) (snd ZSInv.pair_ab) = Ok (st4, z4)
          /\ ZS.tree_members st4 z4 = []
          /\ ZSInv.dual_inv st4 z4).
Proof.
  exists (fst (fst ZSInv.one_member)), (snd (fst ZSInv.one_member)),
         (fst (fst ZSInv.two_inserts)), (snd (fst ZSInv.two_inserts)).
  split_and!.
  - vm_compute. reflexivity.
  - unfold ZSInv.dual_inv. cbv zeta.
    set (st1 := fst (fst ZSInv.one_member)). set (z1 := snd (fst ZSInv.one_member)).
    assert (Ht : ZS.tree_nodes (S (size (ZS.heap st1))) (ZS.heap st1) (ZS.root z1) = [80])
      by (vm_compute; reflexivity).
    assert (Hn : HTInv.hm_nodes (ZS.hmap z1) = [80]) by (vm_compute; reflexivity).
    rewrite Ht, Hn. split_and!.
    + apply NoDup_singleton.
    + intros p. reflexivity.
    + vm_compute. reflexivity.
  - vm_compute. reflexivity.
  - vm_compute. reflexivity.
  - vm_compute. reflexivity.
  - vm_compute. reflexivity.
  - vm_compute. reflexivity.
  - vm_compute. intros H. apply list_elem_of_singleton in H. discriminate.
  - unfold ZSInv.dual_inv. intros (_ & _ & Hsz). vm_compute in Hsz. discriminate.
  - pose (r := ZSInv.get_ok (ZS.Store_init, ZS.ZSet_init)
                 (ZS.zset_delete (fst ZSInv.pair_ab) (snd ZSInv.pair_ab) 160)).
    exists (fst r), (snd r). subst r. split_and!.
    + vm_compute. reflexivity.
    + vm_compute. reflexivity.
    + unfold ZSInv.dual_inv. cbv zeta.
      match goal with
      | |- NoDup ?t /\ (forall p, p ∈ ?n <-> _) /\ _ =>
          assert (Ht : t = [80]) by (vm_compute; reflexivity);
          assert (Hn : n = [80]) by (vm_compute; reflexivity)
      end.
      rewrite Ht, Hn. split_and!.
      * apply NoDup_singleton.
      * intros p. reflexivity.
      * vm_compute. reflexivity.
  - pose (r := ZSInv.get_ok (ZS.Store_init, ZS.ZSet_init)
                 (ZS.zset_clear (fst ZSInv.pair_ab) (snd ZSInv.pair_ab))).
    exists (fst r), (snd r). subst r. split_and!.
    + vm_compute. reflexivity.
    + vm_compute. reflexivity.
    + unfold ZSInv.dual_inv. cbv zeta.
      match goal with
      | |- NoDup ?t /\ (forall p, p ∈ ?n <-> _) /\ _ =>
          assert (Ht : t = []) by (vm_compute; reflexivity);
          assert (Hn : n = []) by (vm_compute; reflexivity)
      end.
      rewrite Ht, Hn. split_and!.
      * constructor.
      * intros p. reflexivity.
      * vm_compute. reflexivity.
Qed.

(** C3. [zset_seekge] against the order "scores numerically, ties by full
    lexicographic comparison of the names".  On the set whose only member is
    [(1, "a")], the query [(1, "ab")] is above every member, and the result
    is the node of ["a"], not none.  On the set [(1, "a")], [(1, "ab")], the
    query [(1, "a")] is a member, the least one at or above the query, and
    the result is the node of ["ab"]. *)
Theorem zset_seekge_ignores_name_length :
  (exists st1 z1,
     ZS.zset_insert ZS.Store_init ZS.ZSet_init (lit "a") (double_of_Z 1) = Ok (st1, z1, true)
     /\ ZS.tree_members st1 z1 = [(double_of_Z 1, lit "a")]
     /\ ZS.member_lt (double_of_Z 1, lit "a") (double_of_Z 1, lit "ab") = true
     /\ ZS.zset_seekge st1 z1 (double_of_Z 1) (lit "ab") = Ok 80
     /\ (ZS.name <$> (ZS.heap st1 !! 80)) = Some (lit "a"))
  /\ (ZS.tree_members (fst ZSInv.pair_prefix) (snd ZSInv.pair_prefix)
      = [(double_of_Z 1, lit "a"); (double_of_Z 1, lit "ab")]
      /\ ZS.member_lt (double_of_Z 1, lit "a") (double_of_Z 1, lit "ab") = true
      /\ ZS.member_lt (double_of_Z 1, lit "a") (double_of_Z 1, lit "a") = false
      /\ ZS.zset_seekge (fst ZSInv.pair_prefix) (snd ZSInv.pair_prefix)
           (double_of_Z 1) (lit "a") = Ok 160
      /\ (ZS.name <$> (ZS.heap (fst ZSInv.pair_prefix) !! 160)) = Some (lit "ab"))
  /\ ZS.znode_cmp (double_of_Z 1) (lit "a") 1 (double_of_Z 1) (lit "ab") 2 = 0.
Proof.
  split_and!.
  - exists (fst (fst ZSInv.one_member)), (snd (fst ZSInv.one_member)).
    split_and!; (vm_compute; reflexivity).
  - vm_compute. reflexivity.
  - vm_compute. reflexivity.
  - vm_compute. reflexivity.
  - vm_compute. reflexivity.
  - vm_compute. reflexivity.
  - vm_compute. reflexivity.
Qed.

(** C4. [znode_offset] on a target rank that is out of range.  On the set
    whose only member is ["a"] (rank 0 of 1), [avl_offset] gives a null
    pointer for the offsets [1] and [-1], and [znode_offset] returns
    [CONTAINER_OF] of it, the address [2^64 - 16], which is not null.  In
    range the node of that rank is returned. *)
Theorem znode_offset_out_of_range_is_not_null :
  exists st1 z1,
    ZS.zset_insert ZS.Store_init ZS.ZSet_init (lit "a") (double_of_Z 1) = Ok (st1, z1, true)
    /\ snd <$> ZS.zset_lookup st1 z1 (lit "a") = Ok 80
    /\ ZS.avl_cnt (ZS.heap st1) (ZS.root z1) = 1
    /\ ZS.avl_offset (ZS.heap st1) (ZS.anode_of 80) 1 = Ok 0
    /\ ZS.znode_offset st1 80 1 = Ok (2 ^ 64 - 16)
    /\ ZS.avl_offset (ZS.heap st1) (ZS.anode_of 80) (-1) = Ok 0
    /\ ZS.znode_offset st1 80 (-1) = Ok (2 ^ 64 - 16)
    /\ ZS.znode_offset st1 80 0 = Ok 80
    /\ ZS.znode_offset (fst ZSInv.pair_ab) 80 1 = Ok 160
    /\ ZS.znode_offset (fst ZSInv.pair_ab) 80 2 = Ok (2 ^ 64 - 16).
Proof.
  exists (fst (fst ZSInv.one_member)), (snd (fst ZSInv.one_member)).
  split_and!; (vm_compute; reflexivity).
Qed.

Lemma container_of_anode znode :
  0 <= znode -> znode + ZS.off_anode < 2 ^ 64 ->
  container_of_func (ZS.anode_of znode) ZS.off_anode = znode.
Proof.
  intros H0 H1. unfold container_of_func, ZS.anode_of, wrap64, ZS.off_anode in *.
  rewrite (Z.mod_small (znode + 16)) by lia.
  replace (znode + 16 - 16) with znode by lia. apply Z.mod_small. lia.
Qed.

Lemma aget_aput h a n :
  is_Some (h !! container_of_func a ZS.off_anode) -> ZS.aget (ZS.aput h a n) a = n.
Proof.
  intros [z Hz]. unfold ZS.aget, ZS.aput. rewrite lookup_alter_eq, Hz. reflexivity.
Qed.

Lemma aput_is_Some h a n p : is_Some (ZS.aput h a n !! p) <-> is_Some (h !! p).
Proof.
  unfold ZS.aput. rewrite lookup_alter.
  destruct (decide (container_of_func a ZS.off_anode = p)) as [->|];
    [|reflexivity].
  destruct (h !! p); cbn; split; intros [x Hx]; eauto; discriminate.
Qed.

(** [avl_fix] on a node that [avl_init] has just reset: the node has no
    parent to walk to, so the result is the node itself, alone. *)
Lemma avl_fix_fresh h a :
  a <> 0 -> is_Some (h !! container_of_func a ZS.off_anode) ->
  exists h', ZS.avl_fix (ZS.avl_init h a) a = Ok (h', a)
             /\ ZS.aget h' a = ZS.mkAVL 0 0 0 1 1.
Proof.
  intros Ha Hin. unfold ZS.avl_fix, ZS.avl_init.
  set (h1 := ZS.aput h a (ZS.mkAVL 0 0 0 1 1)).
  assert (Hin1 : is_Some (h1 !! container_of_func a ZS.off_anode))
    by (apply aput_is_Some; exact Hin).
  assert (Hget : ZS.aget h1 a = ZS.mkAVL 0 0 0 1 1) by (apply aget_aput; exact Hin).
  assert (Hupd : ZS.avl_update h1 a = ZS.aput h1 a (ZS.mkAVL 0 0 0 1 1)).
  { unfold ZS.avl_update. rewrite Hget. reflexivity. }
  cbn [ZS.avl_fix_loop]. rewrite Hupd.
  rewrite (aget_aput h1 a _ Hin1), Hget. cbn [ZS.parent ZS.left ZS.right].
  unfold ZS.avl_height. cbn. eexists. split; [reflexivity|].
  apply aget_aput. exact Hin1.
Qed.

(** Whatever the set holds, [zset_insert] of an absent member leaves
    [zset->root] at the new node, which has no children: the tree under the
    root is that one node. *)
Lemma zset_insert_absent_root st zset nm sc st' zset' :
  0 < ZS.brk st -> ZS.brk st + ZS.off_anode < 2 ^ 64 ->
  ZS.zset_insert st zset nm sc = Ok (st', zset', true) ->
  ZS.root zset' = ZS.anode_of (ZS.brk st)
  /\ ZS.aget (ZS.heap st') (ZS.root zset') = ZS.mkAVL 0 0 0 1 1
  /\ ZS.tree_nodes (S (size (ZS.heap st'))) (ZS.heap st') (ZS.root zset') = [ZS.brk st].
Proof.
  intros Hb0 Hb1. unfold ZS.zset_insert.
  destruct (HT.hm_lookup _ _ _ _) as [[hm1 hnode]| |]; res_step; try discriminate.
  destruct (hnode =? 0) eqn:E; cbn [negb].
  2:{ destruct (ZS.heap st !! container_of_func hnode ZS.off_hnode) as [z|];
        [|discriminate].
      destruct (double_eq (ZS.score z) sc); [discriminate|].
      destruct (ZS.avl_del _ _) as [[h1 r1]| |]; res_step; try discriminate.
      match goal with
      | |- context [ZS.avl_fix ?h ?a] =>
          destruct (ZS.avl_fix h a) as [[h3 r3]| |]; res_step; discriminate
      end. }
  destruct (HT.hm_insert _ _ _) as [hm2| |]; res_step; try discriminate.
  set (a := ZS.anode_of (ZS.brk st)).
  assert (Hc : container_of_func a ZS.off_anode = ZS.brk st)
    by (apply container_of_anode; lia).
  assert (Ha : a <> 0).
  { unfold a, ZS.anode_of, wrap64, ZS.off_anode in *.
    rewrite Z.mod_small by lia. lia. }
  match goal with
  | |- context [ZS.avl_fix (ZS.avl_init ?h a) a] =>
      destruct (avl_fix_fresh h a Ha) as (h' & Hfix & Hget);
      [rewrite Hc, lookup_insert_eq; eauto|]
  end.
  rewrite Hfix. res_step. intros [= <- <-]. cbn [ZS.root ZS.heap].
  split; [reflexivity|]. split; [exact Hget|].
  cbn [ZS.tree_nodes]. apply Z.eqb_neq in Ha. rewrite Ha, Hget.
  cbn [ZS.left ZS.right]. rewrite Hc.
  destruct (size h'); reflexivity.
Qed.

(** ** The framer of [CustomHashtable/main.cpp] on arbitrary input *)

(** A header that announces more than [k_max_msg] bytes. *)
Lemma try_one_request_oversized g conn len body :
  Wire.read_u32 (Server.incoming conn) = Some (len, body) ->
  Server.k_max_msg < len ->
  Server.try_one_request g conn = Ok (g, Server.set_want_close conn, false).
Proof.
  intros Hu Hlen. unfold Server.try_one_request.
  destruct (Server.incoming conn) as [|b0 [|b1 [|b2 [|b3 tl]]]]; try discriminate.
  cbn [Wire.read_u32] in Hu. injection Hu as Hl _. rewrite Hl.
  destruct (Z.ltb_spec Server.k_max_msg len); [reflexivity|lia].
Qed.

(** What an input buffer can start with. *)
Lemma incoming_cases buf :
  Pipeline.incomplete buf
  \/ (exists len body, Wire.read_u32 buf = Some (len, body) /\ Server.k_max_msg < len)
  \/ (exists payload more,
        buf = Pipeline.frame payload ++ more /\ blen payload <= Server.k_max_msg).
Proof.
  destruct (Wire.read_u32 buf) as [[len body]|] eqn:Hu.
  - destruct (Z.ltb_spec Server.k_max_msg len) as [Hbig|Hle].
    { right. left. eauto. }
    destruct (Z.ltb_spec (blen body) len) as [Hshort|Hfull].
    { left. right. eauto. }
    right. right. apply read_u32_Some in Hu as [-> Hr].
    exists (take (Z.to_nat len) body), (drop (Z.to_nat len) body).
    assert (Hl : blen (take (Z.to_nat len) body) = len).
    { unfold blen in *. rewrite length_take. lia. }
    split; [|lia]. unfold Pipeline.frame. rewrite Hl, <- app_assoc, take_drop.
    reflexivity.
  - left. left. apply read_u32_None. exact Hu.
Qed.

Lemma set_want_close_buffers conn :
  Server.incoming (Server.set_want_close conn) = Server.incoming conn
  /\ Server.outgoing (Server.set_want_close conn) = Server.outgoing conn.
Proof. split; reflexivity. Qed.

Lemma carries_arg_fits payload cmd s :
  Wire.carries Server.k_max_args payload cmd ->
  blen payload <= Server.k_max_msg -> s ∈ cmd -> blen s <= Server.k_max_msg.
Proof.
  intros Hc Hlen Hin. apply (well_formed_arg_fits cmd); [|exact Hin].
  destruct Hc as (-> & Hrest). split; [|exact Hlen].
  split; [reflexivity|exact Hrest].
Qed.

(** The ways in which [try_one_request] returns [false]. *)
Lemma try_one_request_false_inv
    (g g' : Server.Global) (conn conn' : Server.Conn) :
  Server.try_one_request g conn = Ok (g', conn', false) ->
  g' = g
  /\ Server.incoming conn' = Server.incoming conn
  /\ Server.outgoing conn' = Server.outgoing conn
  /\ ((Pipeline.incomplete (Server.incoming conn) /\ conn' = conn)
      \/ (conn' = Server.set_want_close conn
          /\ ((exists len body,
                 Wire.read_u32 (Server.incoming conn) = Some (len, body)
                 /\ Server.k_max_msg < len)
              \/ (exists payload more,
                    Server.incoming conn = Pipeline.frame payload ++ more
                    /\ blen payload <= Server.k_max_msg
                    /\ Wire.malformed 200000 payload)))).
Proof.
  intros H.
  destruct (incoming_cases (Server.incoming conn))
    as [Hinc|[(len & body & Hu & Hbig)|(payload & more & Hin & Hlen)]].
  - rewrite (try_one_request_incomplete g conn Hinc) in H. injection H as <- <-.
    split_and!; try reflexivity. left. split; [exact Hinc|reflexivity].
  - rewrite (try_one_request_oversized g conn len body Hu Hbig) in H.
    injection H as <- <-. split_and!; try reflexivity.
    right. split; [reflexivity|]. left. eauto.
  - rewrite (try_one_request_frame g conn payload more Hin Hlen) in H.
    destruct (Server.parse_req payload) as [cmd|] eqn:Hp.
    + destruct (Server.do_request g cmd Server.Response_new) as [[g1 r]| |];
        cbn in H; discriminate.
    + injection H as <- <-. split_and!; try reflexivity.
      right. split; [reflexivity|]. right. exists payload, more.
      split_and!; try assumption. apply parse_req_None_iff. exact Hp.
Qed.

(** The way in which [try_one_request] returns [true]. *)
Lemma try_one_request_true_inv
    (g g' : Server.Global) (conn conn' : Server.Conn) :
  Server.try_one_request g conn = Ok (g', conn', true) ->
  exists payload more cmd resp,
    Server.incoming conn = Pipeline.frame payload ++ more
    /\ blen payload <= Server.k_max_msg
    /\ Wire.carries 200000 payload cmd
    /\ Server.do_request g cmd Server.Response_new = Ok (g', resp)
    /\ conn' = Server.mkConn (Server.fd conn) (Server.want_read conn)
                 (Server.want_write conn) (Server.want_close conn) more
                 (Server.outgoing conn ++ Pipeline.response_frame resp).
Proof.
  intros H.
  destruct (incoming_cases (Server.incoming conn))
    as [Hinc|[(len & body & Hu & Hbig)|(payload & more & Hin & Hlen)]].
  - rewrite (try_one_request_incomplete g conn Hinc) in H. discriminate.
  - rewrite (try_one_request_oversized g conn len body Hu Hbig) in H. discriminate.
  - rewrite (try_one_request_frame g conn payload more Hin Hlen) in H.
    destruct (Server.parse_req payload) as [cmd|] eqn:Hp; [|discriminate].
    destruct (Server.do_request g cmd Server.Response_new) as [[g1 r]| |] eqn:Hd;
      cbn in H; try discriminate.
    injection H as <- <-. exists payload, more, cmd, r.
    split_and!; try assumption; try reflexivity.
    apply parse_req_Some_iff. exact Hp.
Qed.

(** The loop [while (try_one_request(conn)) {}]: more iterations allowed do
    not change its result. *)
Lemma request_loop_mono fuel : forall fuel' g conn r,
  Server.request_loop fuel g conn = Ok r -> (fuel <= fuel')%nat ->
  Server.request_loop fuel' g conn = Ok r.
Proof.
  induction fuel as [|fuel IH]; intros fuel' g conn r H Hle; [discriminate|].
  destruct fuel' as [|fuel']; [lia|].
  cbn [Server.request_loop] in *.
  destruct (Server.try_one_request g conn) as [[[g1 c1] more]| |]; cbn in *;
    try discriminate.
  destruct more; [|exact H]. apply (IH fuel'); [exact H|lia].
Qed.

Lemma try_one_request_true_shorter g conn g' conn' :
  Server.try_one_request g conn = Ok (g', conn', true) ->
  (length (Server.incoming conn') < length (Server.incoming conn))%nat.
Proof.
  intros H.
  destruct (try_one_request_true_inv _ _ _ _ H)
    as (payload & more & cmd & resp & Hin & _ & _ & _ & ->).
  cbn. rewrite Hin, length_app, frame_length. lia.
Qed.

(** A result of the loop is reached within as many iterations as the input
    buffer has bytes. *)
Lemma request_loop_enough fuel : forall g conn r,
  Server.request_loop fuel g conn = Ok r ->
  Server.request_loop (S (length (Server.incoming conn))) g conn = Ok r.
Proof.
  induction fuel as [|fuel IH]; intros g conn r H; [discriminate|].
  cbn [Server.request_loop] in *.
  destruct (Server.try_one_request g conn) as [[[g1 c1] more]| |] eqn:Ht; cbn in *;
    try discriminate.
  destruct more; [|exact H].
  apply try_one_request_true_shorter in Ht.
  apply (request_loop_mono (S (length (Server.incoming c1)))); [|lia].
  apply IH. exact H.
Qed.

(** The loop ends, whatever the input buffer holds, and keeps the invariant
    of the keyspace. *)
Lemma request_loop_total n : forall g m conn,
  ServerInv.represents g m -> (length (Server.incoming conn) < n)%nat ->
  exists g' m' conn',
    Server.request_loop n g conn = Ok (g', conn')
    /\ ServerInv.represents g' m'.
Proof.
  induction n as [|n IH]; intros g m conn Hrep Hn; [lia|].
  cbn [Server.request_loop].
  destruct (incoming_cases (Server.incoming conn))
    as [Hinc|[(len & body & Hu & Hbig)|(payload & more & Hin & Hlen)]].
  - rewrite (try_one_request_incomplete g conn Hinc). cbn. eauto.
  - rewrite (try_one_request_oversized g conn len body Hu Hbig). cbn. eauto.
  - rewrite (try_one_request_frame g conn payload more Hin Hlen).
    destruct (Server.parse_req payload) as [cmd|] eqn:Hp; [|cbn; eauto].
    apply parse_req_Some_iff in Hp.
    destruct (do_request_total g m cmd Hrep) as (g1 & r & m1 & Hreq & Hrep1).
    { intros s Hs. eapply carries_arg_fits; eauto. }
    rewrite Hreq. cbn.
    apply (IH g1 m1); [exact Hrep1|]. cbn.
    rewrite Hin, length_app, frame_length in Hn. lia.
Qed.

(** [try_one_request] does not look at [want_close]. *)
Lemma try_one_request_closed g conn g' conn' b :
  Server.try_one_request g conn = Ok (g', conn', b) ->
  Server.try_one_request g (Server.set_want_close conn)
  = Ok (g', Server.set_want_close conn', b).
Proof.
  unfold Server.try_one_request. cbn [Server.incoming Server.set_want_close].
  destruct (Server.incoming conn) as [|b0 [|b1 [|b2 [|b3 tl]]]] eqn:Ei;
    try (intros [= <- <- <-]; reflexivity).
  destruct (Server.k_max_msg <? le_u32 b0 b1 b2 b3);
    [intros [= <- <- <-]; reflexivity|].
  destruct (blen (b0 :: b1 :: b2 :: b3 :: tl) <? wrap32 (4 + le_u32 b0 b1 b2 b3));
    [intros [= <- <- <-]; reflexivity|].
  destruct (Server.parse_req (take (Z.to_nat (le_u32 b0 b1 b2 b3)) tl)) as [cmd|];
    [|intros [= <- <- <-]; reflexivity].
  destruct (Server.do_request g cmd Server.Response_new) as [[g1 r]| |]; cbn;
    try discriminate.
  intros [= <- <- <-]. reflexivity.
Qed.

(** [try_one_request] on a buffer to which more bytes have been appended. *)
Lemma try_one_request_true_append g conn g' conn' buf :
  Server.try_one_request g conn = Ok (g', conn', true) ->
  Server.try_one_request g (EventLoop.append_incoming conn buf)
  = Ok (g', EventLoop.append_incoming conn' buf, true).
Proof.
  intros H.
  destruct (try_one_request_true_inv _ _ _ _ H)
    as (payload & more & cmd & resp & Hin & Hlen & Hc & Hd & ->).
  rewrite (try_one_request_frame g _ payload (more ++ buf)); [|
    cbn; rewrite Hin, <- app_assoc; reflexivity | exact Hlen].
  apply parse_req_Some_iff in Hc. change (Server.parse_req payload = Some cmd) in Hc.
  rewrite Hc, Hd. reflexivity.
Qed.

Lemma try_one_request_closing_append g conn buf :
  Server.try_one_request g conn = Ok (g, Server.set_want_close conn, false) ->
  ~ Pipeline.incomplete (Server.incoming conn) ->
  Server.try_one_request g (EventLoop.append_incoming conn buf)
  = Ok (g, Server.set_want_close (EventLoop.append_incoming conn buf), false).
Proof.
  intros H Hni.
  destruct (incoming_cases (Server.incoming conn))
    as [Hinc|[(len & body & Hu & Hbig)|(payload & more & Hin & Hlen)]].
  - contradiction.
  - apply (try_one_request_oversized g _ len (body ++ buf)); [|exact Hbig].
    cbn. apply read_u32_Some in Hu as [-> Hr]. rewrite <- app_assoc.
    apply read_u32_bytes. exact Hr.
  - rewrite (try_one_request_frame g conn payload more Hin Hlen) in H.
    rewrite (try_one_request_frame g _ payload (more ++ buf)); [|
      cbn; rewrite Hin, <- app_assoc; reflexivity | exact Hlen].
    destruct (Server.parse_req payload) as [cmd|]; [|reflexivity].
    destruct (Server.do_request g cmd Server.Response_new) as [[g1 r]| |];
      cbn in H; discriminate.
Qed.

Lemma append_incoming_nil conn : EventLoop.append_incoming conn [] = conn.
Proof. destruct conn. unfold EventLoop.append_incoming. cbn. rewrite app_nil_r. reflexivity. Qed.

Lemma append_incoming_app conn a b :
  EventLoop.append_incoming (EventLoop.append_incoming conn a) b
  = EventLoop.append_incoming conn (a ++ b).
Proof. unfold EventLoop.append_incoming. cbn. rewrite app_assoc. reflexivity. Qed.

(** The loop run on a buffer, and then again once more bytes have been
    appended, does what one run on the whole does. *)
Lemma request_loop_append f1 : forall g conn g1 c1 buf f2 g2 c2,
  Server.request_loop f1 g conn = Ok (g1, c1) ->
  Server.request_loop f2 g1 (EventLoop.append_incoming c1 buf) = Ok (g2, c2) ->
  Server.request_loop (f1 + f2) g (EventLoop.append_incoming conn buf) = Ok (g2, c2).
Proof.
  induction f1 as [|f1 IH]; intros g conn g1 c1 buf f2 g2 c2 H1 H2; [discriminate|].
  cbn [Server.request_loop] in H1.
  destruct (Server.try_one_request g conn) as [[[ga ca] more]| |] eqn:Ht; cbn in H1;
    try discriminate.
  destruct more.
  - cbn [Nat.add Server.request_loop].
    rewrite (try_one_request_true_append _ _ _ _ buf Ht). cbn.
    eapply IH; eauto.
  - injection H1 as <- <-.
    destruct (try_one_request_false_inv _ _ _ _ Ht) as (Eg & _ & _ & [[Hinc Ec]|[Ec Hc]]);
      subst ga ca.
    + apply (request_loop_mono f2); [exact H2|lia].
    + assert (Hni : ~ Pipeline.incomplete (Server.incoming conn)).
      { intros Hinc. destruct Hc as [(len & body & Hu & Hbig)|(p & more & Hin & Hlen & _)].
        - destruct Hinc as [Hs|(len' & body' & Hu' & Hle & _)].
          + apply read_u32_None in Hs. congruence.
          + rewrite Hu in Hu'. injection Hu' as <- <-. lia.
        - rewrite Hin in Hinc. exact (frame_not_incomplete p more Hlen Hinc). }
      pose proof (try_one_request_closing_append g conn buf Ht Hni) as Hb.
      pose proof (try_one_request_closed _ _ _ _ _ Hb) as Hb2.
      destruct f2 as [|f2]; [discriminate|].
      cbn [Server.request_loop] in H2.
      change (EventLoop.append_incoming (Server.set_want_close conn) buf)
        with (Server.set_want_close (EventLoop.append_incoming conn buf)) in H2.
      rewrite Hb2 in H2. cbn in H2. injection H2 as <- <-.
      cbn [Nat.add Server.request_loop]. rewrite Hb. reflexivity.
Qed.

(** X1. Framing does not depend on how the byte stream is cut, whatever the
    bytes are.  Reading [a] and running the request loop, then reading [b]
    and running it again, leaves the keyspace and the connection (buffers
    and flags) as reading [a ++ b] at once does; each of these runs ends,
    and the invariant of the keyspace is kept. *)
Theorem request_loop_independent_of_chunking
    (g : Server.Global) (m : gmap bytes bytes) (conn : Server.Conn) (a b : bytes) :
  ServerInv.represents g m ->
  exists g1 c1 g2 c2 m2,
    EventLoop.feed g conn a = Ok (g1, c1)
    /\ EventLoop.feed g1 c1 b = Ok (g2, c2)
    /\ EventLoop.feed g conn (a ++ b) = Ok (g2, c2)
    /\ ServerInv.represents g2 m2.
Proof.
  intros Hrep. unfold EventLoop.feed.
  destruct (request_loop_total
              (S (length (Server.incoming (EventLoop.append_incoming conn a))))
              g m (EventLoop.append_incoming conn a) Hrep)
    as (g1 & m1 & c1 & H1 & Hrep1); [lia|].
  destruct (request_loop_total
              (S (length (Server.incoming (EventLoop.append_incoming c1 b))))
              g1 m1 (EventLoop.append_incoming c1 b) Hrep1)
    as (g2 & m2 & c2 & H2 & Hrep2); [lia|].
  exists g1, c1, g2, c2, m2. split_and!; try assumption.
  pose proof (request_loop_append _ _ _ _ _ _ _ _ _ H1 H2) as H.
  rewrite append_incoming_app in H.
  apply request_loop_enough in H. exact H.
Qed.

Lemma request_loop_independent_of_chunking_witness :
  exists g1 c1 g2 c2 m2,
    EventLoop.feed Server.Global_init (Server.mkConn 5 true false false [] [])
      (u32_bytes 4 ++ u32_bytes 0 ++ u32_bytes 4) = Ok (g1, c1)
    /\ EventLoop.feed g1 c1 (u32_bytes 0) = Ok (g2, c2)
    /\ EventLoop.feed Server.Global_init (Server.mkConn 5 true false false [] [])
         ((u32_bytes 4 ++ u32_bytes 0 ++ u32_bytes 4) ++ u32_bytes 0) = Ok (g2, c2)
    /\ ServerInv.represents g2 m2.
Proof.
  exact (request_loop_independent_of_chunking Server.Global_init ∅
           (Server.mkConn 5 true false false [] [])
           (u32_bytes 4 ++ u32_bytes 0 ++ u32_bytes 4) (u32_bytes 0) represents_init).
Defined.

(** X2. A call of [try_one_request] that returns [false] has changed
    neither the keyspace nor the two buffers.  Either the input buffer holds
    no complete frame, and the connection is as before; or the connection is
    marked for closing, which happens for a header that announces more than
    [k_max_msg] bytes (whether or not the body has arrived) and for a
    complete payload that the parser rejects. *)
Theorem try_one_request_false_cases
    (g g' : Server.Global) (conn conn' : Server.Conn) :
  Server.try_one_request g conn = Ok (g', conn', false) ->
  g' = g
  /\ Server.incoming conn' = Server.incoming conn
  /\ Server.outgoing conn' = Server.outgoing conn
  /\ ((Pipeline.incomplete (Server.incoming conn) /\ conn' = conn)
      \/ (conn' = Server.set_want_close conn
          /\ ((exists len body,
                 Wire.read_u32 (Server.incoming conn) = Some (len, body)
                 /\ Server.k_max_msg < len)
              \/ (exists payload more,
                    Server.incoming conn = Pipeline.frame payload ++ more
                    /\ blen payload <= Server.k_max_msg
                    /\ Wire.malformed 200000 payload)))).
Proof. exact (try_one_request_false_inv g g' conn conn'). Qed.

Lemma try_one_request_false_cases_witness :
  Server.incoming (Server.mkConn 5 true false true (u32_bytes 33554433) [])
  = Server.incoming (Server.mkConn 5 true false false (u32_bytes 33554433) [])
  /\ Server.outgoing (Server.mkConn 5 true false true (u32_bytes 33554433) [])
     = Server.outgoing (Server.mkConn 5 true false false (u32_bytes 33554433) []).
Proof.
  assert (H : Server.try_one_request Server.Global_init
                (Server.mkConn 5 true false false (u32_bytes 33554433) [])
              = Ok (Server.Global_init,
                    Server.mkConn 5 true false true (u32_bytes 33554433) [], false))
    by (vm_compute; reflexivity).
  destruct (try_one_request_false_cases _ _ _ _ H) as (_ & Hi & Ho & _).
  split; [exact Hi|exact Ho].
Defined.

(** X3. A call of [try_one_request] that returns [true] has taken exactly
    one frame off the front of the input buffer, a frame of at most
    [k_max_msg] payload bytes that carries the strings of a command; it has
    run the dispatcher once on those strings, and has appended exactly the
    response frame of the result to the output buffer.  Nothing else of the
    connection has changed. *)
Theorem try_one_request_true_consumes_one_frame
    (g g' : Server.Global) (conn conn' : Server.Conn) :
  Server.try_one_request g conn = Ok (g', conn', true) ->
  exists payload more cmd resp,
    Server.incoming conn = Pipeline.frame payload ++ more
    /\ blen payload <= Server.k_max_msg
    /\ Wire.carries 200000 payload cmd
    /\ Server.do_request g cmd Server.Response_new = Ok (g', resp)
    /\ conn' = Server.mkConn (Server.fd conn) (Server.want_read conn)
                 (Server.want_write conn) (Server.want_close conn) more
                 (Server.outgoing conn ++ Pipeline.response_frame resp).
Proof. exact (try_one_request_true_inv g g' conn conn'). Qed.

Lemma try_one_request_true_consumes_one_frame_witness :
  exists payload more cmd resp,
    Pipeline.request_frame [lit "get"; lit "k"] ++ lit "xy" = Pipeline.frame payload ++ more
    /\ blen payload <= Server.k_max_msg
    /\ Wire.carries 200000 payload cmd
    /\ Server.do_request Server.Global_init cmd Server.Response_new
       = Ok (Server.Global_init, resp).
Proof.
  assert (H : Server.try_one_request Server.Global_init
                (Server.mkConn 5 true false false
                   (Pipeline.request_frame [lit "get"; lit "k"] ++ lit "xy") [])
              = Ok (Server.Global_init,
                    Server.mkConn 5 true false false (lit "xy")
                      (Pipeline.response_frame (Wire.mkResponse 2 [])), true))
    by (vm_compute; reflexivity).
  destruct (try_one_request_true_consumes_one_frame _ _ _ _ H)
    as (payload & more & cmd & resp & H1 & H2 & H3 & H4 & _).
  exists payload, more, cmd, resp. split_and!; assumption.
Defined.

Lemma do_request_response g cmd g' resp :
  Server.do_request g cmd Server.Response_new = Ok (g', resp) ->
  (Wire.status resp = Server.RES_OK \/ Wire.status resp = Server.RES_ERR
   \/ Wire.status resp = Server.RES_NX)
  /\ (Wire.status resp <> Server.RES_OK -> Wire.data resp = [])
  /\ blen (Wire.data resp) <= Server.k_max_msg.
Proof.
  assert (Hnew : forall g0 r, Ok (g0, Server.Response_new) = Ok (g', r) ->
     (Wire.status r = Server.RES_OK \/ Wire.status r = Server.RES_ERR
      \/ Wire.status r = Server.RES_NX)
     /\ (Wire.status r <> Server.RES_OK -> Wire.data r = [])
     /\ blen (Wire.data r) <= Server.k_max_msg).
  { intros g0 r [= _ <-]. cbn. split_and!; [left; reflexivity|reflexivity|].
    vm_compute. discriminate. }
  unfold Server.do_request.
  destruct (bool_decide (length cmd = 2%nat) && bool_decide (nth 0 cmd [] = lit "get")).
  { unfold Server.do_get.
    destruct (HT.hm_lookup _ _ _ _) as [[db' node]| |]; cbn [mbind res_bind];
      try discriminate.
    destruct (node =? 0).
    - intros [= _ <-]. cbn. split_and!; [right; right; reflexivity|reflexivity|].
      vm_compute. discriminate.
    - destruct (Server.mem g !! node) as [e|]; [|discriminate].
      destruct (Z.leb_spec (blen (Server.val e)) Server.k_max_msg) as [Hle|];
        [|discriminate].
      intros [= _ <-]. cbn. split_and!; [left; reflexivity| |exact Hle].
      intros Hc. exfalso. apply Hc. reflexivity. }
  destruct (bool_decide (length cmd = 3%nat) && bool_decide (nth 0 cmd [] = lit "set")).
  { unfold Server.do_set.
    destruct (HT.hm_lookup _ _ _ _) as [[db' node]| |]; cbn [mbind res_bind];
      try discriminate.
    destruct (node =? 0).
    - destruct (HT.hm_insert _ _ _) as [db''| |]; cbn [mbind res_bind]; try discriminate.
      apply Hnew.
    - destruct (Server.mem g !! node) as [e|]; [|discriminate]. apply Hnew. }
  destruct (bool_decide (length cmd = 2%nat) && bool_decide (nth 0 cmd [] = lit "del")).
  { unfold Server.do_del.
    destruct (HT.hm_delete _ _ _ _) as [[db' node]| |]; cbn [mbind res_bind];
      try discriminate.
    destruct (node =? 0); apply Hnew. }
  intros [= _ <-]. cbn. split_and!; [right; left; reflexivity|reflexivity|].
  vm_compute. discriminate.
Qed.

(** X4. Every response that the dispatcher returns is well formed: its
    status is one of [RES_OK], [RES_ERR] and [RES_NX]; it carries data only
    with [RES_OK]; the data are at most [k_max_msg] bytes (the [assert] of
    [do_get]), so that the length field which [make_response] writes is
    exactly 4 plus the number of data bytes, without truncation to 32 bits,
    and the frame is 8 bytes longer than the data. *)
Theorem responses_are_well_formed
    (g g' : Server.Global) (cmd : list bytes) (resp : Wire.Response) :
  Server.do_request g cmd Server.Response_new = Ok (g', resp) ->
  (Wire.status resp = Server.RES_OK \/ Wire.status resp = Server.RES_ERR
   \/ Wire.status resp = Server.RES_NX)
  /\ (Wire.status resp <> Server.RES_OK -> Wire.data resp = [])
  /\ blen (Wire.data resp) <= Server.k_max_msg
  /\ Pipeline.response_frame resp
     = u32_bytes (4 + blen (Wire.data resp)) ++ u32_bytes (Wire.status resp)
       ++ Wire.data resp
  /\ blen (Pipeline.response_frame resp) = 8 + blen (Wire.data resp).
Proof.
  intros H. destruct (do_request_response _ _ _ _ H) as (Hs & Hd & Hl).
  split_and!; try assumption.
  - unfold Pipeline.response_frame, Wire.make_response. rewrite app_nil_l.
    pose proof (blen_nonneg (Wire.data resp)). rewrite k_max_msg_val in Hl.
    unfold wrap32. rewrite (Z.mod_small (blen _)) by lia.
    rewrite Z.mod_small by lia. reflexivity.
  - unfold Pipeline.response_frame, Wire.make_response. rewrite app_nil_l.
    unfold blen. rewrite !length_app, !length_u32_bytes. lia.
Qed.

Lemma responses_are_well_formed_witness :
  blen (Pipeline.response_frame (Wire.mkResponse 2 [])) = 8 + blen ([] : bytes).
Proof.
  assert (H : Server.do_request Server.Global_init [lit "get"; lit "k"] Server.Response_new
              = Ok (Server.Global_init, Wire.mkResponse 2 []))
    by (vm_compute; reflexivity).
  destruct (responses_are_well_formed _ _ _ _ H) as (_ & _ & _ & _ & Hlen).
  exact Hlen.
Defined.

(** ** The connection callbacks and the event loop of [CustomHashtable/main.cpp] *)

Lemma try_one_request_keeps_flags g conn g' conn' b :
  Server.try_one_request g conn = Ok (g', conn', b) ->
  Server.fd conn' = Server.fd conn
  /\ Server.want_read conn' = Server.want_read conn
  /\ Server.want_write conn' = Server.want_write conn
  /\ exists more, Server.outgoing conn' = Server.outgoing conn ++ more.
Proof.
  intros H. destruct b.
  - destruct (try_one_request_true_inv _ _ _ _ H)
      as (payload & more & cmd & resp & _ & _ & _ & _ & ->).
    cbn. split_and!; try reflexivity. eauto.
  - destruct (try_one_request_false_inv _ _ _ _ H) as (_ & _ & _ & [[_ ->]|[-> _]]).
    + split_and!; try reflexivity. exists []. rewrite app_nil_r. reflexivity.
    + cbn. split_and!; try reflexivity. exists []. rewrite app_nil_r. reflexivity.
Qed.

Lemma request_loop_keeps_flags fuel : forall g conn g' conn',
  Server.request_loop fuel g conn = Ok (g', conn') ->
  Server.fd conn' = Server.fd conn
  /\ Server.want_read conn' = Server.want_read conn
  /\ Server.want_write conn' = Server.want_write conn
  /\ exists more, Server.outgoing conn' = Server.outgoing conn ++ more.
Proof.
  induction fuel as [|fuel IH]; intros g conn g' conn' H; [discriminate|].
  cbn [Server.request_loop] in H.
  destruct (Server.try_one_request g conn) as [[[g1 c1] more]| |] eqn:Ht; cbn in H;
    try discriminate.
  destruct (try_one_request_keeps_flags _ _ _ _ _ Ht) as (Hf & Hr & Hw & o1 & Ho).
  destruct more.
  - destruct (IH _ _ _ _ H) as (Hf' & Hr' & Hw' & o2 & Ho').
    split_and!; try congruence. exists (o1 ++ o2). rewrite Ho', Ho, app_assoc. reflexivity.
  - injection H as <- <-. split_and!; try assumption. eauto.
Qed.

(** [handle_write] on a connection that waits for writing. *)
Lemma handle_write_inv conn w :
  EventLoop.conn_inv conn -> Server.want_write conn = true ->
  exists conn' sent,
    Server.handle_write conn w = Ok (conn', sent)
    /\ EventLoop.conn_inv conn'
    /\ Server.fd conn' = Server.fd conn
    /\ Server.incoming conn' = Server.incoming conn
    /\ (w <> Server.WError -> sent ++ Server.outgoing conn' = Server.outgoing conn).
Proof.
  intros [Hx Hq] Hw. unfold Server.handle_write.
  destruct (Server.outgoing conn) as [|b out] eqn:Ho.
  { exfalso. apply Hq in Hw. congruence. }
  destruct w as [| |rv].
  - exists conn, []. split_and!; try reflexivity; [|intros _; exact Ho].
    split; [exact Hx|rewrite Ho; exact Hq].
  - eexists _, _. split; [reflexivity|]. unfold EventLoop.conn_inv. cbn.
    rewrite Ho. split_and!; try reflexivity; try assumption; congruence.
  - destruct (drop (Z.to_nat rv) (b :: out)) as [|c rest] eqn:Hd.
    + eexists _, _. split; [reflexivity|]. unfold EventLoop.conn_inv. cbn.
      split_and!; try reflexivity.
      * split; [discriminate|congruence].
      * intros _. rewrite app_nil_r. rewrite <- (take_drop (Z.to_nat rv) (b :: out)) at 2.
        rewrite Hd, app_nil_r. reflexivity.
    + eexists _, _. split; [reflexivity|]. unfold EventLoop.conn_inv. cbn.
      split_and!; try reflexivity; try assumption.
      * split; [discriminate|intros _; exact Hw].
      * intros _. rewrite <- Hd. apply take_drop.
Qed.

(** [handle_read] returns, whatever the kernel hands it. *)
Lemma handle_read_inv g m conn r w :
  ServerInv.represents g m -> EventLoop.conn_inv conn ->
  exists g' m' conn' sent,
    Server.handle_read g conn r w = Ok (g', conn', sent)
    /\ ServerInv.represents g' m'
    /\ EventLoop.conn_inv conn'
    /\ Server.fd conn' = Server.fd conn.
Proof.
  intros Hrep Hinv. unfold Server.handle_read.
  destruct r as [| |buf].
  - exists g, m, conn, []. split_and!; try reflexivity; assumption.
  - exists g, m, (Server.set_want_close conn), []. split_and!; try reflexivity; assumption.
  - destruct buf as [|b buf].
    { exists g, m, (Server.set_want_close conn), [].
      split_and!; try reflexivity; assumption. }
    set (conn1 := Server.mkConn _ _ _ _ _ _).
    destruct (request_loop_total (S (length (Server.incoming conn1))) g m conn1 Hrep)
      as (g' & m' & conn2 & Hloop & Hrep'); [lia|].
    rewrite Hloop. cbn.
    destruct (request_loop_keeps_flags _ _ _ _ _ Hloop) as (Hf & Hr & Hw & more & Ho).
    subst conn1. cbn in Hf, Hr, Hw, Ho.
    destruct (Server.outgoing conn2) as [|o out] eqn:Ho2.
    + exists g', m', conn2, []. split_and!; try reflexivity; try assumption.
      symmetry in Ho. apply app_eq_nil in Ho as [Ho _].
      destruct Hinv as [Hx Hq]. unfold EventLoop.conn_inv.
      rewrite Hr, Hw, Ho2. split; [exact Hx|]. rewrite Ho in Hq. exact Hq.
    + set (conn3 := Server.mkConn _ _ _ _ _ _).
      destruct (handle_write_inv conn3 w) as (conn4 & sent & Hhw & Hinv4 & Hf4 & _).
      { unfold EventLoop.conn_inv. subst conn3. cbn. split; [reflexivity|].
        split; [discriminate|reflexivity]. }
      { reflexivity. }
      rewrite Hhw. cbn. exists g', m', conn4, sent.
      split_and!; try reflexivity; try assumption.
      rewrite Hf4. subst conn3. cbn. exact Hf.
Qed.

Lemma events_pollin conn :
  Z.land (EventLoop.events (EventLoop.conn_pollfd conn)) EventLoop.POLLIN <> 0
  <-> Server.want_read conn = true.
Proof.
  unfold EventLoop.conn_pollfd. cbn.
  destruct (Server.want_read conn), (Server.want_write conn); vm_compute;
    split; congruence.
Qed.

Lemma events_pollout conn :
  Z.land (EventLoop.events (EventLoop.conn_pollfd conn)) EventLoop.POLLOUT <> 0
  <-> Server.want_write conn = true.
Proof.
  unfold EventLoop.conn_pollfd. cbn.
  destruct (Server.want_read conn), (Server.want_write conn); vm_compute;
    split; congruence.
Qed.

Lemma table_inv_insert t i conn :
  EventLoop.table_inv t -> Server.fd conn = Z.of_nat i -> EventLoop.conn_inv conn ->
  EventLoop.table_inv (<[i := Some conn]> t).
Proof.
  intros Ht Hf Hc j c Hj.
  destruct (decide (i = j)) as [->|Hne].
  - destruct (decide (j < length t)%nat) as [Hlt|Hge].
    + rewrite list_lookup_insert_eq in Hj by exact Hlt. injection Hj as <-. auto.
    + rewrite list_insert_ge in Hj by lia. eauto.
  - rewrite list_lookup_insert_ne in Hj by exact Hne. eauto.
Qed.

Lemma table_inv_clear t i :
  EventLoop.table_inv t -> EventLoop.table_inv (<[i := None]> t).
Proof.
  intros Ht j c Hj.
  destruct (decide (i = j)) as [->|Hne].
  - destruct (decide (j < length t)%nat) as [Hlt|Hge].
    + rewrite list_lookup_insert_eq in Hj by exact Hlt. discriminate.
    + rewrite list_insert_ge in Hj by lia. eauto.
  - rewrite list_lookup_insert_ne in Hj by exact Hne. eauto.
Qed.

(** The loop body for one connection: no assertion fails. *)
Lemma serve_conn_inv g m t pfd io :
  ServerInv.represents g m -> EventLoop.table_inv t ->
  EventLoop.polls t pfd -> EventLoop.revents_ok pfd ->
  exists g' m' t' sent,
    EventLoop.serve_conn g t pfd io = Ok (g', t', sent)
    /\ ServerInv.represents g' m'
    /\ EventLoop.table_inv t'
    /\ length t' = length t
    /\ (forall j, j <> Z.to_nat (EventLoop.pfd_fd pfd) -> t' !! j = t !! j).
Proof.
  intros Hrep Ht (conn & Hslot & Hfd & Hev) (Hrange & Hin & Hout).
  unfold EventLoop.serve_conn.
  assert (Hw : wrap32 (EventLoop.revents pfd) = EventLoop.revents pfd).
  { unfold wrap32. apply Z.mod_small. lia. }
  rewrite Hw.
  destruct (Z.eqb_spec (EventLoop.revents pfd) 0) as [H0|H0].
  { exists g, m, t, []. split_and!; try reflexivity; assumption. }
  rewrite Hslot.
  destruct (Ht _ _ Hslot) as [Hidx Hinv].
  rewrite Hev in Hin, Hout. rewrite events_pollin in Hin. rewrite events_pollout in Hout.
  assert (Hslot' : Z.to_nat (Server.fd conn) = Z.to_nat (EventLoop.pfd_fd pfd))
    by (rewrite Hfd; reflexivity).
  assert (Hlt : (Z.to_nat (EventLoop.pfd_fd pfd) < length t)%nat).
  { apply lookup_lt_is_Some. eauto. }
  destruct (Z.eqb_spec (Z.land (EventLoop.revents pfd) EventLoop.POLLIN) 0) as [Hi|Hi];
    cbn [negb].
  - (* not readable *)
    cbn.
    destruct (Z.eqb_spec (Z.land (EventLoop.revents pfd) EventLoop.POLLOUT) 0) as [Ho|Ho];
      cbn [negb].
    + cbn.
      destruct (negb (Z.land (EventLoop.revents pfd) EventLoop.POLLERR =? 0)
                || Server.want_close conn).
      * eexists g, m, _, _. split; [reflexivity|]. split_and!; try assumption.
        -- apply table_inv_clear. apply table_inv_insert; assumption.
        -- rewrite !length_insert. reflexivity.
        -- intros j Hj. rewrite !list_lookup_insert_ne by congruence. reflexivity.
      * eexists g, m, _, _. split; [reflexivity|]. split_and!; try assumption.
        -- apply table_inv_insert; [assumption| |assumption].
           rewrite <- Hfd in Hidx |- *. lia.
        -- rewrite length_insert. reflexivity.
        -- intros j Hj. rewrite list_lookup_insert_ne by congruence. reflexivity.
    + rewrite (Hout Ho).
      destruct (handle_write_inv conn (EventLoop.io_write io) Hinv (Hout Ho))
        as (conn2 & sent & Hhw & Hinv2 & Hf2 & _).
      rewrite Hhw. cbn.
      destruct (negb (Z.land (EventLoop.revents pfd) EventLoop.POLLERR =? 0)
                || Server.want_close conn2).
      * eexists g, m, _, _. split; [reflexivity|]. split_and!; try assumption.
        -- apply table_inv_clear. apply table_inv_insert; try assumption.
           rewrite Hf2, <- Hfd in *. lia.
        -- rewrite !length_insert. reflexivity.
        -- intros j Hj. rewrite Hf2.
           rewrite !list_lookup_insert_ne by congruence. reflexivity.
      * eexists g, m, _, _. split; [reflexivity|]. split_and!; try assumption.
        -- apply table_inv_insert; try assumption. rewrite Hf2, <- Hfd in *. lia.
        -- rewrite length_insert. reflexivity.
        -- intros j Hj. rewrite list_lookup_insert_ne by congruence. reflexivity.
  - (* readable *)
    rewrite (Hin Hi).
    destruct (handle_read_inv g m conn (EventLoop.io_read io)
                (EventLoop.io_write_after_read io) Hrep Hinv)
      as (g1 & m1 & conn1 & sent1 & Hhr & Hrep1 & Hinv1 & Hf1).
    rewrite Hhr. cbn.
    assert (Hno : Z.land (EventLoop.revents pfd) EventLoop.POLLOUT = 0).
    { destruct (Z.eq_dec (Z.land (EventLoop.revents pfd) EventLoop.POLLOUT) 0) as [E|E];
        [exact E|].
      exfalso. specialize (Hin Hi). specialize (Hout E).
      destruct Hinv as [Hx _]. rewrite Hin, Hout in Hx. discriminate. }
    rewrite Hno. cbn.
    destruct (negb (Z.land (EventLoop.revents pfd) EventLoop.POLLERR =? 0)
              || Server.want_close conn1).
    + eexists g1, m1, _, _. split; [reflexivity|]. split_and!; try assumption.
      * apply table_inv_clear. apply table_inv_insert; try assumption.
        rewrite Hf1, <- Hfd in *. lia.
      * rewrite !length_insert. reflexivity.
      * intros j Hj. rewrite Hf1.
        rewrite !list_lookup_insert_ne by congruence. reflexivity.
    + eexists g1, m1, _, _. split; [reflexivity|]. split_and!; try assumption.
      * apply table_inv_insert; try assumption. rewrite Hf1, <- Hfd in *. lia.
      * rewrite length_insert. reflexivity.
      * intros j Hj. rewrite list_lookup_insert_ne by congruence. reflexivity.
Qed.

(** The loop over the connections. *)
Lemma serve_conns_inv args : forall g m t io,
  ServerInv.represents g m -> EventLoop.table_inv t ->
  Forall (EventLoop.polls t) args -> Forall EventLoop.revents_ok args ->
  NoDup (map EventLoop.pfd_fd args) ->
  exists g' m' t' log,
    EventLoop.serve_conns g t args io = Ok (g', t', log)
    /\ ServerInv.represents g' m'
    /\ EventLoop.table_inv t'
    /\ map fst log = map EventLoop.pfd_fd args.
Proof.
  induction args as [|pfd rest IH]; intros g m t io Hrep Ht Hp Hr Hnd.
  - exists g, m, t, []. split_and!; try reflexivity; assumption.
  - inversion Hp as [|? ? Hp1 Hp']; subst. inversion Hr as [|? ? Hr1 Hr']; subst.
    cbn [map] in Hnd. pose proof (NoDup_cons_1_1 _ _ Hnd) as Hnotin.
    pose proof (NoDup_cons_1_2 _ _ Hnd) as Hnd'.
    destruct (serve_conn_inv g m t pfd (io (EventLoop.pfd_fd pfd)) Hrep Ht Hp1 Hr1)
      as (g1 & m1 & t1 & sent & Hs & Hrep1 & Ht1 & Hlen & Hsame).
    assert (Hp1' : Forall (EventLoop.polls t1) rest).
    { rewrite Forall_forall in Hp' |- *. intros q Hq.
      destruct (Hp' q Hq) as (c & Hc & Hfd & Hev). exists c.
      split_and!; try assumption. rewrite Hsame; [exact Hc|].
      intros E. apply Hnotin. apply list_elem_of_In. apply in_map_iff.
      exists q. split; [|exact Hq].
      destruct Hp1 as (c1 & Hc1 & Hfd1 & _).
      destruct (Ht _ _ Hc) as [Hi _]. destruct (Ht _ _ Hc1) as [Hi1 _]. lia. }
    destruct (IH g1 m1 t1 io Hrep1 Ht1 Hp1' Hr' Hnd')
      as (g2 & m2 & t2 & log & Hs2 & Hrep2 & Ht2 & Hlog).
    exists g2, m2, t2, ((EventLoop.pfd_fd pfd, sent) :: log).
    cbn [EventLoop.serve_conns]. rewrite Hs. cbn. rewrite Hs2. cbn.
    split_and!; try reflexivity; try assumption. rewrite Hlog. reflexivity.
Qed.

(** The entries that [prepare_poll_args] makes for the connections. *)
Lemma omap_polls (t : EventLoop.Table) : forall off (full : EventLoop.Table),
  (forall i, t !! i = full !! (off + i)%nat) ->
  EventLoop.table_inv full ->
  Forall (EventLoop.polls full) (omap (fmap EventLoop.conn_pollfd) t)
  /\ Forall (fun fd => Z.of_nat off <= fd) (map EventLoop.pfd_fd
                                              (omap (fmap EventLoop.conn_pollfd) t))
  /\ NoDup (map EventLoop.pfd_fd (omap (fmap EventLoop.conn_pollfd) t)).
Proof.
  induction t as [|c t IH]; intros off full Hsub Hinv.
  - cbn. split_and!; constructor.
  - destruct (IH (S off) full) as (Hp & Hge & Hnd); [|exact Hinv|].
    { intros i. replace (S off + i)%nat with (off + S i)%nat by lia. exact (Hsub (S i)). }
    destruct c as [conn|].
    + pose proof (Hsub 0%nat) as H0. cbn in H0. rewrite Nat.add_0_r in H0.
      symmetry in H0. destruct (Hinv _ _ H0) as [Hfd _].
      change (omap (fmap EventLoop.conn_pollfd) (Some conn :: t))
        with (EventLoop.conn_pollfd conn :: omap (fmap EventLoop.conn_pollfd) t).
      cbn [map EventLoop.conn_pollfd EventLoop.pfd_fd]. split_and!.
      * constructor; [|exact Hp]. exists conn. cbn. rewrite Hfd, Nat2Z.id.
        split_and!; auto.
      * constructor; [lia|]. eapply Forall_impl; [|exact Hge]. cbn. intros; lia.
      * apply NoDup_cons_2; [|exact Hnd]. intros Hin. apply list_elem_of_In in Hin.
        rewrite Forall_forall in Hge. specialize (Hge _ Hin). lia.
    + change (omap (fmap EventLoop.conn_pollfd) (None :: t))
        with (omap (fmap EventLoop.conn_pollfd) t).
      split_and!; try assumption. eapply Forall_impl; [|exact Hge]. cbn. intros; lia.
Qed.

Lemma set_revents_fds revs args :
  map EventLoop.pfd_fd (EventLoop.set_revents revs args) = map EventLoop.pfd_fd args
  /\ map EventLoop.events (EventLoop.set_revents revs args) = map EventLoop.events args.
Proof.
  unfold EventLoop.set_revents. revert revs.
  induction args as [|p args IH]; intros revs; [split; reflexivity|].
  rewrite imap_cons. cbn [map EventLoop.pfd_fd EventLoop.events].
  destruct (IH (revs ∘ S)) as [H1 H2].
  split; f_equal; assumption.
Qed.

Lemma polls_same_fd_events t p q :
  EventLoop.polls t p -> EventLoop.pfd_fd q = EventLoop.pfd_fd p ->
  EventLoop.events q = EventLoop.events p -> EventLoop.polls t q.
Proof.
  intros (c & Hc & Hfd & Hev) E1 E2. exists c. rewrite E1, E2. auto.
Qed.

Lemma Forall_polls_same t (l1 l2 : list EventLoop.pollfd) :
  Forall (EventLoop.polls t) l1 ->
  map EventLoop.pfd_fd l2 = map EventLoop.pfd_fd l1 ->
  map EventLoop.events l2 = map EventLoop.events l1 ->
  Forall (EventLoop.polls t) l2.
Proof.
  intros H. revert l2. induction H as [|p l1 Hp H IH]; intros l2 E1 E2.
  - destruct l2; [constructor|discriminate].
  - destruct l2 as [|q l2]; [discriminate|]. cbn in E1, E2.
    injection E1 as Eq1 E1. injection E2 as Eq2 E2.
    constructor; [eapply polls_same_fd_events; eauto|]. apply IH; assumption.
Qed.

(** Registering an accepted connection whose descriptor is not in use. *)
Lemma register_inv t conn :
  EventLoop.table_inv t -> EventLoop.conn_inv conn -> 0 <= Server.fd conn ->
  (forall c, t !! Z.to_nat (Server.fd conn) <> Some (Some c)) ->
  exists t',
    EventLoop.register t conn = Ok t'
    /\ EventLoop.table_inv t'
    /\ t' !! Z.to_nat (Server.fd conn) = Some (Some conn)
    /\ (forall i c, t !! i = Some (Some c) -> t' !! i = Some (Some c)).
Proof.
  intros Ht Hc Hfd Hfree. unfold EventLoop.register.
  set (i := Z.to_nat (Server.fd conn)) in *.
  set (tx := if (length t <=? i)%nat then resize (S i) None t else t).
  assert (Hlen : (i < length tx)%nat).
  { subst tx. destruct (Nat.leb_spec (length t) i); [rewrite length_resize|]; lia. }
  assert (Hold : forall j c, t !! j = Some (Some c) -> tx !! j = Some (Some c)).
  { intros j c Hj. subst tx. destruct (Nat.leb_spec (length t) i) as [Hle|Hgt]; [|exact Hj].
    pose proof (lookup_lt_Some _ _ _ Hj).
    rewrite lookup_resize by lia. exact Hj. }
  assert (Hnew : forall j c, tx !! j = Some (Some c) -> t !! j = Some (Some c)).
  { intros j c Hj. subst tx. destruct (Nat.leb_spec (length t) i) as [Hle|Hgt]; [|exact Hj].
    destruct (decide (j < length t)%nat) as [Hlt|Hge].
    - rewrite lookup_resize in Hj by (pose proof (lookup_lt_Some _ _ _ Hj) as Hl;
                                      rewrite length_resize in Hl; lia).
      exact Hj.
    - pose proof (lookup_lt_Some _ _ _ Hj) as Hl. rewrite length_resize in Hl.
      rewrite lookup_resize_new in Hj by lia. discriminate. }
  destruct (tx !! i) as [[c|]|] eqn:Hi.
  - exfalso. apply (Hfree c). apply Hnew. exact Hi.
  - eexists. split; [reflexivity|]. split_and!.
    + apply table_inv_insert; [|subst i; lia|exact Hc].
      intros j c Hj. apply Ht. apply Hnew. exact Hj.
    + apply list_lookup_insert_eq. exact Hlen.
    + intros j c Hj. destruct (decide (i = j)) as [<-|Hne].
      * exfalso. exact (Hfree c Hj).
      * rewrite list_lookup_insert_ne by exact Hne. apply Hold. exact Hj.
  - apply lookup_ge_None in Hi. lia.
Qed.

(** One turn of the event loop, when the kernel keeps its contracts. *)
Lemma loop_turn_inv listen_fd g m t p connfd io :
  ServerInv.represents g m -> EventLoop.table_inv t ->
  p <> EventLoop.PollError ->
  (forall revs, p = EventLoop.PollReady revs ->
     Forall EventLoop.revents_ok
       (EventLoop.set_revents revs (EventLoop.prepare_poll_args listen_fd t))) ->
  (0 <= connfd -> forall c, t !! Z.to_nat connfd <> Some (Some c)) ->
  exists g' m' t' log,
    EventLoop.loop_turn listen_fd g t p connfd false false io = Ok (g', t', log)
    /\ ServerInv.represents g' m'
    /\ EventLoop.table_inv t'.
Proof.
  intros Hrep Ht Hp Hrev Hfree. unfold EventLoop.loop_turn.
  destruct p as [| |revs]; [|congruence|].
  { exists g, m, t, []. split_and!; try reflexivity; assumption. }
  specialize (Hrev revs eq_refl).
  destruct (set_revents_fds revs (EventLoop.prepare_poll_args listen_fd t)) as [Efd Eev].
  destruct (EventLoop.set_revents revs (EventLoop.prepare_poll_args listen_fd t))
    as [|first rest] eqn:Es.
  { discriminate. }
  unfold EventLoop.prepare_poll_args in Efd, Eev. cbn [map] in Efd, Eev.
  injection Efd as _ Efd. injection Eev as _ Eev.
  inversion Hrev as [|? ? _ Hrest]; subst.
  destruct (omap_polls t 0%nat t) as (Hpolls & _ & Hnd); [reflexivity|exact Ht|].
  assert (Hl : exists t1,
             EventLoop.serve_listen t (EventLoop.revents first) connfd false false = Ok t1
             /\ EventLoop.table_inv t1
             /\ (forall i c, t !! i = Some (Some c) -> t1 !! i = Some (Some c))).
  { unfold EventLoop.serve_listen.
    destruct (EventLoop.revents first =? 0); [eauto|].
    unfold EventLoop.handle_accept.
    destruct (Z.ltb_spec connfd 0) as [Hneg|Hpos]; cbn; [eauto|].
    destruct (register_inv t (Server.mkConn connfd true false false [] []) Ht)
      as (t1 & Hreg & Ht1 & _ & Hold).
    - unfold EventLoop.conn_inv. cbn. split; [reflexivity|].
      split; [discriminate|congruence].
    - exact Hpos.
    - exact (Hfree Hpos).
    - eauto. }
  destruct Hl as (t1 & Hl & Ht1 & Hold). rewrite Hl. cbn.
  assert (Hp1 : Forall (EventLoop.polls t1) rest).
  { apply (Forall_polls_same t1 (omap (fmap EventLoop.conn_pollfd) t)); try assumption.
    eapply Forall_impl; [|exact Hpolls]. intros q (c & Hc & Hq). exists c.
    split; [apply Hold; exact Hc|exact Hq]. }
  destruct (serve_conns_inv rest g m t1 io Hrep Ht1 Hp1 Hrest)
    as (g' & m' & t' & log & Hs & Hrep' & Ht' & _).
  { rewrite Efd. exact Hnd. }
  exists g', m', t', log. split_and!; assumption.
Qed.

(** X5. [handle_read] never stops on an assertion, whatever [read] and
    [write] return and whatever bytes the client has sent: the request loop
    ends, the [assert] of [do_get] on the size of a value holds (a stored
    value came in a frame of at most [k_max_msg] bytes), and [handle_write]
    is called with a non-empty output buffer only.  The invariant of the
    keyspace and the agreement between the readiness flags and the output
    buffer are kept. *)
Theorem handle_read_never_aborts
    (g : Server.Global) (m : gmap bytes bytes) (conn : Server.Conn)
    (r : Server.read_result) (w : Server.write_result) :
  ServerInv.represents g m -> EventLoop.conn_inv conn ->
  exists g' m' conn' sent,
    Server.handle_read g conn r w = Ok (g', conn', sent)
    /\ ServerInv.represents g' m'
    /\ EventLoop.conn_inv conn'
    /\ Server.fd conn' = Server.fd conn.
Proof. exact (handle_read_inv g m conn r w). Qed.

Lemma handle_read_never_aborts_witness :
  exists g' m' conn' sent,
    Server.handle_read Server.Global_init (Server.mkConn 5 true false false [] [])
      (Server.RBytes (Pipeline.request_frame [lit "set"; lit "k"; lit "v"] ++ lit "zzzzz"))
      (Server.WBytes 3)
    = Ok (g', conn', sent)
    /\ ServerInv.represents g' m'
    /\ EventLoop.conn_inv conn'
    /\ Server.fd conn' = 5.
Proof.
  apply (handle_read_never_aborts Server.Global_init ∅
           (Server.mkConn 5 true false false [] [])).
  - exact represents_init.
  - unfold EventLoop.conn_inv. cbn. split; [reflexivity|]. split; [discriminate|congruence].
Defined.

(** X6. [handle_write] on a connection whose flags agree with its output
    buffer and that waits for writing: the [assert] holds; unless [write]
    failed, the bytes taken by [write] followed by the bytes still queued are
    the bytes that were queued; the connection goes back to reading exactly
    when nothing is left to write; the input buffer is not touched. *)
Theorem handle_write_keeps_unsent_bytes (conn : Server.Conn) (w : Server.write_result) :
  EventLoop.conn_inv conn -> Server.want_write conn = true ->
  exists conn' sent,
    Server.handle_write conn w = Ok (conn', sent)
    /\ EventLoop.conn_inv conn'
    /\ Server.fd conn' = Server.fd conn
    /\ Server.incoming conn' = Server.incoming conn
    /\ (w <> Server.WError -> sent ++ Server.outgoing conn' = Server.outgoing conn).
Proof. exact (handle_write_inv conn w). Qed.

Lemma handle_write_keeps_unsent_bytes_witness :
  exists conn' sent,
    Server.handle_write (Server.mkConn 5 false true false [] (lit "abcdef")) (Server.WBytes 4)
    = Ok (conn', sent)
    /\ EventLoop.conn_inv conn'
    /\ Server.fd conn' = 5
    /\ Server.incoming conn' = []
    /\ (Server.WBytes 4 <> Server.WError -> sent ++ Server.outgoing conn' = lit "abcdef").
Proof.
  apply (handle_write_keeps_unsent_bytes
           (Server.mkConn 5 false true false [] (lit "abcdef")) (Server.WBytes 4)).
  - unfold EventLoop.conn_inv. cbn. split; [reflexivity|]. split; [discriminate|reflexivity].
  - reflexivity.
Defined.

(** X7. One turn of the event loop of [main] never stops on an assertion or
    on a null connection, provided the kernel keeps its contracts: the
    readiness call does not fail and reports a descriptor readable or
    writable only if that was asked for, [fcntl] succeeds, and [accept]
    returns a descriptor that is not in use.  Then [fd2conn] still maps every
    descriptor to the connection of that descriptor, with flags that agree
    with its output buffer, and the keyspace keeps its invariant; so the next
    turn is safe as well. *)
Theorem event_loop_turn_is_safe
    (listen_fd : Z) (g : Server.Global) (m : gmap bytes bytes)
    (fd2conn : list (option Server.Conn)) (p : EventLoop.poll_result)
    (connfd : Z) (io : Z -> EventLoop.conn_io) :
  ServerInv.represents g m -> EventLoop.table_inv fd2conn ->
  p <> EventLoop.PollError ->
  (forall revs, p = EventLoop.PollReady revs ->
     Forall EventLoop.revents_ok
       (EventLoop.set_revents revs (EventLoop.prepare_poll_args listen_fd fd2conn))) ->
  (0 <= connfd -> forall c, fd2conn !! Z.to_nat connfd <> Some (Some c)) ->
  exists g' m' fd2conn' log,
    EventLoop.loop_turn listen_fd g fd2conn p connfd false false io = Ok (g', fd2conn', log)
    /\ ServerInv.represents g' m'
    /\ EventLoop.table_inv fd2conn'.
Proof. exact (loop_turn_inv listen_fd g m fd2conn p connfd io). Qed.

Lemma event_loop_turn_is_safe_witness :
  exists g' m' fd2conn' log,
    EventLoop.loop_turn 3 Server.Global_init
      [None; None; None; None; Some (Server.mkConn 4 true false false [] [])]
      (EventLoop.PollReady (fun _ => 1)) 5 false false
      (fun _ => EventLoop.mkIO
                  (Server.RBytes (Pipeline.request_frame [lit "get"; lit "k"]))
                  (Server.WBytes 8) Server.WAgain)
    = Ok (g', fd2conn', log)
    /\ ServerInv.represents g' m'
    /\ EventLoop.table_inv fd2conn'.
Proof.
  apply (event_loop_turn_is_safe 3 Server.Global_init ∅
           [None; None; None; None; Some (Server.mkConn 4 true false false [] [])]
           (EventLoop.PollReady (fun _ => 1)) 5).
  - exact represents_init.
  - intros i conn Hi.
    destruct i as [|[|[|[|[|i]]]]]; try discriminate.
    injection Hi as <-. split; [reflexivity|].
    unfold EventLoop.conn_inv. cbn. split; [reflexivity|]. split; [discriminate|congruence].
  - discriminate.
  - intros revs [= <-]. repeat constructor; vm_compute; congruence.
  - intros _ c. discriminate.
Defined.

(** ** The basic key-value store and its test runner *)

Lemma encode_command_cons cmd :
  exists b tl, Wire.encode_command cmd = b :: tl.
Proof. unfold Wire.encode_command, u32_bytes. cbn [app]. eauto. Qed.

Lemma basic_parse_encoded cmd :
  (length cmd <= 16)%nat -> Forall Wire.fits32 cmd ->
  BasicKV.parse_req (Wire.encode_command cmd) = Some cmd.
Proof.
  intros Hlen Hfit. apply parse_req_Some_iff. unfold Wire.carries, BasicKV.k_max_args.
  split_and!; [reflexivity|lia|lia|exact Hfit].
Qed.

(** One exchange of the test runner, from an empty input buffer. *)
Lemma basic_request_runs g conn cmd :
  BasicKV.incoming conn = [] -> (length cmd <= 16)%nat -> Forall Wire.fits32 cmd ->
  TestRunner.request g conn cmd
  = (fst (BasicKV.do_request g cmd BasicKV.Response_new),
     BasicKV.mkConn (Wire.encode_command cmd)
       (Wire.make_response (snd (BasicKV.do_request g cmd BasicKV.Response_new))
                           (BasicKV.outgoing conn))
       (BasicKV.want_close conn)).
Proof.
  intros Hin Hlen Hfit. unfold TestRunner.request, TestRunner.encode_command.
  rewrite Hin, app_nil_l. unfold BasicKV.try_one_request. cbn [BasicKV.incoming].
  rewrite (basic_parse_encoded cmd Hlen Hfit).
  destruct (encode_command_cons cmd) as (b & tl & E). rewrite E.
  destruct (BasicKV.do_request g cmd BasicKV.Response_new) as [g' resp].
  reflexivity.
Qed.

(** [print_response] reads back what [make_response] wrote. *)
Lemma print_make_response resp :
  0 <= Wire.status resp < 2 ^ 32 -> blen (Wire.data resp) + 4 < 2 ^ 32 ->
  TestRunner.print_response (Wire.make_response resp [])
  = Ok (Wire.status resp, Wire.data resp).
Proof.
  intros Hs Hd. pose proof (blen_nonneg (Wire.data resp)) as Hn.
  unfold Wire.make_response, TestRunner.print_response. rewrite app_nil_l.
  assert (Hw : wrap32 (4 + wrap32 (blen (Wire.data resp))) = 4 + blen (Wire.data resp)).
  { unfold wrap32. rewrite (Z.mod_small (blen _)) by lia. apply Z.mod_small. lia. }
  rewrite Hw, read_u32_bytes by lia. rewrite read_u32_bytes by exact Hs.
  replace (wrap32 (4 + blen (Wire.data resp) - 4)) with (blen (Wire.data resp)).
  2:{ unfold wrap32. rewrite Z.mod_small by lia. lia. }
  rewrite <- (app_nil_r (Wire.data resp)) at 1. rewrite read_str_app. reflexivity.
Qed.

(** X8. The client side of the basic store decodes what the server side
    encodes: [print_response] applied to the frame that [make_response]
    writes for a response yields the status and the data of that response,
    as long as the data leave room for the 4 bytes of the status in a 32-bit
    length. *)
Theorem print_response_reads_make_response (resp : Wire.Response) :
  0 <= Wire.status resp < 2 ^ 32 -> blen (Wire.data resp) + 4 < 2 ^ 32 ->
  TestRunner.print_response (Wire.make_response resp [])
  = Ok (Wire.status resp, Wire.data resp).
Proof. exact (print_make_response resp). Qed.

Lemma print_response_reads_make_response_witness :
  TestRunner.print_response (Wire.make_response (Wire.mkResponse 1 (lit "bar")) [])
  = Ok (1, lit "bar").
Proof.
  apply (print_response_reads_make_response (Wire.mkResponse 1 (lit "bar")));
    vm_compute; split; congruence.
Defined.

(** X9. The exchanges of the test runner, for any key and value: once
    [set k v] has been sent, [get k] is answered with status 0 and [v]; once
    [del k] has been sent, [get k] is answered with status 1 and no data.
    Each command goes through [encode_command], [try_one_request] (parser,
    dispatcher, [make_response]) and [print_response]. *)
Theorem test_runner_session (g : gmap bytes bytes) (conn : BasicKV.Conn) (k v : bytes) :
  Wire.fits32 k -> blen v + 4 < 2 ^ 32 ->
  exists g1 c1 g2 c2 g3 c3 g4 c4,
    TestRunner.request g (TestRunner.clear conn) [lit "set"; k; v] = (g1, c1)
    /\ TestRunner.request g1 (TestRunner.clear c1) [lit "get"; k] = (g2, c2)
    /\ TestRunner.request g2 (TestRunner.clear c2) [lit "del"; k] = (g3, c3)
    /\ TestRunner.request g3 (TestRunner.clear c3) [lit "get"; k] = (g4, c4)
    /\ TestRunner.print_response (BasicKV.outgoing c2) = Ok (0, v)
    /\ TestRunner.print_response (BasicKV.outgoing c4) = Ok (1, [])
    /\ g2 = <[k := v]> g
    /\ g4 = delete k g
    /\ BasicKV.want_close c4 = BasicKV.want_close conn.
Proof.
  intros Hk Hv. pose proof (blen_nonneg v) as Hn.
  assert (Hfv : Wire.fits32 v) by (unfold Wire.fits32; lia).
  assert (Hset : Wire.fits32 (lit "set")) by (vm_compute; reflexivity).
  assert (Hget : Wire.fits32 (lit "get")) by (vm_compute; reflexivity).
  assert (Hdel : Wire.fits32 (lit "del")) by (vm_compute; reflexivity).
  eexists _, _, _, _, _, _, _, _.
  split; [apply basic_request_runs; [reflexivity|simpl; lia|repeat constructor; assumption]|].
  split; [apply basic_request_runs; [reflexivity|simpl; lia|repeat constructor; assumption]|].
  split; [apply basic_request_runs; [reflexivity|simpl; lia|repeat constructor; assumption]|].
  split; [apply basic_request_runs; [reflexivity|simpl; lia|repeat constructor; assumption]|].
  rewrite (basic_do_request_cmd g (KV.Set_ k v)).
  cbn [fst snd KV.apply TestRunner.clear BasicKV.outgoing BasicKV.want_close].
  rewrite (basic_do_request_cmd _ (KV.Get k)).
  cbn [fst snd KV.apply TestRunner.clear BasicKV.outgoing BasicKV.want_close].
  rewrite (basic_do_request_cmd _ (KV.Del k)).
  cbn [fst snd KV.apply TestRunner.clear BasicKV.outgoing BasicKV.want_close].
  rewrite (basic_do_request_cmd _ (KV.Get k)).
  cbn [fst snd KV.apply TestRunner.clear BasicKV.outgoing BasicKV.want_close].
  rewrite lookup_insert_eq, lookup_delete_eq.
  split_and!; try reflexivity.
  - apply (print_make_response (Wire.mkResponse 0 v)); cbn; [lia|exact Hv].
  - rewrite delete_insert_eq. reflexivity.
Qed.

Lemma test_runner_session_witness :
  exists g1 c1 g2 c2 g3 c3 g4 c4,
    TestRunner.request ∅ (TestRunner.clear (BasicKV.mkConn [] [] false))
      [lit "set"; lit "foo"; lit "bar"] = (g1, c1)
    /\ TestRunner.request g1 (TestRunner.clear c1) [lit "get"; lit "foo"] = (g2, c2)
    /\ TestRunner.request g2 (TestRunner.clear c2) [lit "del"; lit "foo"] = (g3, c3)
    /\ TestRunner.request g3 (TestRunner.clear c3) [lit "get"; lit "foo"] = (g4, c4)
    /\ TestRunner.print_response (BasicKV.outgoing c2) = Ok (0, lit "bar")
    /\ TestRunner.print_response (BasicKV.outgoing c4) = Ok (1, [])
    /\ g2 = <[lit "foo" := lit "bar"]> ∅
    /\ g4 = delete (lit "foo") ∅
    /\ BasicKV.want_close c4 = false.
Proof.
  apply (test_runner_session ∅ (BasicKV.mkConn [] [] false) (lit "foo") (lit "bar"));
    vm_compute; reflexivity.
Defined.

(** What [main] prints. *)
Example main_prints : TestRunner.main = Ok [(0, lit "bar"); (1, [])].
Proof. vm_compute. reflexivity. Qed.

(** X10. The basic store never removes a request from its input buffer: after
    a call of [try_one_request] that returned [true], the buffer is as
    before, and a second call parses the same command, runs it again on the
    store as it now is, and appends a second response. *)
Theorem basic_try_one_request_repeats
    (g g1 : gmap bytes bytes) (conn c1 : BasicKV.Conn) :
  BasicKV.try_one_request g conn = (g1, c1, true) ->
  exists cmd,
    BasicKV.parse_req (BasicKV.incoming conn) = Some cmd
    /\ BasicKV.incoming c1 = BasicKV.incoming conn
    /\ g1 = fst (BasicKV.do_request g cmd BasicKV.Response_new)
    /\ BasicKV.try_one_request g1 c1
       = (fst (BasicKV.do_request g1 cmd BasicKV.Response_new),
          BasicKV.mkConn (BasicKV.incoming conn)
            (Wire.make_response (snd (BasicKV.do_request g1 cmd BasicKV.Response_new))
               (Wire.make_response (snd (BasicKV.do_request g cmd BasicKV.Response_new))
                  (BasicKV.outgoing conn)))
            (BasicKV.want_close conn),
          true).
Proof.
  unfold BasicKV.try_one_request.
  destruct (BasicKV.incoming conn) as [|b tl] eqn:Ei; [discriminate|].
  destruct (BasicKV.parse_req (b :: tl)) as [cmd|] eqn:Hp; [|discriminate].
  destruct (BasicKV.do_request g cmd BasicKV.Response_new) as [ga ra] eqn:Hd.
  intros [= <- <-]. exists cmd. rewrite Hd. cbn. rewrite Hp.
  destruct (BasicKV.do_request ga cmd BasicKV.Response_new) as [gb rb].
  split_and!; reflexivity.
Qed.

Lemma basic_try_one_request_repeats_witness :
  exists cmd,
    BasicKV.parse_req (Wire.encode_command [lit "get"; lit "k"]) = Some cmd
    /\ BasicKV.incoming (BasicKV.mkConn (Wire.encode_command [lit "get"; lit "k"])
                           (Wire.make_response (Wire.mkResponse 1 []) []) false)
       = Wire.encode_command [lit "get"; lit "k"].
Proof.
  assert (H : BasicKV.try_one_request ∅
                (BasicKV.mkConn (Wire.encode_command [lit "get"; lit "k"]) [] false)
              = (∅, BasicKV.mkConn (Wire.encode_command [lit "get"; lit "k"])
                      (Wire.make_response (Wire.mkResponse 1 []) []) false, true))
    by (vm_compute; reflexivity).
  destruct (basic_try_one_request_repeats _ _ _ _ H) as (cmd & H1 & H2 & _).
  exists cmd. split; [exact H1|exact H2].
Defined.

(** ** [common.h]: [CONTAINER_OF] and the hash function *)

(** X11. [CONTAINER_OF] undoes taking the address of a member: from the
    address of the member at [offset] in the object at [p], it gives back
    [p].  It maps a member address to the null pointer only when that address
    equals the offset; in particular a null member pointer gives null only
    for a member at offset 0. *)
Theorem container_of_inverts_member_address (p offset : Z) :
  0 <= p < 2 ^ 64 -> 0 <= offset < 2 ^ 64 ->
  container_of_func (wrap64 (p + offset)) offset = p
  /\ (forall q, 0 <= q < 2 ^ 64 -> (container_of_func q offset = 0 <-> q = offset))
  /\ (container_of_func 0 offset = 0 <-> offset = 0).
Proof.
  intros Hp Ho. unfold container_of_func, wrap64.
  assert (Hq : forall q, 0 <= q < 2 ^ 64 -> ((q - offset) mod 2 ^ 64 = 0 <-> q = offset)).
  { intros q Hq. split.
    - intros H. apply Z.mod_divide in H; [|lia]. destruct H as [k Hk].
      assert (k = 0) by nia. lia.
    - intros ->. rewrite Z.sub_diag. reflexivity. }
  split_and!.
  - rewrite Zminus_mod_idemp_l. replace (p + offset - offset) with p by lia.
    apply Z.mod_small. exact Hp.
  - exact Hq.
  - destruct (Hq 0) as [H1 H2]; [lia|]. split; intros H; [symmetry; auto|].
    apply H2. congruence.
Qed.

Lemma container_of_inverts_member_address_witness :
  container_of_func (wrap64 (80 + 16)) 16 = 80
  /\ (forall q, 0 <= q < 2 ^ 64 -> (container_of_func q 16 = 0 <-> q = 16))
  /\ (container_of_func 0 16 = 0 <-> 16 = 0).
Proof.
  apply (container_of_inverts_member_address 80 16); lia.
Defined.

Lemma wrap32_mul_prime_inj a b :
  wrap32 (a * FNV_prime) = wrap32 (b * FNV_prime) -> wrap32 a = wrap32 b.
Proof.
  unfold wrap32, FNV_prime. intros H.
  assert (Hinv : forall x, (x * 16777619 mod 2 ^ 32 * 899433627) mod 2 ^ 32 = x mod 2 ^ 32).
  { intros x. rewrite Z.mul_mod_idemp_l by lia.
    replace (x * 16777619 * 899433627) with (x + x * 3513497 * 2 ^ 32) by lia.
    apply Z.mod_add. lia. }
  rewrite <- (Hinv a), <- (Hinv b), H. reflexivity.
Qed.

Lemma str_hash_step_range h b : 0 <= str_hash_step h b < 2 ^ 32.
Proof. unfold str_hash_step. apply wrap32_range. Qed.

(** One step of the hash neither merges two accumulators nor two bytes. *)
Lemma str_hash_step_inj h1 b1 h2 b2 :
  0 <= h1 < 2 ^ 32 -> 0 <= h2 < 2 ^ 32 ->
  str_hash_step h1 b1 = str_hash_step h2 b2 ->
  (b1 = b2 -> h1 = h2) /\ (h1 = h2 -> b1 = b2).
Proof.
  intros H1 H2 H. unfold str_hash_step in H.
  apply wrap32_mul_prime_inj in H. unfold wrap32 in H.
  rewrite !Z.mod_mod in H by lia.
  pose proof (byte_val_range b1) as R1. pose proof (byte_val_range b2) as R2.
  assert (Hd : ((h1 + byte_val b1) - (h2 + byte_val b2)) mod 2 ^ 32 = 0).
  { rewrite Zminus_mod, H, Z.sub_diag. reflexivity. }
  apply Z.mod_divide in Hd; [|lia]. destruct Hd as [k Hk].
  split.
  - intros ->. assert (k = 0) by nia. lia.
  - intros ->. assert (k = 0) by nia.
    assert (Hb : byte_val b1 = byte_val b2) by lia.
    rewrite <- (byte_of_Z_val b1), <- (byte_of_Z_val b2), Hb. reflexivity.
Qed.

Lemma fold_str_hash_step_range s h :
  0 <= h < 2 ^ 32 -> 0 <= fold_left str_hash_step s h < 2 ^ 32.
Proof.
  revert h. induction s as [|b s IH]; intros h Hh; [exact Hh|].
  cbn [fold_left]. apply IH. apply str_hash_step_range.
Qed.

Lemma fold_str_hash_step_inj s : forall h1 h2,
  0 <= h1 < 2 ^ 32 -> 0 <= h2 < 2 ^ 32 ->
  fold_left str_hash_step s h1 = fold_left str_hash_step s h2 -> h1 = h2.
Proof.
  induction s as [|b s IH]; intros h1 h2 H1 H2 H; [exact H|].
  cbn [fold_left] in H.
  apply IH in H; try apply str_hash_step_range.
  destruct (str_hash_step_inj h1 b h2 b H1 H2 H) as [Hh _]. auto.
Qed.

(** X12. Two byte strings that differ in exactly one position never collide
    under [str_hash]: the multiplier is odd, so each step of the loop is a
    bijection of the 32-bit accumulator, and within one step two different
    bytes give different accumulators. *)
Theorem str_hash_separates_one_byte_changes (pre suf : bytes) (x y : byte) :
  x <> y -> str_hash (pre ++ x :: suf) <> str_hash (pre ++ y :: suf).
Proof.
  intros Hxy H. unfold str_hash in H. rewrite !fold_left_app in H.
  cbn [fold_left] in H.
  assert (Hr : 0 <= fold_left str_hash_step pre FNV_init < 2 ^ 32).
  { apply fold_str_hash_step_range. vm_compute. split; congruence. }
  apply fold_str_hash_step_inj in H; try apply str_hash_step_range.
  destruct (str_hash_step_inj _ x _ y Hr Hr H) as [_ Hb]. auto.
Qed.

Lemma str_hash_separates_one_byte_changes_witness :
  str_hash (lit "key1") <> str_hash (lit "key2").
Proof.
  apply (str_hash_separates_one_byte_changes (lit "key") [] "1"%byte "2"%byte).
  discriminate.
Defined.

(** ** [RedisMain/zset.cpp]: the comparisons and the descent of [zset_seekge] *)

Lemma byte_val_inj x y : byte_val x = byte_val y -> x = y.
Proof.
  intros H. rewrite <- (byte_of_Z_val x), <- (byte_of_Z_val y), H. reflexivity.
Qed.

(** [memcmp] returns zero exactly on equal buffers. *)
Lemma memcmp_zero_iff n : forall a b,
  (n <= length a)%nat -> (n <= length b)%nat ->
  (memcmp a b n = 0 <-> take n a = take n b).
Proof.
  induction n as [|n IH]; intros a b Ha Hb; [destruct a; split; reflexivity|].
  destruct a as [|x a]; [simpl in Ha; lia|]. destruct b as [|y b]; [simpl in Hb; lia|].
  cbn [memcmp take]. simpl in Ha, Hb.
  destruct (Z.ltb_spec (byte_val x) (byte_val y)) as [Hlt|Hge].
  { split; [discriminate|]. intros [= -> _]. lia. }
  destruct (Z.ltb_spec (byte_val y) (byte_val x)) as [Hgt|Hle].
  { split; [discriminate|]. intros [= -> _]. lia. }
  assert (x = y) as -> by (apply byte_val_inj; lia).
  rewrite IH by lia. split; [intros ->; reflexivity|intros [= H]; exact H].
Qed.

Lemma min_len_to_nat (a b : bytes) :
  Z.to_nat (if blen a <? blen b then blen a else blen b)
  = Nat.min (length a) (length b).
Proof.
  unfold blen. destruct (Z.ltb_spec (Z.of_nat (length a)) (Z.of_nat (length b))); lia.
Qed.

(** X13. When does [znode_cmp] answer "equal"?  Exactly when the two scores
    are equal as [double]s (so neither is a NaN) and one of the two names is
    a prefix of the other: the names are compared over the length of the
    shorter one only. *)
Theorem znode_cmp_zero_iff_prefix (sa sb : double) (na nb : bytes) :
  ZS.znode_cmp sa na (blen na) sb nb (blen nb) = 0
  <-> double_eq sa sb = true /\ (na `prefix_of` nb \/ nb `prefix_of` na).
Proof.
  unfold ZS.znode_cmp. rewrite min_len_to_nat.
  destruct (double_eq sa sb); cbn [negb].
  - rewrite memcmp_zero_iff by lia. split.
    + intros H. split; [reflexivity|].
      destruct (Nat.le_ge_cases (length na) (length nb)) as [Hle|Hge].
      * left. rewrite Nat.min_l in H by exact Hle.
        rewrite take_ge in H by lia. exists (drop (length na) nb).
        rewrite H at 1. symmetry. apply take_drop.
      * right. rewrite Nat.min_r in H by exact Hge.
        rewrite (take_ge nb) in H by lia. exists (drop (length nb) na).
        rewrite <- H at 1. symmetry. apply take_drop.
    + intros [_ [[k ->]|[k ->]]].
      * rewrite length_app, Nat.min_l by lia.
        rewrite take_app_length, take_ge by lia. reflexivity.
      * rewrite length_app, Nat.min_r by lia.
        rewrite take_app_length, take_ge by lia. reflexivity.
  - split; [|intros [H _]; discriminate].
    destruct (double_lt sa sb); discriminate.
Qed.

(** X14. A NaN score makes [znode_cmp] answer 1 in both directions, whatever
    the names: [a->score != b->score] holds and [a->score < b->score] does
    not.  So a node with a NaN score is "greater" than every key and every
    key is "greater" than it. *)
Theorem znode_cmp_nan_is_greater_both_ways (s : double) (na nb : bytes) (la lb : Z) :
  ZS.znode_cmp DNaN na la s nb lb = 1 /\ ZS.znode_cmp s na la DNaN nb lb = 1.
Proof. destruct s; split; reflexivity. Qed.

Lemma znode_eq_spec (h : gmap Z ZS.ZNode) nm node z :
  h !! container_of_func node ZS.off_hnode = Some z ->
  ZS.len z = blen (ZS.name z) ->
  (ZS.znode_eq h nm (blen nm) node = true <-> ZS.name z = nm).
Proof.
  intros Hz Hl. unfold ZS.znode_eq. rewrite Hz, Hl.
  rewrite andb_true_iff, !Z.eqb_eq. unfold blen. rewrite Nat2Z.id. split.
  - intros [Hlen Hm]. assert (Hn : length (ZS.name z) = length nm) by lia.
    apply memcmp_zero_iff in Hm; [|lia|lia].
    rewrite take_ge in Hm by lia. rewrite Hm. apply take_ge. lia.
  - intros <-. split; [reflexivity|]. apply memcmp_zero_iff; [lia|lia|reflexivity].
Qed.

(** X15. [znode_eq], the equality that the hash map is given, holds of a node
    exactly when the node carries the name looked for (a node's [len] being
    the length of its name, as [zset_insert] sets it). *)
Theorem znode_eq_is_name_equality
    (h : gmap Z ZS.ZNode) (nm : bytes) (node : Z) (z : ZS.ZNode) :
  h !! container_of_func node ZS.off_hnode = Some z ->
  ZS.len z = blen (ZS.name z) ->
  (ZS.znode_eq h nm (blen nm) node = true <-> ZS.name z = nm).
Proof. exact (znode_eq_spec h nm node z). Qed.

Lemma znode_eq_is_name_equality_witness :
  let h : gmap Z ZS.ZNode :=
    {[ 80 := ZS.mkZNode (str_hash (lit "ab")) ZS.AVL_zero (double_of_Z 1) (lit "ab") 2 ]} in
  (ZS.znode_eq h (lit "ab") (blen (lit "ab")) 80 = true <-> lit "ab" = lit "ab")
  /\ (ZS.znode_eq h (lit "ac") (blen (lit "ac")) 80 = true <-> lit "ab" = lit "ac").
Proof.
  intros h. split.
  - apply (znode_eq_is_name_equality h (lit "ab") 80
             (ZS.mkZNode (str_hash (lit "ab")) ZS.AVL_zero (double_of_Z 1) (lit "ab") 2));
      vm_compute; reflexivity.
  - apply (znode_eq_is_name_equality h (lit "ac") 80
             (ZS.mkZNode (str_hash (lit "ab")) ZS.AVL_zero (double_of_Z 1) (lit "ab") 2));
      vm_compute; reflexivity.
Defined.

(** The loop of [zset_seekge]: [best] is null or a node above the key. *)
Lemma seekge_loop_not_below fuel : forall h sc nm ln cur best r,
  (best = 0 \/ exists z, h !! best = Some z
                         /\ 0 < ZS.znode_cmp (ZS.score z) (ZS.name z) (ZS.len z) sc nm ln) ->
  ZS.seekge_loop fuel h sc nm ln cur best = Ok r ->
  r = 0 \/ exists z, h !! r = Some z
                     /\ 0 <= ZS.znode_cmp (ZS.score z) (ZS.name z) (ZS.len z) sc nm ln.
Proof.
  induction fuel as [|fuel IH]; intros h sc nm ln cur best r Hb H; [discriminate|].
  cbn [ZS.seekge_loop] in H.
  destruct (Z.eqb_spec cur 0) as [_|Hc].
  { injection H as <-. destruct Hb as [->|(z & Hz & Hpos)]; [left; reflexivity|].
    right. exists z. split; [exact Hz|lia]. }
  destruct (h !! cur) as [c|] eqn:Ec; [|discriminate].
  destruct (Z.eqb_spec (ZS.znode_cmp (ZS.score c) (ZS.name c) (ZS.len c) sc nm ln) 0)
    as [E0|Hn0].
  { injection H as <-. right. exists c. split; [exact Ec|lia]. }
  destruct (Z.ltb_spec (ZS.znode_cmp (ZS.score c) (ZS.name c) (ZS.len c) sc nm ln) 0)
    as [Hneg|Hpos].
  - eapply IH; [exact Hb|exact H].
  - eapply IH; [|exact H]. right. exists c. split; [exact Ec|lia].
Qed.

(** X16. What [zset_seekge] returns is never below the key: a node that it
    returns is a node of the set for which [znode_cmp] against the key is
    zero or positive.  (Nothing is assumed of the shape of the tree.) *)
Theorem zset_seekge_result_not_below
    (st : ZS.Store) (zset : ZS.ZSet) (sc : double) (nm : bytes) (r : Z) :
  ZS.zset_seekge st zset sc nm = Ok r -> r <> 0 ->
  exists z, ZS.heap st !! r = Some z
            /\ 0 <= ZS.znode_cmp (ZS.score z) (ZS.name z) (ZS.len z) sc nm (blen nm).
Proof.
  unfold ZS.zset_seekge. intros H Hr.
  apply seekge_loop_not_below in H; [|left; reflexivity].
  destruct H as [->|H]; [congruence|exact H].
Qed.

Lemma zset_seekge_result_not_below_witness :
  exists z, ZS.heap (fst ZSInv.pair_ab) !! 160 = Some z
            /\ 0 <= ZS.znode_cmp (ZS.score z) (ZS.name z) (ZS.len z)
                      (double_of_Z 2) (lit "a") (blen (lit "a")).
Proof.
  apply (zset_seekge_result_not_below (fst ZSInv.pair_ab) (snd ZSInv.pair_ab)
           (double_of_Z 2) (lit "a") 160).
  - vm_compute. reflexivity.
  - discriminate.
Defined.

(** ** [RedisMain/list.h]: the doubly-linked list *)

Section DListFacts.

Import DL.

Lemma nxt_insert (h : Heap) p n q :
  nxt (<[p := n]> h) q = if decide (q = p) then Some (next n) else nxt h q.
Proof.
  unfold nxt. destruct (decide (q = p)) as [->|Hne].
  - rewrite lookup_insert_eq. reflexivity.
  - rewrite lookup_insert_ne by congruence. reflexivity.
Qed.

Lemma prv_insert (h : Heap) p n q :
  prv (<[p := n]> h) q = if decide (q = p) then Some (prev n) else prv h q.
Proof.
  unfold prv. destruct (decide (q = p)) as [->|Hne].
  - rewrite lookup_insert_eq. reflexivity.
  - rewrite lookup_insert_ne by congruence. reflexivity.
Qed.

Lemma nxt_prv_lookup (h h' : Heap) p :
  nxt h' p = nxt h p -> prv h' p = prv h p -> h' !! p = h !! p.
Proof.
  unfold nxt, prv.
  destruct (h' !! p) as [[n1 p1]|], (h !! p) as [[n2 p2]|]; cbn; congruence.
Qed.

Lemma last_of_in a l : last_of a l ∈ a :: l.
Proof.
  revert a. induction l as [|b l IH]; intros a; cbn [last_of]; [left|right; apply IH].
Qed.

Lemma sources_sub a l p : p ∈ sources a l -> p ∈ a :: l.
Proof.
  revert a. induction l as [|b l IH]; intros a; cbn [sources]; [inversion 1|].
  intros H. apply elem_of_cons in H as [->|H]; [left|right; apply IH; exact H].
Qed.

Lemma last_notin_sources a l : NoDup (a :: l) -> last_of a l ∉ sources a l.
Proof.
  revert a. induction l as [|b l IH]; intros a Hnd; cbn [last_of sources]; [inversion 1|].
  pose proof (NoDup_cons_1_1 _ _ Hnd) as Ha. pose proof (NoDup_cons_1_2 _ _ Hnd) as Hnd'.
  intros H. apply elem_of_cons in H as [E|H].
  - apply Ha. rewrite <- E. apply last_of_in.
  - exact (IH b Hnd' H).
Qed.

Lemma last_of_snoc a l b : last_of a (l ++ [b]) = b.
Proof. revert a. induction l as [|c l IH]; intros a; cbn; [reflexivity|apply IH]. Qed.

Lemma sources_snoc a l b : sources a (l ++ [b]) = a :: l.
Proof.
  revert a. induction l as [|c l IH]; intros a; cbn; [reflexivity|]. rewrite IH. reflexivity.
Qed.

Lemma chain_app (h : Heap) l1 : forall a l2,
  chain h a (l1 ++ l2) <-> chain h a l1 /\ chain h (last_of a l1) l2.
Proof.
  induction l1 as [|b l1 IH]; intros a l2; cbn [app chain last_of]; [tauto|].
  rewrite IH. tauto.
Qed.

Lemma chain_ext (h h' : Heap) l : forall a,
  (forall p, p ∈ sources a l -> nxt h' p = nxt h p) ->
  (forall p, p ∈ l -> prv h' p = prv h p) ->
  chain h a l -> chain h' a l.
Proof.
  induction l as [|b l IH]; intros a Hn Hp; [trivial|].
  cbn [chain sources] in *. intros [[Ha Hb] Hc]. split.
  - split.
    + rewrite Hn by left. exact Ha.
    + rewrite Hp by left. exact Hb.
  - apply IH; [| |exact Hc].
    + intros p Hin. apply Hn. right. exact Hin.
    + intros p Hin. apply Hp. right. exact Hin.
Qed.

Lemma nxt_is_Some (h : Heap) p q : nxt h p = Some q -> exists n, h !! p = Some n /\ next n = q.
Proof.
  unfold nxt. destruct (h !! p) as [n|]; cbn; [|discriminate].
  intros [= <-]. eauto.
Qed.

Lemma prv_is_Some (h : Heap) p q : prv h p = Some q -> exists n, h !! p = Some n /\ prev n = q.
Proof.
  unfold prv. destruct (h !! p) as [n|]; cbn; [|discriminate].
  intros [= <-]. eauto.
Qed.

Lemma load_ok (h : Heap) p n : h !! p = Some n -> load h p = Ok n.
Proof. unfold load. intros ->. reflexivity. Qed.

Lemma store_next_ok (h : Heap) p v n :
  h !! p = Some n -> store_next h p v = Ok (<[p := mkDList v (prev n)]> h).
Proof. unfold store_next, load. intros ->. reflexivity. Qed.

Lemma store_prev_ok (h : Heap) p v n :
  h !! p = Some n -> store_prev h p v = Ok (<[p := mkDList (next n) v]> h).
Proof. unfold store_prev, load. intros ->. reflexivity. Qed.

(** [dlist_insert_before] in terms of the pointers it leaves. *)
Lemma insert_before_pointers (h : Heap) list node t nd :
  h !! node = Some nd -> node <> list -> node <> t ->
  prv h list = Some t -> is_Some (h !! t) ->
  exists h',
    dlist_insert_before h list node = Ok h'
    /\ (forall p, nxt h' p = if decide (p = node) then Some list
                             else if decide (p = t) then Some node else nxt h p)
    /\ (forall p, prv h' p = if decide (p = list) then Some node
                             else if decide (p = node) then Some t else prv h p).
Proof.
  intros Hnode Hnl Hnt Hprev [tn Ht].
  apply prv_is_Some in Hprev as (ln & Hl & Hlt).
  set (h1 := <[node := mkDList list (prev nd)]> h).
  assert (E1 : store_next h node list = Ok h1).
  { apply (store_next_ok _ _ _ _ Hnode). }
  assert (L1 : load h1 list = Ok ln).
  { apply load_ok. unfold h1. rewrite lookup_insert_ne by congruence. exact Hl. }
  set (h2 := <[node := mkDList list t]> h1).
  assert (E2 : store_prev h1 node (prev ln) = Ok h2).
  { rewrite Hlt. apply (store_prev_ok h1 node t (mkDList list (prev nd))).
    unfold h1. apply lookup_insert_eq. }
  assert (L2 : load h2 list = Ok ln).
  { apply load_ok. unfold h2, h1. rewrite !lookup_insert_ne by congruence. exact Hl. }
  assert (Ht2 : h2 !! t = Some tn).
  { unfold h2, h1. rewrite !lookup_insert_ne by congruence. exact Ht. }
  set (h3 := <[t := mkDList node (prev tn)]> h2).
  assert (E3 : store_next h2 (prev ln) node = Ok h3).
  { rewrite Hlt. apply (store_next_ok _ _ _ _ Ht2). }
  assert (Hl3 : exists ln3, h3 !! list = Some ln3
                            /\ next ln3 = (if decide (t = list) then node else next ln)).
  { unfold h3. destruct (decide (t = list)) as [->|Htl].
    - rewrite lookup_insert_eq. eauto.
    - rewrite lookup_insert_ne by congruence. unfold h2, h1.
      rewrite !lookup_insert_ne by congruence. eauto. }
  destruct Hl3 as (ln3 & Hl3 & Hn3).
  exists (<[list := mkDList (next ln3) node]> h3).
  split.
  { unfold dlist_insert_before. rewrite E1. cbn [mbind res_bind].
    rewrite L1. cbn [mbind res_bind]. rewrite E2. cbn [mbind res_bind].
    rewrite L2. cbn [mbind res_bind]. rewrite E3. cbn [mbind res_bind].
    apply (store_prev_ok _ _ _ _ Hl3). }
  split; intros p.
  - unfold h3, h2, h1. rewrite !nxt_insert. cbn [next]. rewrite Hn3.
    destruct (decide (p = list)) as [->|].
    + destruct (decide (list = node)); [congruence|].
      destruct (decide (t = list)) as [->|].
      * destruct (decide (list = list)); [reflexivity|congruence].
      * destruct (decide (list = t)); [congruence|].
        unfold nxt. rewrite Hl. reflexivity.
    + destruct (decide (p = t)) as [->|].
      * destruct (decide (t = node)); [congruence|reflexivity].
      * destruct (decide (p = node)); reflexivity.
  - unfold h3, h2, h1. rewrite !prv_insert. cbn [prev].
    destruct (decide (p = list)); [reflexivity|].
    destruct (decide (p = t)) as [->|].
    + destruct (decide (t = node)); [congruence|].
      unfold prv. rewrite Ht. reflexivity.
    + destruct (decide (p = node)); reflexivity.
Qed.

(** [dlist_detach] in terms of the pointers it leaves. *)
Lemma detach_pointers (h : Heap) x a b :
  nxt h x = Some b -> prv h x = Some a -> x <> a -> x <> b ->
  is_Some (h !! a) -> is_Some (h !! b) ->
  exists h',
    dlist_detach h x = Ok h'
    /\ (forall p, nxt h' p = if decide (p = x) then Some 0
                             else if decide (p = a) then Some b else nxt h p)
    /\ (forall p, prv h' p = if decide (p = x) then Some 0
                             else if decide (p = b) then Some a else prv h p).
Proof.
  intros Hn Hp Hxa Hxb [an Ha] [bn Hb].
  apply nxt_is_Some in Hn as (xn & Hx & Hxn). apply prv_is_Some in Hp as (xn' & Hx' & Hxp).
  rewrite Hx in Hx'. injection Hx' as <-.
  assert (L0 : load h x = Ok xn) by (apply load_ok; exact Hx).
  set (h1 := <[a := mkDList b (prev an)]> h).
  assert (E1 : store_next h (prev xn) (next xn) = Ok h1).
  { rewrite Hxn, Hxp. apply (store_next_ok _ _ _ _ Ha). }
  assert (L1 : load h1 x = Ok xn).
  { apply load_ok. unfold h1. rewrite lookup_insert_ne by congruence. exact Hx. }
  assert (Hb1 : exists bn1, h1 !! b = Some bn1
                            /\ next bn1 = (if decide (b = a) then b else next bn)).
  { unfold h1. destruct (decide (b = a)) as [->|Hba].
    - rewrite lookup_insert_eq. eauto.
    - rewrite lookup_insert_ne by congruence. eauto. }
  destruct Hb1 as (bn1 & Hb1 & Hbn1).
  set (h2 := <[b := mkDList (next bn1) a]> h1).
  assert (E2 : store_prev h1 (next xn) (prev xn) = Ok h2).
  { rewrite Hxn, Hxp. apply (store_prev_ok _ _ _ _ Hb1). }
  assert (Hx2 : h2 !! x = Some xn).
  { unfold h2, h1. rewrite !lookup_insert_ne by congruence. exact Hx. }
  set (h3 := <[x := mkDList 0 (prev xn)]> h2).
  assert (E3 : store_next h2 x 0 = Ok h3) by (apply (store_next_ok _ _ _ _ Hx2)).
  assert (E4 : store_prev h3 x 0 = Ok (<[x := mkDList 0 0]> h3)).
  { apply (store_prev_ok h3 x 0 (mkDList 0 (prev xn))). unfold h3. apply lookup_insert_eq. }
  exists (<[x := mkDList 0 0]> h3). split.
  { unfold dlist_detach. rewrite L0. cbn [mbind res_bind]. rewrite E1. cbn [mbind res_bind].
    rewrite L1. cbn [mbind res_bind]. rewrite E2. cbn [mbind res_bind].
    rewrite E3. cbn [mbind res_bind]. exact E4. }
  split; intros p.
  - unfold h3, h2, h1. rewrite !nxt_insert. cbn [next]. rewrite Hbn1.
    destruct (decide (p = x)); [reflexivity|].
    destruct (decide (p = b)) as [->|].
    + destruct (decide (b = a)); [reflexivity|]. unfold nxt. rewrite Hb. reflexivity.
    + destruct (decide (p = a)); reflexivity.
  - unfold h3, h2, h1. rewrite !prv_insert. cbn [prev].
    destruct (decide (p = x)); [reflexivity|].
    destruct (decide (p = b)); [reflexivity|].
    destruct (decide (p = a)) as [->|]; [|reflexivity].
    unfold prv. rewrite Ha. reflexivity.
Qed.

Lemma ring_head_prev (h : Heap) head xs :
  ring h head xs ->
  chain h head xs /\ adj h (last_of head xs) head.
Proof.
  intros (_ & _ & Hc). apply chain_app in Hc as [H1 H2]. cbn in H2. tauto.
Qed.

Lemma insert_before_ring (h : Heap) head xs node :
  ring h head xs -> is_Some (h !! node) -> node ∉ head :: xs -> node <> 0 ->
  exists h',
    dlist_insert_before h head node = Ok h'
    /\ ring h' head (xs ++ [node])
    /\ (forall p, p ∉ head :: node :: xs -> h' !! p = h !! p).
Proof.
  intros Hring [nd Hnode] Hfresh Hn0.
  destruct (ring_head_prev _ _ _ Hring) as [Hc [Htn Hhp]].
  destruct Hring as (Hnd & H0 & _).
  set (t := last_of head xs) in *.
  assert (Hin_t : t ∈ head :: xs) by apply last_of_in.
  assert (Hnt : node <> t) by (intros ->; contradiction).
  assert (Hnh : node <> head) by (intros ->; apply Hfresh; left).
  destruct (nxt_is_Some _ _ _ Htn) as (tn & Ht & _).
  destruct (insert_before_pointers h head node t nd Hnode Hnh Hnt Hhp)
    as (h' & Hrun & Hnx & Hpv); [eauto|].
  exists h'. split; [exact Hrun|]. split.
  - unfold ring. split_and!.
    + apply NoDup_cons_2.
      * pose proof (NoDup_cons_1_1 _ _ Hnd) as Hh. rewrite elem_of_app.
        intros [H|H]; [contradiction|]. apply list_elem_of_singleton in H. congruence.
      * apply list.NoDup_app. split_and!.
        -- exact (NoDup_cons_1_2 _ _ Hnd).
        -- intros p Hp Hs. apply list_elem_of_singleton in Hs. subst p.
           apply Hfresh. right. exact Hp.
        -- apply NoDup_singleton.
    + intros H. apply elem_of_cons in H as [E|H]; [apply H0; rewrite E; left|].
      apply elem_of_app in H as [H|H]; [apply H0; right; exact H|].
      apply list_elem_of_singleton in H. congruence.
    + rewrite <- app_assoc. apply chain_app. split.
      * apply (chain_ext h); [| |exact Hc].
        -- intros p Hp. rewrite Hnx.
           destruct (decide (p = node)) as [->|].
           { exfalso. apply Hfresh. apply sources_sub. exact Hp. }
           destruct (decide (p = t)) as [->|]; [|reflexivity].
           exfalso. exact (last_notin_sources head xs Hnd Hp).
        -- intros p Hp. rewrite Hpv.
           destruct (decide (p = head)) as [->|].
           { exfalso. exact (NoDup_cons_1_1 _ _ Hnd Hp). }
           destruct (decide (p = node)) as [->|]; [|reflexivity].
           exfalso. apply Hfresh. right. exact Hp.
      * fold t. cbn [app chain]. split_and!; [| |trivial].
        -- split.
           ++ rewrite Hnx. destruct (decide (t = node)); [congruence|].
              destruct (decide (t = t)); [reflexivity|congruence].
           ++ rewrite Hpv. destruct (decide (node = head)); [congruence|].
              destruct (decide (node = node)); [reflexivity|congruence].
        -- split.
           ++ rewrite Hnx. destruct (decide (node = node)); [reflexivity|congruence].
           ++ rewrite Hpv. destruct (decide (head = head)); [reflexivity|congruence].
  - intros p Hp. apply nxt_prv_lookup.
    + rewrite Hnx. destruct (decide (p = node)) as [->|].
      { exfalso. apply Hp. right. left. }
      destruct (decide (p = t)) as [->|]; [|reflexivity].
      exfalso. apply Hp. apply elem_of_cons in Hin_t as [E|Hin].
      * rewrite E. left.
      * right. right. exact Hin.
    + rewrite Hpv. destruct (decide (p = head)) as [->|].
      { exfalso. apply Hp. left. }
      destruct (decide (p = node)) as [->|]; [|reflexivity].
      exfalso. apply Hp. right. left.
Qed.

Lemma NoDup_middle (a : Z) l1 x l2 :
  NoDup (a :: l1 ++ x :: l2) ->
  NoDup (a :: l1 ++ l2) /\ x ∉ a :: l1 ++ l2.
Proof.
  intros H. rewrite app_comm_cons in H.
  apply list.NoDup_app in H as (H1 & H2 & H3).
  pose proof (NoDup_cons_1_1 _ _ H3) as Hx. pose proof (NoDup_cons_1_2 _ _ H3) as H4.
  split.
  - rewrite app_comm_cons. apply list.NoDup_app. split_and!; [exact H1| |exact H4].
    intros p Hp Hq. apply (H2 p Hp). right. exact Hq.
  - rewrite app_comm_cons. rewrite elem_of_app. intros [H|H]; [|contradiction].
    apply (H2 x H). left.
Qed.

Lemma detach_ring (h : Heap) head l1 x l2 :
  ring h head (l1 ++ x :: l2) ->
  exists h',
    dlist_detach h x = Ok h'
    /\ ring h' head (l1 ++ l2)
    /\ h' !! x = Some (mkDList 0 0)
    /\ (forall p, p ∉ head :: l1 ++ x :: l2 -> h' !! p = h !! p).
Proof.
  intros (Hnd & H0 & Hc).
  destruct (NoDup_middle _ _ _ _ Hnd) as [Hnd' Hx].
  rewrite <- app_assoc in Hc. apply chain_app in Hc as [Hc1 Hc2].
  set (a := last_of head l1) in *.
  assert (Ha_in : a ∈ head :: l1) by apply last_of_in.
  cbn [app chain] in Hc2. destruct Hc2 as [[Hax Hxa] Hc2].
  destruct (l2 ++ [head]) as [|b rest] eqn:El; [destruct l2; discriminate|].
  cbn [chain] in Hc2. destruct Hc2 as [[Hxb Hbx] Hc3].
  assert (Hb_in : b ∈ l2 ++ [head]) by (rewrite El; left).
  assert (Hxa' : x <> a).
  { intros E. apply Hx. rewrite E. rewrite app_comm_cons, elem_of_app. left. exact Ha_in. }
  assert (Hxb' : x <> b).
  { intros E. apply Hx. rewrite E. apply elem_of_app in Hb_in as [H|H].
    - right. rewrite elem_of_app. right. exact H.
    - apply list_elem_of_singleton in H. rewrite H. left. }
  destruct (nxt_is_Some _ _ _ Hax) as (an & Ha & _).
  destruct (prv_is_Some _ _ _ Hbx) as (bn & Hb & _).
  destruct (detach_pointers h x a b Hxb Hxa Hxa' Hxb') as (h' & Hrun & Hnx & Hpv);
    [eauto|eauto|].
  assert (Hdisj : forall p, p ∈ head :: l1 -> p ∈ l2 -> False).
  { intros p Hp1 Hp2. rewrite app_comm_cons in Hnd'.
    apply list.NoDup_app in Hnd' as (_ & Hd & _). exact (Hd p Hp1 Hp2). }
  assert (Hnd2 : NoDup (l2 ++ [head])).
  { apply list.NoDup_app. split_and!.
    - apply NoDup_cons_1_2 in Hnd'. apply list.NoDup_app in Hnd' as (_ & _ & H). exact H.
    - intros p Hp Hq. apply list_elem_of_singleton in Hq. subst p.
      apply (NoDup_cons_1_1 _ _ Hnd'). rewrite elem_of_app. right. exact Hp.
    - apply NoDup_singleton. }
  exists h'. split; [exact Hrun|]. split_and!.
  - unfold ring. split_and!; [exact Hnd'| |].
    + intros H. apply H0. apply elem_of_cons in H as [E|H]; [rewrite E; left|].
      right. apply elem_of_app in H as [H|H]; rewrite elem_of_app; [left; exact H|].
      right. right. exact H.
    + rewrite <- app_assoc. apply chain_app. split.
      * apply (chain_ext h); [| |exact Hc1].
        -- intros p Hp. rewrite Hnx.
           destruct (decide (p = x)) as [->|].
           { exfalso. apply Hx. rewrite app_comm_cons, elem_of_app. left.
             apply sources_sub. exact Hp. }
           destruct (decide (p = a)) as [->|]; [|reflexivity].
           exfalso. apply (last_notin_sources head l1); [|exact Hp].
           rewrite app_comm_cons in Hnd'. apply list.NoDup_app in Hnd' as (H & _). exact H.
        -- intros p Hp. rewrite Hpv.
           destruct (decide (p = x)) as [->|].
           { exfalso. apply Hx. right. rewrite elem_of_app. left. exact Hp. }
           destruct (decide (p = b)) as [->|]; [|reflexivity].
           exfalso. apply elem_of_app in Hb_in as [H|H].
           ++ apply (Hdisj b); [right; exact Hp|exact H].
           ++ apply list_elem_of_singleton in H. subst b.
              apply (NoDup_cons_1_1 _ _ Hnd'). rewrite elem_of_app. left. exact Hp.
      * fold a. rewrite El. cbn [chain]. split.
        -- split.
           ++ rewrite Hnx. destruct (decide (a = x)); [congruence|].
              destruct (decide (a = a)); [reflexivity|congruence].
           ++ rewrite Hpv. destruct (decide (b = x)); [congruence|].
              destruct (decide (b = b)); [reflexivity|congruence].
        -- apply (chain_ext h); [| |exact Hc3].
           ++ intros p Hp. rewrite Hnx.
              assert (Hp2 : p ∈ l2).
              { assert (E : sources b rest = l2).
                { pose proof (sources_snoc b l2 head) as Hs. destruct l2 as [|c l2].
                  - cbn in El. injection El as <- <-. reflexivity.
                  - cbn in El. injection El as <- <-. rewrite sources_snoc. reflexivity. }
                rewrite <- E. exact Hp. }
              destruct (decide (p = x)) as [->|].
              { exfalso. apply Hx. right. rewrite elem_of_app. right. exact Hp2. }
              destruct (decide (p = a)) as [->|]; [|reflexivity].
              exfalso. exact (Hdisj a Ha_in Hp2).
           ++ intros p Hp. rewrite Hpv.
              assert (Hp2 : p ∈ l2 ++ [head]) by (rewrite El; right; exact Hp).
              destruct (decide (p = x)) as [->|].
              { exfalso. apply Hx. apply elem_of_app in Hp2 as [H|H].
                - right. rewrite elem_of_app. right. exact H.
                - apply list_elem_of_singleton in H. rewrite H. left. }
              destruct (decide (p = b)) as [->|]; [|reflexivity].
              exfalso. rewrite El in Hnd2. exact (NoDup_cons_1_1 _ _ Hnd2 Hp).
  - assert (Hn : nxt h' x = Some 0) by (rewrite Hnx; destruct (decide (x = x)); congruence).
    assert (Hp : prv h' x = Some 0) by (rewrite Hpv; destruct (decide (x = x)); congruence).
    apply nxt_is_Some in Hn as ([n1 p1] & E1 & Hn). apply prv_is_Some in Hp as (n2 & E2 & Hp).
    rewrite E1 in E2. injection E2 as <-. cbn in Hn, Hp. subst. exact E1.
  - intros p Hp. apply nxt_prv_lookup.
    + rewrite Hnx. destruct (decide (p = x)) as [->|].
      { exfalso. apply Hp. right. rewrite elem_of_app. right. left. }
      destruct (decide (p = a)) as [->|]; [|reflexivity].
      exfalso. apply Hp. apply elem_of_cons in Ha_in as [E|H]; [rewrite E; left|].
      right. rewrite elem_of_app. left. exact H.
    + rewrite Hpv. destruct (decide (p = x)) as [->|].
      { exfalso. apply Hp. right. rewrite elem_of_app. right. left. }
      destruct (decide (p = b)) as [->|]; [|reflexivity].
      exfalso. apply Hp. apply elem_of_app in Hb_in as [H|H].
      * right. rewrite elem_of_app. right. right. exact H.
      * apply list_elem_of_singleton in H. rewrite H. left.
Qed.

End DListFacts.

Section DListTheorems.

Import DL.

(** X17. [dlist_init] makes the list with no node: afterwards the head is its
    own successor and predecessor, [dlist_empty] answers [true], and no other
    node has been written to. *)
Theorem dlist_init_makes_empty_list (h : Heap) (head : Z) (n : DList) :
  h !! head = Some n -> head <> 0 ->
  exists h',
    dlist_init h head = Ok h'
    /\ ring h' head []
    /\ dlist_empty h' head = Ok true
    /\ (forall p, p <> head -> h' !! p = h !! p).
Proof.
  intros Hh H0.
  exists (<[head := mkDList head head]> (<[head := mkDList head (prev n)]> h)).
  split_and!.
  - unfold dlist_init. rewrite (store_next_ok _ _ _ _ Hh). cbn [mbind res_bind].
    apply (store_prev_ok _ head head (mkDList head (prev n))). apply lookup_insert_eq.
  - unfold ring. split_and!.
    + apply NoDup_singleton.
    + intros H. apply list_elem_of_singleton in H. congruence.
    + cbn [app chain]. split; [|trivial]. split.
      * rewrite nxt_insert. destruct (decide (head = head)); [reflexivity|congruence].
      * rewrite prv_insert. destruct (decide (head = head)); [reflexivity|congruence].
  - unfold dlist_empty. erewrite load_ok by apply lookup_insert_eq.
    cbn [mbind res_bind next]. rewrite Z.eqb_refl. reflexivity.
  - intros p Hp. rewrite !lookup_insert_ne by congruence. reflexivity.
Qed.

Lemma dlist_init_makes_empty_list_witness :
  exists h',
    dlist_init {[ 64 := mkDList 0 0; 128 := mkDList 7 9 ]} 64 = Ok h'
    /\ ring h' 64 []
    /\ dlist_empty h' 64 = Ok true
    /\ (forall p, p <> 64 -> h' !! p
                             = ({[ 64 := mkDList 0 0; 128 := mkDList 7 9 ]} : Heap) !! p).
Proof.
  apply (dlist_init_makes_empty_list {[ 64 := mkDList 0 0; 128 := mkDList 7 9 ]} 64
           (mkDList 0 0)).
  - vm_compute. reflexivity.
  - discriminate.
Defined.

(** X18. [dlist_insert_before(head, node)] appends: when the list holds the
    nodes [xs] and [node] is another node, it holds [xs ++ [node]]
    afterwards, the nodes of [xs] in the order they had; only the node, the
    head and the node that was last are written to. *)
Theorem dlist_insert_before_head_appends (h : Heap) (head : Z) (xs : list Z) (node : Z) :
  ring h head xs -> is_Some (h !! node) -> node ∉ head :: xs -> node <> 0 ->
  exists h',
    dlist_insert_before h head node = Ok h'
    /\ ring h' head (xs ++ [node])
    /\ (forall p, p ∉ head :: node :: xs -> h' !! p = h !! p).
Proof. exact (insert_before_ring h head xs node). Qed.

Lemma dlist_insert_before_head_appends_witness :
  exists h',
    dlist_insert_before
      {[ 64 := mkDList 128 128; 128 := mkDList 64 64; 192 := mkDList 0 0 ]} 64 192 = Ok h'
    /\ ring h' 64 ([128] ++ [192])
    /\ (forall p, p ∉ [64; 192; 128] ->
          h' !! p = ({[ 64 := mkDList 128 128; 128 := mkDList 64 64;
                        192 := mkDList 0 0 ]} : Heap) !! p).
Proof.
  apply (dlist_insert_before_head_appends
           {[ 64 := mkDList 128 128; 128 := mkDList 64 64; 192 := mkDList 0 0 ]}
           64 [128] 192).
  - unfold ring. split_and!.
    + apply (bool_decide_unpack _). vm_compute. exact I.
    + apply (bool_decide_unpack _). vm_compute. exact I.
    + cbn [app chain]. unfold adj. split_and!; try (vm_compute; reflexivity); exact I.
  - eexists. vm_compute. reflexivity.
  - apply (bool_decide_unpack _). vm_compute. exact I.
  - discriminate.
Defined.

(** X19. [dlist_detach(x)] takes [x] out of the list and nothing else: the
    other nodes stay linked in the order they had, the two pointers of [x]
    are null afterwards, and only [x] and its two neighbours are written
    to. *)
Theorem dlist_detach_unlinks_one_node (h : Heap) (head : Z) (l1 : list Z) (x : Z) (l2 : list Z) :
  ring h head (l1 ++ x :: l2) ->
  exists h',
    dlist_detach h x = Ok h'
    /\ ring h' head (l1 ++ l2)
    /\ h' !! x = Some (mkDList 0 0)
    /\ (forall p, p ∉ head :: l1 ++ x :: l2 -> h' !! p = h !! p).
Proof. exact (detach_ring h head l1 x l2). Qed.

Lemma dlist_detach_unlinks_one_node_witness :
  exists h',
    dlist_detach {[ 64 := mkDList 128 192; 128 := mkDList 192 64; 192 := mkDList 64 128 ]}
      128 = Ok h'
    /\ ring h' 64 ([] ++ [192])
    /\ h' !! 128 = Some (mkDList 0 0)
    /\ (forall p, p ∉ 64 :: [] ++ 128 :: [192] ->
          h' !! p = ({[ 64 := mkDList 128 192; 128 := mkDList 192 64;
                        192 := mkDList 64 128 ]} : Heap) !! p).
Proof.
  apply (dlist_detach_unlinks_one_node
           {[ 64 := mkDList 128 192; 128 := mkDList 192 64; 192 := mkDList 64 128 ]}
           64 [] 128 [192]).
  unfold ring. split_and!.
  - apply (bool_decide_unpack _). vm_compute. exact I.
  - apply (bool_decide_unpack _). vm_compute. exact I.
  - cbn [app chain]. unfold adj. split_and!; try (vm_compute; reflexivity); exact I.
Defined.

(** X20. [dlist_empty] answers [true] exactly when the list holds no node. *)
Theorem dlist_empty_iff_no_node (h : Heap) (head : Z) (xs : list Z) :
  ring h head xs -> dlist_empty h head = Ok (bool_decide (xs = [])).
Proof.
  intros (Hnd & _ & Hc). unfold dlist_empty.
  destruct xs as [|x xs]; cbn [app chain] in Hc; destruct Hc as [[Hn _] _].
  - apply nxt_is_Some in Hn as (n & Hl & Hn). rewrite (load_ok _ _ _ Hl).
    cbn [mbind res_bind]. rewrite Hn, Z.eqb_refl. reflexivity.
  - apply nxt_is_Some in Hn as (n & Hl & Hn). rewrite (load_ok _ _ _ Hl).
    cbn [mbind res_bind]. rewrite Hn.
    assert (x <> head).
    { intros ->. apply (NoDup_cons_1_1 _ _ Hnd). left. }
    destruct (Z.eqb_spec x head); [contradiction|reflexivity].
Qed.

Lemma dlist_empty_iff_no_node_witness :
  dlist_empty {[ 64 := mkDList 128 128; 128 := mkDList 64 64 ]} 64
  = Ok (bool_decide ([128] = [])).
Proof.
  apply (dlist_empty_iff_no_node {[ 64 := mkDList 128 128; 128 := mkDList 64 64 ]} 64 [128]).
  unfold ring. split_and!.
  - apply (bool_decide_unpack _). vm_compute. exact I.
  - apply (bool_decide_unpack _). vm_compute. exact I.
  - cbn [app chain]. unfold adj. split_and!; try (vm_compute; reflexivity); exact I.
Defined.

(** X21. [dlist_insert_before(head, node)] followed by [dlist_detach(node)]
    gives back the list as it was: every node other than [node] has the two
    pointers it had before, and [node] is left with null pointers. *)
Theorem dlist_insert_then_detach_restores (h : Heap) (head : Z) (xs : list Z) (node : Z) :
  ring h head xs -> is_Some (h !! node) -> node ∉ head :: xs -> node <> 0 ->
  exists h1 h2,
    dlist_insert_before h head node = Ok h1
    /\ dlist_detach h1 node = Ok h2
    /\ ring h2 head xs
    /\ h2 !! node = Some (mkDList 0 0)
    /\ (forall p, p <> node -> h2 !! p = h !! p).
Proof.
  intros Hring [nd Hnode] Hfresh Hn0.
  destruct (ring_head_prev _ _ _ Hring) as [Hc [Htn Hhp]].
  pose proof Hring as (Hnd & H0 & Hcfull).
  set (t := last_of head xs) in *.
  assert (Hin_t : t ∈ head :: xs) by apply last_of_in.
  assert (Hnt : node <> t) by (intros ->; contradiction).
  assert (Hnh : node <> head) by (intros ->; apply Hfresh; left).
  destruct (nxt_is_Some _ _ _ Htn) as (tn & Ht & _).
  destruct (insert_before_pointers h head node t nd Hnode Hnh Hnt Hhp)
    as (h1 & Hrun1 & Hnx1 & Hpv1); [eauto|].
  assert (N1 : nxt h1 node = Some head).
  { rewrite Hnx1. destruct (decide (node = node)); [reflexivity|congruence]. }
  assert (P1 : prv h1 node = Some t).
  { rewrite Hpv1. destruct (decide (node = head)); [congruence|].
    destruct (decide (node = node)); [reflexivity|congruence]. }
  assert (St : is_Some (h1 !! t)).
  { assert (E : nxt h1 t = Some node).
    { rewrite Hnx1. destruct (decide (t = node)); [congruence|].
      destruct (decide (t = t)); [reflexivity|congruence]. }
    apply nxt_is_Some in E as (? & E & _). eauto. }
  assert (Sh : is_Some (h1 !! head)).
  { assert (E : prv h1 head = Some node).
    { rewrite Hpv1. destruct (decide (head = head)); [reflexivity|congruence]. }
    apply prv_is_Some in E as (? & E & _). eauto. }
  destruct (detach_pointers h1 node t head N1 P1 Hnt Hnh St Sh)
    as (h2 & Hrun2 & Hnx2 & Hpv2).
  assert (Hsame_n : forall p, p <> node -> nxt h2 p = nxt h p).
  { intros p Hp. rewrite Hnx2. destruct (decide (p = node)); [congruence|].
    destruct (decide (p = t)) as [->|]; [symmetry; exact Htn|].
    rewrite Hnx1. destruct (decide (p = node)); [congruence|].
    destruct (decide (p = t)); [congruence|reflexivity]. }
  assert (Hsame_p : forall p, p <> node -> prv h2 p = prv h p).
  { intros p Hp. rewrite Hpv2. destruct (decide (p = node)); [congruence|].
    destruct (decide (p = head)) as [->|]; [symmetry; exact Hhp|].
    rewrite Hpv1. destruct (decide (p = head)); [congruence|].
    destruct (decide (p = node)); [congruence|reflexivity]. }
  exists h1, h2. split_and!; try assumption.
  - unfold ring. split_and!; try assumption.
    apply (chain_ext h); [| |exact Hcfull].
    + intros p Hp. apply Hsame_n. intros ->. apply sources_sub in Hp.
      apply elem_of_cons in Hp as [E|Hp]; [congruence|].
      apply elem_of_app in Hp as [Hp|Hp]; [apply Hfresh; right; exact Hp|].
      apply list_elem_of_singleton in Hp. congruence.
    + intros p Hp. apply Hsame_p. intros ->.
      apply elem_of_app in Hp as [Hp|Hp]; [apply Hfresh; right; exact Hp|].
      apply list_elem_of_singleton in Hp. congruence.
  - assert (Hn : nxt h2 node = Some 0)
      by (rewrite Hnx2; destruct (decide (node = node)); congruence).
    assert (Hp : prv h2 node = Some 0)
      by (rewrite Hpv2; destruct (decide (node = node)); congruence).
    apply nxt_is_Some in Hn as ([n1 p1] & E1 & Hn). apply prv_is_Some in Hp as (n2 & E2 & Hp).
    rewrite E1 in E2. injection E2 as <-. cbn in Hn, Hp. subst. exact E1.
  - intros p Hp. apply nxt_prv_lookup; [apply Hsame_n|apply Hsame_p]; exact Hp.
Qed.

Lemma dlist_insert_then_detach_restores_witness :
  exists h1 h2,
    dlist_insert_before
      {[ 64 := mkDList 128 128; 128 := mkDList 64 64; 192 := mkDList 5 6 ]} 64 192 = Ok h1
    /\ dlist_detach h1 192 = Ok h2
    /\ ring h2 64 [128]
    /\ h2 !! 192 = Some (mkDList 0 0)
    /\ (forall p, p <> 192 ->
          h2 !! p = ({[ 64 := mkDList 128 128; 128 := mkDList 64 64;
                        192 := mkDList 5 6 ]} : Heap) !! p).
Proof.
  apply (dlist_insert_then_detach_restores
           {[ 64 := mkDList 128 128; 128 := mkDList 64 64; 192 := mkDList 5 6 ]}
           64 [128] 192).
  - unfold ring. split_and!.
    + apply (bool_decide_unpack _). vm_compute. exact I.
    + apply (bool_decide_unpack _). vm_compute. exact I.
    + cbn [app chain]. unfold adj. split_and!; try (vm_compute; reflexivity); exact I.
  - eexists. vm_compute. reflexivity.
  - apply (bool_decide_unpack _). vm_compute. exact I.
  - discriminate.
Defined.

End DListTheorems.

(** ** [RedisMain/zset.cpp]: the hash side of the sorted set *)

Section ZSetMap.

Import ZS ZSMap.

Lemma container_of_hnode p : 0 <= p < 2 ^ 64 -> container_of_func p off_hnode = p.
Proof.
  intros Hp. unfold container_of_func, wrap64, off_hnode. rewrite Z.sub_0_r.
  apply Z.mod_small. exact Hp.
Qed.

Lemma hnode_of_id p : 0 <= p < 2 ^ 64 -> hnode_of p = p.
Proof.
  intros Hp. unfold hnode_of, wrap64, off_hnode. rewrite Z.add_0_r.
  apply Z.mod_small. exact Hp.
Qed.

Lemma anode_of_nonzero p : 0 <= p -> p + 16 < 2 ^ 64 -> anode_of p <> 0.
Proof.
  intros H0 H1. unfold anode_of, wrap64, off_anode. rewrite Z.mod_small by lia. lia.
Qed.

Lemma nodes_ok_range h top p z :
  nodes_ok h top -> top <= 2 ^ 64 -> h !! p = Some z ->
  0 <= p < 2 ^ 64 /\ p + 16 < 2 ^ 64.
Proof.
  intros Hok Htop Hz. destruct (Hok _ _ Hz) as (_ & _ & _ & H0 & H1).
  unfold sizeof_ZNode in H1. lia.
Qed.

Lemma zs_hcode_nonneg h top : nodes_ok h top -> forall p, 0 <= hcode_at h p.
Proof.
  intros Hok p. unfold hcode_at.
  destruct (h !! container_of_func p off_hnode) as [z|] eqn:E; [|lia].
  destruct (Hok _ _ E) as (-> & _). apply str_hash_nonneg.
Qed.

Lemma zs_hcode_at h top p z :
  nodes_ok h top -> top <= 2 ^ 64 -> h !! p = Some z ->
  hcode_at h p = str_hash (name z).
Proof.
  intros Hok Htop Hz. unfold hcode_at.
  rewrite container_of_hnode by (eapply nodes_ok_range; eauto).
  rewrite Hz. apply (Hok _ _ Hz).
Qed.

Lemma znode_eq_at h top nm p z :
  nodes_ok h top -> top <= 2 ^ 64 -> h !! p = Some z ->
  (znode_eq h nm (blen nm) p = true <-> name z = nm).
Proof.
  intros Hok Htop Hz. apply znode_eq_spec.
  - rewrite container_of_hnode by (eapply nodes_ok_range; eauto). exact Hz.
  - apply (Hok _ _ Hz).
Qed.

Lemma zs_null st zset : zs_inv st zset -> 0 ∉ HTInv.hm_nodes (hmap zset).
Proof.
  intros (_ & _ & Hdom & He & _) H0. apply Hdom in H0 as [z Hz].
  destruct (He _ _ Hz) as (_ & _ & _ & ? & _). lia.
Qed.

Lemma zs_inv_hmap st zset hm' r :
  zs_inv st zset -> HTInv.hm_inv (hcode_at (heap st)) hm' ->
  HTInv.hm_nodes hm' ≡ₚ HTInv.hm_nodes (hmap zset) ->
  zs_inv st (mkZSet hm' r).
Proof.
  intros (Hi & Hnd & Hdom & He & Hk & Hb) Hi' Hp. unfold zs_inv. cbn [hmap].
  split_and!; try assumption; try apply Hb.
  - rewrite Hp. exact Hnd.
  - intros p. rewrite Hp. apply Hdom.
Qed.

(** The lookup that [zset_insert] and [zset_lookup] make. *)
Lemma zs_lookup st zset m nm :
  represents st zset m ->
  exists hm1 node,
    HT.hm_lookup (hcode_at (heap st)) (hmap zset) (str_hash nm)
                 (znode_eq (heap st) nm (blen nm)) = Ok (hm1, node)
    /\ HTInv.hm_inv (hcode_at (heap st)) hm1
    /\ HTInv.hm_nodes hm1 ≡ₚ HTInv.hm_nodes (hmap zset)
    /\ ((node <> 0
         /\ exists z, heap st !! node = Some z /\ name z = nm /\ m !! nm = Some (score z))
        \/ (node = 0 /\ m !! nm = None)).
Proof.
  intros [Hinv Hm]. pose proof Hinv as (Hi & Hnd & Hdom & He & Hk & Hb).
  destruct (hm_lookup_spec _ (zs_hcode_nonneg _ _ He) (hmap zset) (str_hash nm)
              (znode_eq (heap st) nm (blen nm)) Hi)
    as (hm1 & node & Hl & Hi' & Hp & Hfound & Hmissed).
  exists hm1, node. split; [exact Hl|]. split; [exact Hi'|]. split; [exact Hp|].
  destruct (decide (node = 0)) as [->|Hne].
  - right. split; [reflexivity|].
    destruct (m !! nm) as [v|] eqn:Hv; [|reflexivity]. exfalso.
    apply Hm in Hv as (p & z & Hz & Hname & _).
    assert (Hin : p ∈ HTInv.hm_nodes (hmap zset)) by (apply Hdom; eauto).
    assert (Hhc : hcode_at (heap st) p = str_hash nm).
    { rewrite (zs_hcode_at _ _ _ _ He (proj2 Hb) Hz). congruence. }
    pose proof (Hmissed eq_refl (zs_null _ _ Hinv) p Hin Hhc) as Hf.
    apply (znode_eq_at _ _ nm _ _ He (proj2 Hb) Hz) in Hname. congruence.
  - left. split; [exact Hne|].
    destruct (Hfound Hne) as (Hin & _ & Heq).
    apply Hdom in Hin as [z Hz]. exists z. split; [exact Hz|].
    apply (znode_eq_at _ _ nm _ _ He (proj2 Hb) Hz) in Heq.
    split; [exact Heq|]. apply Hm. eauto.
Qed.

Lemma aget_alone (h : gmap Z ZNode) a z :
  h !! container_of_func a off_anode = Some z -> anode z = alone -> aget h a = alone.
Proof. intros Hz Ha. unfold aget. rewrite Hz. exact Ha. Qed.

Lemma aput_same (h : gmap Z ZNode) a z :
  h !! container_of_func a off_anode = Some z -> aput h a (anode z) = h.
Proof.
  intros Hz. unfold aput. apply map_eq. intros i. rewrite lookup_alter.
  destruct (decide (container_of_func a off_anode = i)) as [<-|]; [|reflexivity].
  rewrite Hz. cbn. destruct z; reflexivity.
Qed.

(** [avl_fix] and [avl_del] on a node that is alone. *)
Lemma avl_fix_alone (h : gmap Z ZNode) a z :
  a <> 0 -> h !! container_of_func a off_anode = Some z -> anode z = alone ->
  avl_fix h a = Ok (h, a).
Proof.
  intros Ha Hz Hal. unfold avl_fix. cbn [avl_fix_loop].
  pose proof (aget_alone h a z Hz Hal) as Hget.
  assert (Hupd : avl_update h a = h).
  { unfold avl_update. rewrite Hget. cbn [parent left right alone].
    unfold avl_height, avl_cnt. cbn. rewrite <- (aput_same h a z Hz) at 2.
    rewrite Hal. reflexivity. }
  rewrite Hupd, Hget. cbn [parent left right alone]. unfold avl_height. cbn.
  reflexivity.
Qed.

Lemma avl_del_alone (h : gmap Z ZNode) a z :
  h !! container_of_func a off_anode = Some z -> anode z = alone ->
  avl_del h a = Ok (h, 0).
Proof.
  intros Hz Hal. unfold avl_del, avl_del_easy.
  rewrite (aget_alone h a z Hz Hal). reflexivity.
Qed.

Lemma represents_hmap st zset m hm' r :
  represents st zset m -> HTInv.hm_inv (hcode_at (heap st)) hm' ->
  HTInv.hm_nodes hm' ≡ₚ HTInv.hm_nodes (hmap zset) ->
  represents st (mkZSet hm' r) m.
Proof.
  intros [Hinv Hm] Hi Hp. split; [apply (zs_inv_hmap st zset); assumption|exact Hm].
Qed.

(** [zset_lookup] *)
Lemma zset_lookup_represents st zset m nm :
  represents st zset m ->
  exists zset' p,
    zset_lookup st zset nm = Ok (zset', p)
    /\ represents st zset' m
    /\ root zset' = root zset
    /\ match m !! nm with
       | Some sc => p <> 0 /\ exists z, heap st !! p = Some z /\ name z = nm /\ score z = sc
       | None => p = 0
       end.
Proof.
  intros Hrep. unfold zset_lookup.
  destruct (zs_lookup st zset m nm Hrep) as (hm1 & node & Hl & Hi & Hp & Hcase).
  rewrite Hl. cbn [mbind res_bind]. eexists _, _. split; [reflexivity|].
  split; [apply (represents_hmap st zset); assumption|]. split; [reflexivity|].
  destruct Hrep as [(_ & _ & _ & He & _ & Hb) _].
  destruct Hcase as [(Hne & z & Hz & Hname & Hm)|(-> & Hm)].
  - rewrite Hm. apply Z.eqb_neq in Hne. rewrite Hne.
    destruct (nodes_ok_range _ _ _ _ He (proj2 Hb) Hz) as [Hrz _].
    rewrite (container_of_hnode node Hrz).
    apply Z.eqb_neq in Hne. split; [exact Hne|]. eauto.
  - rewrite Hm. reflexivity.
Qed.

(** [zset_insert] *)
Lemma zset_insert_represents st zset m nm sc :
  represents st zset m -> brk st + sizeof_ZNode <= 2 ^ 64 ->
  exists st' zset',
    zset_insert st zset nm sc = Ok (st', zset', bool_decide (m !! nm = None))
    /\ represents st' zset' (insert_score m nm sc)
    /\ (root_ok st zset -> root_ok st' zset')
    /\ match m !! nm with
       | None =>
           heap st !! brk st = None
           /\ heap st' = <[brk st := mkZNode (str_hash nm) alone sc nm (blen nm)]> (heap st)
           /\ HTInv.hm_nodes (hmap zset') ≡ₚ brk st :: HTInv.hm_nodes (hmap zset)
           /\ root zset' = anode_of (brk st)
       | Some old =>
           exists node z,
             heap st !! node = Some z /\ name z = nm /\ score z = old
             /\ HTInv.hm_nodes (hmap zset') ≡ₚ HTInv.hm_nodes (hmap zset)
             /\ if double_eq old sc
                then heap st' = heap st /\ root zset' = root zset
                else heap st'
                     = <[node := mkZNode (hnode_hcode z) (anode z) sc (name z) (len z)]>
                         (heap st)
                     /\ root zset' = anode_of node
       end.
Proof.
  intros Hrep Hroom. unfold zset_insert.
  destruct (zs_lookup st zset m nm Hrep) as (hm1 & node & Hl & Hi & Hp & Hcase).
  rewrite Hl. cbn [mbind res_bind].
  destruct Hrep as [Hinv Hm]. pose proof Hinv as (_ & Hnd & Hdom & He & Hk & Hb).
  destruct Hcase as [(Hne & z & Hz & Hname & Hmk)|(-> & Hmk)].
  - (* the member exists *)
    apply Z.eqb_neq in Hne. rewrite Hne. cbn [negb]. apply Z.eqb_neq in Hne.
    destruct (nodes_ok_range _ _ _ _ He (proj2 Hb) Hz) as [Hr Hr16].
    rewrite (container_of_hnode node Hr), Hz.
    unfold insert_score. rewrite Hmk.
    rewrite bool_decide_eq_false_2 by congruence.
    destruct (double_eq (score z) sc) eqn:Hsc.
    { eexists _, _. split; [reflexivity|]. split; [|split; [intros Hrt; exact Hrt|]].
      - apply (represents_hmap st zset); [split; assumption|exact Hi|exact Hp].
      - exists node, z. cbn [heap hmap root]. split_and!; auto. }
    assert (Hc : container_of_func (anode_of node) off_anode = node)
      by (apply container_of_anode; unfold off_anode; lia).
    destruct (He _ _ Hz) as (Hhc & Hlen & Hal & H0 & Htop).
    rewrite (avl_del_alone (heap st) (anode_of node) z) by (rewrite ?Hc; assumption).
    cbn [mbind res_bind].
    set (z' := mkZNode (hnode_hcode z) (anode z) sc (name z) (len z)).
    set (h2 := alter _ node (heap st)).
    assert (Hlk : forall p, h2 !! p = if decide (node = p) then Some z' else heap st !! p).
    { intros p. subst h2. rewrite lookup_alter.
      destruct (decide (node = p)) as [<-|]; [rewrite Hz|]; reflexivity. }
    rewrite (avl_fix_alone h2 (anode_of node) z').
    2:{ apply anode_of_nonzero; lia. }
    2:{ rewrite Hc, Hlk. destruct (decide (node = node)); [reflexivity|congruence]. }
    2:{ exact Hal. }
    cbn [mbind res_bind]. eexists _, _. split; [reflexivity|].
    assert (Hhcs : forall p, hcode_at (heap st) p = hcode_at h2 p).
    { intros p. unfold hcode_at. rewrite Hlk.
      destruct (decide (node = container_of_func p off_hnode)) as [<-|];
        [rewrite Hz|]; reflexivity. }
    split; [split|].
    + unfold zs_inv. cbn [hmap heap brk]. split_and!.
      * eapply hm_inv_ext; [|exact Hi]. intros p _. apply Hhcs.
      * rewrite Hp. exact Hnd.
      * intros p. rewrite Hp, Hdom, Hlk.
        destruct (decide (node = p)) as [<-|]; [|reflexivity].
        rewrite Hz. split; eauto.
      * intros p x. rewrite Hlk.
        destruct (decide (node = p)) as [<-|]; [|apply He].
        intros [= <-]. subst z'. cbn. split_and!; assumption.
      * intros p q x y. rewrite !Hlk.
        destruct (decide (node = p)) as [<-|Hnp];
          destruct (decide (node = q)) as [<-|Hnq]; try reflexivity.
        -- intros [= <-] Hy Hxy. subst z'. cbn in Hxy. eapply Hk; eauto.
        -- intros Hx [= <-] Hxy. subst z'. cbn in Hxy. eapply Hk; eauto.
        -- apply Hk.
      * apply Hb.
      * apply Hb.
    + intros k' v'. cbn [heap]. rewrite lookup_insert. split.
      * destruct (decide (nm = k')) as [<-|Hkk].
        -- intros [= <-]. exists node, z'. rewrite Hlk.
           destruct (decide (node = node)); [|congruence]. subst z'. cbn. auto.
        -- intros Hv'. apply Hm in Hv' as (p & x & Hx & Hxk & Hxv).
           exists p, x. rewrite Hlk.
           destruct (decide (node = p)) as [<-|]; [congruence|auto].
      * intros (p & x & Hx & Hxk & Hxv). rewrite Hlk in Hx.
        destruct (decide (node = p)) as [<-|Hnp].
        -- injection Hx as <-. subst z'. cbn in *.
           destruct (decide (nm = k')); congruence.
        -- destruct (decide (nm = k')) as [<-|Hkk].
           ++ exfalso. apply Hnp. eapply Hk; eauto. congruence.
           ++ apply Hm. eauto.
    + split.
      * intros _. right. exists node. cbn [heap root]. split; [|reflexivity].
        rewrite Hlk. destruct (decide (node = node)); [eauto|congruence].
      * exists node, z. cbn [heap hmap root]. split_and!; auto.
        apply map_eq. intros p. rewrite Hlk, lookup_insert. reflexivity.
  - (* the member is new *)
    cbn [negb Z.eqb]. unfold insert_score. rewrite Hmk.
    rewrite bool_decide_eq_true_2 by reflexivity.
    assert (Hbr : 0 <= brk st < 2 ^ 64 /\ brk st + 16 < 2 ^ 64)
      by (unfold sizeof_ZNode in Hroom; lia).
    assert (Hc : container_of_func (anode_of (brk st)) off_anode = brk st)
      by (apply container_of_anode; unfold off_anode; lia).
    set (z' := mkZNode (str_hash nm) alone sc nm (blen nm)).
    set (h1 := <[brk st := _]> (heap st)).
    assert (Hfresh : heap st !! brk st = None).
    { destruct (heap st !! brk st) as [x|] eqn:E; [|reflexivity].
      destruct (He _ _ E) as (_ & _ & _ & _ & ?). unfold sizeof_ZNode in *. lia. }
    assert (Hlk : forall p, avl_init h1 (anode_of (brk st)) !! p
                            = if decide (brk st = p) then Some z' else heap st !! p).
    { intros p. unfold avl_init, aput. rewrite Hc, lookup_alter. subst h1.
      destruct (decide (brk st = p)) as [<-|Hn].
      - rewrite lookup_insert_eq. reflexivity.
      - rewrite lookup_insert_ne by exact Hn. reflexivity. }
    set (h2 := avl_init h1 (anode_of (brk st))) in *.
    assert (Hok2 : nodes_ok h2 (brk st + sizeof_ZNode)).
    { intros p x. rewrite Hlk. destruct (decide (brk st = p)) as [<-|].
      - intros [= <-]. subst z'. cbn. split_and!; try reflexivity; lia.
      - intros E. destruct (He _ _ E) as (A1 & A2 & A3 & A4 & A5).
        unfold sizeof_ZNode in *. split_and!; auto; lia. }
    assert (Hnotin : brk st ∉ HTInv.hm_nodes hm1).
    { rewrite Hp, Hdom, Hfresh. intros [x Hx]. discriminate. }
    assert (Hi1 : HTInv.hm_inv (hcode_at h2) hm1).
    { eapply hm_inv_ext; [|exact Hi]. intros p Hin. unfold hcode_at. rewrite Hlk.
      destruct (decide (brk st = container_of_func p off_hnode)) as [E|]; [|reflexivity].
      exfalso. apply Hnotin. rewrite Hp. apply Hdom.
      rewrite Hp in Hin. apply Hdom in Hin as [x Hx].
      destruct (nodes_ok_range _ _ _ _ He (proj2 Hb) Hx) as [Hrx _].
      rewrite (container_of_hnode p Hrx) in E. rewrite E. eauto. }
    rewrite (hnode_of_id (brk st)) by lia.
    destruct (hm_insert_spec _ (zs_hcode_nonneg _ _ Hok2) _ (brk st) Hi1)
      as (hm2 & Hins & Hi2 & Hp2).
    rewrite Hins. cbn [mbind res_bind].
    rewrite (avl_fix_alone h2 (anode_of (brk st)) z').
    2:{ apply anode_of_nonzero; lia. }
    2:{ rewrite Hc, Hlk. destruct (decide (brk st = brk st)); [reflexivity|congruence]. }
    2:{ reflexivity. }
    cbn [mbind res_bind]. eexists _, _. split; [reflexivity|].
    assert (Hnoname : forall q x, heap st !! q = Some x -> name x <> nm).
    { intros q x Hx Hxk.
      assert (m !! nm = Some (score x)) by (apply Hm; eauto). congruence. }
    split; [split|].
    + unfold zs_inv. cbn [hmap heap brk]. split_and!.
      * exact Hi2.
      * rewrite Hp2. constructor; [exact Hnotin|]. rewrite Hp. exact Hnd.
      * intros p. rewrite Hp2, Hlk, elem_of_cons, Hp, Hdom.
        destruct (decide (brk st = p)) as [<-|Hne].
        -- split; eauto.
        -- split; [intros [?|?]; [congruence|assumption]|auto].
      * exact Hok2.
      * intros p q x y. rewrite !Hlk.
        destruct (decide (brk st = p)) as [<-|Hnp];
          destruct (decide (brk st = q)) as [<-|Hnq]; try reflexivity.
        -- intros [= <-] Hy Hxy. subst z'. cbn in Hxy.
           exfalso. eapply Hnoname; eauto.
        -- intros Hx [= <-] Hxy. subst z'. cbn in Hxy.
           exfalso. eapply Hnoname; eauto.
        -- apply Hk.
      * unfold sizeof_ZNode in *. lia.
      * unfold sizeof_ZNode in *. lia.
    + intros k' v'. cbn [heap]. rewrite lookup_insert. split.
      * destruct (decide (nm = k')) as [<-|Hkk].
        -- intros [= <-]. exists (brk st), z'. rewrite Hlk.
           destruct (decide (brk st = brk st)); [|congruence]. subst z'. cbn. auto.
        -- intros Hv'. apply Hm in Hv' as (p & x & Hx & Hxk & Hxv).
           exists p, x. rewrite Hlk.
           destruct (decide (brk st = p)) as [<-|]; [congruence|auto].
      * intros (p & x & Hx & Hxk & Hxv). rewrite Hlk in Hx.
        destruct (decide (brk st = p)) as [<-|Hnp].
        -- injection Hx as <-. subst z'. cbn in *.
           destruct (decide (nm = k')); congruence.
        -- destruct (decide (nm = k')) as [<-|Hkk].
           ++ exfalso. eapply Hnoname; eauto.
           ++ apply Hm. eauto.
    + split.
      * intros _. right. exists (brk st). cbn [heap root]. split; [|reflexivity].
        rewrite Hlk. destruct (decide (brk st = brk st)); [eauto|congruence].
      * cbn [heap hmap root]. split_and!; auto.
        -- apply map_eq. intros p. rewrite Hlk, lookup_insert. reflexivity.
        -- rewrite Hp2, Hp. reflexivity.
Qed.

(** [zset_delete] of a node of the set. *)
Lemma zset_delete_represents st zset m znode z :
  represents st zset m -> heap st !! znode = Some z ->
  exists st' zset',
    zset_delete st zset znode = Ok (st', zset')
    /\ represents st' zset' (delete (name z) m)
    /\ root zset' = 0
    /\ heap st' = delete znode (heap st).
Proof.
  intros [Hinv Hm] Hz. pose proof Hinv as (Hi & Hnd & Hdom & He & Hk & Hb).
  destruct (nodes_ok_range _ _ _ _ He (proj2 Hb) Hz) as [Hr Hr16].
  destruct (He _ _ Hz) as (Hhc & Hlen & Hal & H0 & Htop).
  assert (Hc : container_of_func (anode_of znode) off_anode = znode)
    by (apply container_of_anode; unfold off_anode; lia).
  unfold zset_delete.
  rewrite (avl_del_alone (heap st) (anode_of znode) z) by (rewrite ?Hc; assumption).
  cbn [mbind res_bind]. rewrite Hz, Hlen.
  destruct (hm_delete_spec _ (zs_hcode_nonneg _ _ He) (hmap zset) (hnode_hcode z)
              (znode_eq (heap st) (name z) (blen (name z))) Hi)
    as (hm2 & p & Hd & Hi' & Hfound & Hmissed).
  rewrite Hd. cbn [mbind res_bind]. eexists _, _. split; [reflexivity|].
  assert (Hin : znode ∈ HTInv.hm_nodes (hmap zset)) by (apply Hdom; eauto).
  assert (Hhz : hcode_at (heap st) znode = hnode_hcode z).
  { rewrite (zs_hcode_at _ _ _ _ He (proj2 Hb) Hz). congruence. }
  assert (Heqz : znode_eq (heap st) (name z) (blen (name z)) znode = true).
  { apply (znode_eq_at _ _ (name z) _ _ He (proj2 Hb) Hz). reflexivity. }
  assert (Hpz : p = znode).
  { destruct (decide (p = 0)) as [->|Hne].
    - destruct (Hmissed eq_refl) as [_ Hnone].
      pose proof (Hnone (zs_null _ _ Hinv) znode Hin Hhz). congruence.
    - destruct (Hfound Hne) as (Hperm & _ & Heq).
      assert (Hpin : p ∈ HTInv.hm_nodes (hmap zset)) by (rewrite Hperm; left).
      apply Hdom in Hpin as [x Hx].
      apply (znode_eq_at _ _ (name z) _ _ He (proj2 Hb) Hx) in Heq.
      eapply Hk; eauto. }
  subst p.
  assert (Hne : znode <> 0) by lia.
  destruct (Hfound Hne) as (Hperm & _ & _).
  assert (Hnd' : NoDup (znode :: HTInv.hm_nodes hm2)) by (rewrite <- Hperm; exact Hnd).
  pose proof (NoDup_cons_1_1 _ _ Hnd') as Hnotin.
  apply NoDup_cons_1_2 in Hnd'.
  split_and!; try reflexivity.
  split.
  - unfold zs_inv. cbn [hmap heap brk]. split_and!.
    + eapply hm_inv_ext; [|exact Hi']. intros q Hq. unfold hcode_at.
      rewrite lookup_delete_ne; [reflexivity|]. intros E. apply Hnotin.
      assert (Hq' : q ∈ HTInv.hm_nodes (hmap zset)) by (rewrite Hperm; right; exact Hq).
      apply Hdom in Hq' as [x Hx].
      destruct (nodes_ok_range _ _ _ _ He (proj2 Hb) Hx) as [Hrx _].
      rewrite (container_of_hnode q Hrx) in E. rewrite E. exact Hq.
    + exact Hnd'.
    + intros q. rewrite lookup_delete.
      destruct (decide (znode = q)) as [<-|Hnq].
      * split; [contradiction|]. intros [x Hx]. discriminate.
      * rewrite <- Hdom, Hperm, elem_of_cons. split; [auto|].
        intros [?|?]; [congruence|assumption].
    + intros q x. rewrite lookup_delete.
      destruct (decide (znode = q)); [discriminate|apply He].
    + intros q1 q2 x y. rewrite !lookup_delete.
      destruct (decide (znode = q1)); [discriminate|].
      destruct (decide (znode = q2)); [discriminate|apply Hk].
    + apply Hb.
    + apply Hb.
  - intros k' v'. cbn [heap]. rewrite lookup_delete. split.
    + destruct (decide (name z = k')) as [<-|Hkk]; [discriminate|].
      intros Hv'. apply Hm in Hv' as (q & x & Hx & Hxk & Hxv).
      exists q, x. rewrite lookup_delete.
      destruct (decide (znode = q)) as [<-|]; [congruence|auto].
    + intros (q & x & Hx & Hxk & Hxv). rewrite lookup_delete in Hx.
      destruct (decide (znode = q)) as [<-|Hnq]; [discriminate|].
      destruct (decide (name z = k')) as [<-|Hkk].
      * exfalso. apply Hnq. eapply Hk; eauto.
      * apply Hm. eauto.
Qed.

Lemma zs_represents_init : represents Store_init ZSet_init ∅.
Proof.
  split.
  - unfold zs_inv, Store_init, ZSet_init. cbn [hmap heap brk]. split_and!.
    + unfold HTInv.hm_inv, HTInv.loop_inv, HT.HMap_zero. cbn.
      split_and!; try apply tab_ok_zero; try lia; try congruence.
      intros _. unfold HT.k_max_load_factor, HTInv.cap. cbn. lia.
    + constructor.
    + intros p. rewrite lookup_empty. split.
      * intros H. inversion H.
      * intros [x Hx]. discriminate.
    + intros p z. rewrite lookup_empty. discriminate.
    + intros p q z z'. rewrite lookup_empty. discriminate.
    + unfold sizeof_ZNode. lia.
    + unfold sizeof_ZNode. lia.
  - intros nm sc. rewrite lookup_empty. split; [discriminate|].
    intros (p & z & Hz & _). cbn in Hz. rewrite lookup_empty in Hz. discriminate.
Qed.


(** [zset_clear] *)
Lemma zset_clear_frees_root_only st zset m :
  represents st zset m -> root_ok st zset ->
  exists st' zset',
    zset_clear st zset = Ok (st', zset')
    /\ zset' = mkZSet HT.HMap_zero 0
    /\ brk st' = brk st
    /\ (root zset = 0 -> heap st' = heap st)
    /\ (forall p, is_Some (heap st !! p) -> root zset = anode_of p ->
          heap st' = delete p (heap st)).
Proof.
  intros Hrep Hroot. unfold zset_clear.
  destruct Hroot as [H0|(p & [z Hz] & Hr)].
  - cbn [zset_clear_loop]. rewrite H0. cbn [Z.eqb].
    eexists _, _. split; [reflexivity|]. split_and!; try reflexivity.
    intros q [zq Hq] Hrq. exfalso.
    destruct Hrep as [(_ & _ & _ & He & _ & Hb) _].
    destruct (nodes_ok_range _ _ _ _ He (proj2 Hb) Hq) as [Hq0 Hq16].
    apply (anode_of_nonzero q); [lia|lia|congruence].
  - pose proof Hrep as [(_ & _ & _ & He & _ & Hb) _].
    destruct (nodes_ok_range _ _ _ _ He (proj2 Hb) Hz) as [Hp0 Hp16].
    assert (Hc : container_of_func (anode_of p) off_anode = p)
      by (apply container_of_anode; unfold off_anode; lia).
    assert (Hnz : anode_of p <> 0) by (apply anode_of_nonzero; lia).
    assert (Hsz : exists n, size (heap st) = S n).
    { destruct (size (heap st)) as [|n] eqn:E; [|eauto].
      apply map_size_empty_inv in E. rewrite E, lookup_empty in Hz. discriminate. }
    destruct Hsz as [n Hsz]. rewrite Hsz. cbn [zset_clear_loop].
    rewrite Hr. apply Z.eqb_neq in Hnz. rewrite Hnz. rewrite Hc.
    destruct (zset_delete_represents st zset m p z Hrep Hz)
      as (st1 & zset1 & Hdel & _ & Hroot1 & Hheap1).
    rewrite Hdel. cbn [mbind res_bind]. rewrite Hroot1. cbn [Z.eqb].
    eexists _, _. split; [reflexivity|].
    assert (Hbrk : brk st1 = brk st).
    { unfold zset_delete in Hdel.
      destruct (avl_del _ _) as [[h1 r1]| |]; cbn [mbind res_bind] in Hdel;
        try discriminate.
      destruct (h1 !! p); [|discriminate].
      destruct (HT.hm_delete _ _ _ _) as [[hm1 q]| |]; cbn [mbind res_bind] in Hdel;
        try discriminate.
      injection Hdel as <- _. reflexivity. }
    split_and!; try assumption; try reflexivity.
    + intros E. rewrite E in Hnz. discriminate.
    + intros q [zq Hq] Hrq. rewrite Hheap1. f_equal.
      destruct (nodes_ok_range _ _ _ _ He (proj2 Hb) Hq) as [Hq0 Hq16].
      assert (Hcq : container_of_func (anode_of q) off_anode = q)
        by (apply container_of_anode; unfold off_anode; lia).
      rewrite <- Hc, <- Hcq. congruence.
Qed.

End ZSetMap.

Section ZSetMapTheorems.

Import ZS ZSMap.

(** X22. [zset_lookup] finds the members and nothing else: on a set that
    holds the scores [m], it returns the node that carries the name and its
    score when the name is a member, and the null pointer otherwise; the set
    holds the same scores afterwards (the lookup may move nodes between the
    two tables of the hash map) and [zset->root] is not touched. *)
Theorem zset_lookup_finds_members
    (st : Store) (zset : ZSet) (m : gmap bytes double) (nm : bytes) :
  represents st zset m ->
  exists zset' p,
    zset_lookup st zset nm = Ok (zset', p)
    /\ represents st zset' m
    /\ root zset' = root zset
    /\ match m !! nm with
       | Some sc => p <> 0 /\ exists z, heap st !! p = Some z /\ name z = nm /\ score z = sc
       | None => p = 0
       end.
Proof. exact (zset_lookup_represents st zset m nm). Qed.

Lemma zset_lookup_finds_members_witness :
  exists zset' p z,
    zset_lookup (fst (fst ZSInv.two_inserts)) (snd (fst ZSInv.two_inserts)) (lit "a")
    = Ok (zset', p)
    /\ represents (fst (fst ZSInv.two_inserts)) zset'
         (insert_score (insert_score ∅ (lit "a") (double_of_Z 1))
            (lit "b") (double_of_Z 2))
    /\ root zset' = root (snd (fst ZSInv.two_inserts))
    /\ p = 80
    /\ heap (fst (fst ZSInv.two_inserts)) !! p = Some z
    /\ name z = lit "a" /\ score z = double_of_Z 1.
Proof.
  destruct (zset_insert_represents Store_init ZSet_init ∅ (lit "a") (double_of_Z 1)
              zs_represents_init)
    as (st1 & zset1 & H1 & Hrep1 & _); [vm_compute; discriminate|].
  assert (E1 : ZSInv.one_member = (st1, zset1, true)).
  { unfold ZSInv.one_member. rewrite H1. reflexivity. }
  assert (Hb1 : brk st1 + sizeof_ZNode <= 2 ^ 64).
  { replace st1 with (fst (fst ZSInv.one_member)) by (rewrite E1; reflexivity).
    vm_compute. discriminate. }
  destruct (zset_insert_represents st1 zset1 _ (lit "b") (double_of_Z 2) Hrep1 Hb1)
    as (st2 & zset2 & H2 & Hrep2 & _).
  assert (E2 : ZSInv.two_inserts = (st2, zset2, true)).
  { unfold ZSInv.two_inserts. rewrite E1. cbn [fst snd]. rewrite H2. reflexivity. }
  destruct (zset_lookup_finds_members st2 zset2 _ (lit "a") Hrep2)
    as (zset' & p & Hl & Hrep' & Hroot & Hcase).
  assert (Hm : insert_score (insert_score ∅ (lit "a") (double_of_Z 1))
                 (lit "b") (double_of_Z 2) !! lit "a" = Some (double_of_Z 1))
    by (vm_compute; reflexivity).
  rewrite Hm in Hcase. destruct Hcase as (Hp & z & Hz & Hname & Hscore).
  assert (Hp80 : p = 80).
  { assert (Hrun : snd <$> zset_lookup (fst (fst ZSInv.two_inserts))
                             (snd (fst ZSInv.two_inserts)) (lit "a") = Ok 80)
      by (vm_compute; reflexivity).
    rewrite E2 in Hrun. cbn [fst snd] in Hrun. rewrite Hl in Hrun.
    cbn in Hrun. congruence. }
  rewrite E2. cbn [fst snd]. exists zset', p, z.
  split_and!; assumption.
Defined.

(** X23. [zset_insert] as an operation on the scores: it returns [true]
    exactly when the name was not a member; afterwards the name is a member
    with the score given, except that a member whose score compares equal to
    the one given is left as it was; the scores of the other members do not
    change.  A [zset_lookup] of the name then returns a node that carries the
    name, with that score. *)
Theorem zset_insert_then_lookup
    (st : Store) (zset : ZSet) (m : gmap bytes double) (nm : bytes) (sc : double) :
  represents st zset m -> brk st + sizeof_ZNode <= 2 ^ 64 ->
  exists st' zset' b zset'' p z,
    zset_insert st zset nm sc = Ok (st', zset', b)
    /\ (b = true <-> m !! nm = None)
    /\ represents st' zset' (insert_score m nm sc)
    /\ zset_lookup st' zset' nm = Ok (zset'', p)
    /\ p <> 0 /\ heap st' !! p = Some z /\ name z = nm
    /\ insert_score m nm sc !! nm = Some (score z)
    /\ (score z = sc \/ double_eq (score z) sc = true).
Proof.
  intros Hrep Hroom.
  destruct (zset_insert_represents st zset m nm sc Hrep Hroom)
    as (st' & zset' & Hins & Hrep' & _).
  destruct (zset_lookup_represents st' zset' _ nm Hrep') as (zset'' & p & Hl & _ & _ & Hcase).
  assert (Hmem : exists s, insert_score m nm sc !! nm = Some s
                           /\ (s = sc \/ double_eq s sc = true)).
  { unfold insert_score. destruct (m !! nm) as [old|] eqn:E.
    - destruct (double_eq old sc) eqn:Hd.
      + exists old. rewrite E. auto.
      + exists sc. rewrite lookup_insert_eq. auto.
    - exists sc. rewrite lookup_insert_eq. auto. }
  destruct Hmem as (s & Hs & Hsc). rewrite Hs in Hcase.
  destruct Hcase as (Hp & z & Hz & Hname & Hscore).
  exists st', zset', (bool_decide (m !! nm = None)), zset'', p, z. subst s.
  split_and!; try assumption; apply bool_decide_eq_true.
Qed.

Lemma zset_insert_then_lookup_witness :
  exists st' zset' b zset'' p z,
    zset_insert Store_init ZSet_init (lit "a") (double_of_Z 1) = Ok (st', zset', b)
    /\ (b = true <-> (∅ : gmap bytes double) !! lit "a" = None)
    /\ represents st' zset' (insert_score ∅ (lit "a") (double_of_Z 1))
    /\ zset_lookup st' zset' (lit "a") = Ok (zset'', p)
    /\ p <> 0 /\ heap st' !! p = Some z /\ name z = lit "a"
    /\ insert_score ∅ (lit "a") (double_of_Z 1) !! lit "a" = Some (score z)
    /\ (score z = double_of_Z 1 \/ double_eq (score z) (double_of_Z 1) = true).
Proof.
  apply (zset_insert_then_lookup Store_init ZSet_init ∅ (lit "a") (double_of_Z 1)).
  - exact zs_represents_init.
  - vm_compute. discriminate.
Defined.

(** X24. [zset_delete] of a node of the set removes the member of that name
    and no other, and frees the node.  It leaves [zset->root] null whichever
    node was deleted, because no node has a parent: the other members stay
    in the hash map but none is reachable from the root. *)
Theorem zset_delete_removes_member
    (st : Store) (zset : ZSet) (m : gmap bytes double) (znode : Z) (z : ZNode) :
  represents st zset m -> heap st !! znode = Some z ->
  exists st' zset',
    zset_delete st zset znode = Ok (st', zset')
    /\ represents st' zset' (delete (name z) m)
    /\ root zset' = 0
    /\ heap st' = delete znode (heap st).
Proof. exact (zset_delete_represents st zset m znode z). Qed.

Lemma zset_delete_removes_member_witness :
  exists st' zset',
    zset_delete (fst (fst ZSInv.two_inserts)) (snd (fst ZSInv.two_inserts)) 80
    = Ok (st', zset')
    /\ represents st' zset'
         (delete (lit "a")
            (insert_score (insert_score ∅ (lit "a") (double_of_Z 1))
               (lit "b") (double_of_Z 2)))
    /\ root zset' = 0
    /\ heap st' = delete 80 (heap (fst (fst ZSInv.two_inserts))).
Proof.
  destruct (zset_insert_represents Store_init ZSet_init ∅ (lit "a") (double_of_Z 1)
              zs_represents_init)
    as (st1 & zset1 & H1 & Hrep1 & _); [vm_compute; discriminate|].
  assert (E1 : ZSInv.one_member = (st1, zset1, true)).
  { unfold ZSInv.one_member. rewrite H1. reflexivity. }
  assert (Hb1 : brk st1 + sizeof_ZNode <= 2 ^ 64).
  { replace st1 with (fst (fst ZSInv.one_member)) by (rewrite E1; reflexivity).
    vm_compute. discriminate. }
  destruct (zset_insert_represents st1 zset1 _ (lit "b") (double_of_Z 2) Hrep1 Hb1)
    as (st2 & zset2 & H2 & Hrep2 & _).
  assert (E2 : ZSInv.two_inserts = (st2, zset2, true)).
  { unfold ZSInv.two_inserts. rewrite E1. cbn [fst snd]. rewrite H2. reflexivity. }
  rewrite E2. cbn [fst snd].
  assert (Hz : heap st2 !! 80
               = Some (mkZNode (str_hash (lit "a")) alone (double_of_Z 1) (lit "a") 1)).
  { replace st2 with (fst (fst ZSInv.two_inserts)) by (rewrite E2; reflexivity).
    vm_compute. reflexivity. }
  exact (zset_delete_removes_member st2 zset2 _ 80 _ Hrep2 Hz).
Defined.

(** X25. [zset_clear] frees at most one node.  On a set whose root is null
    or the tree node of one of its nodes (what [zset_insert] and
    [zset_delete] leave), it returns with the hash map emptied and the root
    null; the loop runs once at most, because the first deletion leaves the
    root null: the node under the root is freed, every other node of the set
    stays allocated, and with a null root no node is freed at all. *)
Theorem zset_clear_frees_at_most_the_root
    (st : Store) (zset : ZSet) (m : gmap bytes double) :
  represents st zset m -> root_ok st zset ->
  exists st' zset',
    zset_clear st zset = Ok (st', zset')
    /\ zset' = mkZSet HT.HMap_zero 0
    /\ brk st' = brk st
    /\ (root zset = 0 -> heap st' = heap st)
    /\ (forall p, is_Some (heap st !! p) -> root zset = anode_of p ->
          heap st' = delete p (heap st)).
Proof. exact (zset_clear_frees_root_only st zset m). Qed.

Lemma zset_clear_frees_at_most_the_root_witness :
  exists st' zset',
    zset_clear (fst (fst ZSInv.two_inserts)) (snd (fst ZSInv.two_inserts))
    = Ok (st', zset')
    /\ zset' = mkZSet HT.HMap_zero 0
    /\ brk st' = brk (fst (fst ZSInv.two_inserts))
    /\ (root (snd (fst ZSInv.two_inserts)) = 0
        -> heap st' = heap (fst (fst ZSInv.two_inserts)))
    /\ (forall p, is_Some (heap (fst (fst ZSInv.two_inserts)) !! p) ->
          root (snd (fst ZSInv.two_inserts)) = anode_of p ->
          heap st' = delete p (heap (fst (fst ZSInv.two_inserts)))).
Proof.
  destruct (zset_insert_represents Store_init ZSet_init ∅ (lit "a") (double_of_Z 1)
              zs_represents_init)
    as (st1 & zset1 & H1 & Hrep1 & Hroot1 & _); [vm_compute; discriminate|].
  assert (E1 : ZSInv.one_member = (st1, zset1, true)).
  { unfold ZSInv.one_member. rewrite H1. reflexivity. }
  assert (Hb1 : brk st1 + sizeof_ZNode <= 2 ^ 64).
  { replace st1 with (fst (fst ZSInv.one_member)) by (rewrite E1; reflexivity).
    vm_compute. discriminate. }
  destruct (zset_insert_represents st1 zset1 _ (lit "b") (double_of_Z 2) Hrep1 Hb1)
    as (st2 & zset2 & H2 & Hrep2 & Hroot2 & _).
  assert (E2 : ZSInv.two_inserts = (st2, zset2, true)).
  { unfold ZSInv.two_inserts. rewrite E1. cbn [fst snd]. rewrite H2. reflexivity. }
  rewrite E2. cbn [fst snd].
  apply (zset_clear_frees_at_most_the_root st2 zset2 _ Hrep2).
  apply Hroot2, Hroot1. left. reflexivity.
Defined.

End ZSetMapTheorems.

(** ** The dispatcher over the hash map against the dispatcher over [std::map] *)

Lemma do_request_matches_basic g m cmd :
  ServerInv.represents g m ->
  (forall s, s ∈ cmd -> blen s <= Server.k_max_msg) ->
  exists g',
    Server.do_request g cmd Server.Response_new
    = Ok (g', Equiv.response_of_basic
                (snd (BasicKV.do_request m cmd BasicKV.Response_new)))
    /\ ServerInv.represents g' (fst (BasicKV.do_request m cmd BasicKV.Response_new)).
Proof.
  intros Hrep Hfit.
  assert (Hop : forall o, cmd = KV.cmd_of o ->
            exists g',
              Server.do_request g cmd Server.Response_new
              = Ok (g', Equiv.response_of_basic
                          (snd (BasicKV.do_request m cmd BasicKV.Response_new)))
              /\ ServerInv.represents g' (fst (BasicKV.do_request m cmd BasicKV.Response_new))).
  { intros o ->.
    assert (Hf : KV.fits o).
    { destruct o as [k v|k|k]; cbn; try exact I. apply Hfit. cbn. right. right. left. }
    destruct (do_request_represents g m o Hrep Hf) as (g' & Hreq & Hrep').
    exists g'. rewrite Hreq, basic_do_request_cmd. cbn [fst snd]. split; [|exact Hrep'].
    destruct o as [k v|k|k]; try reflexivity.
    destruct (m !! k); reflexivity. }
  destruct (bool_decide (length cmd = 2%nat) && bool_decide (nth 0 cmd [] = lit "get"))
    eqn:Hget.
  { apply andb_prop in Hget as [Hlen Hc]. apply bool_decide_eq_true in Hlen, Hc.
    destruct cmd as [|c0 [|k [|? ?]]]; try discriminate. cbn in Hc. subst c0.
    apply (Hop (KV.Get k)). reflexivity. }
  destruct (bool_decide (length cmd = 3%nat) && bool_decide (nth 0 cmd [] = lit "set"))
    eqn:Hset.
  { apply andb_prop in Hset as [Hlen Hc]. apply bool_decide_eq_true in Hlen, Hc.
    destruct cmd as [|c0 [|k [|v [|? ?]]]]; try discriminate. cbn in Hc. subst c0.
    apply (Hop (KV.Set_ k v)). reflexivity. }
  destruct (bool_decide (length cmd = 2%nat) && bool_decide (nth 0 cmd [] = lit "del"))
    eqn:Hdel.
  { apply andb_prop in Hdel as [Hlen Hc]. apply bool_decide_eq_true in Hlen, Hc.
    destruct cmd as [|c0 [|k [|? ?]]]; try discriminate. cbn in Hc. subst c0.
    apply (Hop (KV.Del k)). reflexivity. }
  exists g. unfold Server.do_request, BasicKV.do_request. rewrite Hget, Hset, Hdel.
  split; [reflexivity|exact Hrep].
Qed.

Lemma dispatch_all_matches_basic cmds : forall g m,
  ServerInv.represents g m ->
  Forall (fun cmd => forall s, s ∈ cmd -> blen s <= Server.k_max_msg) cmds ->
  exists g',
    Pipeline.dispatch_all g cmds
    = Ok (g', map Equiv.response_of_basic (snd (Equiv.basic_dispatch_all m cmds)))
    /\ ServerInv.represents g' (fst (Equiv.basic_dispatch_all m cmds)).
Proof.
  induction cmds as [|cmd cmds IH]; intros g m Hrep Hfit.
  - exists g. split; [reflexivity|exact Hrep].
  - inversion Hfit as [|? ? Hc Hfit']; subst.
    destruct (do_request_matches_basic g m cmd Hrep Hc) as (g1 & Hreq & Hrep1).
    cbn [Pipeline.dispatch_all Equiv.basic_dispatch_all]. rewrite Hreq. cbn [mbind res_bind].
    destruct (BasicKV.do_request m cmd BasicKV.Response_new) as [m1 r1]. cbn [fst snd] in *.
    destruct (IH g1 m1 Hrep1 Hfit') as (g2 & Hrest & Hrep2).
    rewrite Hrest. cbn [mbind res_bind].
    destruct (Equiv.basic_dispatch_all m1 cmds) as [m2 rs]. cbn [fst snd] in *.
    exists g2. split; [reflexivity|exact Hrep2].
Qed.

(** X26. The two programs answer alike.  Run over the same commands (any
    argument vectors, recognized or not, whose strings are at most
    [k_max_msg] bytes, as the framer delivers them), the dispatcher of
    [CustomHashtable/main.cpp] returns, command by command, the response of
    the dispatcher of the basic store with the status renumbered (missing key
    1 to 2, error 2 to 1), and its hash map holds the key-value pairs that
    the [std::map] holds. *)
Theorem dispatchers_answer_alike (cmds : list (list bytes)) :
  Forall (fun cmd => forall s, s ∈ cmd -> blen s <= Server.k_max_msg) cmds ->
  exists g',
    Pipeline.dispatch_all Server.Global_init cmds
    = Ok (g', map Equiv.response_of_basic (snd (Equiv.basic_dispatch_all ∅ cmds)))
    /\ ServerInv.represents g' (fst (Equiv.basic_dispatch_all ∅ cmds)).
Proof.
  intros Hfit. exact (dispatch_all_matches_basic cmds _ _ represents_init Hfit).
Qed.

Lemma dispatchers_answer_alike_witness :
  exists g',
    Pipeline.dispatch_all Server.Global_init
      [[lit "set"; lit "k"; lit "v"]; [lit "GET"; lit "k"]; [lit "get"; lit "k"];
       [lit "del"; lit "k"]; [lit "get"; lit "k"]]
    = Ok (g', [Wire.mkResponse 0 []; Wire.mkResponse 1 []; Wire.mkResponse 0 (lit "v");
               Wire.mkResponse 0 []; Wire.mkResponse 2 []])
    /\ ServerInv.represents g' ∅.
Proof.
  destruct (dispatchers_answer_alike
              [[lit "set"; lit "k"; lit "v"]; [lit "GET"; lit "k"]; [lit "get"; lit "k"];
               [lit "del"; lit "k"]; [lit "get"; lit "k"]])
    as (g' & Hd & Hrep).
  { repeat constructor; intros s Hs;
      repeat (apply elem_of_cons in Hs as [->|Hs]; [vm_compute; discriminate|]);
      inversion Hs. }
  exists g'. split.
  - rewrite Hd. f_equal.
  - assert (E : fst (Equiv.basic_dispatch_all ∅
                       [[lit "set"; lit "k"; lit "v"]; [lit "GET"; lit "k"];
                        [lit "get"; lit "k"]; [lit "del"; lit "k"]; [lit "get"; lit "k"]])
                = ∅) by (vm_compute; reflexivity).
    rewrite <- E. exact Hrep.
Defined.

(** ** The thread pool *)

Section ThreadPoolFacts.

Import TP.

Lemma omap_cons_eq {A B} (g : A -> option B) (a : A) (l : list A) :
  omap g (a :: l) = match g a with Some b => b :: omap g l | None => omap g l end.
Proof. reflexivity. Qed.

Lemma omap_insert_same {A B} (g : A -> option B) (l : list A) (i : nat) (x y : A) :
  l !! i = Some x -> g x = g y -> omap g (<[i := y]> l) = omap g l.
Proof.
  revert i. induction l as [|a l IH]; intros [|i] Hi Hg; try discriminate.
  - injection Hi as ->. change (<[0%nat := y]> (x :: l)) with (y :: l).
    rewrite !omap_cons_eq, Hg. reflexivity.
  - change (<[S i := y]> (a :: l)) with (a :: <[i := y]> l).
    rewrite !omap_cons_eq, (IH i Hi Hg). reflexivity.
Qed.

Lemma omap_insert_add {A B} (g : A -> option B) (l : list A) (i : nat) (x y : A) (w : B) :
  l !! i = Some x -> g x = None -> g y = Some w ->
  omap g (<[i := y]> l) ≡ₚ w :: omap g l.
Proof.
  revert i. induction l as [|a l IH]; intros [|i] Hi Hx Hy; try discriminate.
  - injection Hi as ->. change (<[0%nat := y]> (x :: l)) with (y :: l).
    rewrite !omap_cons_eq, Hx, Hy. reflexivity.
  - change (<[S i := y]> (a :: l)) with (a :: <[i := y]> l).
    rewrite !omap_cons_eq. destruct (g a).
    + rewrite (IH i Hi Hx Hy). apply Permutation_swap.
    + apply (IH i Hi Hx Hy).
Qed.

Lemma omap_insert_del {A B} (g : A -> option B) (l : list A) (i : nat) (x y : A) (w : B) :
  l !! i = Some x -> g x = Some w -> g y = None ->
  w :: omap g (<[i := y]> l) ≡ₚ omap g l.
Proof.
  revert i. induction l as [|a l IH]; intros [|i] Hi Hx Hy; try discriminate.
  - injection Hi as ->. change (<[0%nat := y]> (x :: l)) with (y :: l).
    rewrite !omap_cons_eq, Hx, Hy. reflexivity.
  - change (<[S i := y]> (a :: l)) with (a :: <[i := y]> l).
    rewrite !omap_cons_eq. destruct (g a) as [b|].
    + rewrite Permutation_swap. rewrite (IH i Hi Hx Hy). reflexivity.
    + apply (IH i Hi Hx Hy).
Qed.

Lemma existsb_is_blocked_false (l : list wpc) (i : nat) (pc : wpc) :
  existsb is_blocked l = false -> l !! i = Some pc -> is_blocked pc = false.
Proof.
  revert i. induction l as [|a l IH]; intros [|i] He Hi; try discriminate;
    cbn in He, Hi; apply orb_false_elim in He as [Ha Hl].
  - congruence.
  - eauto.
Qed.

Lemma pushes_app tr e : pushes (tr ++ e) = pushes tr ++ pushes e.
Proof. apply omap_app. Qed.

Lemma pops_app tr e : pops (tr ++ e) = pops tr ++ pops e.
Proof. apply omap_app. Qed.

Lemma calls_app tr e : calls (tr ++ e) = calls tr ++ calls e.
Proof. apply omap_app. Qed.

(** The mutex after a statement of a worker, and of a caller. *)
Lemma cs_worker_update tp i pc pc' q m :
  (forall t, in_critical_section tp t -> mu tp = Some t) ->
  threads tp !! i = Some pc ->
  (w_holds pc' = true -> m = Some (Worker i)) ->
  (m = mu tp \/ mu tp = None \/ w_holds pc = true) ->
  forall t, in_critical_section (mkTP (<[i := pc']> (threads tp)) q m (callers tp)) t ->
            m = Some t.
Proof.
  intros Hmu Hpc Hin Hm [j|c] (pc'' & Hl & Hh); cbn [threads callers] in Hl.
  - apply list_lookup_insert_Some in Hl as [(<- & <- & _)|(Hne & Hl)]; [auto|].
    assert (Hj : mu tp = Some (Worker j)) by (apply Hmu; exists pc''; auto).
    destruct Hm as [->|[Hm|Hm]]; [exact Hj|congruence|].
    assert (Hi : mu tp = Some (Worker i)) by (apply Hmu; exists pc; auto).
    congruence.
  - assert (Hj : mu tp = Some (Caller c)) by (apply Hmu; exists pc''; auto).
    destruct Hm as [->|[Hm|Hm]]; [exact Hj|congruence|].
    assert (Hi : mu tp = Some (Worker i)) by (apply Hmu; exists pc; auto).
    congruence.
Qed.

Lemma cs_caller_update tp c pc pc' q m :
  (forall t, in_critical_section tp t -> mu tp = Some t) ->
  callers tp !! c = Some pc ->
  (c_holds pc' = true -> m = Some (Caller c)) ->
  (m = mu tp \/ mu tp = None \/ c_holds pc = true) ->
  forall t, in_critical_section (mkTP (threads tp) q m (<[c := pc']> (callers tp))) t ->
            m = Some t.
Proof.
  intros Hmu Hpc Hin Hm [j|d] (pc'' & Hl & Hh); cbn [threads callers] in Hl.
  - assert (Hj : mu tp = Some (Worker j)) by (apply Hmu; exists pc''; auto).
    destruct Hm as [->|[Hm|Hm]]; [exact Hj|congruence|].
    assert (Hi : mu tp = Some (Caller c)) by (apply Hmu; exists pc; auto).
    congruence.
  - apply list_lookup_insert_Some in Hl as [(<- & <- & _)|(Hne & Hl)]; [auto|].
    assert (Hj : mu tp = Some (Caller d)) by (apply Hmu; exists pc''; auto).
    destruct Hm as [->|[Hm|Hm]]; [exact Hj|congruence|].
    assert (Hi : mu tp = Some (Caller c)) by (apply Hmu; exists pc; auto).
    congruence.
Qed.

(** While a thread is between taking and releasing the mutex, no worker is
    at [front] or [pop_front] but that thread. *)
Lemma cs_alone tp t j pc :
  (forall t, in_critical_section tp t -> mu tp = Some t) ->
  in_critical_section tp t -> threads tp !! j = Some pc -> w_holds pc = true ->
  t = Worker j.
Proof.
  intros Hmu Ht Hj Hh.
  assert (H1 : mu tp = Some t) by (apply Hmu; exact Ht).
  assert (H2 : mu tp = Some (Worker j)) by (apply Hmu; exists pc; auto).
  congruence.
Qed.

Lemma insert_not_nil {A} (l : list A) (i : nat) (x : A) : l <> [] -> <[i := x]> l <> [].
Proof.
  intros Hl E. apply (f_equal length) in E. rewrite length_insert in E.
  destruct l; [congruence|discriminate].
Qed.

Lemma insert_awake (l : list wpc) (i : nat) (pc pc' : wpc) :
  l !! i = Some pc -> is_blocked pc' = false ->
  exists j pc2, <[i := pc']> l !! j = Some pc2 /\ is_blocked pc2 = false.
Proof.
  intros Hl Hb. exists i, pc'. split; [|exact Hb].
  apply list_lookup_insert_eq. apply lookup_lt_Some in Hl. exact Hl.
Qed.

(** The workers at [front] and [pop_front] after a statement of worker
    [i] that leaves the queue as it is. *)
Lemma front_worker_update (l : list wpc) (q : list Work) i pc' :
  (forall j, l !! j = Some WFront -> q <> []) ->
  (forall j w, l !! j = Some (WPop w) -> head q = Some w) ->
  (pc' = WFront -> q <> []) ->
  (forall w, pc' = WPop w -> head q = Some w) ->
  (forall j, <[i := pc']> l !! j = Some WFront -> q <> [])
  /\ (forall j w, <[i := pc']> l !! j = Some (WPop w) -> head q = Some w).
Proof.
  intros Hf Hp Hf' Hp'. split.
  - intros j Hj. apply list_lookup_insert_Some in Hj as [(_ & E & _)|(_ & Hj)]; eauto.
  - intros j w Hj. apply list_lookup_insert_Some in Hj as [(_ & E & _)|(_ & Hj)]; eauto.
Qed.

Lemma step_worker_inv tp tr i tp' e :
  tp_inv tp tr -> step_worker tp i = Next (tp', e) -> tp_inv tp' (tr ++ e).
Proof.
  intros (Hmu & Hfront & Hpop & Hfifo & Hcall & Hwake & Hne) Hstep.
  unfold step_worker in Hstep.
  destruct (threads tp !! i) as [pc|] eqn:Hpc; [|discriminate].
  pose proof (fun pc' => insert_not_nil (threads tp) i pc' Hne) as Hne'.
  pose proof (fun pc' => insert_awake (threads tp) i pc pc' Hpc) as Haw.
  pose proof (fun pc' => front_worker_update (threads tp) (queue tp) i pc' Hfront Hpop)
    as Hfr.
  destruct pc as [| | | | |w|w|w].
  - (* WLock *)
    destruct (mu tp) eqn:Hm; [discriminate|]. rewrite <- Hm in Hmu.
    injection Hstep as <- <-.
    rewrite app_nil_r. unfold tp_inv. cbn [threads queue mu callers].
    destruct (Hfr WTest) as [Hf1 Hp1]; try discriminate.
    split_and!; try assumption; try apply Hne'.
    + apply (cs_worker_update tp i WLock); auto.
    + unfold held. cbn [threads]. rewrite (omap_insert_same _ _ _ WLock); auto.
    + intros _. left. apply Haw. reflexivity.
  - (* WTest *)
    destruct (queue tp) as [|x rest] eqn:Hq; injection Hstep as <- <-;
      rewrite app_nil_r; unfold tp_inv; cbn [threads queue mu callers].
    + destruct (Hfr WBlocked) as [Hf1 Hp1]; try discriminate.
      split_and!; try assumption; try apply Hne'.
      * apply (cs_worker_update tp i WTest); auto. discriminate.
      * unfold held. cbn [threads]. rewrite (omap_insert_same _ _ _ WTest); auto.
      * intros E. congruence.
    + destruct (Hfr WFront) as [Hf1 Hp1]; try discriminate.
      split_and!; try assumption; try apply Hne'.
      * apply (cs_worker_update tp i WTest); auto.
        intros _. apply Hmu. exists WTest. auto.
      * unfold held. cbn [threads]. rewrite (omap_insert_same _ _ _ WTest); auto.
      * intros _. left. apply Haw. reflexivity.
  - (* WBlocked *)
    discriminate.
  - (* WWoken *)
    destruct (mu tp) eqn:Hm; [discriminate|]. rewrite <- Hm in Hmu.
    injection Hstep as <- <-.
    rewrite app_nil_r. unfold tp_inv. cbn [threads queue mu callers].
    destruct (Hfr WTest) as [Hf1 Hp1]; try discriminate.
    split_and!; try assumption; try apply Hne'.
    + apply (cs_worker_update tp i WWoken); auto.
    + unfold held. cbn [threads]. rewrite (omap_insert_same _ _ _ WWoken); auto.
    + intros _. left. apply Haw. reflexivity.
  - (* WFront *)
    destruct (queue tp) as [|x rest] eqn:Hq; [discriminate|]. injection Hstep as <- <-.
    rewrite app_nil_r. unfold tp_inv. cbn [threads queue mu callers].
    destruct (Hfr (WPop x)) as [Hf1 Hp1]; try discriminate.
    { intros w E. injection E as <-. reflexivity. }
    split_and!; try assumption; try apply Hne'.
    + apply (cs_worker_update tp i WFront); auto.
      intros _. apply Hmu. exists WFront. auto.
    + unfold held. cbn [threads]. rewrite (omap_insert_same _ _ _ WFront); auto.
    + intros _. left. apply Haw. reflexivity.
  - (* WPop *)
    destruct (queue tp) as [|x rest] eqn:Hq; [discriminate|]. injection Hstep as <- <-.
    unfold tp_inv. cbn [threads queue mu callers].
    assert (Hx : x = w).
    { specialize (Hpop i w Hpc). cbn in Hpop. congruence. }
    subst x.
    assert (Hin : in_critical_section tp (Worker i)) by (exists (WPop w); auto).
    split_and!; try apply Hne'.
    + apply (cs_worker_update tp i (WPop w)); auto.
    + intros j Hj. exfalso.
      apply list_lookup_insert_Some in Hj as [(_ & E & _)|(Hji & Hj)]; [discriminate|].
      pose proof (cs_alone tp _ j WFront Hmu Hin Hj eq_refl). congruence.
    + intros j w' Hj. exfalso.
      apply list_lookup_insert_Some in Hj as [(_ & E & _)|(Hji & Hj)]; [discriminate|].
      pose proof (cs_alone tp _ j (WPop w') Hmu Hin Hj eq_refl). congruence.
    + rewrite pops_app, pushes_app. cbn. rewrite app_nil_r, <- app_assoc. exact Hfifo.
    + rewrite calls_app, pops_app. cbn. rewrite app_nil_r. unfold held. cbn [threads].
      rewrite (omap_insert_add held_of _ _ (WPop w) (WUnlock w) w); auto.
      rewrite <- Permutation_middle, Permutation_cons_append.
      apply Permutation_app_tail. exact Hcall.
    + intros _. left. apply Haw. reflexivity.
  - (* WUnlock *)
    injection Hstep as <- <-.
    rewrite app_nil_r. unfold tp_inv. cbn [threads queue mu callers].
    destruct (Hfr (WCall w)) as [Hf1 Hp1]; try discriminate.
    split_and!; try assumption; try apply Hne'.
    + apply (cs_worker_update tp i (WUnlock w)); auto. discriminate.
    + unfold held. cbn [threads]. rewrite (omap_insert_same _ _ _ (WUnlock w)); auto.
    + intros _. left. apply Haw. reflexivity.
  - (* WCall *)
    injection Hstep as <- <-.
    unfold tp_inv. cbn [threads queue mu callers].
    destruct (Hfr WLock) as [Hf1 Hp1]; try discriminate.
    split_and!; try assumption; try apply Hne'.
    + apply (cs_worker_update tp i (WCall w)); auto. discriminate.
    + rewrite pops_app, pushes_app. cbn. rewrite !app_nil_r. exact Hfifo.
    + rewrite calls_app, pops_app. cbn. rewrite app_nil_r. unfold held. cbn [threads].
      rewrite <- app_assoc. cbn.
      rewrite (omap_insert_del held_of _ _ (WCall w) WLock w); auto.
    + intros _. left. apply Haw. reflexivity.
Qed.

Lemma pending_caller_update (l : list cpc) (c : nat) (pc0 pc' : cpc) :
  l !! c = Some pc0 -> (pending pc0 = true -> pending pc' = true) ->
  (exists d pc, l !! d = Some pc /\ pending pc = true) ->
  exists d pc, <[c := pc']> l !! d = Some pc /\ pending pc = true.
Proof.
  intros Hc Hp (d & pc & Hd & Hpd). destruct (decide (c = d)) as [<-|Hne].
  - exists c, pc'. split.
    + apply list_lookup_insert_eq. apply lookup_lt_Some in Hc. exact Hc.
    + apply Hp. congruence.
  - exists d, pc. split; [|exact Hpd]. rewrite list_lookup_insert_ne by exact Hne. exact Hd.
Qed.

Lemma step_caller_inv tp tr c tp' e :
  tp_inv tp tr -> step_caller tp c = Next (tp', e) -> tp_inv tp' (tr ++ e).
Proof.
  intros (Hmu & Hfront & Hpop & Hfifo & Hcall & Hwake & Hne) Hstep.
  unfold step_caller in Hstep.
  destruct (callers tp !! c) as [pc|] eqn:Hpc; [|discriminate].
  pose proof (fun pc' Hp => pending_caller_update (callers tp) c pc pc' Hpc Hp) as Hpe.
  destruct pc as [w|w| | |].
  - (* CLock *)
    destruct (mu tp) eqn:Hm; [discriminate|]. rewrite <- Hm in Hmu.
    injection Hstep as <- <-.
    rewrite app_nil_r. unfold tp_inv. cbn [threads queue mu callers].
    split_and!; try assumption.
    + apply (cs_caller_update tp c (CLock w)); auto.
    + intros Hq. destruct (Hwake Hq) as [Hl|Hr]; [left; exact Hl|right].
      apply Hpe; [discriminate|exact Hr].
  - (* CPush *)
    injection Hstep as <- <-.
    unfold tp_inv. cbn [threads queue mu callers].
    split_and!; try assumption.
    + apply (cs_caller_update tp c (CPush w)); auto.
      intros _. apply Hmu. exists (CPush w). auto.
    + intros j _ E. apply app_eq_nil in E as [_ E]. discriminate.
    + intros j w0 Hj. specialize (Hpop j w0 Hj).
      destruct (queue tp); [discriminate|exact Hpop].
    + rewrite pops_app, pushes_app. cbn. rewrite app_nil_r, app_assoc, Hfifo. reflexivity.
    + rewrite calls_app, pops_app. cbn. rewrite !app_nil_r. exact Hcall.
    + intros _. right. exists c, CUnlock. split; [|reflexivity].
      apply list_lookup_insert_eq. apply lookup_lt_Some in Hpc. exact Hpc.
  - (* CUnlock *)
    injection Hstep as <- <-.
    rewrite app_nil_r. unfold tp_inv. cbn [threads queue mu callers].
    split_and!; try assumption.
    + apply (cs_caller_update tp c CUnlock); auto. discriminate.
    + intros Hq. destruct (Hwake Hq) as [Hl|Hr]; [left; exact Hl|right].
      apply Hpe; [reflexivity|exact Hr].
  - (* CNotify *)
    destruct (existsb is_blocked (threads tp)) eqn:Hb; [discriminate|].
    injection Hstep as <- <-.
    rewrite app_nil_r. unfold tp_inv. cbn [threads queue mu callers].
    split_and!; try assumption.
    + apply (cs_caller_update tp c CNotify); auto. discriminate.
    + intros _. left. destruct (threads tp) as [|pc l] eqn:Ht; [congruence|].
      exists 0%nat, pc. split; [reflexivity|].
      apply (existsb_is_blocked_false (pc :: l) 0 pc Hb). reflexivity.
  - (* CDone *)
    discriminate.
Qed.

Lemma step_inv tp tr a tp' e :
  tp_inv tp tr -> step tp a = Next (tp', e) -> tp_inv tp' (tr ++ e).
Proof.
  intros Hinv Hstep. destruct a as [[i|c]|c i|i|w]; cbn [step] in Hstep.
  - exact (step_worker_inv tp tr i tp' e Hinv Hstep).
  - exact (step_caller_inv tp tr c tp' e Hinv Hstep).
  - (* Wake *)
    destruct Hinv as (Hmu & Hfront & Hpop & Hfifo & Hcall & Hwake & Hne).
    destruct (callers tp !! c) as [[| | | |]|] eqn:Hc; try discriminate.
    destruct (threads tp !! i) as [[| | | | | | |]|] eqn:Hi; try discriminate.
    injection Hstep as <- <-.
    rewrite app_nil_r. unfold tp_inv. cbn [threads queue mu callers].
    destruct (front_worker_update (threads tp) (queue tp) i WWoken Hfront Hpop)
      as [Hf1 Hp1]; try discriminate.
    split_and!; try assumption.
    + pose proof (cs_worker_update tp i WBlocked WWoken (queue tp) (mu tp) Hmu Hi) as H1.
      apply (cs_caller_update
               (mkTP (<[i := WWoken]> (threads tp)) (queue tp) (mu tp) (callers tp))
               c CNotify CDone); cbn [threads queue mu callers]; auto.
      * apply H1; auto. discriminate.
      * discriminate.
    + unfold held. cbn [threads]. rewrite (omap_insert_same _ _ _ WBlocked); auto.
    + intros _. left. apply (insert_awake _ _ WBlocked); auto.
    + apply insert_not_nil. exact Hne.
  - (* Spurious *)
    destruct Hinv as (Hmu & Hfront & Hpop & Hfifo & Hcall & Hwake & Hne).
    destruct (threads tp !! i) as [[| | | | | | |]|] eqn:Hi; try discriminate.
    injection Hstep as <- <-.
    rewrite app_nil_r. unfold tp_inv. cbn [threads queue mu callers].
    destruct (front_worker_update (threads tp) (queue tp) i WWoken Hfront Hpop)
      as [Hf1 Hp1]; try discriminate.
    split_and!; try assumption.
    + apply (cs_worker_update tp i WBlocked); auto. discriminate.
    + unfold held. cbn [threads]. rewrite (omap_insert_same _ _ _ WBlocked); auto.
    + intros _. left. apply (insert_awake _ _ WBlocked); auto.
    + apply insert_not_nil. exact Hne.
  - (* Queue *)
    destruct Hinv as (Hmu & Hfront & Hpop & Hfifo & Hcall & Hwake & Hne).
    injection Hstep as <- <-.
    rewrite app_nil_r. unfold tp_inv. cbn [threads queue mu callers].
    split_and!; try assumption.
    + intros [j|d] (pc & Hl & Hh); cbn [threads callers] in Hl.
      * apply Hmu. exists pc. auto.
      * apply lookup_app_Some in Hl as [Hl|[_ Hl]].
        -- apply Hmu. exists pc. auto.
        -- apply list_lookup_singleton_Some in Hl as [_ <-]. discriminate.
    + intros Hq. destruct (Hwake Hq) as [Hl|(d & pc & Hd & Hp)]; [left; exact Hl|right].
      exists d, pc. split; [|exact Hp]. apply lookup_app_l_Some. exact Hd.
Qed.

(** The state that [thread_pool_init] leaves satisfies the invariant. *)
Lemma init_inv num_threads tp :
  thread_pool_init ThreadPool_new num_threads = Ok tp -> tp_inv tp [].
Proof.
  unfold thread_pool_init. destruct (0 <? num_threads) eqn:Hn; [|discriminate].
  intros H. injection H as <-. apply Z.ltb_lt in Hn.
  cbn [threads queue mu callers ThreadPool_new app].
  assert (Hl : forall j pc, replicate (Z.to_nat num_threads) WLock !! j = Some pc -> pc = WLock).
  { intros j pc Hj. apply lookup_replicate in Hj as [-> _]. reflexivity. }
  unfold tp_inv. cbn [threads queue mu callers]. split_and!.
  - intros [j|d] (pc & Hj & Hh).
    + apply Hl in Hj. subst pc. discriminate.
    + discriminate.
  - intros j Hj. apply Hl in Hj. discriminate.
  - intros j w Hj. apply Hl in Hj. discriminate.
  - reflexivity.
  - unfold held. cbn [threads].
    assert (E : forall n, omap held_of (replicate n WLock) = []).
    { induction n as [|n IH]; [reflexivity|]. cbn [replicate]. rewrite omap_cons_eq. exact IH. }
    rewrite E. reflexivity.
  - intros H. congruence.
  - destruct (Z.to_nat num_threads) eqn:E; [lia|]. discriminate.
Qed.

Lemma run_inv acts : forall tp tr,
  tp_inv tp tr ->
  run tp acts <> Undefined
  /\ forall tp' tr', run tp acts = Next (tp', tr') -> tp_inv tp' (tr ++ tr').
Proof.
  induction acts as [|a acts IH]; intros tp tr Hinv; cbn [run].
  - split; [discriminate|]. intros tp' tr' H. injection H as <- <-.
    rewrite app_nil_r. exact Hinv.
  - destruct (step tp a) as [[tp1 e]| |] eqn:Hs.
    + destruct (IH tp1 (tr ++ e) (step_inv tp tr a tp1 e Hinv Hs)) as [Hu Hn].
      destruct (run tp1 acts) as [[tp2 tr2]| |] eqn:Hr.
      * split; [discriminate|]. intros tp' tr' H. injection H as <- <-.
        rewrite app_assoc. apply Hn. reflexivity.
      * split; discriminate.
      * congruence.
    + split; discriminate.
    + exfalso. destruct Hinv as (Hmu & Hfront & Hpop & _).
      destruct a as [[i|c]|c i|i|w]; cbn [step] in Hs.
      * unfold step_worker in Hs.
        destruct (threads tp !! i) as [[| | | | |w|w|w]|] eqn:Hi; try discriminate.
        -- destruct (mu tp); discriminate.
        -- destruct (queue tp); discriminate.
        -- destruct (mu tp); discriminate.
        -- specialize (Hfront i Hi). destruct (queue tp); [congruence|discriminate].
        -- specialize (Hpop i w Hi). destruct (queue tp); discriminate.
      * unfold step_caller in Hs.
        destruct (callers tp !! c) as [[| | | |]|]; try discriminate.
        -- destruct (mu tp); discriminate.
        -- destruct (existsb is_blocked (threads tp)); discriminate.
      * destruct (callers tp !! c) as [[| | | |]|]; try discriminate;
          destruct (threads tp !! i) as [[| | | | | | |]|]; discriminate.
      * destruct (threads tp !! i) as [[| | | | | | |]|]; discriminate.
      * discriminate.
Qed.

End ThreadPoolFacts.

Section ThreadPoolTheorems.

Import TP.

(** X27. The queue of the thread pool is only touched under the mutex, and
    never read when empty.  Whatever the number of workers (at least one, as
    [thread_pool_init] asserts), the calls of [thread_pool_queue] and the
    interleaving of the threads, no statement is undefined, in particular
    [front] and [pop_front] always find a work in the queue; and at any time
    at most one thread stands between taking the mutex and releasing it. *)
Theorem thread_pool_mutual_exclusion
    (num_threads : Z) (acts : list action) (tp0 : ThreadPool) :
  thread_pool_init ThreadPool_new num_threads = Ok tp0 ->
  run tp0 acts <> Undefined
  /\ forall tp tr, run tp0 acts = Next (tp, tr) ->
       forall t1 t2, in_critical_section tp t1 -> in_critical_section tp t2 -> t1 = t2.
Proof.
  intros Hinit. destruct (run_inv acts tp0 [] (init_inv _ _ Hinit)) as [Hu Hn].
  split; [exact Hu|]. intros tp tr Hrun t1 t2 H1 H2.
  destruct (Hn tp tr Hrun) as (Hmu & _).
  apply Hmu in H1, H2. congruence.
Qed.

Lemma thread_pool_mutual_exclusion_witness :
  run (mkTP [WLock; WLock] [] None []) schedule_one_work <> Undefined
  /\ forall tp tr, run (mkTP [WLock; WLock] [] None []) schedule_one_work = Next (tp, tr) ->
       forall t1 t2, in_critical_section tp t1 -> in_critical_section tp t2 -> t1 = t2.
Proof.
  exact (thread_pool_mutual_exclusion 2 schedule_one_work _ eq_refl).
Defined.

(** X28. Works are taken in the order they were queued, and each is called
    once.  After any run, the works taken off the queue so far, followed by
    the works still in the queue, are the works pushed so far, in that order:
    none is lost, none is taken twice, none overtakes another.  The works
    called so far, with those a worker has taken and not called yet, are
    the works taken. *)
Theorem thread_pool_takes_work_in_queue_order
    (num_threads : Z) (acts : list action) (tp0 tp : ThreadPool) (tr : list event) :
  thread_pool_init ThreadPool_new num_threads = Ok tp0 ->
  run tp0 acts = Next (tp, tr) ->
  pops tr ++ queue tp = pushes tr
  /\ calls tr ++ held tp ≡ₚ pops tr.
Proof.
  intros Hinit Hrun. destruct (run_inv acts tp0 [] (init_inv _ _ Hinit)) as [_ Hn].
  destruct (Hn tp tr Hrun) as (_ & _ & _ & Hfifo & Hcall & _).
  split; assumption.
Qed.

Lemma thread_pool_takes_work_in_queue_order_witness :
  exists tp tr,
    run (mkTP [WLock; WLock] [] None []) schedule_one_work = Next (tp, tr)
    /\ tr = [Push (mkWork 1 2); Pop (mkWork 1 2); Call (mkWork 1 2)]
    /\ pops tr ++ queue tp = pushes tr
    /\ calls tr ++ held tp ≡ₚ pops tr.
Proof.
  eexists _, _. split; [vm_compute; reflexivity|]. split; [reflexivity|].
  apply (thread_pool_takes_work_in_queue_order 2 schedule_one_work
           (mkTP [WLock; WLock] [] None [])).
  - reflexivity.
  - vm_compute. reflexivity.
Defined.

(** X29. No wake-up is lost.  Whenever the queue holds a work, some worker
    is not blocked in [wait], or some call of [thread_pool_queue] has pushed
    and has its [notify_one] still to run: the pool is never left with work
    queued, every worker asleep and no notification to come. *)
Theorem thread_pool_no_lost_wakeup
    (num_threads : Z) (acts : list action) (tp0 tp : ThreadPool) (tr : list event) :
  thread_pool_init ThreadPool_new num_threads = Ok tp0 ->
  run tp0 acts = Next (tp, tr) ->
  queue tp <> [] ->
  (exists i pc, threads tp !! i = Some pc /\ is_blocked pc = false)
  \/ (exists c pc, callers tp !! c = Some pc /\ pending pc = true).
Proof.
  intros Hinit Hrun Hq. destruct (run_inv acts tp0 [] (init_inv _ _ Hinit)) as [_ Hn].
  destruct (Hn tp tr Hrun) as (_ & _ & _ & _ & _ & Hwake & _).
  exact (Hwake Hq).
Qed.

Lemma thread_pool_no_lost_wakeup_witness :
  (exists i pc, [WBlocked] !! i = Some pc /\ is_blocked pc = false)
  \/ (exists c pc, [CNotify] !! c = Some pc /\ pending pc = true).
Proof.
  apply (thread_pool_no_lost_wakeup 1 schedule_push_while_asleep
           (mkTP [WLock] [] None [])
           (mkTP [WBlocked] [mkWork 1 2] None [CNotify]) [Push (mkWork 1 2)]).
  - reflexivity.
  - vm_compute. reflexivity.
  - discriminate.
Defined.

End ThreadPoolTheorems.

(** ** Pipelined requests on a connection of the event loop *)

Lemma response_frame_bytes g cmd g' resp :
  Server.do_request g cmd Server.Response_new = Ok (g', resp) ->
  Pipeline.response_frame resp = Pipeline.response_bytes resp.
Proof.
  intros H. destruct (do_request_response _ _ _ _ H) as (_ & _ & Hl).
  unfold Pipeline.response_frame, Pipeline.response_bytes, Wire.make_response.
  rewrite app_nil_l.
  pose proof (blen_nonneg (Wire.data resp)). rewrite k_max_msg_val in Hl.
  unfold wrap32. rewrite (Z.mod_small (blen _)) by lia.
  rewrite Z.mod_small by lia. reflexivity.
Qed.

Lemma dispatch_all_response_bytes cmds : forall g g' resps,
  Pipeline.dispatch_all g cmds = Ok (g', resps) ->
  concat (map Pipeline.response_frame resps)
  = concat (map Pipeline.response_bytes resps).
Proof.
  induction cmds as [|c cs IH]; intros g g' resps.
  - cbn. intros [= <- <-]. reflexivity.
  - cbn [Pipeline.dispatch_all].
    destruct (Server.do_request g c Server.Response_new) as [[g1 r]| |] eqn:Hr;
      cbn [mbind res_bind]; try discriminate.
    destruct (Pipeline.dispatch_all g1 cs) as [[g2 rs]| |] eqn:Hd;
      cbn [mbind res_bind]; try discriminate.
    intros [= <- <-]. cbn [map concat].
    rewrite (response_frame_bytes _ _ _ _ Hr), (IH _ _ _ Hd). reflexivity.
Qed.

(** One turn of the loop on a connection that holds an incomplete rest,
    while the rest and the bytes in the socket make up the frames of
    [cmds]. *)
Lemma serve_frames g m conn socket t cmds g' resps :
  ServerInv.represents g m -> EventLoop.conn_inv conn ->
  Server.want_close conn = false -> Pipeline.turn_ok t ->
  Forall Pipeline.well_formed cmds ->
  Pipeline.incomplete (Server.incoming conn) ->
  Server.incoming conn ++ socket = concat (map Pipeline.request_frame cmds) ->
  Pipeline.dispatch_all g cmds = Ok (g', resps) ->
  exists done todo m1 g1 resps1 resps2 conn1 socket1 sent,
    cmds = done ++ todo
    /\ Pipeline.serve g conn socket t = Ok (g1, conn1, socket1, sent, false)
    /\ Server.incoming conn1 ++ socket1 = concat (map Pipeline.request_frame todo)
    /\ Pipeline.incomplete (Server.incoming conn1)
    /\ Pipeline.dispatch_all g done = Ok (g1, resps1)
    /\ Pipeline.dispatch_all g1 todo = Ok (g', resps2)
    /\ ServerInv.represents g1 m1 /\ EventLoop.conn_inv conn1
    /\ Server.want_close conn1 = false
    /\ sent ++ Server.outgoing conn1
       = Server.outgoing conn ++ concat (map Pipeline.response_frame resps1).
Proof.
  intros Hrep Hinv Hclose [Hw1 Hw2] Hwf Hinc E Hd.
  pose proof Hinv as [Hflags Hout].
  unfold Pipeline.serve.
  set (n := Z.to_nat (Z.min (Pipeline.t_read t) (64 * 1024))).
  destruct (Server.want_read conn) eqn:Hr.
  - (* the connection reads *)
    assert (Hww : Server.want_write conn = false).
    { destruct (Server.want_write conn); [discriminate|reflexivity]. }
    rewrite Hww. cbn [andb orb].
    destruct (bool_decide (take n socket = [])) eqn:Hc; cbn [negb andb orb].
    + (* nothing to read *)
      cbn [mbind res_bind].
      exists [], cmds, m, g, [], resps, conn, socket, [].
      cbn [app map concat]. rewrite app_nil_r.
      split_and!; try assumption; reflexivity.
    + apply bool_decide_eq_false in Hc.
      assert (E' : (Server.incoming conn ++ take n socket) ++ drop n socket
                   = concat (map Pipeline.frame (map Wire.encode_command cmds))).
      { rewrite <- request_frames_map, <- E, <- app_assoc, take_drop. reflexivity. }
      destruct (stream_prefix_split _ _ _ (well_formed_payloads _ Hwf) E')
        as (pd & pt & pre & Hsplit & Ebuf & Erest & Hpre).
      apply map_eq_app in Hsplit as (d & t' & -> & <- & <-).
      rewrite <- !request_frames_map in *.
      apply Forall_app in Hwf as [Hwfd Hwft].
      destruct (dispatch_all_app _ _ _ _ _ Hd) as (g1 & r1 & r2 & Hd1 & Hd2 & ->).
      destruct (handle_read_frames g conn (take n socket) (Pipeline.t_write_after_read t)
                  d pre g1 r1 Hc Hw1 Hwfd Ebuf Hpre Hd1)
        as (conn1 & sent1 & Hhr & Hi1 & Ho1 & Hc1).
      destruct (handle_read_inv g m conn (Server.RBytes (take n socket))
                  (Pipeline.t_write_after_read t) Hrep Hinv)
        as (g1' & m1 & conn1' & sent1' & Hhr' & Hrep1 & Hinv1 & _).
      rewrite Hhr in Hhr'. injection Hhr' as <- <- <-.
      rewrite Hhr. cbn [mbind res_bind]. rewrite app_nil_r.
      assert (Hcl : Server.want_close conn1 = false) by congruence.
      rewrite Hcl.
      exists d, t', m1, g1, r1, r2, conn1, (drop n socket), sent1.
      rewrite Hi1. split_and!; try assumption; reflexivity.
  - (* the connection writes, or waits for nothing *)
    cbn [andb orb]. cbn [mbind res_bind].
    destruct (Server.want_write conn) eqn:Hww; cbn [andb].
    + destruct (Pipeline.t_writable t); cbn [orb andb].
      * destruct (handle_write_inv conn (Pipeline.t_write t) Hinv Hww)
          as (conn1 & sent & Hhw & Hinv1 & _ & Hi1 & Ho1).
        assert (Hne : Server.outgoing conn <> []) by (apply Hout; reflexivity).
        destruct (handle_write_splits conn (Pipeline.t_write t) Hne Hw2)
          as (conn1' & sent' & Hhw' & _ & _ & Hc1).
        rewrite Hhw in Hhw'. injection Hhw' as <- <-.
        rewrite Hhw. cbn [mbind res_bind]. cbn [app].
        assert (Hcl : Server.want_close conn1 = false) by congruence.
        rewrite Hcl.
        exists [], cmds, m, g, [], resps, conn1, socket, sent.
        cbn [app map concat]. rewrite app_nil_r, Hi1.
        split_and!; try assumption; try reflexivity. apply Ho1. exact Hw2.
      * exists [], cmds, m, g, [], resps, conn, socket, [].
        cbn [app map concat]. rewrite app_nil_r.
        split_and!; try assumption; reflexivity.
    + exists [], cmds, m, g, [], resps, conn, socket, [].
      cbn [app map concat]. rewrite app_nil_r.
      split_and!; try assumption; reflexivity.
Qed.

Lemma deliver_stream turns : forall g m conn socket cmds g' resps,
  ServerInv.represents g m -> EventLoop.conn_inv conn ->
  Server.want_close conn = false -> Forall Pipeline.turn_ok turns ->
  Forall Pipeline.well_formed cmds ->
  Pipeline.incomplete (Server.incoming conn) ->
  Server.incoming conn ++ socket = concat (map Pipeline.request_frame cmds) ->
  Pipeline.dispatch_all g cmds = Ok (g', resps) ->
  exists done todo g1 resps1 conn1 socket1 sent,
    cmds = done ++ todo
    /\ Pipeline.deliver g conn socket turns = Ok (g1, conn1, socket1, sent)
    /\ Server.incoming conn1 ++ socket1 = concat (map Pipeline.request_frame todo)
    /\ Pipeline.incomplete (Server.incoming conn1)
    /\ Pipeline.dispatch_all g done = Ok (g1, resps1)
    /\ EventLoop.conn_inv conn1
    /\ Server.want_close conn1 = false
    /\ sent ++ Server.outgoing conn1
       = Server.outgoing conn ++ concat (map Pipeline.response_frame resps1).
Proof.
  induction turns as [|t turns IH];
    intros g m conn socket cmds g' resps Hrep Hinv Hclose Hts Hwf Hinc E Hd.
  - exists [], cmds, g, [], conn, socket, [].
    cbn [app map concat Pipeline.deliver]. rewrite app_nil_r.
    split_and!; try assumption; reflexivity.
  - inversion Hts as [|? ? Ht Hts']; subst.
    destruct (serve_frames g m conn socket t cmds g' resps Hrep Hinv Hclose Ht Hwf Hinc E Hd)
      as (d & t' & m1 & g1 & r1 & r2 & conn1 & socket1 & sent1
          & -> & Hs & E1 & Hinc1 & Hd1 & Hd2 & Hrep1 & Hinv1 & Hcl1 & Ho1).
    apply Forall_app in Hwf as [Hwfd Hwft].
    destruct (IH g1 m1 conn1 socket1 t' g' r2 Hrep1 Hinv1 Hcl1 Hts' Hwft Hinc1 E1 Hd2)
      as (d2 & t2 & g2 & rs2 & conn2 & socket2 & sent2
          & -> & Hdel & E2 & Hinc2 & Hdd & Hinv2 & Hcl2 & Ho2).
    exists (d ++ d2), t2, g2, (r1 ++ rs2), conn2, socket2, (sent1 ++ sent2).
    split_and!; try assumption.
    + rewrite app_assoc. reflexivity.
    + cbn [Pipeline.deliver]. rewrite Hs. cbn [mbind res_bind].
      rewrite Hdel. reflexivity.
    + eapply dispatch_all_compose; eauto.
    + rewrite <- app_assoc, Ho2, app_assoc, Ho1.
      rewrite map_app, concat_app, <- app_assoc. reflexivity.
Qed.

(** C8. Request frames through the event loop, however the byte stream is
    cut.  The frames of [cmds] wait in the socket of a fresh connection; the
    loop serves the connection for any number of turns, [read] returning the
    bytes in any portions and [write] taking the responses in any portions
    (or none), without failing.  Then the loop does not stop on an assertion
    and does not close the connection; the bytes read so far are the frames
    of a front part [done] of the requests and an incomplete rest, which is
    what the input buffer holds; the requests of [done] have been dispatched
    in order, one response each; and the bytes written followed by the bytes
    still queued are the response frames [len | status | data] of these
    responses, in order.  Once [read] has returned the last byte, all the
    requests have been answered. *)
Theorem framer_answers_frames_in_order
    (g : Server.Global) (m : gmap bytes bytes) (conn : Server.Conn)
    (cmds : list (list bytes)) (turns : list Pipeline.turn) :
  ServerInv.represents g m ->
  Forall Pipeline.well_formed cmds ->
  Forall Pipeline.turn_ok turns ->
  Server.incoming conn = [] -> Server.outgoing conn = [] ->
  Server.want_read conn = true -> Server.want_write conn = false ->
  Server.want_close conn = false ->
  exists done todo pre g1 resps conn1 socket sent,
    cmds = done ++ todo
    /\ Pipeline.deliver g conn (concat (map Pipeline.request_frame cmds)) turns
       = Ok (g1, conn1, socket, sent)
    /\ concat (map Pipeline.request_frame cmds)
       = concat (map Pipeline.request_frame done) ++ pre ++ socket
    /\ Pipeline.incomplete pre
    /\ Server.incoming conn1 = pre
    /\ Pipeline.dispatch_all g done = Ok (g1, resps)
    /\ length resps = length done
    /\ sent ++ Server.outgoing conn1 = concat (map Pipeline.response_bytes resps)
    /\ Server.want_close conn1 = false
    /\ (socket = [] -> done = cmds /\ pre = []).
Proof.
  intros Hrep Hwf Hts Hin Hout Hr Hw Hc.
  destruct (dispatch_all_total cmds g m Hrep Hwf) as (g' & resps & Hd).
  assert (Hinv : EventLoop.conn_inv conn).
  { split; [rewrite Hr, Hw; reflexivity|]. rewrite Hw, Hout. split; [discriminate|congruence]. }
  assert (Hinc : Pipeline.incomplete (Server.incoming conn)).
  { rewrite Hin. left. simpl. lia. }
  assert (E : Server.incoming conn ++ concat (map Pipeline.request_frame cmds)
              = concat (map Pipeline.request_frame cmds)).
  { rewrite Hin. reflexivity. }
  destruct (deliver_stream turns g m conn _ cmds g' resps Hrep Hinv Hc Hts Hwf Hinc E Hd)
    as (done & todo & g1 & resps1 & conn1 & socket & sent
        & Hsplit & Hdel & Erest & Hpre & Hdd & _ & Hcl & Ho).
  exists done, todo, (Server.incoming conn1), g1, resps1, conn1, socket, sent.
  split_and!; try assumption; try reflexivity.
  - rewrite Hsplit at 1. rewrite map_app, concat_app, Erest. reflexivity.
  - eapply dispatch_all_length; eauto.
  - rewrite Ho, Hout. cbn [app]. eapply dispatch_all_response_bytes; eauto.
  - intros ->. rewrite app_nil_r in Erest.
    destruct todo as [|c t].
    + rewrite app_nil_r in Hsplit. cbn in Erest. auto.
    + exfalso. subst cmds. apply Forall_app in Hwf as [_ Hwft].
      inversion Hwft as [|? ? [_ Hlen] _]; subst.
      rewrite Erest in Hpre. cbn [map concat] in Hpre.
      unfold Pipeline.request_frame at 1 in Hpre.
      eapply frame_not_incomplete; eauto.
Qed.

Lemma framer_answers_frames_in_order_witness :
  exists g1 conn1,
    Pipeline.deliver Server.Global_init (Server.mkConn 7 true false false [] [])
      (concat (map Pipeline.request_frame
                 [ [lit "set"; lit "a"; lit "1"]; [lit "get"; lit "a"] ]))
      [ Pipeline.mkTurn 3 Server.WAgain false Server.WAgain;
        Pipeline.mkTurn 30 (Server.WBytes 5) false Server.WAgain;
        Pipeline.mkTurn 100 Server.WAgain false Server.WAgain;
        Pipeline.mkTurn 100 Server.WAgain true Server.WAgain;
        Pipeline.mkTurn 0 Server.WAgain true (Server.WBytes 3);
        Pipeline.mkTurn 100 (Server.WBytes 100) true Server.WAgain ]
    = Ok (g1, conn1, [],
          u32_bytes 4 ++ u32_bytes 0
          ++ u32_bytes 5 ++ u32_bytes 0 ++ lit "1")
    /\ Server.incoming conn1 = [] /\ Server.outgoing conn1 = [].
Proof.
  set (cmds := [ [lit "set"; lit "a"; lit "1"]; [lit "get"; lit "a"] ]).
  set (turns := [ Pipeline.mkTurn 3 Server.WAgain false Server.WAgain;
                  Pipeline.mkTurn 30 (Server.WBytes 5) false Server.WAgain;
                  Pipeline.mkTurn 100 Server.WAgain false Server.WAgain;
                  Pipeline.mkTurn 100 Server.WAgain true Server.WAgain;
                  Pipeline.mkTurn 0 Server.WAgain true (Server.WBytes 3);
                  Pipeline.mkTurn 100 (Server.WBytes 100) true Server.WAgain ]).
  set (conn := Server.mkConn 7 true false false [] []).
  assert (Hwf : Forall Pipeline.well_formed cmds).
  { repeat constructor; try (vm_compute; reflexivity); try (vm_compute; discriminate). }
  assert (Hts : Forall Pipeline.turn_ok turns).
  { repeat constructor; discriminate. }
  destruct (framer_answers_frames_in_order Server.Global_init ∅ conn cmds turns
              represents_init Hwf Hts eq_refl eq_refl eq_refl eq_refl eq_refl)
    as (done & todo & pre & g1 & resps & conn1 & socket & sent
        & Hsplit & Hdel & _ & _ & Hi & Hd & _ & Ho & _ & Hall).
  assert (Hsock : socket = [] /\ sent ++ Server.outgoing conn1
                               = u32_bytes 4 ++ u32_bytes 0
                                 ++ u32_bytes 5 ++ u32_bytes 0 ++ lit "1"
                  /\ Server.outgoing conn1 = []).
  { assert (Hrun : (fun r => match r with
                             | Ok (_, c, s, o) =>
                                 s = [] /\ o ++ Server.outgoing c
                                           = u32_bytes 4 ++ u32_bytes 0
                                             ++ u32_bytes 5 ++ u32_bytes 0 ++ lit "1"
                                 /\ Server.outgoing c = []
                             | _ => False
                             end)
                     (Pipeline.deliver Server.Global_init conn
                        (concat (map Pipeline.request_frame cmds)) turns)).
    { vm_compute. repeat split. }
    rewrite Hdel in Hrun. exact Hrun. }
  destruct Hsock as (-> & Hsent & Hout1).
  destruct (Hall eq_refl) as [-> ->].
  exists g1, conn1. rewrite Hdel. rewrite Hout1, app_nil_r in Hsent. rewrite Hsent.
  split_and!; [reflexivity|exact Hi|exact Hout1].
Defined.

(** ** [RedisMain/zset.cpp]: the three cases of [zset_insert] *)

Section ZSetInsert.

Import ZS ZSMap.





End ZSetInsert.
